(** * SCRAM indexed fault trees: a shallow embedding of
      [src/indexed_fault_tree.cc] and the properties of its passes.

    The graph is the C++ class [IndexedFaultTree]: an [unordered_map] from
    gate indices to gates, a few counters and the set of modules.  Every
    method of the class is a computation in a state-and-failure monad over
    that record; recursive methods take fuel.  A gate pointer
    ([IndexedGatePtr]) is modelled by the key under which the gate is
    registered in [indexed_gates_], which is the gate's own index: the
    source registers every gate under [gate->index()]. *)

From stdpp Require Import gmap sorting list.
From Stdlib Require Import ZArith Lia.

Open Scope Z_scope.

(** ** Gates *)

Inductive GateType :=
| kAndGate | kOrGate | kAtleastGate | kXorGate
| kNotGate | kNandGate | kNorGate | kNullGate.

Inductive State := kNormalState | kNullState | kUnityState.

#[global] Instance GateType_eq_dec : EqDecision GateType.
Proof. solve_decision. Defined.

#[global] Instance State_eq_dec : EqDecision State.
Proof. solve_decision. Defined.

(** [std::set<int>] iterates in ascending order. *)
Definition ascending (s : gset Z) : list Z := merge_sort Z.le (elements s).

(** [std::set<std::set<int>>] iterates in the lexicographic order of the
    ascending element sequences ([operator<] of [std::set]). *)
Fixpoint lex_leb (a b : list Z) : bool :=
  match a, b with
  | [], _ => true
  | _ :: _, [] => false
  | x :: a', y :: b' =>
      if x <? y then true else if y <? x then false else lex_leb a' b'
  end.

Definition ascending_sets (ss : gset (gset Z)) : list (gset Z) :=
  merge_sort (λ a b, Is_true (lex_leb (ascending a) (ascending b)))
             (elements ss).

Module Gate.

(** Modelled from the spec: the class [IndexedGate] (indexed_gate.h) is not
    among the sources.  The spec's data model gives a gate a kind, a vote
    number, a set of signed child literals in which a literal and its
    negation may not coexist, a state in NORMAL, NULL-CONSTANT, UNITY (a
    constant gate has no children) and, for module detection, visit times and
    parents.  [visits] holds the enter time, the exit time and the time of
    the last later visit; 0 stands for "not yet". *)
Record IndexedGate := mk {
  type : GateType;
  vote_number : Z;
  children : gset Z;
  state : State;
  visits : Z * Z * Z;
  parents : gset Z
}.

(** Modelled from the spec: [new IndexedGate(index, type)], a normal gate
    without children. *)
Definition create (t : GateType) : IndexedGate :=
  mk t 0 ∅ kNormalState (0, 0, 0) ∅.

Definition set_type (t : GateType) (g : IndexedGate) : IndexedGate :=
  mk t (vote_number g) (children g) (state g) (visits g) (parents g).

Definition set_children (c : gset Z) (g : IndexedGate) : IndexedGate :=
  mk (type g) (vote_number g) c (state g) (visits g) (parents g).

Definition set_state (s : State) (g : IndexedGate) : IndexedGate :=
  mk (type g) (vote_number g) (children g) s (visits g) (parents g).

Definition set_visits (v : Z * Z * Z) (g : IndexedGate) : IndexedGate :=
  mk (type g) (vote_number g) (children g) (state g) v (parents g).

(** Modelled from the spec: [InitiateWithChild] puts a child into the set. *)
Definition InitiateWithChild (child : Z) (g : IndexedGate) : IndexedGate :=
  set_children (children g ∪ {[child]}) g.

(** Modelled from the spec: [Nullify] and [MakeUnity] turn the gate into a
    constant; a constant gate has no children. *)
Definition Nullify (g : IndexedGate) : IndexedGate :=
  set_state kNullState (set_children ∅ g).

Definition MakeUnity (g : IndexedGate) : IndexedGate :=
  set_state kUnityState (set_children ∅ g).

(** Modelled from the spec: [AddChild].  A literal and its negation may not
    coexist in a gate: when the complement of the new child is present the
    gate becomes the constant of its kind (x AND not x is NULL-CONSTANT,
    x OR not x is UNITY), loses its children and the call returns false;
    the callers in the source stop iterating over the gate on false. *)
Definition AddChild (child : Z) (g : IndexedGate) : bool * IndexedGate :=
  if decide (- child ∈ children g) then
    (false,
     set_state (match type g with kAndGate => kNullState | _ => kUnityState end)
               (set_children ∅ g))
  else (true, set_children (children g ∪ {[child]}) g).

(** Modelled from the spec: [EraseChild] and [EraseAllChildren]. *)
Definition EraseChild (child : Z) (g : IndexedGate) : IndexedGate :=
  set_children (children g ∖ {[child]}) g.

Definition EraseAllChildren (g : IndexedGate) : IndexedGate :=
  set_children ∅ g.

(** Modelled from the spec: [SwapChild] replaces an existing child by a new
    one, with the result of [AddChild]. *)
Definition SwapChild (existing_child new_child : Z) (g : IndexedGate)
  : bool * IndexedGate :=
  AddChild new_child (EraseChild existing_child g).

(** Modelled from the spec: [InvertChildren] negates every child literal. *)
Definition InvertChildren (g : IndexedGate) : IndexedGate :=
  set_children (set_map Z.opp (children g)) g.

(** Modelled from the spec: [MergeGate] (coalescing, spec 4.5) drops the edge
    to the child gate and absorbs the child's children one by one; it stops
    with false as soon as [AddChild] does. *)
Fixpoint add_children (cs : list Z) (g : IndexedGate) : bool * IndexedGate :=
  match cs with
  | [] => (true, g)
  | c :: cs' =>
      let '(ok, g') := AddChild c g in
      if ok then add_children cs' g' else (false, g')
  end.

Definition MergeGate (child_index : Z) (child_gate : IndexedGate)
    (g : IndexedGate) : bool * IndexedGate :=
  add_children (ascending (children child_gate)) (EraseChild child_index g).

(** Modelled from the spec: [AddParent]. *)
Definition AddParent (p : Z) (g : IndexedGate) : IndexedGate :=
  mk (type g) (vote_number g) (children g) (state g) (visits g)
     (parents g ∪ {[p]}).

(** Modelled from the spec: the visit times of module detection.  [Visit]
    records the enter time on the first call, the exit time on the second
    and the last visit on every later call, which is the only case where it
    returns true ("revisited gate" in the source). *)
Definition Visit (time : Z) (g : IndexedGate) : bool * IndexedGate :=
  let '(v0, v1, v2) := visits g in
  if decide (v0 = 0) then (false, set_visits (time, v1, v2) g)
  else if decide (v1 = 0) then (false, set_visits (v0, time, v2) g)
  else (true, set_visits (v0, v1, time) g).

Definition EnterTime (g : IndexedGate) : Z := (visits g).1.1.
Definition ExitTime (g : IndexedGate) : Z := (visits g).1.2.
Definition Revisited (g : IndexedGate) : bool :=
  bool_decide ((visits g).2 ≠ 0).
Definition LastVisit (g : IndexedGate) : Z :=
  if Revisited g then (visits g).2 else ExitTime g.

End Gate.

Export Gate(IndexedGate).

(** ** The fault tree and its monad *)

Record IndexedFaultTree := mkTree {
  top_event_index_ : Z;
  gate_index_ : Z;
  new_gate_index_ : Z;
  top_event_sign_ : Z;
  indexed_gates_ : gmap Z IndexedGate;
  modules_ : gset Z
}.

(** How a run can end without a result: a failed [assert], the dereference
    of [find(...)] on a missing key or an array index out of bounds, a fresh
    gate index that is already taken ([unordered_map::insert] would keep the
    old gate), and the model's fuel running out. *)
Inductive failure := AssertionFailed | InvalidAccess | IndexClash | OutOfFuel.

Inductive result (A : Type) :=
| Done (a : A) (ft : IndexedFaultTree)
| Abort (f : failure).
Arguments Done {A} a ft.
Arguments Abort {A} f.

Definition M (A : Type) : Type := IndexedFaultTree → result A.

Definition ret {A} (a : A) : M A := λ ft, Done a ft.

Definition bind {A B} (c : M A) (k : A → M B) : M B :=
  λ ft, match c ft with
        | Done a ft' => k a ft'
        | Abort f => Abort f
        end.

Definition fail {A} (f : failure) : M A := λ _, Abort f.

Notation "'let*' x := c 'in' k" := (bind c (λ x, k))
  (at level 10, x name, c at level 100, k at level 200).
Notation "'let*' ' p := c 'in' k" := (bind c (λ x, let 'p := x in k))
  (at level 10, p pattern, c at level 100, k at level 200).
Notation "'do' c 'then' k" := (bind c (λ _, k))
  (at level 10, c at level 100, k at level 200).

Definition assert (b : bool) : M unit :=
  if b then ret tt else fail AssertionFailed.

Definition get {A} (f : IndexedFaultTree → A) : M A := λ ft, Done (f ft) ft.

Definition modify (f : IndexedFaultTree → IndexedFaultTree) : M unit :=
  λ ft, Done tt (f ft).

Definition set_gates (gs : gmap Z IndexedGate) (ft : IndexedFaultTree) :=
  mkTree (top_event_index_ ft) (gate_index_ ft) (new_gate_index_ ft)
         (top_event_sign_ ft) gs (modules_ ft).

Definition set_top (i : Z) (ft : IndexedFaultTree) :=
  mkTree i (gate_index_ ft) (new_gate_index_ ft)
         (top_event_sign_ ft) (indexed_gates_ ft) (modules_ ft).

Definition set_sign (s : Z) (ft : IndexedFaultTree) :=
  mkTree (top_event_index_ ft) (gate_index_ ft) (new_gate_index_ ft)
         s (indexed_gates_ ft) (modules_ ft).

Definition set_new_index (n : Z) (ft : IndexedFaultTree) :=
  mkTree (top_event_index_ ft) (gate_index_ ft) n
         (top_event_sign_ ft) (indexed_gates_ ft) (modules_ ft).

Definition set_modules (ms : gset Z) (ft : IndexedFaultTree) :=
  mkTree (top_event_index_ ft) (gate_index_ ft) (new_gate_index_ ft)
         (top_event_sign_ ft) (indexed_gates_ ft) ms.

(** [indexed_gates_.find(i)->second] *)
Definition find_gate (i : Z) : M IndexedGate :=
  λ ft, match indexed_gates_ ft !! i with
        | Some g => Done g ft
        | None => Abort InvalidAccess
        end.

(** A call of a method that mutates the gate behind the pointer [i]. *)
Definition on_gate (i : Z) (f : IndexedGate → IndexedGate) : M unit :=
  let* g := find_gate i in
  modify (λ ft, set_gates (<[i := f g]> (indexed_gates_ ft)) ft).

(** The same for a method with a boolean result. *)
Definition call_gate (i : Z) (f : IndexedGate → bool * IndexedGate) : M bool :=
  let* g := find_gate i in
  do modify (λ ft, set_gates (<[i := (f g).2]> (indexed_gates_ ft)) ft) then
  ret (f g).1.

(** [++new_gate_index_] *)
Definition next_index : M Z :=
  let* n := get new_gate_index_ in
  do modify (set_new_index (n + 1)) then
  ret (n + 1).

(** [indexed_gates_.insert(std::make_pair(i, gate))] for a gate that was
    just allocated.  The source takes the new index to be free; where it is
    not, [insert] would keep the old gate, and the model stops with
    [IndexClash]. *)
Definition insert_gate (i : Z) (g : IndexedGate) : M unit :=
  λ ft, match indexed_gates_ ft !! i with
        | Some _ => Abort IndexClash
        | None => Done tt (set_gates (<[i := g]> (indexed_gates_ ft)) ft)
        end.

(** A [for] loop over a container that the body does not change. *)
Fixpoint for_each {A} (l : list A) (body : A → M unit) : M unit :=
  match l with
  | [] => ret tt
  | x :: l' => do body x then for_each l' body
  end.

(** A loop that threads a local variable of the caller (a set of processed
    gates, a clock) through its iterations. *)
Fixpoint for_fold {A S} (l : list A) (s : S) (body : A → S → M S) : M S :=
  match l with
  | [] => ret s
  | x :: l' => let* s' := body x s in for_fold l' s' body
  end.

(** Iteration over [indexed_gates_]: a [boost::unordered_map] has no
    specified order; the model takes the order of [map_to_list]. *)
Definition gate_keys (gs : gmap Z IndexedGate) : list Z :=
  (map_to_list gs).*1.

(** ** Normalization (NormalizeGates and its helpers) *)

Fixpoint GatherParentInformation (fuel : nat) (parent_gate : Z)
    (processed_gates : gset Z) : M (gset Z) :=
  match fuel with
  | O => fail OutOfFuel
  | S fuel' =>
      if decide (parent_gate ∈ processed_gates) then ret processed_gates
      else
        let* pg := find_gate parent_gate in
        let* gi := get gate_index_ in
        for_fold (ascending (Gate.children pg))
                 (processed_gates ∪ {[parent_gate]})
          (λ c processed,
             let index := Z.abs c in
             if index >? gi then
               do on_gate index (Gate.AddParent parent_gate) then
               GatherParentInformation fuel' index processed
             else ret processed)
  end.

Definition NotifyParentsOfNegativeGates (gate : Z) : M unit :=
  let* g := find_gate gate in
  match Gate.type g with
  | kNorGate | kNandGate =>
      let child_index := gate in
      for_each (ascending (Gate.parents g))
        (λ p,
           let* parent := find_gate p in
           do assert (bool_decide (child_index ∈ Gate.children parent)) then
           let* r := call_gate p (Gate.SwapChild child_index (- child_index)) in
           assert r)
  | _ => ret tt
  end.

Definition NormalizeXorGate (gate : Z) : M unit :=
  let* g := find_gate gate in
  do assert (bool_decide (size (Gate.children g) = 2%nat)) then
  match ascending (Gate.children g) with
  | [a; b] =>
      let* gate_one := next_index in
      let* gate_two := next_index in
      do on_gate gate (Gate.set_type kOrGate) then
      do insert_gate gate_one (Gate.create kAndGate) then
      do insert_gate gate_two (Gate.create kAndGate) then
      let* _ := call_gate gate_one (Gate.AddChild a) in
      let* _ := call_gate gate_two (Gate.AddChild (- a)) in
      let* _ := call_gate gate_one (Gate.AddChild (- b)) in
      let* _ := call_gate gate_two (Gate.AddChild b) in
      do on_gate gate Gate.EraseAllChildren then
      let* _ := call_gate gate (Gate.AddChild gate_one) in
      let* _ := call_gate gate (Gate.AddChild gate_two) in
      ret tt
  | _ => fail InvalidAccess
  end.

(** The first loop of NormalizeAtleastGate: one singleton per child. *)
Definition singleton_sets (cs : list Z) : gset (gset Z) :=
  foldl (λ all_sets c, all_sets ∪ {[ {[c]} ]}) ∅ cs.

(** The body of its second loop for one value of [i]: every set of
    [all_sets] extended by every child, kept when it has more than [i]
    elements. *)
Definition extend_sets (cs : list Z) (all_sets : gset (gset Z)) (i : Z)
  : gset (gset Z) :=
  foldl (λ tmp_sets s,
           foldl (λ tmp_sets c,
                    let set := s ∪ {[c]} in
                    if Z.of_nat (size set) >? i then tmp_sets ∪ {[set]}
                    else tmp_sets)
                 tmp_sets cs)
        ∅ (ascending_sets all_sets).

(** [for (int i = 1; i < vote_number; ++i)] *)
Definition vote_sets (cs : list Z) (vote_number : Z) : gset (gset Z) :=
  foldl (extend_sets cs) (singleton_sets cs) (seqZ 1 (vote_number - 1)).

(** [gate_one->AddChild( *it )] with [assert(ret)] for every element of a
    set, on a gate that is not yet registered. *)
Fixpoint add_asserted (cs : list Z) (g : IndexedGate) : M IndexedGate :=
  match cs with
  | [] => ret g
  | c :: cs' =>
      do assert (Gate.AddChild c g).1 then
      add_asserted cs' (Gate.AddChild c g).2
  end.

Definition NormalizeAtleastGate (gate : Z) : M unit :=
  let* g := find_gate gate in
  let vote_number := Gate.vote_number g in
  do assert (vote_number >? 1) then
  do assert (Z.of_nat (size (Gate.children g)) >? vote_number) then
  let all_sets := vote_sets (ascending (Gate.children g)) vote_number in
  do on_gate gate (Gate.set_type kOrGate) then
  do on_gate gate Gate.EraseAllChildren then
  for_each (ascending_sets all_sets)
    (λ s,
       let* index := next_index in
       let* gate_one := add_asserted (ascending s) (Gate.create kAndGate) in
       let* _ := call_gate gate (Gate.AddChild index) in
       insert_gate index gate_one).

Definition NormalizeGate (gate : Z) : M unit :=
  let* g := find_gate gate in
  match Gate.type g with
  | kOrGate | kNorGate => on_gate gate (Gate.set_type kOrGate)
  | kAndGate | kNandGate => on_gate gate (Gate.set_type kAndGate)
  | kXorGate => NormalizeXorGate gate
  | kAtleastGate => NormalizeAtleastGate gate
  | kNotGate | kNullGate => ret tt
  end.

(** The part of NormalizeGates after the special case of the top event. *)
Definition normalize_all (fuel : nat) : M unit :=
  let* top := get top_event_index_ in
  let* _ := GatherParentInformation fuel top ∅ in
  let* gates := get indexed_gates_ in
  do for_each (gate_keys gates)
       (λ k, if decide (k = top) then ret tt
             else NotifyParentsOfNegativeGates k) then
  let* original_gates := get indexed_gates_ in
  for_each (gate_keys original_gates) NormalizeGate.

Definition multiply_sign (s : Z) : M unit :=
  modify (λ ft, set_sign (top_event_sign_ ft * s) ft).

Fixpoint NormalizeGates (fuel : nat) : M unit :=
  match fuel with
  | O => fail OutOfFuel
  | S fuel' =>
      let* top := get top_event_index_ in
      let* top_gate := find_gate top in
      match Gate.type top_gate with
      | kNorGate =>
          do multiply_sign (-1) then
          do on_gate top (Gate.set_type kOrGate) then normalize_all fuel'
      | kOrGate =>
          do multiply_sign 1 then
          do on_gate top (Gate.set_type kOrGate) then normalize_all fuel'
      | kNandGate =>
          do multiply_sign (-1) then
          do on_gate top (Gate.set_type kAndGate) then normalize_all fuel'
      | kAndGate =>
          do multiply_sign 1 then
          do on_gate top (Gate.set_type kAndGate) then normalize_all fuel'
      | (kNotGate | kNullGate) as t =>
          do assert (bool_decide (size (Gate.children top_gate) = 1%nat)) then
          match ascending (Gate.children top_gate) with
          | child_index :: _ =>
              do assert (child_index >? 0) then
              let* _ := find_gate (Z.abs child_index) in
              do modify (λ ft, set_gates (delete top (indexed_gates_ ft)) ft) then
              do modify (set_top (Z.abs child_index)) then
              do multiply_sign (if decide (t = kNotGate) then -1 else 1) then
              NormalizeGates fuel'
          | [] => fail InvalidAccess
          end
      | kXorGate | kAtleastGate => normalize_all fuel'
      end
  end.

(** ** Constant propagation *)

(** What a call of ProcessConstantChild tells the loop that made it. *)
Definition ProcessConstantChild (gate : Z) (child : Z) (state : bool)
    (to_erase : list Z) : M (bool * list Z) :=
  let* g := find_gate gate in
  let parent_type := Gate.type g in
  do assert (bool_decide (parent_type = kOrGate ∨ parent_type = kAndGate ∨
                          parent_type = kNotGate ∨ parent_type = kNullGate)) then
  if negb state then
    match parent_type with
    | kOrGate => ret (false, to_erase ++ [child])
    | kAndGate | kNullGate => do on_gate gate Gate.Nullify then ret (true, to_erase)
    | kNotGate => do on_gate gate Gate.MakeUnity then ret (true, to_erase)
    | _ => ret (true, to_erase)
    end
  else
    match parent_type with
    | kOrGate => do on_gate gate Gate.MakeUnity then ret (true, to_erase)
    | kAndGate | kNullGate => ret (false, to_erase ++ [child])
    | kNotGate => do on_gate gate Gate.Nullify then ret (true, to_erase)
    | _ => ret (true, to_erase)
    end.

Definition RemoveChildren (gate : Z) (to_erase : list Z) : M unit :=
  do for_each to_erase (λ c, on_gate gate (Gate.EraseChild c)) then
  let* g := find_gate gate in
  if decide (Gate.children g = ∅) then
    do assert (bool_decide (Gate.type g = kOrGate ∨ Gate.type g = kAndGate)) then
    if decide (Gate.type g = kOrGate) then on_gate gate Gate.Nullify
    else on_gate gate Gate.MakeUnity
  else ret tt.

(** A loop that the body can leave early ([return] or [break]): the body
    answers true to leave; the loop tells whether it was left. *)
Fixpoint scan {A S} (l : list A) (s : S) (body : A → S → M (bool * S))
  : M (bool * S) :=
  match l with
  | [] => ret (false, s)
  | x :: l' =>
      let* '(leave, s') := body x s in
      if leave then ret (true, s') else scan l' s' body
  end.

(** PropagateConstants with a gate: the recursive overload. *)
Fixpoint PropagateConstants_gate (fuel : nat)
    (true_house_events false_house_events : gset Z)
    (gate : Z) (processed_gates : gset Z) : M (gset Z) :=
  match fuel with
  | O => fail OutOfFuel
  | S fuel' =>
      if decide (gate ∈ processed_gates) then ret processed_gates
      else
        let* g := find_gate gate in
        let* gi := get gate_index_ in
        let constant (c : Z) (state : bool) (to_erase : list Z)
            (processed : gset Z) : M (bool * (list Z * gset Z)) :=
          let state := if c <? 0 then negb state else state in
          let* '(r, to_erase') := ProcessConstantChild gate c state to_erase in
          ret (r, (to_erase', processed)) in
        let* '(returned, (to_erase, processed)) :=
          scan (ascending (Gate.children g)) ([], processed_gates ∪ {[gate]})
            (λ c '(to_erase, processed),
               if Z.abs c >? gi then
                 let* _ := find_gate (Z.abs c) in
                 let* processed' :=
                   PropagateConstants_gate fuel' true_house_events
                     false_house_events (Z.abs c) processed in
                 let* child_gate := find_gate (Z.abs c) in
                 match Gate.state child_gate with
                 | kNormalState => ret (false, (to_erase, processed'))
                 | kNullState => constant c false to_erase processed'
                 | kUnityState => constant c true to_erase processed'
                 end
               else if decide (Z.abs c ∈ false_house_events) then
                 constant c false to_erase processed
               else if decide (Z.abs c ∈ true_house_events) then
                 constant c true to_erase processed
               else ret (false, (to_erase, processed))) in
        if returned then ret processed
        else do RemoveChildren gate to_erase then ret processed
  end.

(** The public PropagateConstants. *)
Definition PropagateConstants (fuel : nat)
    (true_house_events false_house_events : gset Z) : M unit :=
  if decide (true_house_events = ∅ ∧ false_house_events = ∅) then ret tt
  else
    let* top := get top_event_index_ in
    let* _ := find_gate top in
    let* _ := PropagateConstants_gate fuel true_house_events
                false_house_events top ∅ in
    ret tt.

(** ** Complement propagation *)

(** The loop of PropagateComplements over the children of [gate].  [it] is
    what the iterator has still to visit; [it = gate->children().begin()]
    reads the children again.  [rec] is PropagateComplements itself. *)
Fixpoint complements_loop
    (rec : Z → gmap Z Z * gset Z → M (gmap Z Z * gset Z))
    (fuel : nat) (gate : Z) (it : list Z) (s : gmap Z Z * gset Z)
  : M (gmap Z Z * gset Z) :=
  match fuel with
  | O => fail OutOfFuel
  | S fuel' =>
      match it with
      | [] => ret s
      | c :: rest =>
          let '(gate_complements, processed_gates) := s in
          let restart s' :=
            let* g := find_gate gate in
            complements_loop rec fuel' gate (ascending (Gate.children g)) s' in
          let* gi := get gate_index_ in
          if Z.abs c >? gi then
            let* child_gate := find_gate (Z.abs c) in
            if bool_decide (Gate.type child_gate = kNotGate ∨
                            Gate.type child_gate = kNullGate) then
              do assert (bool_decide (size (Gate.children child_gate) = 1%nat)) then
              match ascending (Gate.children child_gate) with
              | grandchild :: _ =>
                  let mult :=
                    (if decide (Gate.type child_gate = kNotGate) then -1 else 1)
                    * (if c >? 0 then 1 else -1) in
                  let* ok := call_gate gate (Gate.SwapChild c (grandchild * mult)) in
                  if ok then restart s else ret s
              | [] => fail InvalidAccess
              end
            else if c <? 0 then
              match gate_complements !! (- c) with
              | Some complement =>
                  let* _ := call_gate gate (Gate.SwapChild c complement) in
                  restart s
              | None =>
                  let* original := find_gate (- c) in
                  let type := Gate.type original in
                  do assert (bool_decide (type = kAndGate ∨ type = kOrGate)) then
                  let complement_type :=
                    if decide (type = kOrGate) then kAndGate else kOrGate in
                  let* complement_gate := next_index in
                  do insert_gate complement_gate (Gate.create complement_type) then
                  let* original := find_gate (- c) in
                  do on_gate complement_gate
                       (Gate.set_children (Gate.children original)) then
                  do on_gate complement_gate Gate.InvertChildren then
                  let* _ := call_gate gate (Gate.SwapChild c complement_gate) in
                  let* s' := rec complement_gate
                               (<[- c := complement_gate]> gate_complements,
                                processed_gates ∪ {[complement_gate]}) in
                  restart s'
              end
            else if decide (c ∈ processed_gates) then
              complements_loop rec fuel' gate rest s
            else
              let* _ := find_gate c in
              let* s' := rec c (gate_complements, processed_gates ∪ {[c]}) in
              complements_loop rec fuel' gate rest s'
          else complements_loop rec fuel' gate rest s
      end
  end.

Fixpoint PropagateComplements (fuel : nat) (gate : Z)
    (s : gmap Z Z * gset Z) : M (gmap Z Z * gset Z) :=
  match fuel with
  | O => fail OutOfFuel
  | S fuel' =>
      let* g := find_gate gate in
      complements_loop (PropagateComplements fuel') fuel' gate
        (ascending (Gate.children g)) s
  end.

(** ** Constant gates and coalescing *)

Fixpoint ProcessConstGates (fuel : nat) (gate : Z) (processed_gates : gset Z)
  : M (bool * gset Z) :=
  match fuel with
  | O => fail OutOfFuel
  | S fuel' =>
      if decide (gate ∈ processed_gates) then ret (false, processed_gates)
      else
        let processed_gates := processed_gates ∪ {[gate]} in
        let* g := find_gate gate in
        if bool_decide (Gate.state g = kNullState ∨ Gate.state g = kUnityState)
        then ret (false, processed_gates)
        else
          let type := Gate.type g in
          do assert (bool_decide (type = kAndGate ∨ type = kOrGate)) then
          let* gi := get gate_index_ in
          let* '(returned, (changed, to_erase, processed)) :=
            scan (ascending (Gate.children g)) (false, [], processed_gates)
              (λ c '(changed, to_erase, processed),
                 if Z.abs c >? gi then
                   do assert (c >? 0) then
                   let* _ := find_gate c in
                   let* '(r, processed') :=
                     ProcessConstGates fuel' c processed in
                   let changed := changed || r in
                   let* child_gate := find_gate c in
                   match Gate.state child_gate with
                   | kNormalState => ret (false, (changed, to_erase, processed'))
                   | state =>
                       let* '(r, to_erase') :=
                         ProcessConstantChild gate c
                           (if decide (state = kNullState) then false else true)
                           to_erase in
                       ret (r, (changed, to_erase', processed'))
                   end
                 else ret (false, (changed, to_erase, processed))) in
          if returned then ret (true, processed)
          else
            let changed :=
              changed || negb (bool_decide (to_erase = [])) in
            do RemoveChildren gate to_erase then
            ret (changed, processed)
  end.

(** The loop of JoinGates, in the manner of [complements_loop]; [break]
    ends it with what [changed] holds then. *)
Fixpoint join_loop (rec : Z → gset Z → M (bool * gset Z))
    (fuel : nat) (gate : Z) (parent : GateType) (it : list Z)
    (changed : bool) (processed_gates : gset Z) : M (bool * gset Z) :=
  match fuel with
  | O => fail OutOfFuel
  | S fuel' =>
      match it with
      | [] => ret (changed, processed_gates)
      | c :: rest =>
          let restart :=
            let* g := find_gate gate in
            join_loop rec fuel' gate parent (ascending (Gate.children g))
                      true processed_gates in
          let* gi := get gate_index_ in
          if Z.abs c >? gi then
            do assert (c >? 0) then
            let* child_gate := find_gate (Z.abs c) in
            let child := Gate.type child_gate in
            do assert (bool_decide (child = kAndGate ∨ child = kOrGate)) then
            if decide (parent = child) then
              let* child_gate := find_gate c in
              let* ok := call_gate gate (Gate.MergeGate c child_gate) in
              if ok then restart else ret (true, processed_gates)
            else if decide (size (Gate.children child_gate) = 1%nat) then
              match ascending (Gate.children child_gate) with
              | grandchild :: _ =>
                  let* ok := call_gate gate (Gate.SwapChild c grandchild) in
                  if ok then restart else ret (true, processed_gates)
              | [] => fail InvalidAccess
              end
            else
              let* '(r, processed') := rec (Z.abs c) processed_gates in
              join_loop rec fuel' gate parent rest (changed || r) processed'
          else join_loop rec fuel' gate parent rest changed processed_gates
      end
  end.

Fixpoint JoinGates (fuel : nat) (gate : Z) (processed_gates : gset Z)
  : M (bool * gset Z) :=
  match fuel with
  | O => fail OutOfFuel
  | S fuel' =>
      if decide (gate ∈ processed_gates) then ret (false, processed_gates)
      else
        let* g := find_gate gate in
        let parent := Gate.type g in
        do assert (bool_decide (parent = kAndGate ∨ parent = kOrGate)) then
        join_loop (JoinGates fuel') fuel' gate parent
          (ascending (Gate.children g)) false (processed_gates ∪ {[gate]})
  end.

(** ** Module detection *)

(** [visit_basics[index]]: the array has [num_basic_events + 1] rows. *)
Definition basic_visits (visit_basics : list (Z * Z)) (index : Z)
  : M (Z * Z) :=
  match (if index <? 0 then None else visit_basics !! Z.to_nat index) with
  | Some v => ret v
  | None => fail InvalidAccess
  end.

Fixpoint AssignTiming (fuel : nat) (time : Z) (gate : Z)
    (visit_basics : list (Z * Z)) : M (Z * list (Z * Z)) :=
  match fuel with
  | O => fail OutOfFuel
  | S fuel' =>
      let time := time + 1 in
      let* revisited := call_gate gate (Gate.Visit time) in
      if revisited then ret (time, visit_basics)
      else
        let* g := find_gate gate in
        let* top := get top_event_index_ in
        let* '(time, visit_basics) :=
          for_fold (ascending (Gate.children g)) (time, visit_basics)
            (λ c '(time, visit_basics),
               let index := Z.abs c in
               if index <? top then
                 let* '(first, last) := basic_visits visit_basics index in
                 let time := time + 1 in
                 if decide (first = 0) then
                   ret (time, <[Z.to_nat index := (time, time)]> visit_basics)
                 else
                   ret (time, <[Z.to_nat index := (first, time)]> visit_basics)
               else
                 let* _ := find_gate index in
                 AssignTiming fuel' time index visit_basics) in
        let time := time + 1 in
        let* re_visited := call_gate gate (Gate.Visit time) in
        do assert (negb re_visited) then
        ret (time, visit_basics)
  end.

Definition CreateNewModule (gate : Z) (children : list Z) : M unit :=
  let* g := find_gate gate in
  do assert (bool_decide (1 < length children)%nat) then
  do assert (bool_decide (length children ≤ size (Gate.children g))%nat) then
  if decide (length children = size (Gate.children g)) then
    modify (λ ft, set_modules (modules_ ft ∪ {[gate]}) ft)
  else
    do assert (bool_decide (Gate.type g = kAndGate ∨ Gate.type g = kOrGate)) then
    let* new_module := next_index in
    do insert_gate new_module (Gate.create (Gate.type g)) then
    do modify (λ ft, set_modules (modules_ ft ∪ {[new_module]}) ft) then
    do for_each children
         (λ c, do on_gate gate (Gate.EraseChild c) then
               on_gate new_module (Gate.InitiateWithChild c)) then
    let* g := find_gate gate in
    do assert (negb (bool_decide (Gate.children g = ∅))) then
    on_gate gate (Gate.InitiateWithChild new_module).

(** The visit interval of a child in FilterModularChildren. *)
Definition child_interval (visit_basics : list (Z * Z))
    (visited_gates : gmap Z (Z * Z)) (c : Z) : M (Z * Z) :=
  let index := Z.abs c in
  let* gi := get gate_index_ in
  if index <? gi then basic_visits visit_basics index
  else
    do assert (c >? 0) then
    match visited_gates !! index with
    | Some v => ret v
    | None => fail InvalidAccess
    end.

Fixpoint FilterModularChildren (fuel : nat) (visit_basics : list (Z * Z))
    (visited_gates : gmap Z (Z * Z))
    (modular_children non_modular_children : list Z)
  : M (list Z * list Z) :=
  match fuel with
  | O => fail OutOfFuel
  | S fuel' =>
      if bool_decide (modular_children = [] ∨ non_modular_children = [])
      then ret (modular_children, non_modular_children)
      else
        let* '(new_non_modular, still_modular) :=
          for_fold modular_children ([], [])
            (λ c '(new_non_modular, still_modular),
               let* '(min, max) := child_interval visit_basics visited_gates c in
               let* '(overlap, _) :=
                 scan non_modular_children tt
                   (λ n _,
                      let* '(lower, upper) :=
                        child_interval visit_basics visited_gates n in
                      let a := Z.max min lower in
                      let b := Z.min max upper in
                      ret (bool_decide (a ≤ b), tt)) in
               if overlap then ret (new_non_modular ++ [c], still_modular)
               else ret (new_non_modular, still_modular ++ [c])) in
        let* '(still_modular, new_non_modular) :=
          FilterModularChildren fuel' visit_basics visited_gates
            still_modular new_non_modular in
        ret (still_modular, non_modular_children ++ new_non_modular)
  end.

(** The local variables of the loop of FindOriginalModules. *)
Record classification := mkClass {
  min_time : Z;
  max_time : Z;
  non_shared_children : list Z;
  modular_children : list Z;
  non_modular_children : list Z
}.

Definition classify (enter_time exit_time : Z) (c min max : Z)
    (k : classification) : classification :=
  mkClass (Z.min (min_time k) min) (Z.max (max_time k) max)
          (non_shared_children k)
          (if bool_decide (enter_time < min ∧ max < exit_time)
           then modular_children k ++ [c] else modular_children k)
          (if bool_decide (enter_time < min ∧ max < exit_time)
           then non_modular_children k else non_modular_children k ++ [c]).

Definition non_shared (c : Z) (k : classification) : classification :=
  mkClass (min_time k) (max_time k) (non_shared_children k ++ [c])
          (modular_children k) (non_modular_children k).

(** The loop runs over the children that the gate has when the call
    starts; [visited_gates->insert] at the end keeps an entry that is
    already there. *)
Fixpoint FindOriginalModules (fuel : nat) (gate : Z)
    (visit_basics : list (Z * Z)) (visited_gates : gmap Z (Z * Z))
  : M (gmap Z (Z * Z)) :=
  match fuel with
  | O => fail OutOfFuel
  | S fuel' =>
      if decide (is_Some (visited_gates !! gate)) then ret visited_gates
      else
        let* g := find_gate gate in
        let enter_time := Gate.EnterTime g in
        let exit_time := Gate.ExitTime g in
        let* top := get top_event_index_ in
        let* '(k, visited_gates) :=
          for_fold (ascending (Gate.children g))
            (mkClass enter_time exit_time [] [] [], visited_gates)
            (λ c '(k, visited_gates),
               let index := Z.abs c in
               if index <? top then
                 let* '(min, max) := basic_visits visit_basics index in
                 if decide (min = max) then
                   do assert (bool_decide (enter_time < min ∧ max < exit_time)) then
                   ret (non_shared c k, visited_gates)
                 else
                   do assert (negb (bool_decide (min = 0))) then
                   do assert (negb (bool_decide (max = 0))) then
                   ret (classify enter_time exit_time c min max k, visited_gates)
               else
                 do assert (c >? 0) then
                 let* _ := find_gate index in
                 let* visited_gates :=
                   FindOriginalModules fuel' index visit_basics visited_gates in
                 let* child_gate := find_gate index in
                 match visited_gates !! index with
                 | Some (min, max) =>
                     let* modules := get modules_ in
                     if bool_decide (index ∈ modules) &&
                        negb (Gate.Revisited child_gate) then
                       ret (non_shared c k, visited_gates)
                     else
                       do assert (negb (bool_decide (min = 0))) then
                       do assert (negb (bool_decide (max = 0))) then
                       ret (classify enter_time exit_time c min max k,
                            visited_gates)
                 | None => fail InvalidAccess
                 end) in
        do (if bool_decide (min_time k = enter_time ∧ max_time k = exit_time)
            then
              let* g := find_gate gate in
              do assert (bool_decide
                           (length (modular_children k) +
                            length (non_shared_children k) =
                            size (Gate.children g))%nat) then
              modify (λ ft, set_modules (modules_ ft ∪ {[gate]}) ft)
            else ret tt) then
        do (if bool_decide (1 < length (non_shared_children k))%nat
            then CreateNewModule gate (non_shared_children k)
            else ret tt) then
        let* '(modular, _) :=
          FilterModularChildren fuel' visit_basics visited_gates
            (modular_children k) (non_modular_children k) in
        do (if bool_decide (0 < length modular)%nat then
              do assert (negb (bool_decide (length modular = 1%nat))) then
              CreateNewModule gate modular
            else ret tt) then
        let* g := find_gate gate in
        let max_time := Z.max (max_time k) (Gate.LastVisit g) in
        ret (match visited_gates !! gate with
             | Some _ => visited_gates
             | None => <[gate := (min_time k, max_time)]> visited_gates
             end)
  end.

Definition DetectModules (fuel : nat) (num_basic_events : Z) : M unit :=
  let visit_basics := replicate (Z.to_nat (num_basic_events + 1)) (0, 0) in
  let* top := get top_event_index_ in
  let* _ := find_gate top in
  let* '(_, visit_basics) := AssignTiming fuel 0 top visit_basics in
  let* visited_gates := FindOriginalModules fuel top visit_basics ∅ in
  let* top_gate := find_gate top in
  match visited_gates !! top with
  | Some (first, second) =>
      do assert (bool_decide (first = 1)) then
      do assert (negb (Gate.Revisited top_gate)) then
      assert (bool_decide (second = Gate.ExitTime top_gate))
  | None => fail AssertionFailed
  end.

(** ** ProcessIndexedFaultTree *)

(** The [do ... while] loop that alternates JoinGates and
    ProcessConstGates. *)
Fixpoint coalesce (fuel : nat) (top : Z) : M unit :=
  match fuel with
  | O => fail OutOfFuel
  | S fuel' =>
      let* '(joined, _) := JoinGates fuel' top ∅ in
      if joined then
        let* '(changed, _) := ProcessConstGates fuel' top ∅ in
        if changed then coalesce fuel' top else ret tt
      else ret tt
  end.

(** The first statement: a negative top-event sign is pushed into the top
    gate. *)
Definition absorb_top_sign (top : Z) : M unit :=
  let* sign := get top_event_sign_ in
  if sign <? 0 then
    let* top_gate := find_gate top in
    do assert (bool_decide (Gate.type top_gate = kOrGate ∨
                            Gate.type top_gate = kAndGate)) then
    do on_gate top
         (Gate.set_type (if decide (Gate.type top_gate = kOrGate)
                         then kAndGate else kOrGate)) then
    do on_gate top Gate.InvertChildren then
    modify (set_sign 1)
  else ret tt.

(** ProcessIndexedFaultTree up to the test for a constant top event. *)
Definition prepare (fuel : nat) : M Z :=
  let* top := get top_event_index_ in
  let* _ := find_gate top in
  do absorb_top_sign top then
  let* _ := PropagateComplements fuel top (∅, ∅) in
  let* _ := ProcessConstGates fuel top ∅ in
  do coalesce fuel top then
  ret top.

Definition ProcessIndexedFaultTree (fuel : nat) (num_basic_events : Z)
  : M unit :=
  let* top := prepare fuel in
  let* top_gate := find_gate top in
  if decide (Gate.children top_gate = ∅) then ret tt
  else DetectModules fuel num_basic_events.

(** ** The Boolean function of a graph *)

(** The value of a connective on the values of its arguments. *)
Definition connective (t : GateType) (vote_number : Z) (vs : list bool)
  : option bool :=
  match t with
  | kAndGate => Some (forallb id vs)
  | kOrGate => Some (existsb id vs)
  | kNandGate => Some (negb (forallb id vs))
  | kNorGate => Some (negb (existsb id vs))
  | kXorGate => Some (foldr xorb false vs)
  | kAtleastGate =>
      Some (vote_number <=? Z.of_nat (length (filter (λ v, v = true) vs)))
  | kNotGate => match vs with [v] => Some (negb v) | _ => None end
  | kNullGate => match vs with [v] => Some v | _ => None end
  end.

(** The value of the gate [i] under an assignment of the basic and house
    events.  A NULL-CONSTANT gate is false and a UNITY gate is true. *)
Fixpoint eval_gate (fuel : nat) (ft : IndexedFaultTree) (ρ : Z → bool)
    (i : Z) : option bool :=
  match fuel with
  | O => None
  | S fuel' =>
      g ← indexed_gates_ ft !! i;
      match Gate.state g with
      | kNullState => Some false
      | kUnityState => Some true
      | kNormalState =>
          vs ← mapM (λ c,
                   v ← (if Z.abs c >? gate_index_ ft
                        then eval_gate fuel' ft ρ (Z.abs c)
                        else Some (ρ (Z.abs c)));
                   Some (if c <? 0 then negb v else v))
                 (ascending (Gate.children g));
          connective (Gate.type g) (Gate.vote_number g) vs
      end
  end.

(** The function of the whole tree: the top gate under the top-event sign. *)
Definition eval_top (fuel : nat) (ft : IndexedFaultTree) (ρ : Z → bool)
  : option bool :=
  v ← eval_gate fuel ft ρ (top_event_index_ ft);
  Some (if top_event_sign_ ft <? 0 then negb v else v).

(** ** Weakest preconditions

    [wp E c Q ft]: the run of [c] from [ft] ends in a state that satisfies
    [Q], or aborts with a failure accepted by [E].  With [E] always false
    this is total correctness, with [E] always true partial correctness. *)
Definition wp (E : failure → Prop) {A} (c : M A)
    (Q : A → IndexedFaultTree → Prop) (ft : IndexedFaultTree) : Prop :=
  match c ft with
  | Done a ft' => Q a ft'
  | Abort f => E f
  end.

Definition no_failure : failure → Prop := λ _, False.
Definition any_failure : failure → Prop := λ _, True.

(** The state in which a run ends, if it ends with a result. *)
Definition final_state {A} (r : result A) : option IndexedFaultTree :=
  match r with
  | Done _ ft => Some ft
  | Abort _ => None
  end.

(** A gate of the input graph, and an input graph whose top event has the
    first gate index, as the graph builder leaves them. *)
Definition input_gate (t : GateType) (cs : list Z) : IndexedGate :=
  Gate.mk t 0 (list_to_set cs) kNormalState (0, 0, 0) ∅.

Definition input_tree (top new_index : Z) (gs : list (Z * IndexedGate))
  : IndexedFaultTree :=
  mkTree top top new_index 1 (list_to_map gs) ∅.

(** [c] keeps the invariant [I], whatever it returns and however it ends. *)
Definition preserves {A} (I : IndexedFaultTree → Prop) (c : M A) : Prop :=
  ∀ ft, I ft → wp any_failure c (λ _, I) ft.

(** What the passes after normalization never change: the top event, the
    first gate index, the sign and the kinds of the gates that exist; the
    counter of fresh indices only grows. *)
Definition frame (ft ft' : IndexedFaultTree) : Prop :=
  top_event_index_ ft' = top_event_index_ ft ∧
  gate_index_ ft' = gate_index_ ft ∧
  top_event_sign_ ft' = top_event_sign_ ft ∧
  new_gate_index_ ft ≤ new_gate_index_ ft' ∧
  ∀ i g, indexed_gates_ ft !! i = Some g →
         ∃ g', indexed_gates_ ft' !! i = Some g' ∧ Gate.type g' = Gate.type g.

(** An invariant that only looks at the top-event sign. *)
Definition sign_is (P : Z → Prop) (ft : IndexedFaultTree) : Prop :=
  P (top_event_sign_ ft).

(** The state with which NormalizeGates calls itself for a NOT or NULL top
    event over the gate [child_index]. *)
Definition retarget_top (child_index : Z) (t : GateType)
    (ft : IndexedFaultTree) : IndexedFaultTree :=
  mkTree child_index (gate_index_ ft) (new_gate_index_ ft)
         (top_event_sign_ ft * (if decide (t = kNotGate) then -1 else 1))
         (delete (top_event_index_ ft) (indexed_gates_ ft)) (modules_ ft).

(** ** Example graphs

    Basic events have the indices below the top event. *)

(** A NULL top event over a negated gate: 4 = NULL(not 5), 5 = AND(1, 2). *)
Definition null_over_negated : IndexedFaultTree :=
  input_tree 4 5
    [(4, input_gate kNullGate [-5]); (5, input_gate kAndGate [1; 2])].

(** NOT over NOT over a gate: 4 = NOT(5), 5 = NOT(6), 6 = AND(1, 2). *)
Definition not_over_not : IndexedFaultTree :=
  input_tree 4 6
    [(4, input_gate kNotGate [5]); (5, input_gate kNotGate [6]);
     (6, input_gate kAndGate [1; 2])].

(** A NOR top event: 3 = NOR(1, 2). *)
Definition nor_top : IndexedFaultTree :=
  input_tree 3 3 [(3, input_gate kNorGate [1; 2])].

(** The state in which a run ends, for runs that are known to end. *)
Definition state_after {A} (c : M A) (ft : IndexedFaultTree)
  : IndexedFaultTree :=
  default ft (final_state (c ft)).

(** A contradiction below a shared gate; the basic events are x = 1, y = 2
    and z = 3: 4 = OR(5, 6), 5 = AND(7, 8), 6 = AND(z, 5), 7 = AND(x, y),
    8 = NOT(x).  Gate 5 is x AND y AND not x, so the top event is false. *)
Definition shared_contradiction : IndexedFaultTree :=
  input_tree 4 8
    [(4, input_gate kOrGate [5; 6]); (5, input_gate kAndGate [7; 8]);
     (6, input_gate kAndGate [3; 5]); (7, input_gate kAndGate [1; 2]);
     (8, input_gate kNotGate [1])].

(** An AND of the basic event 1 and the house event 2: 3 = AND(1, 2). *)
Definition and_with_house : IndexedFaultTree :=
  input_tree 3 3 [(3, input_gate kAndGate [1; 2])].

Definition all_true : Z → bool := λ _, true.

(** The value of the top event in the state in which a run ends. *)
Definition then_eval {A} (r : result A) (ρ : Z → bool) : option bool :=
  final_state r ≫= λ ft, eval_top 10 ft ρ.

(** The Boolean value of a child literal, when it is determined: a house
    event asserted false or true, or a gate that is already a constant; the
    value of a negated occurrence is flipped. *)
Definition literal_value (T F : gset Z) (ft : IndexedFaultTree) (c : Z)
  : option bool :=
  let value :=
    if Z.abs c >? gate_index_ ft then
      g ← indexed_gates_ ft !! Z.abs c;
      match Gate.state g with
      | kNormalState => None
      | kNullState => Some false
      | kUnityState => Some true
      end
    else if decide (Z.abs c ∈ F) then Some false
    else if decide (Z.abs c ∈ T) then Some true
    else None in
  (λ v : bool, if c <? 0 then negb v else v) <$> value.

(** The child value that decides a gate of kind [t]: true for OR. *)
Definition absorbing (t : GateType) : bool := bool_decide (t = kOrGate).

(** The constant a gate becomes on a child of absorbing value, UNITY for OR
    and NULL-CONSTANT for AND. *)
Definition absorbed (g : IndexedGate) : IndexedGate :=
  if absorbing (Gate.type g) then Gate.MakeUnity g else Gate.Nullify g.

(** What is left of a gate whose other children are dropped: the gate with
    the children [rest], or, when none is left, NULL-CONSTANT for OR and
    UNITY for AND. *)
Definition reduced (rest : gset Z) (g : IndexedGate) : IndexedGate :=
  if decide (rest = ∅) then
    if absorbing (Gate.type g) then Gate.Nullify (Gate.set_children rest g)
    else Gate.MakeUnity (Gate.set_children rest g)
  else Gate.set_children rest g.

(** The table of spec 4.3 for one gate. *)
Definition propagated (T F : gset Z) (ft : IndexedFaultTree)
    (g : IndexedGate) : IndexedGate :=
  if decide (set_Exists
               (λ c, literal_value T F ft c = Some (absorbing (Gate.type g)))
               (Gate.children g))
  then absorbed g
  else reduced (filter (λ c, literal_value T F ft c = None) (Gate.children g)) g.

(** What the body of the scan does with one child, as a function of the
    child's value. *)
Definition scan_step (T F : gset Z) (ft : IndexedFaultTree) (gate : Z)
    (g : IndexedGate) (processed : gset Z) (c : Z) (te : list Z)
  : result (bool * (list Z * gset Z)) :=
  match literal_value T F ft c with
  | None => Done (false, (te, processed)) ft
  | Some v =>
      if bool_decide (v = absorbing (Gate.type g))
      then Done (true, (te, processed))
             (set_gates (<[gate := absorbed g]> (indexed_gates_ ft)) ft)
      else Done (false, (te ++ [c], processed)) ft
  end.


(** An AND over a basic event, a house event and a negated house event:
    4 = AND(1, 2, not 3). *)
Definition and_with_houses : IndexedFaultTree :=
  input_tree 4 4 [(4, input_gate kAndGate [1; 2; -3])].

(** The kinds that normalization leaves in the graph. *)
Definition normalized (t : GateType) : Prop :=
  t = kAndGate ∨ t = kOrGate ∨ t = kNotGate ∨ t = kNullGate.

(** While the gate [x] is normalized from the state [ft0]: every gate is
    [x], or a new AND gate, or has the kind it had; and [x] itself has a
    normalized kind already. *)
Definition normalizing (ft0 : IndexedFaultTree) (x : Z)
    (ft : IndexedFaultTree) : Prop :=
  (∀ i g', indexed_gates_ ft !! i = Some g' →
     i = x ∨ Gate.type g' = kAndGate ∨
     ∃ g, indexed_gates_ ft0 !! i = Some g ∧ Gate.type g = Gate.type g') ∧
  (∃ g', indexed_gates_ ft !! x = Some g' ∧ normalized (Gate.type g')).

Definition all_normalized (ft : IndexedFaultTree) : Prop :=
  ∀ i g, indexed_gates_ ft !! i = Some g → normalized (Gate.type g).

(** A binary XOR top event: 3 = XOR(1, 2). *)
Definition xor_top : IndexedFaultTree :=
  input_tree 3 3 [(3, input_gate kXorGate [1; 2])].

(** The number of [k]-element subsets of an [n]-element set (Pascal's
    rule). *)
Fixpoint choose (n k : nat) : nat :=
  match n, k with
  | _, O => 1
  | O, S _ => 0
  | S n', S k' => choose n' k' + choose n' (S k')
  end.

(** Two out of three: 4 = ATLEAST_2(1, 2, 3). *)
Definition two_of_three_gate : IndexedGate :=
  Gate.mk kAtleastGate 2 {[1; 2; 3]} kNormalState (0, 0, 0) ∅.

Definition two_of_three : IndexedFaultTree :=
  input_tree 4 4 [(4, two_of_three_gate)].

(** ** The shape of the processed graph *)

(** The two kinds of gate that are left after normalization and
    complement propagation. *)
Definition and_or (t : GateType) : Prop := t = kAndGate ∨ t = kOrGate.

(** The gates that can be reached from the top event through child
    references to gates (references above [gate_index_]). *)
Inductive reachable (ft : IndexedFaultTree) : Z → Prop :=
| reachable_top : reachable ft (top_event_index_ ft)
| reachable_child i g c :
    reachable ft i →
    indexed_gates_ ft !! i = Some g →
    c ∈ Gate.children g →
    gate_index_ ft < Z.abs c →
    reachable ft (Z.abs c).

(** The gate [i] exists, is an AND or an OR, and each of its references to
    a gate is positive, goes to a gate of [S] and, with [alt], to an AND or
    OR gate of the other kind. *)
Definition shape_at (alt : bool) (ft : IndexedFaultTree) (S : gset Z)
    (i : Z) : Prop :=
  ∃ g, indexed_gates_ ft !! i = Some g ∧ and_or (Gate.type g) ∧
    ∀ c, c ∈ Gate.children g → gate_index_ ft < Z.abs c →
      0 < c ∧ c ∈ S ∧
      (alt = true →
       ∃ gc, indexed_gates_ ft !! c = Some gc ∧ and_or (Gate.type gc) ∧
             Gate.type gc ≠ Gate.type g).

Definition shaped (alt : bool) (ft : IndexedFaultTree) (S : gset Z) : Prop :=
  top_event_index_ ft ∈ S ∧ ∀ i, i ∈ S → shape_at alt ft S i.

(** What JoinGates guarantees when it returns: the gates that were
    processed before are untouched and each gate that it has processed has
    the alternating shape. *)
Definition joined (ft : IndexedFaultTree) (gate : Z) (P : gset Z)
    (r : bool * gset Z) (ft' : IndexedFaultTree) : Prop :=
  P ⊆ r.2 ∧ gate ∈ r.2 ∧ frame ft ft' ∧
  (∀ i, i ∈ P → indexed_gates_ ft' !! i = indexed_gates_ ft !! i) ∧
  (∀ i, i ∈ r.2 → i ∉ P → shape_at true ft' r.2 i).

(** What the loop of JoinGates guarantees for the gate it works on. *)
Definition loop_joined (ft : IndexedFaultTree) (gate : Z) (P : gset Z)
    (r : bool * gset Z) (ft' : IndexedFaultTree) : Prop :=
  P ⊆ r.2 ∧ frame ft ft' ∧
  (∀ i, i ∈ P → i ≠ gate →
        indexed_gates_ ft' !! i = indexed_gates_ ft !! i) ∧
  (∀ i, i ∈ r.2 → i ∉ P → shape_at true ft' r.2 i) ∧
  shape_at true ft' r.2 gate.

(** ProcessConstGates: when it reports no change, nothing has changed,
    except that the gate it was called on, if it had no children, is a
    constant now. *)
Definition unchanged_or_emptied (gate : Z) (ft ft' : IndexedFaultTree)
  : Prop :=
  ft' = ft ∨
  ∃ g g', indexed_gates_ ft !! gate = Some g ∧
          ft' = set_gates (<[gate := g']> (indexed_gates_ ft)) ft ∧
          Gate.type g' = Gate.type g ∧
          Gate.state g' ≠ kNormalState ∧ Gate.children g' = ∅.

(** The invariant of module detection: the gates of [S], which include the
    top event [top], are ANDs and ORs over positive references to gates of
    [S]; the first gate index [gi] is not above the top event and fresh
    indices are positive. *)
Definition shapes (top gi : Z) (S : gset Z) (ft : IndexedFaultTree) : Prop :=
  top_event_index_ ft = top ∧ gate_index_ ft = gi ∧ gi ≤ top ∧
  0 ≤ new_gate_index_ ft ∧ top ∈ S ∧
  ∀ i, i ∈ S → shape_at false ft S i.

Definition grown (top gi : Z) (S : gset Z) (ft : IndexedFaultTree) : Prop :=
  ∃ S', S ⊆ S' ∧ shapes top gi S' ft.

(** The gates keep their children. *)
Definition same_children (ft ft' : IndexedFaultTree) : Prop :=
  ∀ i g, indexed_gates_ ft !! i = Some g →
         ∃ g', indexed_gates_ ft' !! i = Some g' ∧
               Gate.children g' = Gate.children g.

Definition lists_in (k : classification) (s : gset Z) : Prop :=
  ∀ c, c ∈ non_shared_children k ∨ c ∈ modular_children k → c ∈ s.

(** Every gate that can be reached from the top event is an AND or an OR
    gate, and its references to gates are positive. *)
Definition and_or_graph (ft : IndexedFaultTree) : Prop :=
  ∀ i, reachable ft i →
    ∃ g, indexed_gates_ ft !! i = Some g ∧ and_or (Gate.type g) ∧
         ∀ c, c ∈ Gate.children g → gate_index_ ft < Z.abs c → 0 < c.

(** No gate that can be reached has a child gate of its own kind. *)
Definition alternating (ft : IndexedFaultTree) : Prop :=
  ∀ i g c gc, reachable ft i →
    indexed_gates_ ft !! i = Some g → c ∈ Gate.children g →
    gate_index_ ft < Z.abs c →
    indexed_gates_ ft !! Z.abs c = Some gc → Gate.type gc ≠ Gate.type g.

(** Every gate that can be reached and is not a constant has two children
    or more. *)
Definition two_children (ft : IndexedFaultTree) : Prop :=
  ∀ i g, reachable ft i → indexed_gates_ ft !! i = Some g →
    Gate.state g = kNormalState → (2 ≤ size (Gate.children g))%nat.

Definition strictly_alternating (ft : IndexedFaultTree) : Prop :=
  and_or_graph ft ∧ two_children ft ∧ alternating ft.

(** A shared basic event below an AND gate: 6 = AND(1, 2, 7, 8),
    7 = OR(3, 5), 8 = OR(4, 5); the basic events are 1 to 5. *)
Definition shared_event : IndexedFaultTree :=
  input_tree 6 8
    [(6, input_gate kAndGate [1; 2; 7; 8]); (7, input_gate kOrGate [3; 5]);
     (8, input_gate kOrGate [4; 5])].

(** A house event at the bottom of a chain of ANDs: 4 = OR(2, 5),
    5 = AND(1, 6), 6 = AND(1, 3); the basic events are 1 and 2, the house
    event is 3. *)
Definition single_child : IndexedFaultTree :=
  input_tree 4 6
    [(4, input_gate kOrGate [2; 5]); (5, input_gate kAndGate [1; 6]);
     (6, input_gate kAndGate [1; 3])].

(** The kind and the children of a gate, for a look at a graph. *)
Definition gate_view (ft : IndexedFaultTree) (i : Z)
  : option (GateType * State * list Z) :=
  (λ g, (Gate.type g, Gate.state g, ascending (Gate.children g))) <$>
    indexed_gates_ ft !! i.

(** ** The module set *)








(** Two visit intervals overlap, as FilterModularChildren tests it. *)
Definition overlap (i j : Z * Z) : Prop := Z.max i.1 j.1 ≤ Z.min i.2 j.2.

(** What FilterModularChildren guarantees for the lists it returns. *)
Definition separated (vb : list (Z * Z)) (vg : gmap Z (Z * Z))
    (ft : IndexedFaultTree) (mc nmc : list Z) : Prop :=
  ∀ c n i j, c ∈ mc → n ∈ nmc →
    child_interval vb vg c ft = Done i ft →
    child_interval vb vg n ft = Done j ft → ¬ overlap i j.

(** A modular child is tied to the non-modular children when its interval
    overlaps the interval of one of them, or the interval of a modular child
    that is tied itself. *)
Inductive tied (vb : list (Z * Z)) (vg : gmap Z (Z * Z))
    (ft : IndexedFaultTree) (mc nmc : list Z) : Z → Prop :=
  | tied_first c n i j :
      c ∈ mc → n ∈ nmc →
      child_interval vb vg c ft = Done i ft →
      child_interval vb vg n ft = Done j ft →
      overlap i j → tied vb vg ft mc nmc c
  | tied_next c c' i j :
      c ∈ mc → tied vb vg ft mc nmc c' →
      child_interval vb vg c ft = Done i ft →
      child_interval vb vg c' ft = Done j ft →
      overlap i j → tied vb vg ft mc nmc c.

Definition filtered (vb : list (Z * Z)) (vg : gmap Z (Z * Z))
    (ft : IndexedFaultTree) (mc nmc : list Z) (r : list Z * list Z)
    (ft' : IndexedFaultTree) : Prop :=
  ft' = ft ∧ sublist r.1 mc ∧
  ∃ moved, r.2 = nmc ++ moved ∧ mc ≡ₚ r.1 ++ moved ∧
           separated vb vg ft r.1 r.2 ∧
           ∀ c, c ∈ moved → tied vb vg ft mc nmc c.

(** The intervals of all children of a list can be read. *)
Definition timed (vb : list (Z * Z)) (vg : gmap Z (Z * Z))
    (ft : IndexedFaultTree) (cs : list Z) : Prop :=
  ∀ c, c ∈ cs → ∃ i, child_interval vb vg c ft = Done i ft.

(** The graph after CreateNewModule has moved the children [l] of the gate
    [gate] into the new gate [nm]. *)
Definition split_off (gate nm : Z) (l : list Z) (g : IndexedGate)
    (ft ft' : IndexedFaultTree) : Prop :=
  top_event_index_ ft' = top_event_index_ ft ∧
  gate_index_ ft' = gate_index_ ft ∧
  top_event_sign_ ft' = top_event_sign_ ft ∧
  new_gate_index_ ft' = nm ∧
  modules_ ft' = modules_ ft ∪ {[nm]} ∧
  indexed_gates_ ft' !! nm =
    Some (Gate.set_children (list_to_set l) (Gate.create (Gate.type g))) ∧
  indexed_gates_ ft' !! gate =
    Some (Gate.set_children (Gate.children g ∖ list_to_set l ∪ {[nm]}) g) ∧
  ∀ i, i ≠ gate → i ≠ nm → indexed_gates_ ft' !! i = indexed_gates_ ft !! i.

(** The value of a child literal, as [eval_gate] computes it. *)
Definition eval_literal (fuel : nat) (ft : IndexedFaultTree) (ρ : Z → bool)
    (c : Z) : option bool :=
  v ← (if Z.abs c >? gate_index_ ft
       then eval_gate fuel ft ρ (Z.abs c)
       else Some (ρ (Z.abs c)));
  Some (if c <? 0 then negb v else v).

(** The gate [i] has the value [v]: some number of steps gives it. *)
Definition value (ft : IndexedFaultTree) (ρ : Z → bool) (i : Z) (v : bool)
  : Prop :=
  ∃ fuel, eval_gate fuel ft ρ i = Some v.

(** The gate [gate] has been entered at the time [enter] and, as long as it
    has no exit time, has no last visit either. *)
Definition entered (gate enter : Z) (ft : IndexedFaultTree) : Prop :=
  ∃ g, indexed_gates_ ft !! gate = Some g ∧
       (Gate.visits g).1.1 = enter ∧
       ((Gate.visits g).1.2 = 0 → (Gate.visits g).2 = 0).

(** The gates keep their visit times and the module set its members. *)
Definition keeps (ft ft' : IndexedFaultTree) : Prop :=
  (∀ i g, indexed_gates_ ft !! i = Some g →
          ∃ g', indexed_gates_ ft' !! i = Some g' ∧
                Gate.visits g' = Gate.visits g) ∧
  modules_ ft ⊆ modules_ ft'.

(** A gate whose entry in [visited_gates] is its enter and exit time is in
    the module set. *)
Definition bracketing_marked (visited_gates : gmap Z (Z * Z))
    (ft : IndexedFaultTree) : Prop :=
  ∀ i lo hi, visited_gates !! i = Some (lo, hi) →
    ∃ g, indexed_gates_ ft !! i = Some g ∧
         (lo = Gate.EnterTime g → hi = Gate.ExitTime g → i ∈ modules_ ft).

(** The gate [p] has a child with the index [i]. *)
Definition child_of (ft : IndexedFaultTree) (p i : Z) : Prop :=
  ∃ gp c, indexed_gates_ ft !! p = Some gp ∧ c ∈ Gate.children gp ∧
          Z.abs c = i.

(** The gate [i] is the same in both graphs up to its parents, which have
    grown by gates that have [i] as a child. *)
Definition parents_grown (ft : IndexedFaultTree) (i : Z)
    (g g' : IndexedGate) : Prop :=
  Gate.type g' = Gate.type g ∧ Gate.vote_number g' = Gate.vote_number g ∧
  Gate.children g' = Gate.children g ∧ Gate.state g' = Gate.state g ∧
  Gate.visits g' = Gate.visits g ∧
  Gate.parents g ⊆ Gate.parents g' ∧
  ∀ p, p ∈ Gate.parents g' → p ∈ Gate.parents g ∨ child_of ft p i.

(** What GatherParentInformation changes: only sets of parents. *)
Definition gathered (ft ft' : IndexedFaultTree) : Prop :=
  top_event_index_ ft' = top_event_index_ ft ∧
  gate_index_ ft' = gate_index_ ft ∧
  new_gate_index_ ft' = new_gate_index_ ft ∧
  top_event_sign_ ft' = top_event_sign_ ft ∧
  modules_ ft' = modules_ ft ∧
  ∀ i, match indexed_gates_ ft !! i, indexed_gates_ ft' !! i with
       | Some g, Some g' => parents_grown ft i g g'
       | None, None => True
       | _, _ => False
       end.

(** The gate [p] is registered as a parent with each of its child gates. *)
Definition registered (p : Z) (ft : IndexedFaultTree) : Prop :=
  ∃ g, indexed_gates_ ft !! p = Some g ∧
    ∀ c, c ∈ Gate.children g → gate_index_ ft < Z.abs c →
      ∃ gc, indexed_gates_ ft !! Z.abs c = Some gc ∧ p ∈ Gate.parents gc.

(** The children of a parent after NotifyParentsOfNegativeGates: the
    reference to the gate is negated. *)
Definition negated_child (gate : Z) (gp : IndexedGate) : IndexedGate :=
  Gate.set_children (Gate.children gp ∖ {[gate]} ∪ {[- gate]}) gp.

Definition notified (gate : Z) (parents : list Z)
    (ft ft' : IndexedFaultTree) : Prop :=
  top_event_index_ ft' = top_event_index_ ft ∧
  gate_index_ ft' = gate_index_ ft ∧
  new_gate_index_ ft' = new_gate_index_ ft ∧
  top_event_sign_ ft' = top_event_sign_ ft ∧
  modules_ ft' = modules_ ft ∧
  ∀ i, indexed_gates_ ft' !! i =
       if decide (i ∈ parents)
       then negated_child gate <$> indexed_gates_ ft !! i
       else indexed_gates_ ft !! i.

(** A NOR gate below the top event: 3 = AND(1, 4), 4 = NOR(1, 2). *)
Definition nor_child : IndexedFaultTree :=
  input_tree 3 4
    [(3, input_gate kAndGate [1; 4]); (4, input_gate kNorGate [1; 2])].

(** A reference to a gate as complement propagation leaves it: positive,
    to a processed gate that is neither NOT nor NULL. *)
Definition plain_child (ft : IndexedFaultTree) (P : gset Z) (c : Z) : Prop :=
  0 < c ∧ c ∈ P ∧
  ∃ gc, indexed_gates_ ft !! c = Some gc ∧
        Gate.type gc ≠ kNotGate ∧ Gate.type gc ≠ kNullGate.

Definition plain (ft : IndexedFaultTree) (P : gset Z) (i : Z) : Prop :=
  ∃ g, indexed_gates_ ft !! i = Some g ∧
    ∀ c, c ∈ Gate.children g → gate_index_ ft < Z.abs c → plain_child ft P c.

(** The complements that are known belong to processed AND and OR gates,
    and the processed gates exist. *)
Definition complements_known (s : gmap Z Z * gset Z)
    (ft : IndexedFaultTree) : Prop :=
  0 ≤ gate_index_ ft ∧ 0 ≤ new_gate_index_ ft ∧
  (∀ i, i ∈ s.2 → is_Some (indexed_gates_ ft !! i)) ∧
  ∀ k v, s.1 !! k = Some v →
    0 < v ∧ v ∈ s.2 ∧
    ∃ gv, indexed_gates_ ft !! v = Some gv ∧ and_or (Gate.type gv).

(** What PropagateComplements guarantees for the gate it is called on. *)
Definition complemented (ft : IndexedFaultTree) (gate : Z) (P : gset Z)
    (r : gmap Z Z * gset Z) (ft' : IndexedFaultTree) : Prop :=
  P ⊆ r.2 ∧ frame ft ft' ∧ complements_known r ft' ∧
  (∀ i, i ≠ gate → i ∈ P ∨ i ∉ r.2 →
        indexed_gates_ ft' !! i = indexed_gates_ ft !! i) ∧
  (∀ i, i ∈ r.2 → i ∉ P → plain ft' r.2 i) ∧
  plain ft' r.2 gate.

(** No complement of a gate is left below the top event: each reference of
    a reachable gate to a gate is positive and goes to a gate that is
    neither NOT nor NULL. *)
Definition complement_free (ft : IndexedFaultTree) : Prop :=
  ∀ i, reachable ft i →
    ∃ g, indexed_gates_ ft !! i = Some g ∧
      ∀ c, c ∈ Gate.children g → gate_index_ ft < Z.abs c →
        0 < c ∧
        ∃ gc, indexed_gates_ ft !! c = Some gc ∧
              Gate.type gc ≠ kNotGate ∧ Gate.type gc ≠ kNullGate.

(** The top event 4 = AND(not 5, 6) over 5 = OR(x, y) and 6 = NOT(5); the
    basic events are x = 1 and y = 2. *)
Definition negated_gate : IndexedFaultTree :=
  input_tree 4 6 [(4, input_gate kAndGate [-5; 6]);
                  (5, input_gate kOrGate [1; 2]);
                  (6, input_gate kNotGate [5])].

(** The gate [g'] computes what [g] computes: same connective, vote
    number, children and state. *)
Definition same_function (g g' : IndexedGate) : Prop :=
  Gate.type g' = Gate.type g ∧ Gate.vote_number g' = Gate.vote_number g ∧
  Gate.children g' = Gate.children g ∧ Gate.state g' = Gate.state g.

(** The value of a literal under the sign of the top event. *)
Definition signed (sign : Z) (v : bool) : bool :=
  if sign <? 0 then negb v else v.

(** NOR and NAND are the negative kinds; normalization turns them into OR
    and AND. *)
Definition negative_type (t : GateType) : bool :=
  bool_decide (t = kNorGate ∨ t = kNandGate).

Definition positive_type (t : GateType) : GateType :=
  match t with
  | kNorGate => kOrGate
  | kNandGate => kAndGate
  | t => t
  end.

Definition negative_gate (ft : IndexedFaultTree) (i : Z) : bool :=
  match indexed_gates_ ft !! i with
  | Some g => negative_type (Gate.type g)
  | None => false
  end.

(** The reference [c] of the gate [p] is negated once the loop of
    NormalizeGates over the gates [K] has notified the parents: [c] is a
    negative gate of [K] other than the top event, with [p] among its
    parents. *)
Definition notifies (ft : IndexedFaultTree) (K : list Z) (p c : Z) : bool :=
  bool_decide (c ∈ K) && bool_decide (c ≠ top_event_index_ ft) &&
  match indexed_gates_ ft !! c with
  | Some g => negative_type (Gate.type g) && bool_decide (p ∈ Gate.parents g)
  | None => false
  end.

Definition notified_children (ft : IndexedFaultTree) (K : list Z) (p : Z)
    (g : IndexedGate) : IndexedGate :=
  Gate.set_children
    (set_map (λ c, if notifies ft K p c then - c else c) (Gate.children g)) g.

Definition all_notified (ft : IndexedFaultTree) (K : list Z)
    (ft' : IndexedFaultTree) : Prop :=
  top_event_index_ ft' = top_event_index_ ft ∧
  gate_index_ ft' = gate_index_ ft ∧
  new_gate_index_ ft' = new_gate_index_ ft ∧
  top_event_sign_ ft' = top_event_sign_ ft ∧
  modules_ ft' = modules_ ft ∧
  ∀ i, indexed_gates_ ft' !! i =
       notified_children ft K i <$> indexed_gates_ ft !! i.

(** The gates of [K] have their positive kind. *)
Definition all_positive (ft : IndexedFaultTree) (K : list Z)
    (ft' : IndexedFaultTree) : Prop :=
  top_event_index_ ft' = top_event_index_ ft ∧
  gate_index_ ft' = gate_index_ ft ∧
  new_gate_index_ ft' = new_gate_index_ ft ∧
  top_event_sign_ ft' = top_event_sign_ ft ∧
  modules_ ft' = modules_ ft ∧
  ∀ i, indexed_gates_ ft' !! i =
       (λ g, if bool_decide (i ∈ K)
             then Gate.set_type (positive_type (Gate.type g)) g else g)
       <$> indexed_gates_ ft !! i.

(** A graph as NormalizeGates takes it when it has neither XOR nor ATLEAST
    gates: every gate but the top event has an index above [gate_index_]
    and is in its normal state, and the references to gates are positive. *)
Definition basic_connectives (ft : IndexedFaultTree) : Prop :=
  0 ≤ gate_index_ ft ∧ top_event_sign_ ft ≠ 0 ∧
  ∀ k g, indexed_gates_ ft !! k = Some g →
    (k = top_event_index_ ft ∨ gate_index_ ft < k) ∧
    Gate.state g = kNormalState ∧
    Gate.type g ≠ kXorGate ∧ Gate.type g ≠ kAtleastGate ∧
    ∀ c, c ∈ Gate.children g → gate_index_ ft < Z.abs c → 0 < c.

(** The gate children of [p] are in [P]. *)
Definition children_in (P : gset Z) (p : Z) (ft : IndexedFaultTree) : Prop :=
  ∀ g c, indexed_gates_ ft !! p = Some g → c ∈ Gate.children g →
         gate_index_ ft < Z.abs c → Z.abs c ∈ P.

(** The top event 3 = NOT(4) over 4 = NOR(x, 5) and 5 = NAND(x, y); the
    basic events are x = 1 and y = 2. *)
Definition negative_gates : IndexedFaultTree :=
  input_tree 3 5 [(3, input_gate kNotGate [4]);
                  (4, input_gate kNorGate [1; 5]);
                  (5, input_gate kNandGate [1; 2])].

(** The value of a gate from the values [w] of its child literals. *)
Definition gate_value (w : Z → option bool) (g : IndexedGate) : option bool :=
  match Gate.state g with
  | kNullState => Some false
  | kUnityState => Some true
  | kNormalState =>
      vs ← mapM w (ascending (Gate.children g));
      connective (Gate.type g) (Gate.vote_number g) vs
  end.

(** The gate [g'] stands for the gate [i] of the graph [ft0]: whenever [i]
    has a value in [ft0], [g'] has this value on the values that its child
    literals have in [ft0]. *)
Definition sound_gate (ft0 : IndexedFaultTree) (ρ : Z → bool) (i : Z)
    (g' : IndexedGate) : Prop :=
  ∀ m v, eval_gate (S m) ft0 ρ i = Some v →
         gate_value (eval_literal m ft0 ρ) g' = Some v.

Definition sound (ft0 : IndexedFaultTree) (ρ : Z → bool)
    (ft : IndexedFaultTree) : Prop :=
  top_event_index_ ft = top_event_index_ ft0 ∧
  gate_index_ ft = gate_index_ ft0 ∧
  top_event_sign_ ft = top_event_sign_ ft0 ∧
  ∀ i g0, indexed_gates_ ft0 !! i = Some g0 →
    ∃ g', indexed_gates_ ft !! i = Some g' ∧ sound_gate ft0 ρ i g'.

(** The literal [c] has, where it has a value, the value that a gate of
    the kind [t] can drop: false in an OR gate, true in an AND or NULL
    gate. *)
Definition neutral (w : Z → option bool) (t : GateType) (c : Z) : Prop :=
  (t = kOrGate ∧ ∀ v, w c = Some v → v = false) ∨
  ((t = kAndGate ∨ t = kNullGate) ∧ ∀ v, w c = Some v → v = true).

(** The kinds of gate that drop a child of the value [b]. *)
Definition neutral_kind (t : GateType) (b : bool) : Prop :=
  (t = kOrGate ∧ b = false) ∨ ((t = kAndGate ∨ t = kNullGate) ∧ b = true).

(** The assignment gives the house events their asserted values. *)
Definition agrees (true_house_events false_house_events : gset Z)
    (ρ : Z → bool) : Prop :=
  (∀ i, i ∈ false_house_events → ρ i = false) ∧
  (∀ i, i ∈ true_house_events → ρ i = true).

(** The top event 4 = AND(x, 5) over 5 = OR(h, k); x = 1 is a basic event,
    h = 2 and k = 3 are house events. *)
Definition house_events_below : IndexedFaultTree :=
  input_tree 4 5 [(4, input_gate kAndGate [1; 5]);
                  (5, input_gate kOrGate [2; 3])].

(** A binary XOR over two events, the second below a NOT gate:
    4 = XOR(x, 5) and 5 = NOT(y), with the basic events x = 1 and y = 2. *)
Definition xor_over_not : IndexedFaultTree :=
  input_tree 4 5 [(4, input_gate kXorGate [1; 5]);
                  (5, input_gate kNotGate [2])].

(** The fields that say what an index stands for: the top event, its sign
    and the bound between events and gates. *)
Definition same_indices (ft0 ft : IndexedFaultTree) : Prop :=
  top_event_index_ ft = top_event_index_ ft0 ∧
  gate_index_ ft = gate_index_ ft0 ∧
  top_event_sign_ ft = top_event_sign_ ft0.

(** The top event 4 = OR(5, z) over 5 = AND(x, 6) and the gate 6, which is
    NULL-CONSTANT; x = 1 and z = 3 are basic events. *)
Definition constant_below : IndexedFaultTree :=
  input_tree 4 6 [(4, input_gate kOrGate [3; 5]);
                  (5, input_gate kAndGate [1; 6]);
                  (6, Gate.Nullify (input_gate kOrGate [2]))].

(** Some gate of the graph is a constant. *)
Definition has_constant (ft : IndexedFaultTree) : Prop :=
  ∃ i g, indexed_gates_ ft !! i = Some g ∧ Gate.state g ≠ kNormalState.

(** The graph stands for the graph [ft0], unless a gate has become a
    constant. *)
Definition sound_or_constant (ft0 : IndexedFaultTree) (ρ : Z → bool)
    (ft : IndexedFaultTree) : Prop :=
  has_constant ft ∨ sound ft0 ρ ft.

(** The values of the literals [X] make the value [v] in a gate of the
    kind [t], AND or OR. *)
Definition combined (w : Z → option bool) (t : GateType) (X : gset Z)
    (v : bool) : Prop :=
  (∀ c, c ∈ X → is_Some (w c)) ∧
  (v = true ↔
   if decide (t = kAndGate) then ∀ c, c ∈ X → w c = Some true
   else ∃ c, c ∈ X ∧ w c = Some true).

(** The top event 4 = AND(x, 5, 6) over 5 = AND(y, z) and 6 = OR(u); the
    basic events are x = 1, y = 2, z = 3 and u = 7 with gate_index_ 3. *)
Definition nested_and : IndexedFaultTree :=
  mkTree 4 3 6 1
    (list_to_map [(4, input_gate kAndGate [1; 5; 6]);
                  (5, input_gate kAndGate [2; 3]);
                  (6, input_gate kOrGate [2; 1])]) ∅.

(** Every reference to a gate leads to a gate of a lower rank: the graph is
    closed and has no cycle.  Module detection takes the literals below the
    top event for basic events. *)
Definition ranked (rank : Z → nat) (ft : IndexedFaultTree) : Prop :=
  ∀ i g c, indexed_gates_ ft !! i = Some g → c ∈ Gate.children g →
    top_event_index_ ft ≤ Z.abs c →
    is_Some (indexed_gates_ ft !! Z.abs c) ∧ (rank (Z.abs c) < rank i)%nat.

(** The counter of fresh indices is not below the first gate index, and no
    gate has an index above it. *)
Definition fresh_indices (ft : IndexedFaultTree) : Prop :=
  0 ≤ new_gate_index_ ft ∧ gate_index_ ft ≤ new_gate_index_ ft ∧
  ∀ i, new_gate_index_ ft < i → indexed_gates_ ft !! i = None.

(** The graph [ft'] has the gates of [ft], with the same kinds, children and
    states. *)
Definition same_graph (ft ft' : IndexedFaultTree) : Prop :=
  top_event_index_ ft' = top_event_index_ ft ∧
  gate_index_ ft' = gate_index_ ft ∧
  new_gate_index_ ft' = new_gate_index_ ft ∧
  (∀ i, indexed_gates_ ft !! i = None → indexed_gates_ ft' !! i = None) ∧
  ∀ i g, indexed_gates_ ft !! i = Some g →
         ∃ g', indexed_gates_ ft' !! i = Some g' ∧ same_function g g'.

(** The invariant of FindOriginalModules: the gates of the graph [ft1]
    that are not in [V], the gates that have been visited, are as they were
    in [ft1], and the gates of [ft1] have kept their values. *)
Definition detecting (ft1 : IndexedFaultTree) (ρ : Z → bool) (V : Z → Prop)
    (ft : IndexedFaultTree) : Prop :=
  top_event_index_ ft = top_event_index_ ft1 ∧
  gate_index_ ft = gate_index_ ft1 ∧
  fresh_indices ft ∧
  (∀ i g, indexed_gates_ ft1 !! i = Some g → ¬ V i →
          indexed_gates_ ft !! i = Some g) ∧
  ∀ i v, value ft1 ρ i v → value ft ρ i v.

(** No gate of the graph is a constant. *)
Definition normal_states (ft : IndexedFaultTree) : Prop :=
  ∀ i g, indexed_gates_ ft !! i = Some g → Gate.state g = kNormalState.

(** The graph as normalization leaves it for complement propagation: the
    gates are AND, OR, NOT and NULL gates, no child literal is 0 and the top
    event is the child of no gate. *)
Definition tidy (ft : IndexedFaultTree) : Prop :=
  ∀ i g, indexed_gates_ ft !! i = Some g →
    normalized (Gate.type g) ∧
    ∀ c, c ∈ Gate.children g → c ≠ 0 ∧ Z.abs c ≠ top_event_index_ ft.

(** The literal of the first graph that a gate stands for: [μ] holds it for
    the gates that complement propagation has added, and any other gate
    stands for itself. *)
Definition meant (μ : gmap Z Z) (i : Z) : Z := default i (μ !! i).

(** The value that the gate [i] stands for, in the first graph [ft0]. *)
Definition meant_value (ft0 : IndexedFaultTree) (ρ : Z → bool)
    (μ : gmap Z Z) (m : nat) (i : Z) : option bool :=
  match μ !! i with
  | Some l => eval_literal m ft0 ρ l
  | None => eval_gate m ft0 ρ i
  end.

(** The value that a child literal stands for. *)
Definition meant_literal (ft0 : IndexedFaultTree) (ρ : Z → bool)
    (μ : gmap Z Z) (m : nat) (c : Z) : option bool :=
  v ← (if Z.abs c >? gate_index_ ft0
       then meant_value ft0 ρ μ m (Z.abs c)
       else Some (ρ (Z.abs c)));
  Some (if c <? 0 then negb v else v).

(** The gate [g'] has the value that the gate [i] stands for, on the values
    that its child literals stand for. *)
Definition stands_for (ft0 : IndexedFaultTree) (ρ : Z → bool)
    (μ : gmap Z Z) (i : Z) (g' : IndexedGate) : Prop :=
  ∀ m v, meant_value ft0 ρ μ (S m) i = Some v →
         gate_value (meant_literal ft0 ρ μ m) g' = Some v.

(** A gate of the first graph or a gate that has been added. *)
Definition known (ft0 : IndexedFaultTree) (μ : gmap Z Z) (i : Z) : Prop :=
  is_Some (indexed_gates_ ft0 !! i) ∨ is_Some (μ !! i).

(** The invariant of complement propagation from the graph [ft0], while no
    gate is a constant: each gate has the value that it stands for, a gate
    that has been added stands for a literal over a gate of [ft0], and a
    known complement stands for the complement of its gate. *)
Definition complementing (ft0 : IndexedFaultTree) (ρ : Z → bool)
    (μ : gmap Z Z) (s : gmap Z Z * gset Z) (ft : IndexedFaultTree) : Prop :=
  top_event_index_ ft = top_event_index_ ft0 ∧
  gate_index_ ft = gate_index_ ft0 ∧
  top_event_sign_ ft = top_event_sign_ ft0 ∧
  (0 ≤ gate_index_ ft ≤ new_gate_index_ ft) ∧
  tidy ft ∧
  (top_event_index_ ft0 ∉ s.2) ∧
  is_Some (indexed_gates_ ft0 !! top_event_index_ ft0) ∧
  (∀ j l, μ !! j = Some l →
     indexed_gates_ ft0 !! j = None ∧ 0 < j ∧ gate_index_ ft0 < j ∧
     gate_index_ ft0 < Z.abs l) ∧
  (∀ j, is_Some (indexed_gates_ ft !! j) → known ft0 μ j) ∧
  (∀ j, known ft0 μ j →
     ∃ g', indexed_gates_ ft !! j = Some g' ∧ stands_for ft0 ρ μ j g') ∧
  (∀ o nm, s.1 !! o = Some nm →
     known ft0 μ o ∧ μ !! nm = Some (- meant μ o)).

(** What complement propagation has kept when no gate is a constant
    ([complements_loop] also needs the children that it has still to visit
    to be children of the gate). *)
Definition complements_sound (ft0 : IndexedFaultTree) (ρ : Z → bool)
    (s : gmap Z Z * gset Z) (ft : IndexedFaultTree) : Prop :=
  normal_states ft → ∃ μ, complementing ft0 ρ μ s ft.

(** What a run of complement propagation from the state [ft] keeps: a
    constant gate stays one, and the graph stays sound while there is
    none. *)
Definition complements_kept (ft0 : IndexedFaultTree) (ρ : Z → bool)
    (ft : IndexedFaultTree) (r : gmap Z Z * gset Z)
    (ft' : IndexedFaultTree) : Prop :=
  (normal_states ft' → normal_states ft) ∧ complements_sound ft0 ρ r ft'.

(** A pass that starts in the state [ft0] cannot undo a constant: when no
    gate is a constant afterwards, none was before. *)
Definition normal_before (ft0 ft : IndexedFaultTree) : Prop :=
  normal_states ft → normal_states ft0.

(** What a pass keeps of the graph [ft]: the top event and its sign and,
    unless a gate has become a constant, the values of the gates. *)
Definition kept_if_normal (ρ : Z → bool) (ft ft' : IndexedFaultTree) : Prop :=
  top_event_index_ ft' = top_event_index_ ft ∧
  top_event_sign_ ft' = top_event_sign_ ft ∧
  (normal_states ft' →
   normal_states ft ∧
   ∀ n i v, eval_gate n ft ρ i = Some v → eval_gate n ft' ρ i = Some v).

(** The top event 4 = OR(x, not 5) over 5 = AND(y, z), under a negative
    sign; the basic events are x = 1, y = 2 and z = 3 with gate_index_ 3. *)
Definition negated_top : IndexedFaultTree :=
  mkTree 4 3 5 (-1)
    (list_to_map [(4, input_gate kOrGate [1; -5]);
                  (5, input_gate kAndGate [2; 3])]) ∅.



(** The gate [i] after constant propagation: none of its children is one of
    the house events, and its references to gates go to gates of [P]. *)
Definition settled (T F : gset Z) (P : gset Z) (ft : IndexedFaultTree)
    (i : Z) : Prop :=
  ∃ g, indexed_gates_ ft !! i = Some g ∧
    ∀ c, c ∈ Gate.children g →
      (Z.abs c ≤ gate_index_ ft → Z.abs c ∉ F ∧ Z.abs c ∉ T) ∧
      (gate_index_ ft < Z.abs c → Z.abs c ∈ P).

(** What PropagateConstants guarantees for the gates that it processes. *)
Definition constants_settled (T F : gset Z) (ft : IndexedFaultTree)
    (P : gset Z) (P' : gset Z) (ft' : IndexedFaultTree) : Prop :=
  P ⊆ P' ∧
  top_event_index_ ft' = top_event_index_ ft ∧
  gate_index_ ft' = gate_index_ ft ∧
  (∀ i, i ∈ P → indexed_gates_ ft' !! i = indexed_gates_ ft !! i) ∧
  (∀ i, i ∈ P' → i ∉ P → settled T F P' ft' i).

(** The top event 4 = AND(x, 5) over 5 = OR(not h, y); x = 1 and y = 3 are
    basic events and h = 2 is a house event. *)
Definition house_event_below : IndexedFaultTree :=
  input_tree 4 5 [(4, input_gate kAndGate [1; 5]);
                  (5, input_gate kOrGate [-2; 3])].

(** The negation that the top event carries, in the words of the
    specification: a NOR or a NAND at the top is one negation, a NOT at the
    top negates what the gate below it carries, a NULL gate at the top
    passes it on, and any other gate carries none. *)
Fixpoint top_negation (fuel : nat) (ft : IndexedFaultTree) (i : Z)
  : option bool :=
  match fuel with
  | O => None
  | S fuel' =>
      match indexed_gates_ ft !! i with
      | None => None
      | Some g =>
          match Gate.type g with
          | kNorGate | kNandGate => Some true
          | kNotGate =>
              match ascending (Gate.children g) with
              | [c] => negb <$> top_negation fuel' ft c
              | _ => None
              end
          | kNullGate =>
              match ascending (Gate.children g) with
              | [c] => top_negation fuel' ft c
              | _ => None
              end
          | _ => Some false
          end
      end
  end.

(** The other kind of an AND or OR gate. *)
Definition flipped (t : GateType) : GateType :=
  match t with
  | kOrGate => kAndGate
  | kAndGate => kOrGate
  | t => t
  end.

(** A negative top-event sign absorbed by the graph, in the words of the
    specification: the kind of the top gate is flipped, its children are
    inverted, and the sign is +1. *)
Definition sign_absorbed (ft : IndexedFaultTree) : IndexedFaultTree :=
  if top_event_sign_ ft <? 0 then
    match indexed_gates_ ft !! top_event_index_ ft with
    | Some g =>
        set_sign 1
          (set_gates
             (<[top_event_index_ ft :=
                  Gate.InvertChildren (Gate.set_type (flipped (Gate.type g)) g)]>
                (indexed_gates_ ft)) ft)
    | None => ft
    end
  else ft.

(** The top event NOR(1, 2) with the sign absorbed: AND(-1, -2). *)
Definition nor_top_absorbed : IndexedFaultTree :=
  input_tree 3 3 [(3, input_gate kAndGate [-1; -2])].

(** The graph on which constant propagation runs after normalization: each
    gate is an AND or an OR gate, each child above [gate_index_] is a gate,
    and a gate has a higher rank than the gates among its children, so that
    the graph has no cycle. *)
Definition propagable (rank : Z → nat) (ft : IndexedFaultTree) : Prop :=
  ∀ i g, indexed_gates_ ft !! i = Some g →
    and_or (Gate.type g) ∧
    ∀ c, c ∈ Gate.children g → gate_index_ ft < Z.abs c →
      is_Some (indexed_gates_ ft !! Z.abs c) ∧
      (rank (Z.abs c) < rank i)%nat.

(** The gate [i], whose record was [g] when constant propagation began, has
    been processed: its record follows the table, its references to gates
    go to gates of [P], and the children that decided the outcome are
    events or gates of [P] that are not in progress ([A]): a child of
    absorbing value, or else all children. *)
Definition propagated_gate (T F : gset Z) (P A : gset Z)
    (ft : IndexedFaultTree) (i : Z) (g : IndexedGate) : Prop :=
  indexed_gates_ ft !! i = Some (propagated T F ft g) ∧
  (∀ c, c ∈ Gate.children (propagated T F ft g) →
        gate_index_ ft < Z.abs c → Z.abs c ∈ P) ∧
  ((∃ c, c ∈ Gate.children g ∧
         literal_value T F ft c = Some (absorbing (Gate.type g)) ∧
         (gate_index_ ft < Z.abs c → Z.abs c ∈ P ∧ Z.abs c ∉ A)) ∨
   (∀ c, c ∈ Gate.children g → gate_index_ ft < Z.abs c →
         Z.abs c ∈ P ∧ Z.abs c ∉ A)).

(** What a call of PropagateConstants guarantees: the gates that were
    processed before and the gates that are not processed keep their
    records, and the others have been processed by the table. *)
Definition constants_propagated (T F : gset Z) (A : gset Z)
    (ft : IndexedFaultTree) (P : gset Z) (P' : gset Z)
    (ft' : IndexedFaultTree) : Prop :=
  P ⊆ P' ∧
  gate_index_ ft' = gate_index_ ft ∧
  top_event_index_ ft' = top_event_index_ ft ∧
  (∀ i, i ∈ P ∨ i ∉ P' →
        indexed_gates_ ft' !! i = indexed_gates_ ft !! i) ∧
  (∀ i, i ∈ P' → i ∉ P →
        ∃ g, indexed_gates_ ft !! i = Some g ∧
             propagated_gate T F P' A ft' i g).

(** The rank of the gates of [house_events_below]. *)
Definition below_rank (i : Z) : nat := Z.to_nat (10 - i).

(** * Properties *)

(** ** Iteration over sets *)

Lemma ascending_perm (s : gset Z) : ascending s ≡ₚ elements s.
Proof. apply merge_sort_Permutation. Qed.

Lemma elem_of_ascending (x : Z) (s : gset Z) : x ∈ ascending s ↔ x ∈ s.
Proof. rewrite ascending_perm. apply elem_of_elements. Qed.

Lemma NoDup_ascending (s : gset Z) : NoDup (ascending s).
Proof. rewrite ascending_perm. apply NoDup_elements. Qed.

Lemma length_ascending (s : gset Z) : length (ascending s) = size s.
Proof. by rewrite ascending_perm. Qed.

Lemma ascending_empty : ascending ∅ = [].
Proof.
  apply Permutation_nil_r. rewrite ascending_perm. by rewrite elements_empty.
Qed.

Lemma ascending_singleton (a : Z) : ascending {[a]} = [a].
Proof.
  apply Permutation_singleton_r. rewrite ascending_perm.
  by rewrite elements_singleton.
Qed.

Lemma ascending_nil_inv (s : gset Z) : ascending s = [] → s = ∅.
Proof.
  intros H. apply set_eq. intros x. rewrite <- elem_of_ascending, H.
  set_solver.
Qed.

Lemma ascending_pair (a b : Z) :
  a ≠ b → ascending {[a; b]} = [a; b] ∨ ascending {[a; b]} = [b; a].
Proof.
  intros Hab. apply Permutation_length_2_inv. rewrite ascending_perm.
  rewrite elements_union_singleton by set_solver.
  by rewrite elements_singleton.
Qed.

Lemma list_to_set_ascending (s : gset Z) : list_to_set (ascending s) = s.
Proof.
  apply set_eq. intros x. by rewrite elem_of_list_to_set, elem_of_ascending.
Qed.

(** ** Rules of the weakest precondition *)

Section wp_rules.
Context (E : failure → Prop).

Lemma wp_ret {A} (a : A) Q ft : Q a ft → wp E (ret a) Q ft.
Proof. done. Qed.

Lemma wp_bind {A B} (c : M A) (k : A → M B) Q ft :
  wp E c (λ a ft', wp E (k a) Q ft') ft → wp E (bind c k) Q ft.
Proof. unfold wp, bind. by destruct (c ft). Qed.

Lemma wp_bind_inv {A B} (c : M A) (k : A → M B) Q ft :
  (∀ f, E f → False) →
  wp E (bind c k) Q ft → wp E c (λ a ft', wp E (k a) Q ft') ft.
Proof. unfold wp, bind. by destruct (c ft). Qed.

Lemma wp_mono {A} (c : M A) (Q Q' : A → IndexedFaultTree → Prop) ft :
  wp E c Q ft → (∀ a ft', Q a ft' → Q' a ft') → wp E c Q' ft.
Proof. unfold wp. destruct (c ft); auto. Qed.

Lemma wp_fail {A} f (Q : A → _) ft : E f → wp E (fail f) Q ft.
Proof. done. Qed.

Lemma wp_assert (b : bool) Q ft :
  (if b then Q tt ft else E AssertionFailed) → wp E (assert b) Q ft.
Proof. by destruct b. Qed.

Lemma wp_get {A} (f : IndexedFaultTree → A) Q ft :
  Q (f ft) ft → wp E (get f) Q ft.
Proof. done. Qed.

Lemma wp_modify f Q ft : Q tt (f ft) → wp E (modify f) Q ft.
Proof. done. Qed.

Lemma wp_find_gate i Q ft :
  match indexed_gates_ ft !! i with
  | Some g => Q g ft
  | None => E InvalidAccess
  end → wp E (find_gate i) Q ft.
Proof. unfold wp, find_gate. by destruct (_ !! _). Qed.

Lemma wp_insert_gate i g Q ft :
  match indexed_gates_ ft !! i with
  | Some _ => E IndexClash
  | None => Q tt (set_gates (<[i := g]> (indexed_gates_ ft)) ft)
  end → wp E (insert_gate i g) Q ft.
Proof. unfold wp, insert_gate. by destruct (_ !! _). Qed.

Lemma wp_on_gate i f Q ft :
  match indexed_gates_ ft !! i with
  | Some g => Q tt (set_gates (<[i := f g]> (indexed_gates_ ft)) ft)
  | None => E InvalidAccess
  end → wp E (on_gate i f) Q ft.
Proof.
  unfold wp, on_gate, bind, find_gate, modify. by destruct (_ !! _).
Qed.

Lemma wp_call_gate i f Q ft :
  match indexed_gates_ ft !! i with
  | Some g =>
      Q (f g).1 (set_gates (<[i := (f g).2]> (indexed_gates_ ft)) ft)
  | None => E InvalidAccess
  end → wp E (call_gate i f) Q ft.
Proof.
  unfold wp, call_gate, bind, find_gate, modify, ret.
  by destruct (_ !! _).
Qed.

Lemma wp_next_index Q ft :
  Q (new_gate_index_ ft + 1) (set_new_index (new_gate_index_ ft + 1) ft) →
  wp E next_index Q ft.
Proof. done. Qed.

Lemma wp_done {A} (c : M A) Q ft a ft' :
  wp E c Q ft → c ft = Done a ft' → Q a ft'.
Proof. unfold wp. intros H Heq. by rewrite Heq in H. Qed.

(** A loop keeps an invariant that each iteration keeps. *)
Lemma wp_for_each {A} (l : list A) (body : A → M unit)
    (I : IndexedFaultTree → Prop) ft :
  (∀ x ft, x ∈ l → I ft → wp E (body x) (λ _, I) ft) →
  I ft → wp E (for_each l body) (λ _, I) ft.
Proof.
  revert ft. induction l as [|x l IH]; intros ft Hbody HI; simpl.
  - by apply wp_ret.
  - apply wp_bind. eapply wp_mono; [apply Hbody; [left | done]|].
    intros [] ft' HI'. apply IH; [|done].
    intros y ft'' Hy. apply Hbody. by right.
Qed.

Lemma wp_for_fold {A S} (l : list A) (s : S) (body : A → S → M S)
    (I : S → IndexedFaultTree → Prop) ft :
  (∀ x s ft, x ∈ l → I s ft → wp E (body x s) I ft) →
  I s ft → wp E (for_fold l s body) I ft.
Proof.
  revert s ft. induction l as [|x l IH]; intros s ft Hbody HI; simpl.
  - by apply wp_ret.
  - apply wp_bind. eapply wp_mono; [apply Hbody; [left | done]|].
    intros s' ft' HI'. apply IH; [|done].
    intros y s'' ft'' Hy. apply Hbody. by right.
Qed.

Lemma wp_scan {A S} (l : list A) (s : S) (body : A → S → M (bool * S))
    (I : S → IndexedFaultTree → Prop) ft :
  (∀ x s ft, x ∈ l → I s ft → wp E (body x s) (λ r, I r.2) ft) →
  I s ft → wp E (scan l s body) (λ r, I r.2) ft.
Proof.
  revert s ft. induction l as [|x l IH]; intros s ft Hbody HI; simpl.
  - by apply wp_ret.
  - apply wp_bind. eapply wp_mono; [apply Hbody; [left | done]|].
    intros [leave s'] ft' HI'. destruct leave; simpl in HI'.
    + by apply wp_ret.
    + apply IH; [|done]. intros y s'' ft'' Hy. apply Hbody. by right.
Qed.
End wp_rules.

Lemma wp_total {A} (c : M A) Q ft :
  wp no_failure c Q ft → ∃ a ft', c ft = Done a ft' ∧ Q a ft'.
Proof. unfold wp. destruct (c ft); [eauto | done]. Qed.

Ltac wp_step :=
  lazymatch goal with
  | |- wp _ (bind _ _) _ _ => apply wp_bind
  | |- wp _ (ret _) _ _ => apply wp_ret
  | |- wp _ (get _) _ _ => apply wp_get
  | |- wp _ (modify _) _ _ => apply wp_modify
  | |- wp _ (multiply_sign _) _ _ => apply wp_modify
  | |- wp _ (assert _) _ _ => apply wp_assert
  | |- wp _ (find_gate _) _ _ => apply wp_find_gate
  | |- wp _ (insert_gate _ _) _ _ => apply wp_insert_gate
  | |- wp _ (on_gate _ _) _ _ => apply wp_on_gate
  | |- wp _ (call_gate _ _) _ _ => apply wp_call_gate
  | |- wp _ next_index _ _ => apply wp_next_index
  | |- wp _ (fail _) _ _ => apply wp_fail
  end.

Ltac tree_simpl :=
  cbn [indexed_gates_ set_gates set_new_index set_top set_sign set_modules
       new_gate_index_ top_event_index_ gate_index_ top_event_sign_ modules_].

Ltac lookup_simpl :=
  tree_simpl;
  repeat first
    [ rewrite lookup_insert_eq
    | rewrite lookup_insert_ne by (first [assumption | lia | congruence]) ].

Ltac wp_run :=
  repeat (wp_step; lookup_simpl;
          repeat match goal with
                 | H : ?m !! ?i = _ |- context [?m !! ?i] => rewrite H
                 end).

Lemma wp_conj E {A} (c : M A) (Q1 Q2 : A → IndexedFaultTree → Prop) ft :
  wp E c Q1 ft → wp E c Q2 ft → wp E c (λ a ft', Q1 a ft' ∧ Q2 a ft') ft.
Proof. unfold wp. destruct (c ft); auto. Qed.

Lemma wp_any {A} (c : M A) ft : wp any_failure c (λ _ _, True) ft.
Proof. unfold wp. by destruct (c ft). Qed.

(** ** What the passes leave alone *)

#[global] Instance frame_preorder : PreOrder frame.
Proof.
  split.
  - intros ft. unfold frame. repeat split; try lia. eauto.
  - intros a b c (?&?&?&?&Hab) (?&?&?&?&Hbc). unfold frame.
    repeat split; try congruence; try lia.
    intros i g Hg. destruct (Hab i g Hg) as (g'&Hg'&Ht).
    destruct (Hbc i g' Hg') as (g''&?&?). exists g''. split; congruence.
Qed.

Lemma type_AddChild c g : Gate.type (Gate.AddChild c g).2 = Gate.type g.
Proof. unfold Gate.AddChild. by case_decide. Qed.

Lemma type_SwapChild a b g : Gate.type (Gate.SwapChild a b g).2 = Gate.type g.
Proof. unfold Gate.SwapChild. by rewrite type_AddChild. Qed.

Lemma type_add_children cs g :
  Gate.type (Gate.add_children cs g).2 = Gate.type g.
Proof.
  revert g. induction cs as [|c cs IH]; intros g; simpl; [done|].
  destruct (Gate.AddChild c g) as [ok g'] eqn:Hadd.
  assert (Gate.type g' = Gate.type g).
  { replace g' with (Gate.AddChild c g).2 by by rewrite Hadd.
    apply type_AddChild. }
  destruct ok; simpl; [rewrite IH|]; done.
Qed.

Lemma type_MergeGate i child g :
  Gate.type (Gate.MergeGate i child g).2 = Gate.type g.
Proof. unfold Gate.MergeGate. by rewrite type_add_children. Qed.

Lemma type_Visit t g : Gate.type (Gate.Visit t g).2 = Gate.type g.
Proof.
  unfold Gate.Visit. destruct (Gate.visits g) as [[v0 v1] v2].
  by repeat case_decide.
Qed.

Section preserves.
Context (I : IndexedFaultTree → Prop).

Lemma preserves_ret {A} (a : A) : preserves I (ret a).
Proof. by intros ft HI. Qed.

Lemma preserves_bind {A B} (c : M A) (k : A → M B) :
  preserves I c → (∀ a, preserves I (k a)) → preserves I (bind c k).
Proof.
  intros Hc Hk ft HI. apply wp_bind. eapply wp_mono; [by apply Hc|].
  intros a ft' HI'. by apply Hk.
Qed.

Lemma preserves_fail {A} f : preserves I (@fail A f).
Proof. by intros ft HI. Qed.

Lemma preserves_assert b : preserves I (assert b).
Proof. intros ft HI. by destruct b. Qed.

Lemma preserves_get {A} (f : IndexedFaultTree → A) : preserves I (get f).
Proof. by intros ft HI. Qed.

Lemma preserves_find_gate i : preserves I (find_gate i).
Proof. intros ft HI. apply wp_find_gate. by destruct (_ !! _). Qed.

Lemma preserves_for_each {A} (l : list A) (body : A → M unit) :
  (∀ x, preserves I (body x)) → preserves I (for_each l body).
Proof. intros Hbody ft HI. apply wp_for_each; [|done]. intros x ft' _. apply Hbody. Qed.

Lemma preserves_for_fold {A S} (l : list A) (s : S) (body : A → S → M S) :
  (∀ x s, preserves I (body x s)) → preserves I (for_fold l s body).
Proof.
  intros Hbody ft HI.
  apply (wp_for_fold _ _ _ _ (λ _, I)); [|done]. intros x s' ft' _. apply Hbody.
Qed.

Lemma preserves_scan {A S} (l : list A) (s : S) (body : A → S → M (bool * S)) :
  (∀ x s, preserves I (body x s)) → preserves I (scan l s body).
Proof.
  intros Hbody ft HI.
  apply (wp_scan _ _ _ _ (λ _, I)); [|done]. intros x s' ft' _. apply Hbody.
Qed.
End preserves.

Section frame.
Context (ft0 : IndexedFaultTree).

Lemma frame_on_gate i f :
  (∀ g, Gate.type (f g) = Gate.type g) → preserves (frame ft0) (on_gate i f).
Proof.
  intros Hf ft Hfr. apply wp_on_gate. destruct (_ !! _) as [g|] eqn:Hg; [|done].
  etrans; [exact Hfr|]. unfold frame; simpl. repeat split; try lia.
  intros j gj Hj. destruct (decide (i = j)) as [->|].
  - rewrite lookup_insert_eq. eexists. split; [done|]. rewrite Hf. congruence.
  - rewrite lookup_insert_ne by done. eauto.
Qed.

Lemma frame_call_gate i f :
  (∀ g, Gate.type (f g).2 = Gate.type g) → preserves (frame ft0) (call_gate i f).
Proof.
  intros Hf ft Hfr. apply wp_call_gate. destruct (_ !! _) as [g|] eqn:Hg; [|done].
  etrans; [exact Hfr|]. unfold frame; simpl. repeat split; try lia.
  intros j gj Hj. destruct (decide (i = j)) as [->|].
  - rewrite lookup_insert_eq. eexists. split; [done|]. rewrite Hf. congruence.
  - rewrite lookup_insert_ne by done. eauto.
Qed.

Lemma frame_insert_gate i g : preserves (frame ft0) (insert_gate i g).
Proof.
  intros ft Hfr. apply wp_insert_gate. destruct (_ !! _) eqn:Hg; [done|].
  etrans; [exact Hfr|]. unfold frame; simpl. repeat split; try lia.
  intros j gj Hj. rewrite lookup_insert_ne by congruence. eauto.
Qed.

Lemma frame_next_index : preserves (frame ft0) next_index.
Proof.
  intros ft Hfr. apply wp_next_index.
  etrans; [exact Hfr|]. unfold frame; simpl. repeat split; try lia. eauto.
Qed.

Lemma frame_set_modules f :
  preserves (frame ft0) (modify (λ ft, set_modules (f ft) ft)).
Proof.
  intros ft Hfr. apply wp_modify.
  etrans; [exact Hfr|]. unfold frame; simpl. repeat split; try lia. eauto.
Qed.
End frame.

Ltac preserves_step :=
  lazymatch goal with
  | |- preserves _ (bind _ _) => apply preserves_bind; [|intros ?]
  | |- preserves _ (ret _) => apply preserves_ret
  | |- preserves _ (fail _) => apply preserves_fail
  | |- preserves _ (assert _) => apply preserves_assert
  | |- preserves _ (get _) => apply preserves_get
  | |- preserves _ (find_gate _) => apply preserves_find_gate
  | |- preserves _ (for_each _ _) => apply preserves_for_each; intros ?
  | |- preserves _ (for_fold _ _ _) => apply preserves_for_fold; intros ? ?
  | |- preserves _ (scan _ _ _) => apply preserves_scan; intros ? ?
  | |- preserves (frame _) (on_gate _ _) =>
      apply frame_on_gate; intros ?; reflexivity
  | |- preserves (frame _) (call_gate _ _) =>
      apply frame_call_gate; intros ?;
      first [apply type_AddChild | apply type_SwapChild
            | apply type_MergeGate | apply type_Visit]
  | |- preserves (frame _) (insert_gate _ _) => apply frame_insert_gate
  | |- preserves (frame _) next_index => apply frame_next_index
  | |- preserves (frame _) (modify (λ ft, set_modules _ ft)) =>
      apply frame_set_modules
  | |- preserves _ (if ?b then _ else _) => destruct b
  | |- preserves _ (match ?x with _ => _ end) => destruct x
  | |- preserves _ (let '(_, _) := ?x in _) => destruct x
  end.

Ltac preserves_auto := repeat (cbv zeta; preserves_step); eauto.

Lemma frame_ProcessConstantChild ft0 gate c st te :
  preserves (frame ft0) (ProcessConstantChild gate c st te).
Proof. unfold ProcessConstantChild. preserves_auto. Qed.

Lemma frame_RemoveChildren ft0 gate te :
  preserves (frame ft0) (RemoveChildren gate te).
Proof. unfold RemoveChildren. preserves_auto. Qed.

Lemma frame_complements_loop ft0 rec fuel :
  (∀ c s, preserves (frame ft0) (rec c s)) →
  ∀ gate it s, preserves (frame ft0) (complements_loop rec fuel gate it s).
Proof.
  intros Hrec. induction fuel as [|fuel IH]; intros gate it s.
  { apply preserves_fail. }
  cbn [complements_loop]. preserves_auto.
Qed.

Lemma frame_PropagateComplements ft0 fuel gate s :
  preserves (frame ft0) (PropagateComplements fuel gate s).
Proof.
  revert gate s. induction fuel as [|fuel IH]; intros gate s.
  { apply preserves_fail. }
  cbn [PropagateComplements]. preserves_auto.
  by apply frame_complements_loop.
Qed.

Lemma frame_ProcessConstGates ft0 fuel gate P :
  preserves (frame ft0) (ProcessConstGates fuel gate P).
Proof.
  revert gate P. induction fuel as [|fuel IH]; intros gate P.
  { apply preserves_fail. }
  cbn [ProcessConstGates].
  preserves_auto; auto using frame_ProcessConstantChild, frame_RemoveChildren.
Qed.

Lemma frame_join_loop ft0 rec fuel :
  (∀ c P, preserves (frame ft0) (rec c P)) →
  ∀ gate parent it ch P,
    preserves (frame ft0) (join_loop rec fuel gate parent it ch P).
Proof.
  intros Hrec. induction fuel as [|fuel IH]; intros gate parent it ch P.
  { apply preserves_fail. }
  cbn [join_loop]. preserves_auto.
Qed.

Lemma frame_JoinGates ft0 fuel gate P :
  preserves (frame ft0) (JoinGates fuel gate P).
Proof.
  revert gate P. induction fuel as [|fuel IH]; intros gate P.
  { apply preserves_fail. }
  cbn [JoinGates]. preserves_auto. by apply frame_join_loop.
Qed.

Lemma frame_coalesce ft0 fuel top :
  preserves (frame ft0) (coalesce fuel top).
Proof.
  revert top. induction fuel as [|fuel IH]; intros top.
  { apply preserves_fail. }
  cbn [coalesce].
  preserves_auto; auto using frame_JoinGates, frame_ProcessConstGates.
Qed.

Lemma frame_basic_visits ft0 vb i : preserves (frame ft0) (basic_visits vb i).
Proof. unfold basic_visits. preserves_auto. Qed.

Lemma frame_AssignTiming ft0 fuel time gate vb :
  preserves (frame ft0) (AssignTiming fuel time gate vb).
Proof.
  revert time gate vb. induction fuel as [|fuel IH]; intros time gate vb.
  { apply preserves_fail. }
  cbn [AssignTiming]. preserves_auto; auto using frame_basic_visits.
Qed.

Lemma frame_CreateNewModule ft0 gate cs :
  preserves (frame ft0) (CreateNewModule gate cs).
Proof. unfold CreateNewModule. preserves_auto. Qed.

Lemma frame_child_interval ft0 vb vg c :
  preserves (frame ft0) (child_interval vb vg c).
Proof. unfold child_interval. preserves_auto; auto using frame_basic_visits. Qed.

Lemma frame_FilterModularChildren ft0 fuel vb vg m nm :
  preserves (frame ft0) (FilterModularChildren fuel vb vg m nm).
Proof.
  revert m nm. induction fuel as [|fuel IH]; intros m nm.
  { apply preserves_fail. }
  cbn [FilterModularChildren].
  preserves_auto; auto using frame_child_interval.
Qed.

Lemma frame_FindOriginalModules ft0 fuel gate vb vg :
  preserves (frame ft0) (FindOriginalModules fuel gate vb vg).
Proof.
  revert gate vg. induction fuel as [|fuel IH]; intros gate vg.
  { apply preserves_fail. }
  cbn [FindOriginalModules].
  preserves_auto;
    auto using frame_basic_visits, frame_CreateNewModule,
               frame_FilterModularChildren.
Qed.

Lemma frame_DetectModules ft0 fuel n :
  preserves (frame ft0) (DetectModules fuel n).
Proof.
  unfold DetectModules.
  preserves_auto; auto using frame_AssignTiming, frame_FindOriginalModules.
Qed.

(** Stepping through a computation for a partial-correctness goal. *)
Ltac wp_auto :=
  repeat first
    [ progress tree_simpl
    | wp_step
    | match goal with
      | |- any_failure _ => exact I
      | |- match ?m !! ?i with _ => _ end => destruct (m !! i) eqn:?
      | |- (if ?b then _ else _) => destruct b eqn:?
      | |- wp _ (if ?b then _ else _) _ _ => destruct b eqn:?
      | |- wp _ (match ?x with _ => _ end) _ _ => destruct x eqn:?
      | |- wp _ (let '(_, _) := ?x in _) _ _ => destruct x eqn:?
      end ].

Section sign.
Context (P : Z → Prop).

Lemma sign_on_gate i f : preserves (sign_is P) (on_gate i f).
Proof. intros ft HP. apply wp_on_gate. by destruct (_ !! _). Qed.

Lemma sign_call_gate i f : preserves (sign_is P) (call_gate i f).
Proof. intros ft HP. apply wp_call_gate. by destruct (_ !! _). Qed.

Lemma sign_insert_gate i g : preserves (sign_is P) (insert_gate i g).
Proof. intros ft HP. apply wp_insert_gate. by destruct (_ !! _). Qed.

Lemma sign_next_index : preserves (sign_is P) next_index.
Proof. by intros ft HP. Qed.

Lemma sign_modify f :
  (∀ ft, top_event_sign_ (f ft) = top_event_sign_ ft) →
  preserves (sign_is P) (modify f).
Proof. intros Hf ft HP. apply wp_modify. unfold sign_is. by rewrite Hf. Qed.

Lemma sign_multiply k :
  (∀ s, P s → P (s * k)) → preserves (sign_is P) (multiply_sign k).
Proof. intros Hk ft HP. apply wp_modify. by apply Hk. Qed.
End sign.

Ltac preserves_step ::=
  lazymatch goal with
  | |- preserves _ (bind _ _) => apply preserves_bind; [|intros ?]
  | |- preserves _ (ret _) => apply preserves_ret
  | |- preserves _ (fail _) => apply preserves_fail
  | |- preserves _ (assert _) => apply preserves_assert
  | |- preserves _ (get _) => apply preserves_get
  | |- preserves _ (find_gate _) => apply preserves_find_gate
  | |- preserves _ (for_each _ _) => apply preserves_for_each; intros ?
  | |- preserves _ (for_fold _ _ _) => apply preserves_for_fold; intros ? ?
  | |- preserves _ (scan _ _ _) => apply preserves_scan; intros ? ?
  | |- preserves (frame _) (on_gate _ _) =>
      apply frame_on_gate; intros ?; reflexivity
  | |- preserves (frame _) (call_gate _ _) =>
      apply frame_call_gate; intros ?;
      first [apply type_AddChild | apply type_SwapChild
            | apply type_MergeGate | apply type_Visit]
  | |- preserves (frame _) (insert_gate _ _) => apply frame_insert_gate
  | |- preserves (frame _) next_index => apply frame_next_index
  | |- preserves (frame _) (modify (λ ft, set_modules _ ft)) =>
      apply frame_set_modules
  | |- preserves (sign_is _) (on_gate _ _) => apply sign_on_gate
  | |- preserves (sign_is _) (call_gate _ _) => apply sign_call_gate
  | |- preserves (sign_is _) (insert_gate _ _) => apply sign_insert_gate
  | |- preserves (sign_is _) next_index => apply sign_next_index
  | |- preserves (sign_is _) (modify _) => apply sign_modify; intros ?; reflexivity
  | |- preserves _ (if ?b then _ else _) => destruct b
  | |- preserves _ (match ?x with _ => _ end) => destruct x
  | |- preserves _ (let '(_, _) := ?x in _) => destruct x
  end.

Lemma sign_GatherParentInformation P fuel gate processed :
  preserves (sign_is P) (GatherParentInformation fuel gate processed).
Proof.
  revert gate processed. induction fuel as [|fuel IH]; intros gate processed.
  { apply preserves_fail. }
  cbn [GatherParentInformation]. preserves_auto.
Qed.

Lemma sign_add_asserted P cs g : preserves (sign_is P) (add_asserted cs g).
Proof. revert g. induction cs; intros g; simpl; preserves_auto. Qed.

Lemma sign_NormalizeGate P gate : preserves (sign_is P) (NormalizeGate gate).
Proof.
  unfold NormalizeGate, NormalizeXorGate, NormalizeAtleastGate.
  preserves_auto; auto using sign_add_asserted.
Qed.

Lemma sign_normalize_all P fuel : preserves (sign_is P) (normalize_all fuel).
Proof.
  unfold normalize_all, NotifyParentsOfNegativeGates.
  preserves_auto; auto using sign_GatherParentInformation, sign_NormalizeGate.
Qed.

Lemma sign_NormalizeGates fuel :
  preserves (sign_is (λ s, s = 1 ∨ s = -1)) (NormalizeGates fuel).
Proof.
  induction fuel as [|fuel IH]; [apply preserves_fail|].
  cbn [NormalizeGates].
  preserves_auto; auto using sign_normalize_all;
    apply sign_multiply; intros s; repeat case_decide; lia.
Qed.

Lemma frame_PropagateConstants_gate ft0 fuel T F gate processed :
  preserves (frame ft0) (PropagateConstants_gate fuel T F gate processed).
Proof.
  revert gate processed. induction fuel as [|fuel IH]; intros gate processed.
  { apply preserves_fail. }
  cbn [PropagateConstants_gate].
  preserves_auto; auto using frame_ProcessConstantChild, frame_RemoveChildren.
Qed.

Lemma frame_PropagateConstants ft0 fuel T F :
  preserves (frame ft0) (PropagateConstants fuel T F).
Proof.
  unfold PropagateConstants.
  preserves_auto; auto using frame_PropagateConstants_gate.
Qed.

Lemma absorb_top_sign_positive top ft :
  top_event_sign_ ft = 1 ∨ top_event_sign_ ft = -1 →
  wp any_failure (absorb_top_sign top)
     (λ _ ft', top_event_sign_ ft' = 1 ∧
               top_event_index_ ft' = top_event_index_ ft ∧
               gate_index_ ft' = gate_index_ ft ∧
               new_gate_index_ ft' = new_gate_index_ ft) ft.
Proof.
  intros Hsign. unfold absorb_top_sign. wp_auto; try done.
  repeat split; lia.
Qed.

Lemma ProcessIndexedFaultTree_sign fuel n ft :
  top_event_sign_ ft = 1 ∨ top_event_sign_ ft = -1 →
  wp any_failure (ProcessIndexedFaultTree fuel n)
     (λ _ ft', top_event_sign_ ft' = 1) ft.
Proof.
  intros Hsign. unfold ProcessIndexedFaultTree, prepare.
  do 5 wp_step. destruct (_ !! _); [|done].
  wp_step. eapply wp_mono; [by apply absorb_top_sign_positive|].
  intros [] ft1 (Hs1 & _). cbv beta.
  assert (Hrest : preserves (frame ft1)
    (let* top := (let* _ := PropagateComplements fuel (top_event_index_ ft) (∅, ∅) in
     let* _ := ProcessConstGates fuel (top_event_index_ ft) ∅ in
     do coalesce fuel (top_event_index_ ft) then ret (top_event_index_ ft)) in
     let* top_gate := find_gate top in
     if decide (Gate.children top_gate = ∅) then ret tt
     else DetectModules fuel n)).
  { preserves_auto;
      auto using frame_PropagateComplements, frame_ProcessConstGates,
                 frame_coalesce, frame_DetectModules. }
  specialize (Hrest ft1 (reflexivity _)).
  unfold wp in *. unfold bind in *.
  destruct (PropagateComplements _ _ _ ft1); [|done].
  destruct (ProcessConstGates _ _ _ _); [|done].
  destruct (coalesce _ _ _); [|done]. cbn [ret] in *.
  destruct (find_gate _ _); [|done].
  destruct (decide _); cbn [ret] in *.
  - destruct Hrest as (_&_&?&_). congruence.
  - destruct (DetectModules _ _ _); [|done].
    destruct Hrest as (_&_&?&_). congruence.
Qed.

(** ** The claims *)

(** C10: with no house event asserted true and none asserted false the
    public PropagateConstants returns at once; the graph (every gate's kind,
    state and children, and every other field) is the one it was given. *)
Theorem PropagateConstants_without_constants (fuel : nat)
    (ft : IndexedFaultTree) :
  PropagateConstants fuel ∅ ∅ ft = Done tt ft.
Proof. unfold PropagateConstants. by rewrite decide_True. Qed.

(** C7, as the code has it: for a NOT or NULL top event whose single child
    is a positive reference to a gate, NormalizeGates erases the top gate,
    makes the child the top event, multiplies the top-event sign by -1 for
    NOT and by 1 for NULL, and runs again on that state. *)
Theorem NormalizeGates_top_not_null (fuel : nat) (ft : IndexedFaultTree)
    (top_gate : IndexedGate) (child_index : Z) :
  indexed_gates_ ft !! top_event_index_ ft = Some top_gate →
  Gate.type top_gate = kNotGate ∨ Gate.type top_gate = kNullGate →
  Gate.children top_gate = {[child_index]} →
  0 < child_index →
  is_Some (indexed_gates_ ft !! child_index) →
  NormalizeGates (S fuel) ft =
  NormalizeGates fuel (retarget_top child_index (Gate.type top_gate) ft).
Proof.
  intros Htop Htype Hchildren Hpos [child Hchild].
  cbn [NormalizeGates]. unfold bind at 1, get. unfold bind at 1, find_gate.
  rewrite Htop.
  assert (Hrun :
    (do assert (bool_decide (size (Gate.children top_gate) = 1%nat)) then
     match ascending (Gate.children top_gate) with
     | c :: _ =>
         do assert (c >? 0) then
         let* _ := find_gate (Z.abs c) in
         do modify (λ ft0, set_gates (delete (top_event_index_ ft)
                                        (indexed_gates_ ft0)) ft0) then
         do modify (set_top (Z.abs c)) then
         do multiply_sign
              (if decide (Gate.type top_gate = kNotGate) then -1 else 1) then
         NormalizeGates fuel
     | [] => fail InvalidAccess
     end) ft =
    NormalizeGates fuel (retarget_top child_index (Gate.type top_gate) ft)).
  { rewrite Hchildren, size_singleton, ascending_singleton.
    rewrite bool_decide_eq_true_2 by done.
    unfold bind at 1. cbn [assert ret].
    replace (child_index >? 0) with true by (symmetry; lia).
    unfold bind at 1. cbn [assert ret].
    rewrite Z.abs_eq by lia.
    unfold bind at 1, find_gate. rewrite Hchild.
    reflexivity. }
  destruct Htype as [Ht | Ht]; rewrite Ht in *; exact Hrun.
Qed.

Lemma NormalizeGates_top_not_null_witness :
  NormalizeGates 4 not_over_not =
  NormalizeGates 3 (retarget_top 5 kNotGate not_over_not).
Proof.
  apply (NormalizeGates_top_not_null 3 not_over_not (input_gate kNotGate [5]) 5).
  - reflexivity.
  - by left.
  - vm_compute. reflexivity.
  - lia.
  - by eexists.
Defined.

(** NOT over NOT: both gates are gone, the sign is back at +1 and the
    gate below them is the top event. *)
Lemma NormalizeGates_not_over_not :
  (λ ft, (top_event_index_ ft, top_event_sign_ ft,
          dom (indexed_gates_ ft))) <$>
    final_state (NormalizeGates 4 not_over_not) = Some (6, 1, {[6]}).
Proof. vm_compute. reflexivity. Qed.

(** C7, as it is stated: with a negated single child the top event is not
    replaced; the assertion [child_index > 0] stops the normalization. *)
Lemma NormalizeGates_negated_child_rejected :
  NormalizeGates 4 null_over_negated = Abort AssertionFailed.
Proof. vm_compute. reflexivity. Qed.

(** C8, as it is stated: after NormalizeGates on a NOR top event the sign
    is -1. *)
Lemma NormalizeGates_keeps_negative_sign :
  top_event_sign_ <$> final_state (NormalizeGates 4 nor_top) = Some (-1).
Proof. vm_compute. reflexivity. Qed.

Lemma top_negation_delete n k ft ft' :
  indexed_gates_ ft' = delete k (indexed_gates_ ft) →
  ∀ i b, top_negation n ft' i = Some b → top_negation n ft i = Some b.
Proof.
  intros Hgates. induction n as [|n IH]; intros i b; [done|].
  cbn [top_negation]. rewrite Hgates.
  destruct (decide (i = k)) as [->|Hne].
  { by rewrite lookup_delete_eq. }
  rewrite lookup_delete_ne by done.
  destruct (indexed_gates_ ft !! i) as [g|]; [|done].
  destruct (Gate.type g); try done;
    destruct (ascending (Gate.children g)) as [|c [|]]; try done.
  - destruct (top_negation n ft' c) as [b'|] eqn:Hb'; [|done].
    by rewrite (IH c b' Hb').
  - apply IH.
Qed.

(** NormalizeGates multiplies the sign by -1 exactly when the top event
    carries a negation. *)
Lemma NormalizeGates_negation fuel :
  ∀ ft,
    wp any_failure (NormalizeGates fuel)
       (λ _ ft', ∃ b,
          top_negation fuel ft (top_event_index_ ft) = Some b ∧
          top_event_sign_ ft' = top_event_sign_ ft * (if b then -1 else 1))
       ft.
Proof.
  induction fuel as [|fuel IH]; intros ft; [done|].
  cbn [NormalizeGates top_negation].
  apply wp_bind, wp_get. apply wp_bind, wp_find_gate.
  destruct (indexed_gates_ ft !! top_event_index_ ft) as [g|] eqn:Hg; [|done].
  assert (Hall : ∀ k ft1,
    top_event_sign_ ft1 = top_event_sign_ ft * k →
    wp any_failure (normalize_all fuel)
       (λ _ ft', top_event_sign_ ft' = top_event_sign_ ft * k) ft1).
  { intros k ft1 H1.
    apply (sign_normalize_all (λ s, s = top_event_sign_ ft * k) fuel ft1 H1). }
  assert (Hset : ∀ k t,
    wp any_failure
       (do multiply_sign k then
        do on_gate (top_event_index_ ft) (Gate.set_type t) then
        normalize_all fuel)
       (λ _ ft', top_event_sign_ ft' = top_event_sign_ ft * k) ft).
  { intros k t. unfold multiply_sign. apply wp_bind, wp_modify.
    apply wp_bind. eapply wp_mono.
    { apply (sign_on_gate (λ s, s = top_event_sign_ ft * k)). reflexivity. }
    intros [] ft1 H1. by apply Hall. }
  destruct (Gate.type g) eqn:Hty.
  - eapply wp_mono; [apply Hset|]. intros [] ft' ->. exists false.
    split; [done|]. lia.
  - eapply wp_mono; [apply Hset|]. intros [] ft' ->. exists false.
    split; [done|]. lia.
  - eapply wp_mono; [apply (Hall 1); lia|]. intros [] ft' ->. exists false.
    split; [done|]. lia.
  - eapply wp_mono; [apply (Hall 1); lia|]. intros [] ft' ->. exists false.
    split; [done|]. lia.
  - apply wp_bind, wp_assert. case_bool_decide as Hsize; [|done].
    destruct (ascending (Gate.children g)) as [|c l] eqn:Hasc; [done|].
    assert (l = []) as ->.
    { pose proof (length_ascending (Gate.children g)) as Hlen.
      rewrite Hasc, Hsize in Hlen. simpl in Hlen.
      destruct l; [done|simpl in Hlen; lia]. }
    apply wp_bind, wp_assert. destruct (c >? 0) eqn:Hpos; [|done].
    apply wp_bind, wp_find_gate. rewrite Z.abs_eq by lia.
    destruct (indexed_gates_ ft !! c) as [gc|]; [|done].
    apply wp_bind, wp_modify. apply wp_bind, wp_modify.
    unfold multiply_sign. apply wp_bind, wp_modify.
    eapply wp_mono; [apply IH|]. intros [] ft' (b & Hb & Hs).
    cbn [indexed_gates_ set_gates set_top set_sign top_event_index_
         top_event_sign_] in Hb, Hs.
    apply (top_negation_delete _ (top_event_index_ ft) ft) in Hb; [|done].
    rewrite Hb. exists (negb b). split; [done|]. rewrite Hs.
    rewrite decide_True by done. destruct b; simpl; lia.
  - eapply wp_mono; [apply Hset|]. intros [] ft' ->. exists true.
    split; [done|]. lia.
  - eapply wp_mono; [apply Hset|]. intros [] ft' ->. exists true.
    split; [done|]. lia.
  - apply wp_bind, wp_assert. case_bool_decide as Hsize; [|done].
    destruct (ascending (Gate.children g)) as [|c l] eqn:Hasc; [done|].
    assert (l = []) as ->.
    { pose proof (length_ascending (Gate.children g)) as Hlen.
      rewrite Hasc, Hsize in Hlen. simpl in Hlen.
      destruct l; [done|simpl in Hlen; lia]. }
    apply wp_bind, wp_assert. destruct (c >? 0) eqn:Hpos; [|done].
    apply wp_bind, wp_find_gate. rewrite Z.abs_eq by lia.
    destruct (indexed_gates_ ft !! c) as [gc|]; [|done].
    apply wp_bind, wp_modify. apply wp_bind, wp_modify.
    unfold multiply_sign. apply wp_bind, wp_modify.
    eapply wp_mono; [apply IH|]. intros [] ft' (b & Hb & Hs).
    cbn [indexed_gates_ set_gates set_top set_sign top_event_index_
         top_event_sign_] in Hb, Hs.
    apply (top_negation_delete _ (top_event_index_ ft) ft) in Hb; [|done].
    rewrite Hb. exists b. split; [done|]. rewrite Hs.
    rewrite decide_False by done. destruct b; simpl; lia.
Qed.

(** The first statement of ProcessIndexedFaultTree is the absorption of the
    sign, for a top gate of the kind that it asserts. *)
Lemma absorb_top_sign_absorbed ft g :
  indexed_gates_ ft !! top_event_index_ ft = Some g →
  (top_event_sign_ ft < 0 →
   Gate.type g = kOrGate ∨ Gate.type g = kAndGate) →
  absorb_top_sign (top_event_index_ ft) ft = Done tt (sign_absorbed ft).
Proof.
  intros Hg Hty. unfold absorb_top_sign, sign_absorbed.
  unfold bind at 1, get.
  destruct (top_event_sign_ ft <? 0) eqn:Hsign; [|done].
  unfold bind at 1, find_gate. rewrite Hg.
  unfold bind at 1. rewrite bool_decide_eq_true_2 by (apply Hty; lia).
  cbn [assert ret]. unfold bind at 1, on_gate, bind at 1, find_gate.
  rewrite Hg. cbn [modify]. unfold bind at 1, bind at 1, find_gate.
  tree_simpl. rewrite lookup_insert_eq. cbn [modify].
  unfold set_sign, set_gates. tree_simpl. rewrite insert_insert_eq.
  do 3 f_equal.
  destruct (Hty ltac:(lia)) as [Ht|Ht]; rewrite Ht; [by rewrite decide_True|].
  by rewrite decide_False.
Qed.

(** ProcessIndexedFaultTree on a graph with a negative sign is
    ProcessIndexedFaultTree on the graph that has absorbed the sign. *)
Lemma ProcessIndexedFaultTree_absorbs fuel n ft ft' :
  ProcessIndexedFaultTree fuel n ft = Done tt ft' →
  ∃ g, indexed_gates_ ft !! top_event_index_ ft = Some g ∧
       (top_event_sign_ ft < 0 →
        Gate.type g = kOrGate ∨ Gate.type g = kAndGate) ∧
       absorb_top_sign (top_event_index_ ft) ft = Done tt (sign_absorbed ft) ∧
       ProcessIndexedFaultTree fuel n (sign_absorbed ft) = Done tt ft'.
Proof.
  intros Hrun.
  assert (Hsame : top_event_index_ (sign_absorbed ft) = top_event_index_ ft).
  { unfold sign_absorbed. destruct (_ <? _); [|done]. by destruct (_ !! _). }
  assert (Hpos : (top_event_sign_ (sign_absorbed ft) <? 0) = false
                 ∨ indexed_gates_ ft !! top_event_index_ ft = None).
  { unfold sign_absorbed.
    destruct (top_event_sign_ ft <? 0) eqn:Hs; [|by left].
    destruct (indexed_gates_ ft !! top_event_index_ ft); [by left|by right]. }
  unfold ProcessIndexedFaultTree, prepare in Hrun |- *.
  unfold bind at 1 in Hrun. unfold bind at 1, get in Hrun.
  unfold bind at 1, find_gate in Hrun.
  destruct (indexed_gates_ ft !! top_event_index_ ft) as [g|] eqn:Hg; [|done].
  destruct Hpos as [Hpos|]; [|done].
  assert (Hty : top_event_sign_ ft < 0 →
                Gate.type g = kOrGate ∨ Gate.type g = kAndGate).
  { intros Hneg. unfold bind at 1, absorb_top_sign, bind at 1, get in Hrun.
    replace (top_event_sign_ ft <? 0) with true in Hrun by (symmetry; lia).
    unfold bind at 1, find_gate in Hrun. rewrite Hg in Hrun.
    unfold bind at 1 in Hrun.
    by case_bool_decide. }
  pose proof (absorb_top_sign_absorbed ft g Hg Hty) as Habs.
  exists g. split; [done|]. split; [done|]. split; [done|].
  unfold bind at 1 in Hrun. rewrite Habs in Hrun.
  unfold bind at 1. unfold bind at 1, get. rewrite Hsame.
  unfold bind at 1, find_gate.
  assert (Hg' : is_Some (indexed_gates_ (sign_absorbed ft)
                           !! top_event_index_ ft)).
  { unfold sign_absorbed. destruct (top_event_sign_ ft <? 0); [|by rewrite Hg].
    rewrite Hg. tree_simpl. rewrite lookup_insert_eq. by eexists. }
  destruct Hg' as [g' ->].
  unfold bind at 1.
  assert (Hskip : absorb_top_sign (top_event_index_ ft) (sign_absorbed ft)
                  = Done tt (sign_absorbed ft)).
  { unfold absorb_top_sign, bind at 1, get. by rewrite Hpos. }
  rewrite Hskip. exact Hrun.
Qed.

(** C8, as the code has it: NormalizeGates only records the negation of the
    top event in the sign, which is -1 exactly when the top event carries a
    negation (a NOR, a NAND, or an odd number of NOT gates at the top) and
    +1 otherwise; constant propagation does not touch it;
    ProcessIndexedFaultTree starts by absorbing a negative sign: the kind of
    the top gate, an AND or OR gate, is flipped, its children are inverted
    and the sign is set to +1, and it goes on as it does on the graph that
    has absorbed the sign; it returns with the sign +1. *)
Theorem top_sign_after_processing (fuel1 fuel2 fuel3 : nat)
    (true_house_events false_house_events : gset Z) (num_basic_events : Z)
    (ft ft1 ft2 ft3 : IndexedFaultTree) :
  top_event_sign_ ft = 1 →
  NormalizeGates fuel1 ft = Done tt ft1 →
  PropagateConstants fuel2 true_house_events false_house_events ft1
    = Done tt ft2 →
  ProcessIndexedFaultTree fuel3 num_basic_events ft2 = Done tt ft3 →
  (top_event_sign_ ft1 = 1 ∨ top_event_sign_ ft1 = -1) ∧
  top_event_sign_ ft2 = top_event_sign_ ft1 ∧
  top_event_sign_ ft3 = 1 ∧
  top_negation fuel1 ft (top_event_index_ ft)
    = Some (bool_decide (top_event_sign_ ft1 = -1)) ∧
  ∃ top_gate,
    indexed_gates_ ft2 !! top_event_index_ ft2 = Some top_gate ∧
    (top_event_sign_ ft2 = -1 →
     Gate.type top_gate = kOrGate ∨ Gate.type top_gate = kAndGate) ∧
    absorb_top_sign (top_event_index_ ft2) ft2
      = Done tt (sign_absorbed ft2) ∧
    ProcessIndexedFaultTree fuel3 num_basic_events (sign_absorbed ft2)
      = Done tt ft3.
Proof.
  intros Hsign Hnorm Hconst Hproc.
  assert (H1 : top_event_sign_ ft1 = 1 ∨ top_event_sign_ ft1 = -1).
  { apply (wp_done _ _ _ _ _ _ (sign_NormalizeGates fuel1 ft (or_introl Hsign))
                   Hnorm). }
  assert (H2 : frame ft1 ft2).
  { apply (wp_done _ _ _ _ _ _
             (frame_PropagateConstants ft1 fuel2 _ _ ft1 (reflexivity _))
             Hconst). }
  destruct H2 as (_ & _ & H2 & _).
  split; [done|]. split; [done|]. split.
  { apply (wp_done _ _ _ _ _ _
             (ProcessIndexedFaultTree_sign fuel3 num_basic_events ft2
                ltac:(rewrite H2; exact H1)) Hproc). }
  split.
  { destruct (wp_done _ _ _ _ _ _ (NormalizeGates_negation fuel1 ft) Hnorm)
      as (b & Hb & Hs).
    rewrite Hb. f_equal. rewrite Hs, Hsign.
    destruct b; [by rewrite bool_decide_eq_true_2|].
    by rewrite bool_decide_eq_false_2. }
  destruct (ProcessIndexedFaultTree_absorbs _ _ _ _ Hproc)
    as (g & Hg & Hty & Habs & Hrun).
  exists g. split; [done|]. split; [|done]. intros Hneg. apply Hty. lia.
Qed.

Lemma top_sign_after_processing_witness :
  let ft1 := state_after (NormalizeGates 4) nor_top in
  let ft3 := state_after (ProcessIndexedFaultTree 8 2) ft1 in
  (top_event_sign_ ft1 = 1 ∨ top_event_sign_ ft1 = -1) ∧
  top_event_sign_ ft1 = top_event_sign_ ft1 ∧
  top_event_sign_ ft3 = 1 ∧
  top_negation 4 nor_top (top_event_index_ nor_top)
    = Some (bool_decide (top_event_sign_ ft1 = -1)) ∧
  ∃ top_gate,
    indexed_gates_ ft1 !! top_event_index_ ft1 = Some top_gate ∧
    (top_event_sign_ ft1 = -1 →
     Gate.type top_gate = kOrGate ∨ Gate.type top_gate = kAndGate) ∧
    absorb_top_sign (top_event_index_ ft1) ft1
      = Done tt (sign_absorbed ft1) ∧
    ProcessIndexedFaultTree 8 2 (sign_absorbed ft1) = Done tt ft3.
Proof.
  apply (top_sign_after_processing 4 0 8 ∅ ∅ 2 nor_top).
  - reflexivity.
  - vm_compute. reflexivity.
  - unfold PropagateConstants. by rewrite decide_True.
  - vm_compute. reflexivity.
Defined.

(** The NOR top event after normalization and absorption is AND(-1, -2)
    with the sign +1. *)
Lemma nor_top_sign_absorbed :
  sign_absorbed (state_after (NormalizeGates 4) nor_top) = nor_top_absorbed.
Proof. vm_compute. reflexivity. Qed.

(** C1 at a failing input.  In [shared_contradiction] the top event is
    false under every assignment; it still is after NormalizeGates and after
    PropagateComplements, but JoinGates makes gate 5 NULL-CONSTANT on its way
    through the top event and then merges this constant gate into gate 6 as
    if it were an empty AND, so that after coalescing, and at the end of
    ProcessIndexedFaultTree, the top event is the basic event 3. *)
Lemma coalescing_changes_function :
  let normalized := state_after (NormalizeGates 10) shared_contradiction in
  let complemented :=
    state_after (PropagateComplements 10 4 (∅, ∅)) normalized in
  eval_top 10 shared_contradiction all_true = Some false ∧
  then_eval (NormalizeGates 10 shared_contradiction) all_true = Some false ∧
  then_eval (PropagateComplements 10 4 (∅, ∅) normalized) all_true
    = Some false ∧
  then_eval (ProcessConstGates 10 4 ∅ complemented) all_true = Some false ∧
  then_eval (JoinGates 10 4 ∅ complemented) all_true = Some true ∧
  then_eval (coalesce 10 4 complemented) all_true = Some true ∧
  then_eval (ProcessIndexedFaultTree 10 3 normalized) all_true = Some true.
Proof. vm_compute. repeat split; reflexivity. Qed.

(** C9 at a failing input.  With the house event 2 false, constant
    propagation makes the top gate of [and_with_house] NULL-CONSTANT; run
    again with the same sets on its own output it finds a gate without
    children and makes it UNITY: the state changes and the top event turns
    from false to true. *)
Lemma PropagateConstants_twice :
  let once := state_after (PropagateConstants 5 ∅ {[2]}) and_with_house in
  let twice := state_after (PropagateConstants 5 ∅ {[2]}) once in
  is_Some (final_state (PropagateConstants 5 ∅ {[2]} and_with_house)) ∧
  is_Some (final_state (PropagateConstants 5 ∅ {[2]} once)) ∧
  Gate.state <$> indexed_gates_ once !! 3 = Some kNullState ∧
  Gate.state <$> indexed_gates_ twice !! 3 = Some kUnityState ∧
  eval_top 10 once all_true = Some false ∧
  eval_top 10 twice all_true = Some true.
Proof. vm_compute. repeat split; by eexists. Qed.

(** ** Constant propagation on one gate *)

Lemma set_gates_id ft g i :
  indexed_gates_ ft !! i = Some g →
  set_gates (<[i := g]> (indexed_gates_ ft)) ft = ft.
Proof. intros H. rewrite insert_id by done. by destruct ft. Qed.

Lemma set_gates_twice gs gs' ft :
  set_gates gs (set_gates gs' ft) = set_gates gs ft.
Proof. done. Qed.

Lemma ProcessConstantChild_table ft gate g c st te :
  indexed_gates_ ft !! gate = Some g →
  Gate.type g = kAndGate ∨ Gate.type g = kOrGate →
  ProcessConstantChild gate c st te ft =
  if bool_decide (st = absorbing (Gate.type g))
  then Done (true, te) (set_gates (<[gate := absorbed g]> (indexed_gates_ ft)) ft)
  else Done (false, te ++ [c]) ft.
Proof.
  intros Hg Hty. unfold ProcessConstantChild, absorbed, absorbing.
  unfold bind at 1, find_gate. rewrite Hg.
  unfold bind at 1. rewrite bool_decide_eq_true_2 by tauto. cbn [assert ret].
  destruct Hty as [-> | ->], st; simpl;
    unfold bind, on_gate, find_gate, modify, ret, bind; rewrite ?Hg; reflexivity.
Qed.

Lemma erase_children ft gate g te :
  indexed_gates_ ft !! gate = Some g →
  for_each te (λ c, on_gate gate (Gate.EraseChild c)) ft =
  Done tt (set_gates
             (<[gate := Gate.set_children (Gate.children g ∖ list_to_set te) g]>
                (indexed_gates_ ft)) ft).
Proof.
  revert ft g. induction te as [|c te IH]; intros ft g Hg; simpl.
  - unfold ret. f_equal. rewrite difference_empty_L.
    replace (Gate.set_children (Gate.children g) g) with g by by destruct g.
    by rewrite set_gates_id.
  - unfold bind, on_gate at 1, bind, find_gate, modify. rewrite Hg.
    rewrite (IH _ (Gate.EraseChild c g)) by (simpl; apply lookup_insert_eq).
    unfold set_gates; simpl. rewrite insert_insert_eq.
    do 3 f_equal. unfold Gate.set_children; simpl. f_equal.
    apply set_eq. intros x. rewrite !elem_of_difference, elem_of_union.
    tauto.
Qed.

Lemma RemoveChildren_reduced ft gate g te :
  indexed_gates_ ft !! gate = Some g →
  Gate.type g = kAndGate ∨ Gate.type g = kOrGate →
  RemoveChildren gate te ft =
  Done tt (set_gates
             (<[gate := reduced (Gate.children g ∖ list_to_set te) g]>
                (indexed_gates_ ft)) ft).
Proof.
  intros Hg Hty. unfold RemoveChildren.
  unfold bind at 1. rewrite (erase_children _ _ g) by done.
  unfold bind at 1, find_gate. simpl. rewrite lookup_insert_eq.
  unfold reduced, absorbing. simpl.
  destruct (decide (Gate.children g ∖ list_to_set te = ∅)) as [He|He].
  - unfold bind at 1. rewrite bool_decide_eq_true_2 by (simpl; tauto).
    cbn [assert ret]. simpl.
    destruct Hty as [Hty | Hty]; rewrite Hty; simpl;
      unfold on_gate, bind, find_gate, modify, set_gates; simpl;
      rewrite lookup_insert_eq; simpl; rewrite insert_insert_eq;
      reflexivity.
  - reflexivity.
Qed.

Lemma PropagateConstants_gate_processed fuel T F gate processed ft :
  gate ∈ processed →
  PropagateConstants_gate (S fuel) T F gate processed ft = Done processed ft.
Proof. intros H. simpl. by rewrite decide_True. Qed.

Section rules.
Context (T F : gset Z) (ft : IndexedFaultTree) (gate : Z) (g : IndexedGate).
Context (processed : gset Z).

Lemma scan_undetermined
    (body : Z → list Z * gset Z → M (bool * (list Z * gset Z)))
    (l : list Z) (te : list Z) :
  (∀ c te, c ∈ l → body c (te, processed) ft
             = scan_step T F ft gate g processed c te) →
  Forall (λ c, literal_value T F ft c ≠ Some (absorbing (Gate.type g))) l →
  scan l (te, processed) body ft =
  Done (false,
        (te ++ filter (λ c, is_Some (literal_value T F ft c)) l, processed))
       ft.
Proof.
  revert te. induction l as [|c l IH]; intros te Hbody Hall; simpl.
  - by rewrite app_nil_r.
  - inversion_clear Hall as [|? ? Hc Hl].
    unfold bind. rewrite Hbody by left. unfold scan_step.
    destruct (literal_value T F ft c) as [v|] eqn:Hv.
    + rewrite bool_decide_eq_false_2 by congruence.
      rewrite IH; [|intros; apply Hbody; by right|done].
      rewrite filter_cons_True by (rewrite Hv; by eexists).
      by rewrite <- app_assoc.
    + rewrite IH; [|intros; apply Hbody; by right|done].
      rewrite filter_cons_False; [done|]. rewrite Hv. by intros [? ?].
Qed.

Lemma scan_absorbed
    (body : Z → list Z * gset Z → M (bool * (list Z * gset Z)))
    (l : list Z) (te : list Z) :
  (∀ c te, c ∈ l → body c (te, processed) ft
             = scan_step T F ft gate g processed c te) →
  Exists (λ c, literal_value T F ft c = Some (absorbing (Gate.type g))) l →
  ∃ te', scan l (te, processed) body ft =
         Done (true, (te', processed))
              (set_gates (<[gate := absorbed g]> (indexed_gates_ ft)) ft).
Proof.
  revert te. induction l as [|c l IH]; intros te Hbody Hex; simpl.
  - inversion Hex.
  - unfold bind. rewrite Hbody by left. unfold scan_step.
    destruct (literal_value T F ft c) as [v|] eqn:Hv.
    + destruct (bool_decide (v = absorbing (Gate.type g))) eqn:Hd.
      * by eexists.
      * apply IH; [intros; apply Hbody; by right|].
        inversion_clear Hex as [? ? Hc|]; [|done].
        apply bool_decide_eq_false in Hd. congruence.
    + apply IH; [intros; apply Hbody; by right|].
      inversion_clear Hex as [? ? Hc|]; [congruence|done].
Qed.
End rules.

(** The scan of PropagateConstants over a gate of kind AND or OR whose
    gate children have been processed.  A child has a value when it is a
    house event asserted true or false or a gate in a constant state, and a
    negated occurrence has the flipped value.  A child of absorbing value
    (true for OR, false for AND) makes the gate UNITY, respectively
    NULL-CONSTANT; otherwise the children with a value are dropped, and a
    gate left without children becomes UNITY for AND and NULL-CONSTANT for
    OR. *)
Theorem PropagateConstants_gate_rules (fuel : nat) (T F : gset Z)
    (ft : IndexedFaultTree) (gate : Z) (g : IndexedGate) (processed : gset Z) :
  indexed_gates_ ft !! gate = Some g →
  gate ∉ processed →
  Gate.type g = kAndGate ∨ Gate.type g = kOrGate →
  (∀ c, c ∈ Gate.children g → gate_index_ ft < Z.abs c →
        Z.abs c ∈ processed ∧ is_Some (indexed_gates_ ft !! Z.abs c)) →
  PropagateConstants_gate (S (S fuel)) T F gate processed ft =
  Done (processed ∪ {[gate]})
       (set_gates (<[gate := propagated T F ft g]> (indexed_gates_ ft)) ft).
Proof.
  intros Hg Hgate Hty Hchildren.
  remember (S fuel) as fuel' eqn:Hfuel.
  cbn [PropagateConstants_gate]. rewrite decide_False by done.
  unfold bind at 1, find_gate at 1. rewrite Hg.
  unfold bind at 1, get.
  set (body := λ (c : Z) '(to_erase, processed0), _).
  assert (Hbody : ∀ c te, c ∈ ascending (Gate.children g) →
            body c (te, processed ∪ {[gate]}) ft
            = scan_step T F ft gate g (processed ∪ {[gate]}) c te).
  { intros c te Hc. apply elem_of_ascending in Hc.
    unfold body, scan_step, literal_value.
    destruct (Z.abs c >? gate_index_ ft) eqn:Hgi.
    - destruct (Hchildren c Hc ltac:(lia)) as [Hp [gc Hgc]].
      unfold bind at 1, find_gate at 1. rewrite Hgc.
      unfold bind at 1.
      rewrite Hfuel, PropagateConstants_gate_processed
        by (apply elem_of_union; by left).
      unfold bind at 1, find_gate. rewrite Hgc. simpl.
      destruct (Gate.state gc); simpl; [done|..];
        unfold bind; rewrite (ProcessConstantChild_table _ _ g) by done;
        destruct (c <? 0); simpl; by case_bool_decide.
    - repeat case_decide; simpl; [| |done];
        unfold bind; rewrite (ProcessConstantChild_table _ _ g) by done;
        destruct (c <? 0); simpl; by case_bool_decide. }
  unfold propagated. unfold bind at 1.
  destruct (decide (set_Exists _ _)) as [Hex | Hex].
  - destruct (scan_absorbed T F ft gate g (processed ∪ {[gate]}) body
                (ascending (Gate.children g)) [] Hbody) as [te' ->].
    { apply Exists_exists. destruct Hex as (c & Hc & Hv).
      exists c. by rewrite elem_of_ascending. }
    reflexivity.
  - rewrite (scan_undetermined T F ft gate g (processed ∪ {[gate]}) body
               (ascending (Gate.children g)) [] Hbody).
    2:{ apply Forall_forall. intros c Hc Hv. apply Hex. exists c.
        by rewrite <- elem_of_ascending. }
    unfold bind. rewrite (RemoveChildren_reduced _ _ g) by done.
    unfold ret. do 4 f_equal.
    apply set_eq. intros c.
    rewrite elem_of_difference, elem_of_filter, elem_of_list_to_set.
    simpl. rewrite list_elem_of_filter, elem_of_ascending.
    rewrite <- not_eq_None_Some.
    destruct (literal_value T F ft c); intuition congruence.
Qed.

Lemma PropagateConstants_gate_rules_witness :
  PropagateConstants_gate 2 {[2]} {[3]} 4 ∅ and_with_houses =
  Done ({[4]} : gset Z)
       (set_gates
          (<[4 := propagated {[2]} {[3]} and_with_houses
                    (input_gate kAndGate [1; 2; -3])]>
             (indexed_gates_ and_with_houses)) and_with_houses).
Proof.
  rewrite <- (left_id_L ∅ (∪) ({[4]} : gset Z)).
  apply (PropagateConstants_gate_rules 0 {[2]} {[3]} and_with_houses 4
           (input_gate kAndGate [1; 2; -3]) ∅).
  - reflexivity.
  - apply not_elem_of_empty.
  - by left.
  - intros c Hc Hgi. exfalso. revert Hc Hgi. simpl.
    rewrite !elem_of_union, !elem_of_singleton, elem_of_empty. lia.
Defined.

(** In the witness the true house event 2 and the negated false house event
    3 are dropped from the AND gate, which keeps the basic event 1. *)
Lemma PropagateConstants_gate_rules_example :
  propagated {[2]} {[3]} and_with_houses (input_gate kAndGate [1; 2; -3])
  = input_gate kAndGate [1].
Proof. vm_compute. reflexivity. Qed.

(** ** Normalization of XOR gates and of the kinds *)

Lemma AddChild_absent c g :
  - c ∉ Gate.children g →
  Gate.AddChild c g = (true, Gate.set_children (Gate.children g ∪ {[c]}) g).
Proof. intros H. unfold Gate.AddChild. by rewrite decide_False. Qed.

Lemma NormalizeXorGate_sorted ft gate g a b :
  indexed_gates_ ft !! gate = Some g →
  ascending (Gate.children g) = [a; b] → a ≠ b →
  indexed_gates_ ft !! (new_gate_index_ ft + 1) = None →
  indexed_gates_ ft !! (new_gate_index_ ft + 2) = None →
  wp no_failure (NormalizeXorGate gate)
    (λ _ ft',
       let n := new_gate_index_ ft in
       new_gate_index_ ft' = n + 2 ∧
       indexed_gates_ ft' !! gate =
         Some (Gate.set_children {[n + 1; n + 2]} (Gate.set_type kOrGate g)) ∧
       indexed_gates_ ft' !! (n + 1) =
         Some (Gate.set_children {[a; - b]} (Gate.create kAndGate)) ∧
       indexed_gates_ ft' !! (n + 2) =
         Some (Gate.set_children {[- a; b]} (Gate.create kAndGate)) ∧
       ∀ i, i ≠ gate → i ≠ n + 1 → i ≠ n + 2 →
            indexed_gates_ ft' !! i = indexed_gates_ ft !! i) ft.
Proof.
  intros Hg Hasc Hab H1 H2.
  assert (Hsz : size (Gate.children g) = 2%nat).
  { by rewrite <- length_ascending, Hasc. }
  assert (gate ≠ new_gate_index_ ft + 1) by congruence.
  assert (gate ≠ new_gate_index_ ft + 2) by congruence.
  replace (new_gate_index_ ft + 2) with (new_gate_index_ ft + 1 + 1) in *
    by lia.
  unfold NormalizeXorGate.
  wp_run. rewrite bool_decide_eq_true_2 by done. rewrite Hasc. wp_run.
  rewrite (AddChild_absent a), (AddChild_absent (- a)),
    (AddChild_absent (new_gate_index_ ft + 1)) by (simpl; set_solver).
  simpl.
  rewrite (AddChild_absent (- b)), (AddChild_absent b),
    (AddChild_absent (new_gate_index_ ft + 1 + 1))
    by (simpl; rewrite elem_of_union, elem_of_singleton, elem_of_empty; lia).
  simpl. rewrite !(left_id_L ∅ (∪)).
  replace (new_gate_index_ ft + 2) with (new_gate_index_ ft + 1 + 1) by lia.
  repeat split.
  - by rewrite lookup_insert_eq.
  - intros i ? ? ?. by rewrite !lookup_insert_ne by lia.
Qed.

Lemma NormalizeXorGate_expands ft gate g a b :
  indexed_gates_ ft !! gate = Some g →
  Gate.children g = {[a; b]} → a ≠ b →
  (∀ i, new_gate_index_ ft < i → indexed_gates_ ft !! i = None) →
  ∃ ft' one two,
    NormalizeXorGate gate ft = Done tt ft' ∧
    ({[one; two]} : gset Z)
      = {[new_gate_index_ ft + 1; new_gate_index_ ft + 2]} ∧
    one ≠ two ∧
    indexed_gates_ ft' !! gate =
      Some (Gate.set_children {[one; two]} (Gate.set_type kOrGate g)) ∧
    indexed_gates_ ft' !! one =
      Some (Gate.set_children {[a; - b]} (Gate.create kAndGate)) ∧
    indexed_gates_ ft' !! two =
      Some (Gate.set_children {[- a; b]} (Gate.create kAndGate)) ∧
    ∀ i, i ≠ gate → i ≠ one → i ≠ two →
         indexed_gates_ ft' !! i = indexed_gates_ ft !! i.
Proof.
  intros Hg Hch Hab Hfresh.
  assert (Hf1 : indexed_gates_ ft !! (new_gate_index_ ft + 1) = None)
    by (apply Hfresh; lia).
  assert (Hf2 : indexed_gates_ ft !! (new_gate_index_ ft + 2) = None)
    by (apply Hfresh; lia).
  destruct (ascending_pair a b Hab) as [Hasc | Hasc]; rewrite <- Hch in Hasc.
  - destruct (wp_total _ _ _
      (NormalizeXorGate_sorted ft gate g a b Hg Hasc Hab Hf1 Hf2))
      as ([] & ft' & Hrun & _ & Hgate & H1 & H2 & Hrest).
    exists ft', (new_gate_index_ ft + 1), (new_gate_index_ ft + 2). repeat split; try done. lia.
  - destruct (wp_total _ _ _
      (NormalizeXorGate_sorted ft gate g b a Hg Hasc ltac:(done) Hf1 Hf2))
      as ([] & ft' & Hrun & _ & Hgate & H1 & H2 & Hrest).
    assert (Hswap : ∀ x y : Z, ({[x; y]} : gset Z) = {[y; x]}).
    { intros x y. apply set_eq. intros z.
      rewrite !elem_of_union, !elem_of_singleton. tauto. }
    exists ft', (new_gate_index_ ft + 2), (new_gate_index_ ft + 1).
    split; [done|]. split; [apply Hswap|]. split; [lia|].
    split; [by rewrite Hgate, Hswap|].
    split; [by rewrite H2, Hswap|].
    split; [by rewrite H1, Hswap|].
    intros i ? ? ?. by apply Hrest.
Qed.

Lemma wp_skip {A B} (c : M A) (k : A → M B) Q ft :
  (∀ a ft', wp any_failure (k a) Q ft') → wp any_failure (bind c k) Q ft.
Proof.
  intros Hk. apply wp_bind. eapply wp_mono; [apply wp_any|]. auto.
Qed.

Lemma preserves_bind_pure {A B} I (c : M A) (k : A → M B) (V : A → Prop) :
  (∀ ft, wp any_failure c (λ a ft', ft' = ft ∧ V a) ft) →
  (∀ a, V a → preserves I (k a)) → preserves I (bind c k).
Proof.
  intros Hc Hk ft HI. apply wp_bind. eapply wp_mono; [apply Hc|].
  intros a ft' [-> Ha]. by apply Hk.
Qed.

Lemma add_asserted_type cs g ft :
  wp any_failure (add_asserted cs g)
     (λ g' ft', ft' = ft ∧ Gate.type g' = Gate.type g) ft.
Proof.
  revert g. induction cs as [|c cs IH]; intros g; simpl.
  - by apply wp_ret.
  - apply wp_bind, wp_assert. destruct (Gate.AddChild c g).1 eqn:Hok; [|done].
    eapply wp_mono; [apply IH|]. intros g' ft' [-> Hty]. split; [done|].
    by rewrite Hty, type_AddChild.
Qed.

Section normalizing.
Context (ft0 : IndexedFaultTree) (x : Z).

Lemma normalizing_on_gate i f :
  (∀ g, Gate.type (f g) = Gate.type g) →
  preserves (normalizing ft0 x) (on_gate i f).
Proof.
  intros Hf ft [HI HK]. apply wp_on_gate.
  destruct (_ !! i) as [g|] eqn:Hg; [|done]. split; simpl.
  - intros j g' Hj. destruct (decide (i = j)) as [->|Hij].
    + rewrite lookup_insert_eq in Hj. injection Hj as <-.
      rewrite Hf. by apply HI.
    + rewrite lookup_insert_ne in Hj by done. by apply HI.
  - destruct HK as (gx & Hgx & Hn). destruct (decide (i = x)) as [->|Hix].
    + rewrite lookup_insert_eq. eexists. split; [done|].
      rewrite Hf. congruence.
    + rewrite lookup_insert_ne by done. eauto.
Qed.

Lemma normalizing_call_gate i f :
  (∀ g, Gate.type (f g).2 = Gate.type g) →
  preserves (normalizing ft0 x) (call_gate i f).
Proof.
  intros Hf ft HI. apply wp_call_gate.
  pose proof (normalizing_on_gate i (λ g, (f g).2) Hf ft HI) as H.
  unfold wp, on_gate, bind, find_gate, modify in H.
  by destruct (_ !! i).
Qed.

Lemma normalizing_insert_gate i g :
  Gate.type g = kAndGate → preserves (normalizing ft0 x) (insert_gate i g).
Proof.
  intros Hty ft [HI HK]. apply wp_insert_gate.
  destruct (_ !! i) eqn:Hg; [done|]. split; simpl.
  - intros j g' Hj. destruct (decide (i = j)) as [->|Hij].
    + rewrite lookup_insert_eq in Hj. injection Hj as <-. auto.
    + rewrite lookup_insert_ne in Hj by done. by apply HI.
  - destruct HK as (gx & Hgx & Hn).
    rewrite lookup_insert_ne by congruence. eauto.
Qed.

Lemma normalizing_next_index : preserves (normalizing ft0 x) next_index.
Proof. by intros ft HI. Qed.
End normalizing.

Ltac normalizing_step :=
  lazymatch goal with
  | |- preserves (normalizing _ _) (on_gate _ _) =>
      apply normalizing_on_gate; intros ?; reflexivity
  | |- preserves (normalizing _ _) (call_gate _ _) =>
      apply normalizing_call_gate; intros ?; apply type_AddChild
  | |- preserves (normalizing _ _) (insert_gate _ (Gate.create kAndGate)) =>
      by apply normalizing_insert_gate
  | |- preserves (normalizing _ _) next_index => apply normalizing_next_index
  | |- _ => preserves_step
  end.

Lemma normalizing_start ft x g t :
  indexed_gates_ ft !! x = Some g → normalized t →
  normalizing ft x
    (set_gates (<[x := Gate.set_type t g]> (indexed_gates_ ft)) ft).
Proof.
  intros Hg Ht. split; simpl.
  - intros i g' Hi. destruct (decide (x = i)) as [->|]; [by left|].
    rewrite lookup_insert_ne in Hi by done. right. right. eauto.
  - rewrite lookup_insert_eq. eauto.
Qed.

Lemma normalizing_end ft0 x ft :
  normalizing ft0 x ft →
  ∀ i g', indexed_gates_ ft !! i = Some g' →
    normalized (Gate.type g') ∨
    (i ≠ x ∧ ∃ g, indexed_gates_ ft0 !! i = Some g ∧
                  Gate.type g = Gate.type g').
Proof.
  intros [HI (gx & Hgx & Hn)] i g' Hi.
  destruct (decide (i = x)) as [->|Hix]; [left; congruence|].
  destruct (HI i g' Hi) as [? | [Hand | ?]]; [done| |by right].
  left. rewrite Hand. by left.
Qed.

Lemma NormalizeGate_types x ft :
  wp any_failure (NormalizeGate x)
     (λ _ ft', ∀ i g', indexed_gates_ ft' !! i = Some g' →
        normalized (Gate.type g') ∨
        (i ≠ x ∧ ∃ g, indexed_gates_ ft !! i = Some g ∧
                      Gate.type g = Gate.type g')) ft.
Proof.
  eapply wp_mono; [|intros a ft' H; exact (normalizing_end ft x ft' H)].
  unfold NormalizeGate. apply wp_bind, wp_find_gate.
  destruct (_ !! x) as [g|] eqn:Hg; [|done].
  assert (Hset : ∀ t, normalized t →
            wp any_failure (on_gate x (Gate.set_type t))
              (λ _, normalizing ft x) ft).
  { intros t Ht. apply wp_on_gate. rewrite Hg. by apply normalizing_start. }
  destruct (Gate.type g) eqn:Hty.
  - apply Hset. by left.
  - apply Hset. right; by left.
  - (* ATLEAST *)
    unfold NormalizeAtleastGate. apply wp_bind, wp_find_gate. rewrite Hg.
    apply wp_bind, wp_assert. destruct (_ >? 1); [|done].
    apply wp_bind, wp_assert. destruct (_ >? _); [|done].
    apply wp_bind. eapply wp_mono; [apply (Hset kOrGate); right; by left|].
    intros [] ft1 H1.
    revert ft1 H1. change (preserves (normalizing ft x)
      (do on_gate x Gate.EraseAllChildren then
       for_each
         (ascending_sets
            (vote_sets (ascending (Gate.children g)) (Gate.vote_number g)))
         (λ s,
            let* index := next_index in
            let* gate_one := add_asserted (ascending s) (Gate.create kAndGate) in
            let* _ := call_gate x (Gate.AddChild index) in
            insert_gate index gate_one))).
    apply preserves_bind; [normalizing_step|intros _].
    apply preserves_for_each. intros s.
    apply preserves_bind; [normalizing_step|intros index].
    eapply preserves_bind_pure; [intros; apply add_asserted_type|].
    intros gate_one Hone.
    apply preserves_bind; [normalizing_step|intros _].
    by apply normalizing_insert_gate.
  - (* XOR *)
    unfold NormalizeXorGate. apply wp_bind, wp_find_gate. rewrite Hg.
    apply wp_bind, wp_assert. destruct (bool_decide _); [|done].
    destruct (ascending (Gate.children g)) as [|a [|b [|? ?]]]; try done.
    do 2 (apply wp_bind, wp_next_index).
    apply wp_bind, wp_on_gate. simpl. rewrite Hg.
    set (ft1 := set_gates _ _).
    assert (H1 : normalizing ft x ft1).
    { pose proof (normalizing_start ft x g kOrGate Hg) as H.
      destruct H as [HI HK]; [right; by left|]. split; [exact HI|exact HK]. }
    revert H1. generalize ft1. clear ft1.
    match goal with
    | |- ∀ ft1, _ → wp _ ?c _ ft1 =>
        change (preserves (normalizing ft x) c)
    end.
    repeat normalizing_step.
  - (* NOT *)
    apply wp_ret. split; [intros i g' Hi; right; right; eauto|].
    exists g. split; [done|]. rewrite Hty. right; right; by left.
  - apply Hset. by left.
  - apply Hset. right; by left.
  - apply wp_ret. split; [intros i g' Hi; right; right; eauto|].
    exists g. split; [done|]. rewrite Hty. right; right; by right.
Qed.

Lemma elem_of_gate_keys (gs : gmap Z IndexedGate) i :
  i ∈ gate_keys gs ↔ is_Some (gs !! i).
Proof.
  unfold gate_keys. rewrite list_elem_of_fmap. split.
  - intros ([j g] & -> & Hj). apply elem_of_map_to_list in Hj. by eexists.
  - intros [g Hg]. exists (i, g). split; [done|]. by apply elem_of_map_to_list.
Qed.

Lemma NormalizeGate_loop l ft :
  (∀ i g, indexed_gates_ ft !! i = Some g →
          i ∈ l ∨ normalized (Gate.type g)) →
  wp any_failure (for_each l NormalizeGate) (λ _, all_normalized) ft.
Proof.
  revert ft. induction l as [|x l IH]; intros ft Hft; simpl.
  - apply wp_ret. intros i g Hg. destruct (Hft i g Hg) as [Hi|]; [|done].
    inversion Hi.
  - apply wp_bind. eapply wp_mono; [apply NormalizeGate_types|].
    intros [] ft' Hft'. apply IH. intros i g' Hi.
    destruct (Hft' i g' Hi) as [?|(Hix & g & Hg & Hty)]; [by right|].
    destruct (Hft i g Hg) as [Hin|Hn].
    + left. inversion Hin; by subst.
    + right. by rewrite <- Hty.
Qed.

Lemma normalize_all_types fuel ft :
  wp any_failure (normalize_all fuel) (λ _, all_normalized) ft.
Proof.
  unfold normalize_all. do 4 (apply wp_skip; intros ? ?).
  apply wp_bind, wp_get. apply NormalizeGate_loop.
  intros i g Hg. left. apply elem_of_gate_keys. by eexists.
Qed.

Lemma NormalizeGates_types fuel ft :
  wp any_failure (NormalizeGates fuel) (λ _, all_normalized) ft.
Proof.
  revert ft. induction fuel as [|fuel IH]; intros ft; [done|].
  cbn [NormalizeGates]. do 2 (apply wp_skip; intros ? ?).
  destruct (Gate.type _);
    repeat lazymatch goal with
      | |- wp _ (normalize_all _) _ _ => apply normalize_all_types
      | |- wp _ (NormalizeGates _) _ _ => apply IH
      | |- wp _ (bind _ _) _ _ => apply wp_skip; intros ? ?
      | |- wp _ (match ascending ?x with _ => _ end) _ _ =>
          destruct (ascending x); [done|]
      end.
Qed.

(** C6: NormalizeGate on a XOR gate with the two children a and b, when the
    indices above the counter are free, turns the gate into an OR gate over
    exactly the two new gates, which are AND gates, one over a and not b and
    one over not a and b, and touches no other gate; and when NormalizeGates
    returns no gate of the graph has the kind XOR. *)
Theorem xor_normalization :
  (∀ ft gate g a b,
     indexed_gates_ ft !! gate = Some g →
     Gate.type g = kXorGate →
     Gate.children g = {[a; b]} → a ≠ b →
     (∀ i, new_gate_index_ ft < i → indexed_gates_ ft !! i = None) →
     ∃ ft' one two,
       NormalizeGate gate ft = Done tt ft' ∧
       ({[one; two]} : gset Z)
         = {[new_gate_index_ ft + 1; new_gate_index_ ft + 2]} ∧
       one ≠ two ∧
       indexed_gates_ ft' !! gate =
         Some (Gate.set_children {[one; two]} (Gate.set_type kOrGate g)) ∧
       indexed_gates_ ft' !! one =
         Some (Gate.set_children {[a; - b]} (Gate.create kAndGate)) ∧
       indexed_gates_ ft' !! two =
         Some (Gate.set_children {[- a; b]} (Gate.create kAndGate)) ∧
       ∀ i, i ≠ gate → i ≠ one → i ≠ two →
            indexed_gates_ ft' !! i = indexed_gates_ ft !! i) ∧
  (∀ fuel ft ft',
     NormalizeGates fuel ft = Done tt ft' →
     ∀ i g, indexed_gates_ ft' !! i = Some g → Gate.type g ≠ kXorGate).
Proof.
  split.
  - intros ft gate g a b Hg Hty Hch Hab Hfresh.
    destruct (NormalizeXorGate_expands ft gate g a b Hg Hch Hab Hfresh)
      as (ft' & one & two & Hrun & H).
    exists ft', one, two. split; [|exact H].
    unfold NormalizeGate, bind, find_gate. by rewrite Hg, Hty.
  - intros fuel ft ft' Hrun i g Hg Hxor.
    pose proof (wp_done _ _ _ _ _ _ (NormalizeGates_types fuel ft) Hrun i g Hg)
      as Hn.
    rewrite Hxor in Hn. by destruct Hn as [? | [? | [? | ?]]].
Qed.

Lemma xor_normalization_witness :
  (∃ ft' one two,
     NormalizeGate 3 xor_top = Done tt ft' ∧
     ({[one; two]} : gset Z) = {[4; 5]} ∧ one ≠ two ∧
     indexed_gates_ ft' !! 3 =
       Some (Gate.set_children {[one; two]}
               (Gate.set_type kOrGate (input_gate kXorGate [1; 2]))) ∧
     indexed_gates_ ft' !! one =
       Some (Gate.set_children {[1; -2]} (Gate.create kAndGate)) ∧
     indexed_gates_ ft' !! two =
       Some (Gate.set_children {[-1; 2]} (Gate.create kAndGate)) ∧
     ∀ i, i ≠ 3 → i ≠ one → i ≠ two →
          indexed_gates_ ft' !! i = indexed_gates_ xor_top !! i) ∧
  (∀ i g, indexed_gates_ (state_after (NormalizeGates 4) xor_top) !! i
            = Some g → Gate.type g ≠ kXorGate).
Proof.
  split.
  - apply (proj1 xor_normalization xor_top 3 (input_gate kXorGate [1; 2]) 1 2).
    + reflexivity.
    + reflexivity.
    + vm_compute. reflexivity.
    + lia.
    + intros i Hi. simpl in *.
      rewrite lookup_insert_ne by lia. apply lookup_empty.
  - apply (proj2 xor_normalization 4%nat xor_top). vm_compute. reflexivity.
Defined.

(** ** Expansion of ATLEAST gates *)

Lemma choose_gt n k : (n < k)%nat → choose n k = 0%nat.
Proof.
  revert k. induction n as [|n IH]; intros [|k] H; simpl; try lia.
  rewrite !IH by lia. done.
Qed.

Lemma choose_fact n k :
  (k ≤ n)%nat → (choose n k * fact k * fact (n - k) = fact n)%nat.
Proof.
  revert k. induction n as [|n IH]; intros [|k] Hk; try lia.
  - simpl. lia.
  - simpl choose. rewrite Nat.sub_0_r. change (fact 0) with 1%nat. lia.
  - destruct (decide (k = n)) as [->|Hne].
    + simpl choose. rewrite (choose_gt n (S n)) by lia.
      specialize (IH n ltac:(lia)).
      replace (S n - S n)%nat with 0%nat by lia.
      replace (n - n)%nat with 0%nat in IH by lia.
      change (fact 0) with 1%nat in *.
      change (fact (S n)) with (S n * fact n)%nat.
      nia.
    + pose proof (IH k ltac:(lia)) as H1.
      pose proof (IH (S k) ltac:(lia)) as H2.
      simpl choose.
      replace (S n - S k)%nat with (n - k)%nat by lia.
      replace (n - k)%nat with (S (n - S k)) in * by lia.
      change (fact (S n)) with (S n * fact n)%nat.
      change (fact (S k)) with (S k * fact k)%nat in *.
      change (fact (S (n - S k))) with (S (n - S k) * fact (n - S k))%nat in *.
      nia.
Qed.

(** Counting the k-element subsets of a set. *)
Lemma subsets_length (C : gset Z) :
  ∀ (k : nat) (l : list (gset Z)),
    NoDup l → (∀ s, s ∈ l ↔ s ⊆ C ∧ size s = k) →
    length l = choose (size C) k.
Proof.
  induction C as [|x X Hx IH] using set_ind_L; intros k l Hnd Hl.
  - rewrite size_empty. destruct k as [|k].
    + assert (Hperm : l ≡ₚ [∅]).
      { apply NoDup_Permutation; [done|apply NoDup_singleton|].
        intros s. rewrite Hl, list_elem_of_singleton. split.
        - intros [Hs _]. apply set_eq. intros z. split; [apply Hs|set_solver].
        - intros ->. split; [done|apply size_empty]. }
      by rewrite Hperm.
    + destruct l as [|s l]; [done|]. exfalso.
      destruct (proj1 (Hl s) ltac:(left)) as [Hs Hsz].
      assert (s = ∅) as -> by (apply set_eq; intros z; split; [apply Hs|set_solver]).
      by rewrite size_empty in Hsz.
  - rewrite size_union, size_singleton by set_solver. simpl.
    destruct k as [|k].
    + assert (Hperm : l ≡ₚ [∅]).
      { apply NoDup_Permutation; [done|apply NoDup_singleton|].
        intros s. rewrite Hl, list_elem_of_singleton. split.
        - intros [_ Hs]. by apply size_empty_inv, leibniz_equiv in Hs.
        - intros ->. split; [set_solver|apply size_empty]. }
      by rewrite Hperm.
    + rewrite <- (filter_app_complement (λ s, x ∈ s) l), length_app.
      f_equal.
      * (* the subsets with x, seen without it *)
        rewrite <- (length_fmap (λ s : gset Z, s ∖ {[x]})).
        apply IH.
        -- apply NoDup_fmap_2_strong; [|by apply NoDup_filter].
           intros s1 s2 [H1 _]%list_elem_of_filter [H2 _]%list_elem_of_filter Heq.
           apply set_eq. intros z. destruct (decide (z = x)) as [->|Hz]; [tauto|].
           assert (z ∈ s1 ∖ {[x]} ↔ z ∈ s2 ∖ {[x]}) as Hiff by by rewrite Heq.
           rewrite !elem_of_difference, !elem_of_singleton in Hiff. tauto.
        -- intros s'. rewrite list_elem_of_fmap. split.
           ++ intros (s & -> & [Hxs [Hs Hsz]%Hl]%list_elem_of_filter).
              split; [set_solver|].
              rewrite size_difference by set_solver.
              rewrite size_singleton. lia.
           ++ intros [Hs' Hsz]. exists ({[x]} ∪ s'). split.
              ** apply set_eq. intros z.
                 rewrite elem_of_difference, elem_of_union, elem_of_singleton.
                 split; [|intros [[->|?] ?]; done].
                 intros Hz. split; [by right|]. intros ->. set_solver.
              ** apply list_elem_of_filter. split; [set_solver|].
                 apply Hl. split; [set_solver|].
                 rewrite size_union, size_singleton by set_solver. lia.
      * apply IH; [by apply NoDup_filter|].
        intros s. rewrite list_elem_of_filter, Hl. split.
        -- intros [Hxs [Hs Hsz]]. split; [set_solver|done].
        -- intros [Hs Hsz]. split; [set_solver|]. split; [set_solver|done].
Qed.

Lemma ascending_sets_perm (ss : gset (gset Z)) :
  ascending_sets ss ≡ₚ elements ss.
Proof. apply merge_sort_Permutation. Qed.

Lemma elem_of_ascending_sets s (ss : gset (gset Z)) :
  s ∈ ascending_sets ss ↔ s ∈ ss.
Proof. rewrite ascending_sets_perm. apply elem_of_elements. Qed.

Lemma NoDup_ascending_sets (ss : gset (gset Z)) : NoDup (ascending_sets ss).
Proof. rewrite ascending_sets_perm. apply NoDup_elements. Qed.

Lemma elem_of_singleton_sets cs s :
  s ∈ singleton_sets cs ↔ ∃ c, c ∈ cs ∧ s = {[c]}.
Proof.
  unfold singleton_sets.
  assert (H : ∀ acc : gset (gset Z),
    s ∈ foldl (λ all_sets c, all_sets ∪ {[ {[c]} ]}) acc cs ↔
    s ∈ acc ∨ ∃ c, c ∈ cs ∧ s = {[c]}).
  { induction cs as [|c cs IH]; intros acc; simpl.
    - split; [by left|]. intros [?|(c & Hc & _)]; [done|inversion Hc].
    - rewrite IH, elem_of_union, elem_of_singleton.
      setoid_rewrite elem_of_cons. naive_solver. }
  rewrite H, elem_of_empty. naive_solver.
Qed.

Lemma elem_of_extend_sets cs all_sets i s' :
  s' ∈ extend_sets cs all_sets i ↔
  ∃ s c, s ∈ all_sets ∧ c ∈ cs ∧ s' = s ∪ {[c]} ∧ i < Z.of_nat (size s').
Proof.
  unfold extend_sets.
  set (inner := λ (s : gset Z) (tmp_sets : gset (gset Z)) (c : Z),
         if Z.of_nat (size (s ∪ {[c]})) >? i then tmp_sets ∪ {[s ∪ {[c]}]}
         else tmp_sets).
  assert (Hinner : ∀ s l (acc : gset (gset Z)),
    s' ∈ foldl (inner s) acc l ↔
    s' ∈ acc ∨ ∃ c, c ∈ l ∧ s' = s ∪ {[c]} ∧ i < Z.of_nat (size s')).
  { intros s l. induction l as [|c l IH]; intros acc; simpl.
    - split; [by left|]. intros [?|(c & Hc & _)]; [done|inversion Hc].
    - rewrite IH. unfold inner.
      setoid_rewrite elem_of_cons.
      destruct (Z.of_nat (size (s ∪ {[c]})) >? i) eqn:Hgt.
      + rewrite elem_of_union, elem_of_singleton.
        assert (i < Z.of_nat (size (s ∪ {[c]}))) by lia. naive_solver.
      + assert (¬ i < Z.of_nat (size (s ∪ {[c]}))) by lia. naive_solver. }
  assert (Houter : ∀ L (acc : gset (gset Z)),
    s' ∈ foldl (λ tmp_sets s, foldl (inner s) tmp_sets cs) acc L ↔
    s' ∈ acc ∨ ∃ s c, s ∈ L ∧ c ∈ cs ∧ s' = s ∪ {[c]} ∧
                      i < Z.of_nat (size s')).
  { induction L as [|s L IH]; intros acc; simpl.
    - split; [by left|]. intros [?|(s & c & Hs & _)]; [done|inversion Hs].
    - rewrite IH, Hinner. setoid_rewrite elem_of_cons. naive_solver. }
  change (s' ∈ foldl (λ tmp_sets s, foldl (inner s) tmp_sets cs) ∅
                 (ascending_sets all_sets) ↔
          ∃ s c, s ∈ all_sets ∧ c ∈ cs ∧ s' = s ∪ {[c]} ∧
                 i < Z.of_nat (size s')).
  rewrite Houter, elem_of_empty.
  setoid_rewrite elem_of_ascending_sets. naive_solver.
Qed.

(** After the loop for [i = 1 .. m] the sets are the subsets with [m + 1]
    elements. *)
Lemma elem_of_vote_sets_nat (C : gset Z) (m : nat) s :
  s ∈ foldl (extend_sets (ascending C)) (singleton_sets (ascending C))
        (seqZ 1 (Z.of_nat m)) ↔
  s ⊆ C ∧ size s = S m.
Proof.
  revert s. induction m as [|m IH]; intros s.
  - simpl. rewrite elem_of_singleton_sets. split.
    + intros (c & Hc%elem_of_ascending & ->).
      split; [set_solver|apply size_singleton].
    + intros [Hs Hsz]. apply size_1_elem_of in Hsz as [c Hc].
      apply leibniz_equiv in Hc. subst s. exists c.
      split; [|done]. apply elem_of_ascending. set_solver.
  - rewrite seqZ_S, foldl_app. simpl. rewrite elem_of_extend_sets. split.
    + intros (s0 & c & [Hs0 Hsz0]%IH & Hc%elem_of_ascending & -> & Hsz).
      split; [set_solver|].
      pose proof (size_union_alt s0 {[c]}) as Hu.
      assert (size (({[c]} : gset Z) ∖ s0) ≤ 1)%nat.
      { rewrite <- (size_singleton (C:=gset Z) c).
        apply subseteq_size. set_solver. }
      lia.
    + intros [Hs Hsz].
      destruct (size_pos_elem_of s ltac:(lia)) as [c Hc].
      exists (s ∖ {[c]}), c. split; [|split; [|split]].
      * apply IH. split; [set_solver|].
        rewrite size_difference by set_solver. rewrite size_singleton. lia.
      * apply elem_of_ascending. set_solver.
      * apply set_eq. intros z.
        rewrite elem_of_union, elem_of_difference, elem_of_singleton.
        destruct (decide (z = c)) as [->|]; tauto.
      * lia.
Qed.

Lemma elem_of_vote_sets (C : gset Z) (k : Z) s :
  1 ≤ k →
  s ∈ vote_sets (ascending C) k ↔ s ⊆ C ∧ size s = Z.to_nat k.
Proof.
  intros Hk. unfold vote_sets.
  replace (k - 1) with (Z.of_nat (Z.to_nat (k - 1))) by lia.
  rewrite elem_of_vote_sets_nat.
  by replace (S (Z.to_nat (k - 1))) with (Z.to_nat k) by lia.
Qed.

Lemma add_asserted_all cs g ft :
  (∀ c, c ∈ cs → (- c ∉ cs) ∧ (- c ∉ Gate.children g)) →
  add_asserted cs g ft =
  Done (Gate.set_children (Gate.children g ∪ list_to_set cs) g) ft.
Proof.
  revert g. induction cs as [|c cs IH]; intros g Hcs; simpl.
  - unfold ret. rewrite (right_id_L ∅ (∪)). by destruct g.
  - destruct (Hcs c ltac:(left)) as [Hc1 Hc2].
    rewrite AddChild_absent by done. unfold bind; simpl.
    rewrite IH.
    + simpl. by rewrite (assoc_L (∪)).
    + intros c' Hc'. destruct (Hcs c' ltac:(by right)) as [H1 H2].
      split; [by intros ?; apply H1; right|]. simpl.
      rewrite elem_of_union, elem_of_singleton. intros [?|Heq]; [done|].
      apply Hc1. right. by replace (- c) with c' by lia.
Qed.

(** The loop of NormalizeAtleastGate that allocates one AND gate per set. *)
Lemma atleast_loop (L : list (gset Z)) (gate : Z) :
  ∀ ft g,
    indexed_gates_ ft !! gate = Some g →
    0 ≤ new_gate_index_ ft →
    (∀ c, c ∈ Gate.children g → 0 < c ≤ new_gate_index_ ft) →
    (∀ i, new_gate_index_ ft < i → indexed_gates_ ft !! i = None) →
    (∀ s c, s ∈ L → c ∈ s → - c ∉ s) →
    wp no_failure
      (for_each L
         (λ s,
            let* index := next_index in
            let* gate_one :=
              add_asserted (ascending s) (Gate.create kAndGate) in
            let* _ := call_gate gate (Gate.AddChild index) in
            insert_gate index gate_one))
      (λ _ ft',
         let n := new_gate_index_ ft in
         new_gate_index_ ft' = n + Z.of_nat (length L) ∧
         indexed_gates_ ft' !! gate =
           Some (Gate.set_children
                   (Gate.children g ∪
                    list_to_set (seqZ (n + 1) (Z.of_nat (length L)))) g) ∧
         (∀ (j : nat) s, L !! j = Some s →
            indexed_gates_ ft' !! (n + 1 + Z.of_nat j) =
            Some (Gate.set_children s (Gate.create kAndGate))) ∧
         (∀ i, i ≠ gate → i ≤ n ∨ n + Z.of_nat (length L) < i →
            indexed_gates_ ft' !! i = indexed_gates_ ft !! i)) ft.
Proof.
  induction L as [|s L IH]; intros ft g Hg Hn Hch Hfresh Hsets.
  - apply wp_ret. simpl. repeat split.
    + lia.
    + rewrite Hg. f_equal. rewrite (right_id_L ∅ (∪)). by destruct g.
    + intros j s Hj. inversion Hj.
  - cbn [for_each]. apply wp_bind, wp_bind, wp_next_index. tree_simpl.
    apply wp_bind. unfold wp at 1.
    rewrite add_asserted_all.
    2:{ intros c Hc%elem_of_ascending. split; [|set_solver].
        rewrite elem_of_ascending. apply (Hsets s); [left|done]. }
    simpl Gate.children. rewrite (left_id_L ∅ (∪)), list_to_set_ascending.
    assert (Hgate : gate ≤ new_gate_index_ ft).
    { destruct (decide (gate ≤ new_gate_index_ ft)); [done|].
      rewrite Hfresh in Hg by lia. done. }
    wp_run. rewrite AddChild_absent.
    2:{ intros Hc%Hch. lia. }
    cbn [fst snd]. rewrite Hfresh by lia.
    set (g1 := Gate.set_children
                 (Gate.children g ∪ {[new_gate_index_ ft + 1]}) g).
    eapply wp_mono.
    { apply (IH _ g1).
      - tree_simpl. rewrite lookup_insert_ne by lia. apply lookup_insert_eq.
      - tree_simpl. lia.
      - tree_simpl. unfold g1; simpl. intros c.
        rewrite elem_of_union, elem_of_singleton. intros [Hc%Hch| ->]; lia.
      - tree_simpl. intros i Hi.
        rewrite !lookup_insert_ne by lia. apply Hfresh. lia.
      - intros s' c Hs'. apply Hsets. by right. }
    tree_simpl. intros [] ft' (Hidx & Hgate' & Hsub & Hrest).
    cbn [length]. repeat split.
    + lia.
    + rewrite Hgate'. f_equal.
      rewrite (seqZ_cons (new_gate_index_ ft + 1)) by lia.
      replace (Z.pred (Z.of_nat (S (length L)))) with (Z.of_nat (length L))
        by lia.
      replace (Z.succ (new_gate_index_ ft + 1))
        with (new_gate_index_ ft + 1 + 1) by lia.
      unfold g1, Gate.set_children; simpl. f_equal.
      by rewrite (assoc_L (∪)).
    + intros [|j] s' Hj; simpl in Hj.
      * injection Hj as <-. rewrite Z.add_0_r.
        rewrite Hrest by (done || lia).
        by rewrite lookup_insert_eq.
      * replace (new_gate_index_ ft + 1 + Z.of_nat (S j))
          with (new_gate_index_ ft + 1 + 1 + Z.of_nat j) by lia.
        by apply Hsub.
    + intros i Hi Hrange. rewrite Hrest by (done || lia).
      rewrite !lookup_insert_ne by lia. done.
Qed.

(** C5: NormalizeGate on an ATLEAST gate with vote number k over n children,
    2 <= k <= n - 1, in which no literal occurs with its negation, when the
    indices above the counter are free: the gate becomes an OR gate whose
    children are exactly the new indices new + 1 .. new + C(n, k); these are
    AND gates, the j-th over the j-th set of a duplicate-free list of all
    the k-element subsets of the original children; no other gate
    changes. *)
Theorem atleast_expansion (ft : IndexedFaultTree) (gate : Z)
    (g : IndexedGate) :
  let k := Gate.vote_number g in
  let n := size (Gate.children g) in
  let new := new_gate_index_ ft in
  indexed_gates_ ft !! gate = Some g →
  Gate.type g = kAtleastGate →
  2 ≤ k ≤ Z.of_nat n - 1 →
  (∀ c, c ∈ Gate.children g → - c ∉ Gate.children g) →
  0 ≤ new →
  (∀ i, new < i → indexed_gates_ ft !! i = None) →
  ∃ (ft' : IndexedFaultTree) (subsets : list (gset Z)),
    NormalizeGate gate ft = Done tt ft' ∧
    NoDup subsets ∧
    (∀ s, s ∈ subsets ↔ s ⊆ Gate.children g ∧ size s = Z.to_nat k) ∧
    length subsets = choose n (Z.to_nat k) ∧
    new_gate_index_ ft' = new + Z.of_nat (length subsets) ∧
    indexed_gates_ ft' !! gate =
      Some (Gate.set_children
              (list_to_set (seqZ (new + 1) (Z.of_nat (length subsets))))
              (Gate.set_type kOrGate g)) ∧
    (∀ (j : nat) s, subsets !! j = Some s →
       indexed_gates_ ft' !! (new + 1 + Z.of_nat j) =
       Some (Gate.set_children s (Gate.create kAndGate))) ∧
    (∀ i, i ≠ gate → i ≤ new ∨ new + Z.of_nat (length subsets) < i →
       indexed_gates_ ft' !! i = indexed_gates_ ft !! i).
Proof.
  intros k n new Hg Hty Hk Hcompl Hnew Hfresh.
  set (subsets := ascending_sets (vote_sets (ascending (Gate.children g)) k)).
  assert (Hmem : ∀ s, s ∈ subsets ↔
                   s ⊆ Gate.children g ∧ size s = Z.to_nat k).
  { intros s. unfold subsets.
    rewrite elem_of_ascending_sets. apply elem_of_vote_sets. lia. }
  assert (Hrun : wp no_failure (NormalizeGate gate)
    (λ _ ft',
       new_gate_index_ ft' = new + Z.of_nat (length subsets) ∧
       indexed_gates_ ft' !! gate =
         Some (Gate.set_children
                 (list_to_set (seqZ (new + 1) (Z.of_nat (length subsets))))
                 (Gate.set_type kOrGate g)) ∧
       (∀ (j : nat) s, subsets !! j = Some s →
          indexed_gates_ ft' !! (new + 1 + Z.of_nat j) =
          Some (Gate.set_children s (Gate.create kAndGate))) ∧
       (∀ i, i ≠ gate → i ≤ new ∨ new + Z.of_nat (length subsets) < i →
          indexed_gates_ ft' !! i = indexed_gates_ ft !! i)) ft).
  { unfold NormalizeGate. wp_run. rewrite Hty. unfold NormalizeAtleastGate.
    wp_run. fold k.
    replace (k >? 1) with true by (symmetry; lia).
    wp_run. fold n. replace (Z.of_nat n >? k) with true by (symmetry; lia).
    wp_run. fold subsets.
    set (g2 := Gate.EraseAllChildren (Gate.set_type kOrGate g)).
    eapply wp_mono.
    { apply (atleast_loop subsets gate _ g2).
      - tree_simpl. apply lookup_insert_eq.
      - done.
      - intros c Hc. unfold g2 in Hc; simpl in Hc. set_solver.
      - tree_simpl. intros i Hi.
        rewrite !lookup_insert_ne; [by apply Hfresh|..];
          intros ->; rewrite Hfresh in Hg by done; done.
      - intros s c [Hs _]%Hmem Hc Hc'. by apply (Hcompl c); apply Hs. }
    tree_simpl. intros [] ft' (Hidx & Hgate & Hsub & Hrest).
    split; [done|]. split; [|split; [done|]].
    - rewrite Hgate. f_equal. unfold g2, Gate.set_children; simpl. f_equal.
      by rewrite (left_id_L ∅ (∪)).
    - intros i Hi Hrange. rewrite Hrest by done.
      by rewrite !lookup_insert_ne by done. }
  destruct (wp_total _ _ _ Hrun) as ([] & ft' & Hdone & H).
  exists ft', subsets. split; [done|]. split; [apply NoDup_ascending_sets|].
  split; [done|]. split; [|done].
  apply subsets_length; [apply NoDup_ascending_sets|done].
Qed.

Lemma atleast_expansion_witness :
  ∃ (ft' : IndexedFaultTree) (subsets : list (gset Z)),
    NormalizeGate 4 two_of_three = Done tt ft' ∧
    NoDup subsets ∧
    (∀ s, s ∈ subsets ↔
          s ⊆ Gate.children two_of_three_gate ∧
          size s = Z.to_nat (Gate.vote_number two_of_three_gate)) ∧
    length subsets =
      choose (size (Gate.children two_of_three_gate))
             (Z.to_nat (Gate.vote_number two_of_three_gate)) ∧
    new_gate_index_ ft' =
      new_gate_index_ two_of_three + Z.of_nat (length subsets) ∧
    indexed_gates_ ft' !! 4 =
      Some (Gate.set_children
              (list_to_set (seqZ (new_gate_index_ two_of_three + 1)
                                 (Z.of_nat (length subsets))))
              (Gate.set_type kOrGate two_of_three_gate)) ∧
    (∀ (j : nat) s, subsets !! j = Some s →
       indexed_gates_ ft' !! (new_gate_index_ two_of_three + 1 + Z.of_nat j) =
       Some (Gate.set_children s (Gate.create kAndGate))) ∧
    (∀ i, i ≠ 4 →
       i ≤ new_gate_index_ two_of_three ∨
       new_gate_index_ two_of_three + Z.of_nat (length subsets) < i →
       indexed_gates_ ft' !! i = indexed_gates_ two_of_three !! i).
Proof.
  apply (atleast_expansion two_of_three 4 two_of_three_gate).
  - reflexivity.
  - reflexivity.
  - vm_compute. split; discriminate.
  - intros c. simpl.
    rewrite !elem_of_union, !elem_of_singleton. lia.
  - simpl. lia.
  - intros i Hi. simpl in *.
    rewrite lookup_insert_ne by lia. apply lookup_empty.
Defined.

(** Two out of three: the gate becomes an OR over the three new gates 5, 6
    and 7, which are the ANDs over {1, 2}, {1, 3} and {2, 3}. *)
Lemma atleast_expansion_example :
  (λ ft, (λ g, (Gate.type g, Gate.children g)) <$> indexed_gates_ ft) <$>
    final_state (NormalizeGate 4 two_of_three) =
  Some (list_to_map
          [(4, (kOrGate, {[5; 6; 7]})); (5, (kAndGate, {[1; 2]}));
           (6, (kAndGate, {[1; 3]})); (7, (kAndGate, {[2; 3]}))]).
Proof. vm_compute. reflexivity. Qed.

Lemma shape_at_mono alt ft ft' S S' i :
  shape_at alt ft S i → S ⊆ S' → frame ft ft' →
  indexed_gates_ ft' !! i = indexed_gates_ ft !! i →
  shape_at alt ft' S' i.
Proof.
  intros (g & Hg & Hty & Hch) HS Hfr Hi. exists g.
  split; [congruence|]. split; [done|].
  intros c Hc Hgi. destruct Hfr as (_ & Hgi' & _ & _ & Hgates).
  rewrite Hgi' in Hgi. destruct (Hch c Hc Hgi) as (Hpos & HcS & Halt).
  split; [done|]. split; [by apply HS|].
  intros Ha. destruct (Halt Ha) as (gc & Hgc & Hand & Hne).
  destruct (Hgates c gc Hgc) as (gc' & Hgc' & Hty').
  exists gc'. rewrite Hty'. done.
Qed.

Lemma AddChild_false c g :
  (Gate.AddChild c g).1 = false → Gate.children (Gate.AddChild c g).2 = ∅.
Proof. unfold Gate.AddChild. by case_decide. Qed.

Lemma add_children_false cs g :
  (Gate.add_children cs g).1 = false →
  Gate.children (Gate.add_children cs g).2 = ∅.
Proof.
  revert g. induction cs as [|c cs IH]; intros g; simpl; [done|].
  pose proof (AddChild_false c g) as Hc.
  destruct (Gate.AddChild c g) as [[] g']; simpl in *; [apply IH|auto].
Qed.

Lemma MergeGate_false i child g :
  (Gate.MergeGate i child g).1 = false →
  Gate.children (Gate.MergeGate i child g).2 = ∅.
Proof. apply add_children_false. Qed.

Lemma SwapChild_false a b g :
  (Gate.SwapChild a b g).1 = false →
  Gate.children (Gate.SwapChild a b g).2 = ∅.
Proof. apply AddChild_false. Qed.

Lemma loop_joined_step ft ft1 gate P P1 r ft' :
  frame ft ft1 → P ⊆ P1 →
  (∀ i, i ∈ P → i ≠ gate →
        indexed_gates_ ft1 !! i = indexed_gates_ ft !! i) →
  (∀ i, i ∈ P1 → i ∉ P → i ≠ gate ∧ shape_at true ft1 P1 i) →
  loop_joined ft1 gate P1 r ft' → loop_joined ft gate P r ft'.
Proof.
  intros Hfr HP Hsame Hnew (HP' & Hfr' & Hsame' & Hnew' & Hgate).
  split; [by etrans|]. split; [by etrans|]. split; [|split; [|done]].
  - intros i Hi Hne. rewrite Hsame' by auto. by apply Hsame.
  - intros i Hi HiP. destruct (decide (i ∈ P1)) as [Hi1|Hi1]; [|by apply Hnew'].
    destruct (Hnew i Hi1 HiP) as [Hne Hshape].
    eapply shape_at_mono; [done..|]. by apply Hsame'.
Qed.

Lemma shape_at_empty alt ft S i g :
  indexed_gates_ ft !! i = Some g → and_or (Gate.type g) →
  Gate.children g = ∅ → shape_at alt ft S i.
Proof.
  intros Hg Hty Hch. exists g. split; [done|]. split; [done|].
  intros c Hc. rewrite Hch in Hc. by apply not_elem_of_empty in Hc.
Qed.

Lemma frame_update ft i g g' :
  indexed_gates_ ft !! i = Some g → Gate.type g' = Gate.type g →
  frame ft (set_gates (<[i := g']> (indexed_gates_ ft)) ft).
Proof.
  intros Hg Hty. unfold frame; simpl. repeat split; try lia.
  intros j gj Hj. destruct (decide (i = j)) as [->|].
  - rewrite lookup_insert_eq. exists g'. split; [done|]. congruence.
  - rewrite lookup_insert_ne by done. eauto.
Qed.

Lemma join_loop_joined rec fuel :
  (∀ c P ft, wp any_failure (rec c P) (joined ft c P) ft) →
  ∀ gate parent it ch P ft g,
    gate ∈ P →
    indexed_gates_ ft !! gate = Some g →
    Gate.type g = parent → and_or parent →
    (∀ c, c ∈ Gate.children g → c ∉ it → gate_index_ ft < Z.abs c →
       0 < c ∧ c ∈ P ∧
       ∃ gc, indexed_gates_ ft !! c = Some gc ∧ and_or (Gate.type gc) ∧
             Gate.type gc ≠ parent) →
    wp any_failure (join_loop rec fuel gate parent it ch P)
       (loop_joined ft gate P) ft.
Proof.
  intros Hrec. induction fuel as [|fuel IH];
    intros gate parent it ch P ft g HgateP Hg Hparent Hand Hseen; [done|].
  assert (Hrestart : ∀ g1 (ok : bool),
    Gate.type g1 = parent →
    (ok = false → Gate.children g1 = ∅) →
    wp any_failure
      (if ok then
         let* g := find_gate gate in
         join_loop rec fuel gate parent (ascending (Gate.children g)) true P
       else ret (true, P))
      (loop_joined ft gate P)
      (set_gates (<[gate := g1]> (indexed_gates_ ft)) ft)).
  { intros g1 ok Hty1 Hempty.
    assert (Hfr1 : frame ft (set_gates (<[gate := g1]> (indexed_gates_ ft)) ft))
      by (apply (frame_update _ _ g); congruence).
    destruct ok.
    - apply wp_bind, wp_find_gate. tree_simpl. rewrite lookup_insert_eq.
      eapply wp_mono.
      { apply (IH gate parent _ true P _ g1); try done.
        - tree_simpl. apply lookup_insert_eq.
        - intros c' Hc' Hnot. by rewrite elem_of_ascending in Hnot. }
      intros r ft'. apply loop_joined_step; [done|done| |done].
      intros i Hi Hne. tree_simpl. by rewrite lookup_insert_ne.
    - apply wp_ret. split; [done|]. split; [done|]. split; [|split].
      + intros i Hi Hne. tree_simpl. by rewrite lookup_insert_ne.
      + intros i Hi HiP. done.
      + apply (shape_at_empty _ _ _ _ g1); [apply lookup_insert_eq| |auto].
        by rewrite Hty1. }
  destruct it as [|c rest].
  { apply wp_ret. split; [done|]. split; [done|]. split; [done|].
    split; [done|]. exists g. split; [done|]. split; [by rewrite Hparent|].
    intros c Hc Hgi.
    destruct (Hseen c Hc ltac:(apply not_elem_of_nil) Hgi) as (?&?&gc&?&?&?).
    split; [done|]. split; [done|]. intros _. exists gc. by rewrite Hparent. }
  assert (Hnext : ∀ ch',
    (gate_index_ ft < Z.abs c →
       0 < c ∧ c ∈ P ∧
       ∃ gc, indexed_gates_ ft !! c = Some gc ∧ and_or (Gate.type gc) ∧
             Gate.type gc ≠ parent) →
    wp any_failure (join_loop rec fuel gate parent rest ch' P)
       (loop_joined ft gate P) ft).
  { intros ch' Hc. apply (IH _ _ _ _ _ _ g); try done.
    intros c' Hc' Hnot Hgi.
    destruct (decide (c' = c)) as [->|Hne]; [by apply Hc|].
    apply Hseen; [done| |done]. rewrite elem_of_cons. tauto. }
  cbn [join_loop]. cbv zeta. apply wp_bind, wp_get.
  destruct (Z.abs c >? gate_index_ ft) eqn:Hgi; [|apply Hnext; lia].
  apply wp_bind, wp_assert. destruct (c >? 0) eqn:Hpos; [|done].
  apply wp_bind, wp_find_gate. rewrite Z.abs_eq by lia.
  destruct (indexed_gates_ ft !! c) as [gc|] eqn:Hgc; [|done].
  apply wp_bind, wp_assert. case_bool_decide as Hgcty; [|done].
  destruct (decide (parent = Gate.type gc)) as [Heq|Hneq].
  - (* the child is merged *)
    apply wp_bind, wp_find_gate. rewrite Hgc.
    apply wp_bind, wp_call_gate. rewrite Hg.
    apply Hrestart; [by rewrite type_MergeGate|apply MergeGate_false].
  - destruct (decide (size (Gate.children gc) = 1%nat)) as [Hone|Hmore].
    + (* the single child of the child is lifted *)
      destruct (ascending (Gate.children gc)) as [|gch ?]; [done|].
      apply wp_bind, wp_call_gate. rewrite Hg.
      apply Hrestart; [by rewrite type_SwapChild|apply SwapChild_false].
    + (* the child is visited *)
      apply wp_bind. eapply wp_mono; [apply Hrec|].
      intros [r P1] ft1 (HP1 & HcP1 & Hfr1 & Hsame1 & Hnew1). simpl in *.
      assert (Hg1 : indexed_gates_ ft1 !! gate = Some g)
        by (rewrite Hsame1; done).
      eapply wp_mono.
      { apply (IH gate parent rest (ch || r) P1 ft1 g); try done.
        - by apply HP1.
        - intros c' Hc' Hnot Hgi'.
          destruct Hfr1 as (_ & Hgi1 & _ & _ & Hgates1).
          rewrite Hgi1 in Hgi'.
          assert (Hkeep : ∀ c0 gc0,
            indexed_gates_ ft !! c0 = Some gc0 → and_or (Gate.type gc0) →
            Gate.type gc0 ≠ parent →
            ∃ gc1, indexed_gates_ ft1 !! c0 = Some gc1 ∧
                   and_or (Gate.type gc1) ∧ Gate.type gc1 ≠ parent).
          { intros c0 gc0 H0 Ha Hn.
            destruct (Hgates1 c0 gc0 H0) as (gc1 & H1 & Hty1).
            exists gc1. by rewrite Hty1. }
          destruct (decide (c' = c)) as [->|Hne].
          + split; [lia|]. split; [done|]. apply (Hkeep c gc); auto.
          + destruct (Hseen c' Hc') as (? & ? & gc' & ? & ? & ?);
              [rewrite elem_of_cons; tauto|done|].
            split; [done|]. split; [by apply HP1|]. by apply (Hkeep c' gc'). }
      intros r' ft'. apply loop_joined_step; try done.
      * intros i Hi Hne. by apply Hsame1.
      * intros i Hi HiP. split; [|by apply Hnew1]. by intros ->.
Qed.

Lemma JoinGates_joined fuel :
  ∀ gate P ft, wp any_failure (JoinGates fuel gate P) (joined ft gate P) ft.
Proof.
  induction fuel as [|fuel IH]; intros gate P ft; [done|].
  cbn [JoinGates]. destruct (decide (gate ∈ P)) as [Hin|Hnotin].
  { apply wp_ret. split; [done|]. split; [done|]. split; [done|].
    split; [done|]. intros i Hi Hni. done. }
  apply wp_bind, wp_find_gate.
  destruct (indexed_gates_ ft !! gate) as [g|] eqn:Hg; [|done].
  apply wp_bind, wp_assert. case_bool_decide as Hty; [|done].
  eapply wp_mono.
  { apply (join_loop_joined _ fuel IH gate (Gate.type g) _ false
             (P ∪ {[gate]}) ft g); try done.
    - apply elem_of_union. right. by apply elem_of_singleton.
    - intros c Hc Hnot. by rewrite elem_of_ascending in Hnot. }
  intros r ft' (HP & Hfr & Hsame & Hnew & Hgate).
  split; [|split; [|split; [done|split]]].
  - etrans; [|exact HP]. apply union_subseteq_l.
  - apply HP, elem_of_union. right. by apply elem_of_singleton.
  - intros i Hi. apply Hsame.
    + apply elem_of_union. by left.
    + by intros ->.
  - intros i Hi HiP. destruct (decide (i = gate)) as [->|Hne]; [done|].
    apply Hnew; [done|].
    rewrite elem_of_union, elem_of_singleton. tauto.
Qed.

Lemma wp_scan_leave E {A S} (l : list A) (s : S)
    (body : A → S → M (bool * S))
    (I Q : S → IndexedFaultTree → Prop) ft :
  (∀ x s ft, x ∈ l → I s ft →
     wp E (body x s) (λ r ft', if r.1 then Q r.2 ft' else I r.2 ft') ft) →
  I s ft →
  wp E (scan l s body) (λ r ft', if r.1 then Q r.2 ft' else I r.2 ft') ft.
Proof.
  revert s ft. induction l as [|x l IH]; intros s ft Hbody HI; simpl.
  - by apply wp_ret.
  - apply wp_bind. eapply wp_mono; [apply Hbody; [left | done]|].
    intros [leave s'] ft' HI'. destruct leave; simpl in HI'.
    + by apply wp_ret.
    + apply IH; [|done]. intros y s'' ft'' Hy. apply Hbody. by right.
Qed.

Lemma ProcessConstantChild_false gate c st te ft :
  wp any_failure (ProcessConstantChild gate c st te)
     (λ r ft', r.1 = false → r.2 = te ++ [c] ∧ ft' = ft) ft.
Proof. unfold ProcessConstantChild. wp_auto; done. Qed.

Lemma ProcessConstGates_unchanged fuel :
  ∀ gate P ft,
    wp any_failure (ProcessConstGates fuel gate P)
       (λ r ft', r.1 = false → unchanged_or_emptied gate ft ft') ft.
Proof.
  induction fuel as [|fuel IH]; intros gate P ft; [done|].
  cbn [ProcessConstGates]. cbv zeta.
  destruct (decide (gate ∈ P)); [apply wp_ret; by left|].
  apply wp_bind, wp_find_gate.
  destruct (indexed_gates_ ft !! gate) as [g|] eqn:Hg; [|done].
  case_bool_decide as Hstate; [apply wp_ret; by left|].
  apply wp_bind, wp_assert. case_bool_decide as Hty; [|done].
  apply wp_bind, wp_get. apply wp_bind.
  eapply wp_mono.
  { apply (wp_scan_leave _ _ _ _
             (λ s ft', s.1.1 = false → s.1.2 = [] → ft' = ft)
             (λ _ _, True)).
    - intros c [[changed to_erase] P1] ft1 _ Hinv. simpl in Hinv.
      destruct (Z.abs c >? gate_index_ ft); [|by apply wp_ret].
      apply wp_bind, wp_assert. destruct (c >? 0); [|done].
      apply wp_bind, wp_find_gate. destruct (_ !! c); [|done].
      apply wp_bind. eapply wp_mono; [apply IH|].
      intros [r P2] ft2 Hchild. simpl in Hchild.
      apply wp_bind, wp_find_gate.
      destruct (indexed_gates_ ft2 !! c) as [gc|] eqn:Hgc; [|done].
      destruct (Gate.state gc) eqn:Hst.
      + apply wp_ret. simpl. intros Hch ->.
        apply orb_false_elim in Hch as [-> ->].
        destruct (Hchild eq_refl) as [->|(g0 & g' & _ & -> & _ & Hs & _)];
          [by apply Hinv|].
        simpl in Hgc. rewrite lookup_insert_eq in Hgc. congruence.
      + apply wp_bind. eapply wp_mono; [apply ProcessConstantChild_false|].
        intros [r' te'] ft3 Hpcc. apply wp_ret. simpl in *.
        destruct r'; [done|]. destruct (Hpcc eq_refl) as [-> ->].
        intros _ Hnil. by destruct to_erase.
      + apply wp_bind. eapply wp_mono; [apply ProcessConstantChild_false|].
        intros [r' te'] ft3 Hpcc. apply wp_ret. simpl in *.
        destruct r'; [done|]. destruct (Hpcc eq_refl) as [-> ->].
        intros _ Hnil. by destruct to_erase.
    - done. }
  intros [returned [[changed to_erase] P1]] ft1 Hscan. simpl in Hscan.
  destruct returned; [by apply wp_ret|].
  destruct changed; simpl.
  { apply wp_bind. eapply wp_mono; [apply wp_any|]. intros ? ? _.
    apply wp_ret. simpl. discriminate. }
  destruct to_erase as [|c te]; simpl.
  2:{ apply wp_bind. eapply wp_mono; [apply wp_any|]. intros ? ? _.
      apply wp_ret. simpl. discriminate. }
  rewrite (Hscan eq_refl eq_refl).
  unfold RemoveChildren. cbn [for_each].
  apply wp_bind, wp_bind, wp_ret, wp_bind, wp_find_gate. rewrite Hg.
  destruct (decide (Gate.children g = ∅)) as [Hempty|Hne].
  - apply wp_bind, wp_assert. destruct (bool_decide _); [|done].
    destruct (decide (Gate.type g = kOrGate)).
    + apply wp_on_gate. rewrite Hg. apply wp_ret. intros _. right.
      exists g, (Gate.Nullify g). repeat split; done.
    + apply wp_on_gate. rewrite Hg. apply wp_ret. intros _. right.
      exists g, (Gate.MakeUnity g). repeat split; done.
  - apply wp_ret, wp_ret. intros _. by left.
Qed.

Lemma shape_at_emptied alt gate ft ft' S i :
  unchanged_or_emptied gate ft ft' →
  (∀ j, j ∈ S → shape_at alt ft S j) → i ∈ S → shape_at alt ft' S i.
Proof.
  intros [->|(g & g' & Hg & -> & Hty & Hst & Hch)] HS Hi; [by apply HS|].
  destruct (decide (i = gate)) as [->|Hne].
  - destruct (HS gate Hi) as (g0 & Hg0 & Hand & _).
    apply (shape_at_empty _ _ _ _ g'); [apply lookup_insert_eq| |done].
    rewrite Hty. congruence.
  - eapply shape_at_mono; [by apply HS|done| |].
    + by apply (frame_update _ _ g).
    + simpl. by rewrite lookup_insert_ne.
Qed.

Lemma coalesce_shaped fuel :
  ∀ top ft,
    wp any_failure (coalesce fuel top)
       (λ _ ft', frame ft ft' ∧
                 ∃ S, top ∈ S ∧ ∀ i, i ∈ S → shape_at true ft' S i) ft.
Proof.
  induction fuel as [|fuel IH]; intros top ft; [done|].
  cbn [coalesce]. apply wp_bind.
  eapply wp_mono; [apply JoinGates_joined|].
  intros [joined P] ftJ (_ & Htop & HfrJ & _ & Hshape). simpl in *.
  assert (HS : ∀ i, i ∈ P → shape_at true ftJ P i)
    by (intros i Hi; apply Hshape; [done|apply not_elem_of_empty]).
  destruct joined; [|apply wp_ret; eauto].
  apply wp_bind. eapply wp_mono.
  { apply wp_conj; [apply ProcessConstGates_unchanged|].
    apply (frame_ProcessConstGates ftJ fuel top ∅ ftJ). reflexivity. }
  intros [changed P'] ftP [Hun HfrP]. simpl in *.
  destruct changed.
  - eapply wp_mono; [apply IH|]. intros [] ft' [Hfr' HS'].
    split; [|done]. transitivity ftJ; [done|]. by transitivity ftP.
  - apply wp_ret. split; [by etrans|]. exists P. split; [done|].
    intros i Hi. by apply (shape_at_emptied _ top ftJ); [apply Hun|..].
Qed.

Lemma absorb_top_sign_fields top ft :
  wp any_failure (absorb_top_sign top)
     (λ _ ft', top_event_index_ ft' = top_event_index_ ft ∧
               gate_index_ ft' = gate_index_ ft ∧
               new_gate_index_ ft' = new_gate_index_ ft) ft.
Proof. unfold absorb_top_sign. wp_auto; done. Qed.

Lemma prepare_shaped fuel ft :
  wp any_failure (prepare fuel)
     (λ top ft', top = top_event_index_ ft' ∧
                 top_event_index_ ft' = top_event_index_ ft ∧
                 gate_index_ ft' = gate_index_ ft ∧
                 new_gate_index_ ft ≤ new_gate_index_ ft' ∧
                 ∃ S, shaped true ft' S) ft.
Proof.
  unfold prepare. apply wp_bind, wp_get, wp_bind, wp_find_gate.
  destruct (_ !! _); [|done]. apply wp_bind.
  eapply wp_mono; [apply absorb_top_sign_fields|].
  intros [] ft1 (Ht1 & Hg1 & Hn1). apply wp_bind.
  eapply wp_mono;
    [apply (frame_PropagateComplements ft1 fuel _ _ ft1); reflexivity|].
  intros ? ft2 Hfr2. apply wp_bind.
  eapply wp_mono;
    [apply (frame_ProcessConstGates ft2 fuel _ _ ft2); reflexivity|].
  intros ? ft3 Hfr3. apply wp_bind.
  eapply wp_mono; [apply coalesce_shaped|].
  intros [] ft4 (Hfr4 & S & Htop & HS). apply wp_ret.
  destruct Hfr2 as (?&?&?&?&_), Hfr3 as (?&?&?&?&_), Hfr4 as (?&?&?&?&_).
  split; [congruence|]. split; [congruence|]. split; [congruence|].
  split; [lia|]. exists S. split; [|done].
  replace (top_event_index_ ft4) with (top_event_index_ ft) by congruence.
  done.
Qed.

Lemma reachable_shaped alt ft S i :
  shaped alt ft S → reachable ft i → i ∈ S.
Proof.
  intros [Htop HS]. induction 1 as [|i g c Hi IH Hg Hc Hgi]; [done|].
  destruct (HS i IH) as (g' & Hg' & _ & Hch).
  assert (g' = g) as -> by congruence.
  destruct (Hch c Hc Hgi) as (Hpos & HcS & _).
  by rewrite Z.abs_eq by lia.
Qed.

Lemma children_Visit t g :
  Gate.children (Gate.Visit t g).2 = Gate.children g.
Proof.
  unfold Gate.Visit. destruct (Gate.visits g) as [[v0 v1] v2].
  by repeat case_decide.
Qed.

Lemma same_children_refl ft : same_children ft ft.
Proof. intros i g Hg. eauto. Qed.

Lemma same_children_call_gate ft0 i f :
  (∀ g, Gate.children (f g).2 = Gate.children g) →
  preserves (same_children ft0) (call_gate i f).
Proof.
  intros Hf ft Hsame. apply wp_call_gate.
  destruct (_ !! _) as [g|] eqn:Hg; [|done].
  intros j gj Hj. destruct (Hsame j gj Hj) as (g' & Hg' & Hch).
  tree_simpl. destruct (decide (i = j)) as [->|].
  - rewrite lookup_insert_eq. eexists. split; [done|]. rewrite Hf. congruence.
  - rewrite lookup_insert_ne by done. eauto.
Qed.

Lemma same_children_basic_visits ft0 vb i :
  preserves (same_children ft0) (basic_visits vb i).
Proof. unfold basic_visits. preserves_auto. Qed.

Lemma same_children_AssignTiming ft0 fuel time gate vb :
  preserves (same_children ft0) (AssignTiming fuel time gate vb).
Proof.
  revert time gate vb. induction fuel as [|fuel IH]; intros time gate vb.
  { apply preserves_fail. }
  cbn [AssignTiming]. preserves_auto; auto using same_children_basic_visits.
  all: apply same_children_call_gate; intros ?; apply children_Visit.
Qed.

Lemma shapes_same_children top gi S ft ft' :
  shapes top gi S ft → frame ft ft' → same_children ft ft' → shapes top gi S ft'.
Proof.
  intros (Htop & Hgi & Hle & Hnew & HgiS & HS) Hfr Hsame.
  pose proof Hfr as (Htop' & Hgi' & _ & Hnew' & Hty).
  split; [congruence|]. split; [congruence|]. split; [done|].
  split; [lia|]. split; [done|].
  intros i Hi. destruct (HS i Hi) as (g & Hg & Hand & Hch).
  destruct (Hty i g Hg) as (g' & Hg' & Htyg).
  destruct (Hsame i g Hg) as (g'' & Hg'' & Hchg).
  assert (g'' = g') as -> by congruence.
  exists g'. split; [done|]. split; [by rewrite Htyg|].
  intros c Hc Hlt. rewrite Hchg in Hc. rewrite Hgi' in Hlt.
  destruct (Hch c Hc Hlt) as (? & ? & _). done.
Qed.

Lemma shapes_set_modules top gi S ms ft :
  shapes top gi S ft → shapes top gi S (set_modules ms ft).
Proof. done. Qed.

Lemma grown_mono top gi S S' ft : S ⊆ S' → grown top gi S' ft → grown top gi S ft.
Proof. intros HS (S'' & HS' & Hshape). exists S''. split; [by etrans|done]. Qed.

Lemma shapes_grown top gi S ft : shapes top gi S ft → grown top gi S ft.
Proof. intros H. by exists S. Qed.

(** CreateNewModule: the gate loses the children of the list to a new gate
    of its own kind and gets this gate as a child. *)
Lemma CreateNewModule_shapes top gi S gate l ft :
  shapes top gi S ft → gate ∈ S →
  (∀ c, c ∈ l → gi < Z.abs c → 0 < c ∧ c ∈ S) →
  wp any_failure (CreateNewModule gate l) (λ _, grown top gi S) ft.
Proof.
  intros (Htop & Hgi & Hle & Hnew & HgiS & HS) Hgate Hl.
  unfold CreateNewModule.
  destruct (HS gate Hgate) as (g & Hg & Hand & Hch).
  apply wp_bind, wp_find_gate. rewrite Hg.
  apply wp_bind, wp_assert. case_bool_decide; [|done].
  apply wp_bind, wp_assert. case_bool_decide; [|done].
  case_decide.
  { apply wp_modify. by apply shapes_grown. }
  apply wp_bind, wp_assert. case_bool_decide; [|done].
  apply wp_bind, wp_next_index. set (nm := new_gate_index_ ft + 1).
  apply wp_bind, wp_insert_gate. tree_simpl.
  destruct (indexed_gates_ ft !! nm) eqn:Hnm; [done|].
  assert (Hne : gate ≠ nm) by congruence.
  apply wp_bind, wp_modify. apply wp_bind.
  eapply wp_mono.
  { apply (wp_for_each _ _ _ (λ ft',
      top_event_index_ ft' = top ∧ gate_index_ ft' = gi ∧
      new_gate_index_ ft' = nm ∧
      (∀ i, i ≠ gate → i ≠ nm →
         indexed_gates_ ft' !! i = indexed_gates_ ft !! i) ∧
      (∃ g', indexed_gates_ ft' !! gate = Some g' ∧
             Gate.type g' = Gate.type g ∧
             Gate.children g' ⊆ Gate.children g) ∧
      (∃ gn, indexed_gates_ ft' !! nm = Some gn ∧
             Gate.type gn = Gate.type g ∧
             ∀ c, c ∈ Gate.children gn → c ∈ l))).
    - intros c ft1 Hc (Ht1 & Hg1 & Hn1 & Hother & (g' & Hg' & Hty' & Hch')
                       & (gn & Hgn & Htyn & Hchn)).
      apply wp_bind, wp_on_gate. rewrite Hg'.
      apply wp_on_gate. tree_simpl. rewrite lookup_insert_ne by done.
      rewrite Hgn. tree_simpl.
      split; [done|]. split; [done|]. split; [done|]. split; [|split].
      + intros i Hi1 Hi2. rewrite !lookup_insert_ne by done. by apply Hother.
      + exists (Gate.EraseChild c g').
        rewrite lookup_insert_ne, lookup_insert_eq by done.
        split; [done|]. split; [done|]. simpl. intros c' Hc'.
        apply elem_of_difference in Hc' as [Hc' _]. by apply Hch'.
      + exists (Gate.InitiateWithChild c gn). rewrite lookup_insert_eq.
        split; [done|]. split; [done|]. simpl. intros c'.
        rewrite elem_of_union, elem_of_singleton. intros [?| ->]; auto.
    - tree_simpl. split; [done|]. split; [done|]. split; [done|].
      split; [|split].
      + intros i Hi1 Hi2. by rewrite lookup_insert_ne.
      + exists g. rewrite lookup_insert_ne by done.
        split; [done|]. split; [done|]. reflexivity.
      + exists (Gate.create (Gate.type g)). rewrite lookup_insert_eq.
        split; [done|]. split; [done|]. simpl. intros c Hc.
        by apply not_elem_of_empty in Hc. }
  intros [] ft1 (Ht1 & Hg1 & Hn1 & Hother & (g' & Hg' & Hty' & Hch')
                 & (gn & Hgn & Htyn & Hchn)).
  apply wp_bind, wp_find_gate. rewrite Hg'.
  apply wp_bind, wp_assert. destruct (negb _); [|done].
  apply wp_on_gate. rewrite Hg'.
  exists (S ∪ {[nm]}). split; [apply union_subseteq_l|].
  split; [done|]. split; [done|]. split; [done|]. split; [tree_simpl; lia|].
  split; [by apply elem_of_union_l|].
  intros i Hi. tree_simpl. unfold shape_at. tree_simpl.
  destruct (decide (i = nm)) as [->|Hinm].
  { exists gn. rewrite lookup_insert_ne by done. split; [done|].
    split; [by rewrite Htyn|]. intros c Hc Hlt. rewrite Hg1 in Hlt.
    destruct (Hl c (Hchn c Hc) Hlt) as [? ?].
    split; [done|]. split; [by apply elem_of_union_l|done]. }
  destruct (decide (i = gate)) as [->|Higate].
  { exists (Gate.InitiateWithChild nm g'). rewrite lookup_insert_eq.
    split; [done|]. split; [simpl; by rewrite Hty'|].
    intros c Hc Hlt. rewrite Hg1 in Hlt. simpl in Hc.
    apply elem_of_union in Hc as [Hc|Hc].
    - rewrite <- Hgi in Hlt.
      destruct (Hch c (Hch' c Hc) Hlt) as (? & ? & _).
      split; [done|]. split; [by apply elem_of_union_l|done].
    - apply elem_of_singleton in Hc as ->.
      split; [unfold nm; lia|]. split; [|done].
      apply elem_of_union_r. by apply elem_of_singleton. }
  apply elem_of_union in Hi as [Hi|Hi];
    [|by apply elem_of_singleton in Hi].
  destruct (HS i Hi) as (gi' & Hgi' & Handi & Hchi).
  exists gi'. rewrite lookup_insert_ne by done. rewrite Hother by done.
  split; [done|]. split; [done|]. intros c Hc Hlt.
  rewrite Hg1, <- Hgi in Hlt. destruct (Hchi c Hc Hlt) as (? & ? & _).
  split; [done|]. split; [by apply elem_of_union_l|done].
Qed.

Lemma basic_visits_pure vb i ft :
  wp any_failure (basic_visits vb i) (λ _ ft', ft' = ft) ft.
Proof. unfold basic_visits. by destruct (if i <? 0 then _ else _). Qed.

Lemma child_interval_pure vb vg c ft :
  wp any_failure (child_interval vb vg c) (λ _ ft', ft' = ft) ft.
Proof.
  unfold child_interval. cbv zeta. apply wp_bind, wp_get.
  destruct (_ <? _); [apply basic_visits_pure|].
  apply wp_bind, wp_assert. destruct (_ >? _); [|done].
  by destruct (_ !! _).
Qed.

(** FilterModularChildren only reads the graph, and the children it leaves
    in the modular list come from this list. *)
Lemma FilterModularChildren_sublist fuel vb vg :
  ∀ mc nmc ft,
    wp any_failure (FilterModularChildren fuel vb vg mc nmc)
       (λ r ft', ft' = ft ∧ ∀ c, c ∈ r.1 → c ∈ mc) ft.
Proof.
  induction fuel as [|fuel IH]; intros mc nmc ft; [done|].
  cbn [FilterModularChildren]. case_bool_decide; [by apply wp_ret|].
  apply wp_bind. eapply wp_mono.
  { apply (wp_for_fold _ _ _ _
             (λ s ft', ft' = ft ∧ ∀ c, c ∈ s.2 → c ∈ mc)).
    - intros c [nn sm] ft1 Hc [-> Hsm]. simpl in Hsm.
      apply wp_bind. eapply wp_mono; [apply child_interval_pure|].
      intros [lo hi] ft1 ->. apply wp_bind. eapply wp_mono.
      { apply (wp_scan _ _ _ _ (λ _ ft', ft' = ft)); [|done].
        intros n [] ft1 _ ->. apply wp_bind.
        eapply wp_mono; [apply child_interval_pure|].
        intros [lower upper] ft1 ->. by apply wp_ret. }
      intros [overlap []] ft1 ->. simpl.
      destruct overlap; apply wp_ret; (split; [done|]); simpl; [done|].
      intros c'. rewrite elem_of_app, list_elem_of_singleton.
      intros [?| ->]; auto.
    - split; [done|]. simpl. intros c Hc. by apply elem_of_nil in Hc. }
  intros [nn sm] ft1 [-> Hsm]. simpl in Hsm.
  apply wp_bind. eapply wp_mono; [apply IH|].
  intros [sm' nn'] ft1 [-> Hsm']. apply wp_ret. simpl in *. split; auto.
Qed.

Lemma lists_in_start a b s : lists_in (mkClass a b [] [] []) s.
Proof. intros c [Hc|Hc]; by apply elem_of_nil in Hc. Qed.

Lemma lists_in_non_shared c k s :
  c ∈ s → lists_in k s → lists_in (non_shared c k) s.
Proof.
  intros Hc Hk c' [Hc'|Hc']; simpl in Hc'.
  - apply elem_of_app in Hc' as [?|Hc']; [by apply Hk; left|].
    by apply list_elem_of_singleton in Hc' as ->.
  - apply Hk. by right.
Qed.

Lemma lists_in_classify a b c lo hi k s :
  c ∈ s → lists_in k s → lists_in (classify a b c lo hi k) s.
Proof.
  intros Hc Hk c' [Hc'|Hc']; simpl in Hc'.
  - apply Hk. by left.
  - case_bool_decide; [|by apply Hk; right].
    apply elem_of_app in Hc' as [?|Hc']; [by apply Hk; right|].
    by apply list_elem_of_singleton in Hc' as ->.
Qed.

Lemma FindOriginalModules_shapes fuel :
  ∀ gate vb vg top gi S ft,
    shapes top gi S ft → gate ∈ S →
    wp any_failure (FindOriginalModules fuel gate vb vg) (λ _, grown top gi S) ft.
Proof.
  induction fuel as [|fuel IH]; intros gate vb vg top gi S ft HS Hgate;
    [done|].
  cbn [FindOriginalModules]. cbv zeta.
  case_decide; [apply wp_ret; by apply shapes_grown|].
  pose proof HS as (Htop & Hgi & Hle & _ & HtopS & Hshape).
  destruct (Hshape gate Hgate) as (g & Hg & Hand & Hch).
  apply wp_bind, wp_find_gate. rewrite Hg.
  apply wp_bind, wp_get. rewrite Htop. apply wp_bind.
  eapply wp_mono.
  { apply (wp_for_fold _ _ _ _
             (λ s ft', grown top gi S ft' ∧ lists_in s.1 (Gate.children g))).
    - intros c [k vg1] ft1 Hc [(S1 & HS1 & Hshapes1) Hk]. simpl in Hk.
      apply elem_of_ascending in Hc.
      destruct (Z.abs c <? top) eqn:Hlt.
      + apply wp_bind. eapply wp_mono; [apply basic_visits_pure|].
        intros [lo hi] ft2 ->. case_decide.
        * apply wp_bind, wp_assert. case_bool_decide; [|done].
          apply wp_ret. split; [by exists S1|]. by apply lists_in_non_shared.
        * apply wp_bind, wp_assert. destruct (negb _); [|done].
          apply wp_bind, wp_assert. destruct (negb _); [|done].
          apply wp_ret. split; [by exists S1|]. by apply lists_in_classify.
      + apply wp_bind, wp_assert. destruct (c >? 0) eqn:Hpos; [|done].
        apply wp_bind, wp_find_gate. destruct (indexed_gates_ ft1 !! Z.abs c); [|done].
        apply wp_bind. eapply wp_mono.
        { apply (IH _ _ _ top gi S1); [done|].
          rewrite Z.abs_eq by lia.
          destruct (decide (c = top)) as [->|Hne];
            [by destruct Hshapes1 as (_ & _ & _ & _ & ? & _)|].
          apply HS1, (Hch c Hc). lia. }
        intros vg2 ft2 Hgrown.
        assert (Hgrown2 : grown top gi S ft2)
          by by apply (grown_mono _ _ _ S1).
        apply wp_bind, wp_find_gate. destruct (indexed_gates_ ft2 !! Z.abs c); [|done].
        destruct (vg2 !! _) as [[lo hi]|]; [|done].
        apply wp_bind, wp_get. destruct (_ && _).
        * apply wp_ret. split; [done|]. by apply lists_in_non_shared.
        * apply wp_bind, wp_assert. destruct (negb _); [|done].
          apply wp_bind, wp_assert. destruct (negb _); [|done].
          apply wp_ret. split; [done|]. by apply lists_in_classify.
    - split; [by apply shapes_grown|apply lists_in_start]. }
  intros [k vg1] ft1 [(S1 & HS1 & Hshapes1) Hk]. simpl in Hk.
  assert (Hin : ∀ l : list Z, (∀ c, c ∈ l → c ∈ Gate.children g) →
            ∀ S' : gset Z,
            S ⊆ S' → ∀ c, c ∈ l → gi < Z.abs c → 0 < c ∧ c ∈ S').
  { intros l Hl S' HS' c Hc Hlt. rewrite <- Hgi in Hlt.
    destruct (Hch c (Hl c Hc) Hlt) as (? & ? & _). split; [done|]. auto. }
  apply wp_bind. eapply (wp_mono _ _ (λ _, shapes top gi S1)).
  { case_bool_decide; [|by apply wp_ret].
    apply wp_bind, wp_find_gate. destruct (indexed_gates_ ft1 !! gate); [|done].
    apply wp_bind, wp_assert. destruct (bool_decide _); [|done].
    by apply wp_modify. }
  intros [] ft2 Hshapes2. apply wp_bind.
  eapply (wp_mono _ _ (λ _, grown top gi S1)).
  { case_bool_decide; [|apply wp_ret; by apply shapes_grown].
    apply CreateNewModule_shapes; [done|by apply HS1|].
    apply Hin; [|done]. intros c Hc. apply Hk. by left. }
  intros [] ft3 (S3 & HS3 & Hshapes3). apply wp_bind.
  eapply wp_mono; [apply FilterModularChildren_sublist|].
  intros [modular rest] ft4 [-> Hmod]. simpl in Hmod. apply wp_bind.
  eapply (wp_mono _ _ (λ _, grown top gi S3)).
  { case_bool_decide; [|apply wp_ret; by apply shapes_grown].
    apply wp_bind, wp_assert. destruct (negb _); [|done].
    apply CreateNewModule_shapes; [done|by apply HS3, HS1|].
    apply Hin; [|by etrans]. intros c Hc. apply Hk. right. by apply Hmod. }
  intros [] ft5 Hgrown5.
  apply wp_bind, wp_find_gate. destruct (indexed_gates_ ft5 !! gate); [|done].
  apply wp_ret. apply (grown_mono _ _ _ S3); [by etrans|done].
Qed.

Lemma DetectModules_shapes fuel n top gi S ft :
  shapes top gi S ft →
  wp any_failure (DetectModules fuel n) (λ _, grown top gi S) ft.
Proof.
  intros HS. unfold DetectModules. cbv zeta.
  pose proof HS as (Htop & _ & _ & _ & HtopS & _).
  apply wp_bind, wp_get. rewrite Htop.
  apply wp_bind, wp_find_gate. destruct (indexed_gates_ _ !! _); [|done].
  apply wp_bind. eapply wp_mono.
  { apply wp_conj.
    - apply (frame_AssignTiming ft _ _ _ _ ft). reflexivity.
    - apply (same_children_AssignTiming ft _ _ _ _ ft), same_children_refl. }
  intros [time vb] ft1 [Hfr Hsame].
  apply wp_bind. eapply wp_mono.
  { apply (FindOriginalModules_shapes _ _ _ _ top gi S); [|done].
    by apply (shapes_same_children _ _ _ ft). }
  intros vg ft2 Hgrown.
  apply wp_bind, wp_find_gate. destruct (indexed_gates_ _ !! _); [|done].
  destruct (vg !! top) as [[first second]|]; [|done].
  apply wp_bind, wp_assert. destruct (bool_decide _); [|done].
  apply wp_bind, wp_assert. destruct (negb _); [|done].
  apply wp_assert. by destruct (bool_decide _).
Qed.

(** ** The shape of the processed graph *)

Lemma shape_at_weaken ft S i : shape_at true ft S i → shape_at false ft S i.
Proof.
  intros (g & Hg & Hand & Hch). exists g. split; [done|]. split; [done|].
  intros c Hc Hlt. destruct (Hch c Hc Hlt) as (? & ? & _). done.
Qed.

Lemma shaped_and_or_graph alt ft S : shaped alt ft S → and_or_graph ft.
Proof.
  intros Hshaped i Hi. pose proof (reachable_shaped _ _ _ _ Hshaped Hi) as HiS.
  destruct Hshaped as [_ HS]. destruct (HS i HiS) as (g & Hg & Hand & Hch).
  exists g. split; [done|]. split; [done|].
  intros c Hc Hlt. by destruct (Hch c Hc Hlt) as (? & _).
Qed.

Lemma shaped_alternating ft S : shaped true ft S → alternating ft.
Proof.
  intros Hshaped i g c gc Hi Hg Hc Hlt Hgc.
  pose proof (reachable_shaped _ _ _ _ Hshaped Hi) as HiS.
  destruct Hshaped as [_ HS]. destruct (HS i HiS) as (g' & Hg' & _ & Hch).
  assert (g' = g) as -> by congruence.
  destruct (Hch c Hc Hlt) as (Hpos & _ & Halt).
  destruct (Halt eq_refl) as (gc' & Hgc' & _ & Hne).
  rewrite Z.abs_eq in Hgc by lia. congruence.
Qed.

(** C2, as the code has it.  When ProcessIndexedFaultTree returns, every
    gate that can be reached from the top event is an AND or an OR gate and
    refers to gates only positively.  When the coalescing loop ends, which
    is before module detection, no reachable gate has a child gate of its
    own kind; module detection then moves children of a gate into new
    gates of the gate's own kind.  The index counter is taken to be
    non-negative and the first gate index not to be above the top event. *)
Theorem processed_graph_shape (fuel : nat) (num_basic_events : Z)
    (ft ft' : IndexedFaultTree) :
  gate_index_ ft ≤ top_event_index_ ft →
  0 ≤ new_gate_index_ ft →
  ProcessIndexedFaultTree fuel num_basic_events ft = Done tt ft' →
  and_or_graph ft' ∧
  ∃ top coalesced,
    prepare fuel ft = Done top coalesced ∧
    and_or_graph coalesced ∧ alternating coalesced.
Proof.
  intros Hgi Hnew Hrun. unfold ProcessIndexedFaultTree in Hrun.
  unfold bind at 1 in Hrun.
  destruct (prepare fuel ft) as [top ft1|] eqn:Hprep; [|done].
  pose proof (wp_done _ _ _ _ _ _ (prepare_shaped fuel ft) Hprep)
    as (-> & Htop & Hgi1 & Hnew1 & S & Hshaped).
  assert (Hgraph1 : and_or_graph ft1) by by apply (shaped_and_or_graph true _ S).
  split.
  2:{ exists (top_event_index_ ft1), ft1. split; [done|]. split; [done|].
      by apply (shaped_alternating _ S). }
  unfold bind, find_gate in Hrun.
  destruct (indexed_gates_ ft1 !! top_event_index_ ft1) as [top_gate|];
    [|done].
  case_decide; [by injection Hrun as <-|].
  assert (Hshapes : shapes (top_event_index_ ft1) (gate_index_ ft1) S ft1).
  { destruct Hshaped as [HtopS HS].
    split; [done|]. split; [done|]. split; [lia|]. split; [lia|].
    split; [done|]. intros i Hi. by apply shape_at_weaken, HS. }
  destruct (wp_done _ _ _ _ _ _
              (DetectModules_shapes fuel num_basic_events _ _ _ _ Hshapes)
              Hrun)
    as (S' & _ & Htop' & Hgi' & _ & _ & HtopS' & HS').
  apply (shaped_and_or_graph false _ S'). split; [by rewrite Htop'|done].
Qed.

Lemma processed_graph_shape_witness :
  let processed := state_after (ProcessIndexedFaultTree 10 5) shared_event in
  and_or_graph processed ∧
  ∃ top coalesced,
    prepare 10 shared_event = Done top coalesced ∧
    and_or_graph coalesced ∧ alternating coalesced.
Proof.
  apply (processed_graph_shape 10 5 shared_event).
  - simpl. lia.
  - simpl. lia.
  - vm_compute. reflexivity.
Defined.

Lemma reachable_gate_child ft i c gi :
  reachable ft i →
  gate_index_ ft = gi →
  (∃ g, indexed_gates_ ft !! i = Some g ∧ c ∈ Gate.children g) →
  0 < c → gi < c → reachable ft c.
Proof.
  intros Hi <- (g & Hg & Hc) Hpos Hlt.
  rewrite <- (Z.abs_eq c) by lia.
  apply (reachable_child ft i g c); [done..|]. lia.
Qed.

(** C2, as it is stated, at two inputs.  In [shared_event] module detection
    turns 6 = AND(1, 2, 7, 8) into AND(9, 10) with the new modules
    9 = AND(1, 2) and 10 = AND(7, 8): AND gates below an AND gate.  In
    [single_child] the true house event 3 leaves 6 = AND(1); JoinGates,
    called on the top event, sees that gate 5 = AND(1, 6) has two children,
    visits it and merges 6 into it, which leaves 5 = AND(1); the top event
    does not look at gate 5 again and ProcessConstGates reports no change,
    so the loop ends with a gate of one child below the top event. *)
Lemma processed_graph_not_strictly_alternating :
  let with_modules :=
    state_after (ProcessIndexedFaultTree 10 5)
      (state_after (NormalizeGates 10) shared_event) in
  let with_single_child :=
    state_after (ProcessIndexedFaultTree 10 2)
      (state_after (PropagateConstants 10 {[3]} ∅)
         (state_after (NormalizeGates 10) single_child)) in
  (gate_view with_modules 6 = Some (kAndGate, kNormalState, [9; 10]) ∧
   gate_view with_modules 9 = Some (kAndGate, kNormalState, [1; 2]) ∧
   ¬ alternating with_modules) ∧
  (gate_view with_single_child 4 = Some (kOrGate, kNormalState, [2; 5]) ∧
   gate_view with_single_child 5 = Some (kAndGate, kNormalState, [1]) ∧
   ¬ two_children with_single_child) ∧
  ¬ strictly_alternating with_modules ∧
  ¬ strictly_alternating with_single_child.
Proof.
  intros with_modules with_single_child.
  assert (H6 : gate_view with_modules 6 = Some (kAndGate, kNormalState, [9; 10]))
    by (vm_compute; reflexivity).
  assert (H9 : gate_view with_modules 9 = Some (kAndGate, kNormalState, [1; 2]))
    by (vm_compute; reflexivity).
  assert (H4 : gate_view with_single_child 4
               = Some (kOrGate, kNormalState, [2; 5]))
    by (vm_compute; reflexivity).
  assert (H5 : gate_view with_single_child 5 = Some (kAndGate, kNormalState, [1]))
    by (vm_compute; reflexivity).
  assert (Htop6 : top_event_index_ with_modules = 6) by (vm_compute; reflexivity).
  assert (Hgi6 : gate_index_ with_modules = 6) by (vm_compute; reflexivity).
  assert (Htop4 : top_event_index_ with_single_child = 4)
    by (vm_compute; reflexivity).
  assert (Hgi4 : gate_index_ with_single_child = 4)
    by (vm_compute; reflexivity).
  pose proof (reachable_top with_modules) as Hr6. rewrite Htop6 in Hr6.
  pose proof (reachable_top with_single_child) as Hr4. rewrite Htop4 in Hr4.
  clearbody with_modules with_single_child.
  assert (Hmodules : ¬ alternating with_modules).
  2: assert (Hsingle : ¬ two_children with_single_child).
  3: by (repeat split; try done; intros (? & ? & ?)).
  all: unfold gate_view in *.
  - intros Halt.
    destruct (indexed_gates_ with_modules !! 6) as [g|] eqn:Hg; [|done].
    destruct (indexed_gates_ with_modules !! 9) as [gc|] eqn:Hgc; [|done].
    simpl in H6, H9. injection H6 as Hty _ Hch. injection H9 as Htyc _ _.
    apply (Halt 6 g 9 gc); [done|done| | | |congruence].
    + apply elem_of_ascending. rewrite Hch. set_solver.
    + rewrite Hgi6. lia.
    + done.
  - intros Htwo.
    destruct (indexed_gates_ with_single_child !! 4) as [g|] eqn:Hg; [|done].
    destruct (indexed_gates_ with_single_child !! 5) as [gc|] eqn:Hgc; [|done].
    simpl in H4, H5. injection H4 as _ _ Hch. injection H5 as _ Hst Hchc.
    assert (Hr5 : reachable with_single_child 5).
    { apply (reachable_gate_child _ 4 5 4); [done|done| |lia|lia].
      exists g. split; [done|]. apply elem_of_ascending. rewrite Hch.
      set_solver. }
    pose proof (Htwo 5 gc Hr5 Hgc Hst) as Hsize.
    rewrite <- length_ascending, Hchc in Hsize. simpl in Hsize. lia.
Qed.

(** ** The module set *)















(** A loop with an invariant that knows which part of the container has
    been visited. *)
Lemma wp_for_fold_prefix E {A S} (l : list A) (s : S) (body : A → S → M S)
    (I : list A → S → IndexedFaultTree → Prop) ft :
  (∀ pre x post s ft, l = pre ++ x :: post → I pre s ft →
     wp E (body x s) (I (pre ++ [x])) ft) →
  I [] s ft → wp E (for_fold l s body) (I l) ft.
Proof.
  intros Hbody.
  assert (Hgen : ∀ post pre s ft, l = pre ++ post → I pre s ft →
            wp E (for_fold post s body) (I l) ft).
  { induction post as [|x post IH]; intros pre s' ft' Hl HI; simpl.
    - apply wp_ret. by rewrite Hl, app_nil_r.
    - apply wp_bind. eapply wp_mono; [by apply (Hbody pre x post)|].
      intros s'' ft'' HI'. apply (IH (pre ++ [x])); [|done].
      by rewrite <- app_assoc. }
  intros HI. by apply (Hgen l []).
Qed.

Lemma wp_for_each_prefix E {A} (l : list A) (body : A → M unit)
    (I : list A → IndexedFaultTree → Prop) ft :
  (∀ pre x post ft, l = pre ++ x :: post → I pre ft →
     wp E (body x) (λ _, I (pre ++ [x])) ft) →
  I [] ft → wp E (for_each l body) (λ _, I l) ft.
Proof.
  intros Hbody.
  assert (Hgen : ∀ post pre ft, l = pre ++ post → I pre ft →
            wp E (for_each post body) (λ _, I l) ft).
  { induction post as [|x post IH]; intros pre ft' Hl HI; simpl.
    - apply wp_ret. by rewrite Hl, app_nil_r.
    - apply wp_bind. eapply wp_mono; [by apply (Hbody pre x post)|].
      intros [] ft'' HI'. apply (IH (pre ++ [x])); [|done].
      by rewrite <- app_assoc. }
  intros HI. by apply (Hgen l []).
Qed.

Lemma child_interval_done vb vg c ft r ft' :
  child_interval vb vg c ft = Done r ft' → ft' = ft.
Proof.
  intros Hrun. by apply (wp_done _ _ _ _ _ _ (child_interval_pure vb vg c ft) Hrun).
Qed.

(** The inner loop of FilterModularChildren: it ends with a [break]
    exactly when the interval [i] overlaps the interval of one of the
    non-modular children. *)
Lemma overlap_scan vb vg (i : Z * Z) nmc ft :
  wp any_failure
     (scan nmc tt
        (λ n _,
           let* '(lower, upper) := child_interval vb vg n in
           let a := Z.max i.1 lower in
           let b := Z.min i.2 upper in
           ret (bool_decide (a ≤ b), tt)))
     (λ r ft', ft' = ft ∧
        if r.1 then
          ∃ n j, n ∈ nmc ∧ child_interval vb vg n ft = Done j ft ∧ overlap i j
        else
          ∀ n, n ∈ nmc →
            ∃ j, child_interval vb vg n ft = Done j ft ∧ ¬ overlap i j)
     ft.
Proof.
  induction nmc as [|n nmc IH]; simpl.
  { apply wp_ret. split; [done|]. intros n Hn. by apply elem_of_nil in Hn. }
  apply wp_bind, wp_bind. unfold wp at 1.
  destruct (child_interval vb vg n ft) as [[lower upper] ft1|] eqn:Hn; [|done].
  apply child_interval_done in Hn as Hft. subst ft1.
  apply wp_ret. case_bool_decide as Hov; simpl.
  { apply wp_ret. split; [done|]. exists n, (lower, upper).
    split; [by left|]. done. }
  eapply wp_mono; [apply IH|]. intros [flag []] ft' [-> Hrest].
  split; [done|]. destruct flag; simpl in *.
  - destruct Hrest as (n' & j & Hn' & Hj & Hov'). exists n', j.
    split; [by right|]. done.
  - intros n' Hn'.
    apply elem_of_cons in Hn' as [->|Hn']; [|by apply Hrest].
    exists (lower, upper). split; [done|]. done.
Qed.

(** The children tied to the children moved in one round are tied to the
    non-modular children of that round. *)
Lemma tied_round vb vg ft mc nmc sm nn c :
  (∀ x, x ∈ sm → x ∈ mc) →
  (∀ n, n ∈ nn → tied vb vg ft mc nmc n) →
  tied vb vg ft sm nn c → tied vb vg ft mc nmc c.
Proof.
  intros Hsm Hnn Htied.
  induction Htied as [c n i j Hc Hn Hi Hj Hov|c c' i j Hc _ IH Hi Hj Hov].
  - eapply tied_next; [by apply Hsm|by apply Hnn|done..].
  - eapply tied_next; [by apply Hsm|exact IH|done..].
Qed.

Lemma FilterModularChildren_filtered fuel vb vg :
  ∀ mc nmc ft,
    wp any_failure (FilterModularChildren fuel vb vg mc nmc)
       (filtered vb vg ft mc nmc) ft.
Proof.
  induction fuel as [|fuel IH]; intros mc nmc ft; [done|].
  cbn [FilterModularChildren]. case_bool_decide as Hempty.
  { apply wp_ret. split; [done|]. split; [done|]. exists [].
    rewrite !app_nil_r. split; [done|]. split; [done|]. split.
    - intros c n i j Hc Hn. simpl in *.
      destruct Hempty as [-> | ->]; [by apply elem_of_nil in Hc|
                                     by apply elem_of_nil in Hn].
    - intros c Hc. by apply elem_of_nil in Hc. }
  apply wp_bind. eapply wp_mono.
  { apply (wp_for_fold_prefix _ _ _ _
      (λ pre s ft', ft' = ft ∧ sublist s.2 pre ∧ pre ≡ₚ s.2 ++ s.1 ∧
         separated vb vg ft s.2 nmc ∧
         ∀ c, c ∈ s.1 → tied vb vg ft mc nmc c)).
    - intros pre c post [nn sm] ft1 Hmc (-> & Hsub & Hperm & Hsep & Hlink).
      simpl in *. apply wp_bind. unfold wp at 1.
      destruct (child_interval vb vg c ft) as [[lo hi] ft1|] eqn:Hc; [|done].
      apply child_interval_done in Hc as Hft. subst ft1.
      apply wp_bind. eapply wp_mono; [apply (overlap_scan vb vg (lo, hi))|].
      intros [flag []] ft1 [-> Hscan]. destruct flag; simpl in *.
      + apply wp_ret. simpl. split; [done|].
        split; [by apply sublist_inserts_r|]. split; [|split; [done|]].
        * rewrite Hperm. rewrite !app_assoc. done.
        * intros c' Hc'. apply elem_of_app in Hc' as [Hc'|Hc'];
            [by apply Hlink|].
          apply list_elem_of_singleton in Hc' as ->.
          destruct Hscan as (n & j & Hn & Hj & Hov).
          apply (tied_first _ _ _ _ _ c n (lo, hi) j); try done.
          rewrite Hmc. apply elem_of_app. right. by left.
      + apply wp_ret. simpl. split; [done|].
        split; [by apply sublist_app|]. split; [|split; [|done]].
        * rewrite Hperm. rewrite <- !app_assoc. apply Permutation_app_head.
          apply Permutation_app_comm.
        * intros c' n i j Hc' Hn Hi Hj.
          apply elem_of_app in Hc' as [Hc'|Hc']; [by eapply Hsep|].
          apply list_elem_of_singleton in Hc' as ->.
          destruct (Hscan n Hn) as (j' & Hj' & Hno).
          assert (i = (lo, hi)) as -> by congruence.
          assert (j' = j) as -> by congruence. done.
    - simpl. split; [done|]. split; [done|]. split; [done|]. split.
      + intros c n i j Hc. by apply elem_of_nil in Hc.
      + intros c Hc. by apply elem_of_nil in Hc. }
  intros [nn sm] ft1 (-> & Hsub & Hperm & Hsep & Hlink). simpl in *.
  apply wp_bind. eapply wp_mono; [apply IH|].
  intros [sm' nn'] ft1 (-> & Hsub' & moved & Hnn' & Hperm' & Hsep' & Hlink').
  simpl in *. apply wp_ret. split; [done|]. simpl.
  split; [by etrans|]. exists nn'. split; [done|]. split; [|split].
  - rewrite Hperm, Hperm', Hnn'. rewrite <- !app_assoc.
    apply Permutation_app_head, Permutation_app_comm.
  - intros c n i j Hc Hn Hi Hj.
    apply elem_of_app in Hn as [Hn|Hn]; [|by eapply Hsep'].
    eapply Hsep; [|done..]. by apply (elem_of_sublist sm' sm).
  - intros c Hc. rewrite Hnn' in Hc. apply elem_of_app in Hc as [Hc|Hc];
      [by apply Hlink|].
    apply (tied_round vb vg ft mc nmc sm nn); [|done|by apply Hlink'].
    intros x Hx. by apply (elem_of_sublist sm mc).
Qed.

(** With the modular children that are kept separated from all non-modular
    children, every tied child has been moved. *)
Lemma tied_moved vb vg ft mc nmc modular moved c :
  mc ≡ₚ modular ++ moved →
  separated vb vg ft modular (nmc ++ moved) →
  tied vb vg ft mc nmc c → c ∈ moved.
Proof.
  intros Hperm Hsep Htied.
  induction Htied as [c n i j Hc Hn Hi Hj Hov|c c' i j Hc _ IH Hi Hj Hov].
  - rewrite Hperm in Hc. apply elem_of_app in Hc as [Hc|Hc]; [|done].
    exfalso. apply (Hsep c n i j); try done. apply elem_of_app. by left.
  - rewrite Hperm in Hc. apply elem_of_app in Hc as [Hc|Hc]; [|done].
    exfalso. apply (Hsep c c' i j); try done. apply elem_of_app. by right.
Qed.

Lemma FilterModularChildren_returns fuel vb vg :
  ∀ mc nmc ft,
    (length mc < fuel)%nat → timed vb vg ft (mc ++ nmc) →
    wp no_failure (FilterModularChildren fuel vb vg mc nmc) (λ _ _, True) ft.
Proof.
  induction fuel as [|fuel IH]; intros mc nmc ft Hfuel Htimed; [lia|].
  cbn [FilterModularChildren]. case_bool_decide as Hempty; [done|].
  apply wp_bind. eapply wp_mono.
  { apply (wp_for_fold_prefix _ _ _ _
      (λ pre s ft', ft' = ft ∧
         (length s.2 + length s.1 = length pre)%nat ∧
         ∀ c, c ∈ s.2 ++ s.1 → c ∈ mc)).
    - intros pre c post [nn sm] ft1 Hmc (-> & Hlen & Hin). simpl in *.
      assert (Hc : c ∈ mc).
      { rewrite Hmc. apply elem_of_app. right. by left. }
      destruct (Htimed c) as [[lo hi] Hi]; [apply elem_of_app; by left|].
      apply wp_bind. unfold wp at 1. rewrite Hi.
      apply wp_bind. eapply wp_mono.
      { apply (wp_scan _ _ _ _ (λ _ ft', ft' = ft)); [|done].
        intros n [] ft1 Hn ->.
        destruct (Htimed n) as [[lower upper] Hj]; [apply elem_of_app; by right|].
        apply wp_bind. unfold wp at 1. rewrite Hj. by apply wp_ret. }
      intros [flag []] ft1 ->. simpl.
      destruct flag; apply wp_ret; simpl; (split; [done|]);
        rewrite !length_app; simpl; (split; [lia|]); intros c';
        rewrite !elem_of_app, ?list_elem_of_singleton;
        intros Hc'; destruct_or?; subst; auto;
        apply Hin, elem_of_app; auto.
    - simpl. split; [done|]. split; [done|].
      intros c Hc. by apply elem_of_nil in Hc. }
  intros [nn sm] ft1 (-> & Hlen & Hin). simpl in *.
  apply wp_bind.
  eapply (wp_mono _ _ (λ _ _, True)); [|by intros [? ?] ? _; apply wp_ret].
  destruct fuel as [|fuel]; [destruct mc; [|simpl in *; lia]; naive_solver|].
  destruct nn as [|c nn].
  { cbn [FilterModularChildren]. case_bool_decide as Hnil; [by apply wp_ret|].
    destruct Hnil. by right. }
  apply IH.
  - simpl in Hlen. lia.
  - intros c' Hc'. apply Htimed, elem_of_app. left. apply Hin.
    rewrite elem_of_app in Hc' |- *. tauto.
Qed.

(** X1.  FilterModularChildren returns, with as many calls as there are modular
    children at most, when the visit intervals of the children can be read.
    It does not touch the graph.  The modular children that it keeps are a
    sublist of the ones given, the others are appended to the non-modular
    children; no interval of a modular child that is kept overlaps the
    interval of a non-modular child, and the children that are moved are
    exactly the ones tied to the non-modular children that were given: those
    whose interval overlaps the interval of one of them, or the interval of
    a modular child that is tied itself. *)
Theorem FilterModularChildren_separates (fuel : nat)
    (visit_basics : list (Z * Z)) (visited_gates : gmap Z (Z * Z))
    (modular_children non_modular_children : list Z)
    (ft : IndexedFaultTree) :
  (length modular_children < fuel)%nat →
  timed visit_basics visited_gates ft
        (modular_children ++ non_modular_children) →
  ∃ modular non_modular moved,
    FilterModularChildren fuel visit_basics visited_gates
      modular_children non_modular_children ft
      = Done (modular, non_modular) ft ∧
    sublist modular modular_children ∧
    non_modular = non_modular_children ++ moved ∧
    modular_children ≡ₚ modular ++ moved ∧
    separated visit_basics visited_gates ft modular non_modular ∧
    (∀ c, c ∈ moved ↔
          tied visit_basics visited_gates ft
               modular_children non_modular_children c).
Proof.
  intros Hfuel Htimed.
  destruct (wp_total _ _ _
              (FilterModularChildren_returns fuel visit_basics visited_gates
                 _ _ ft Hfuel Htimed))
    as ([modular non_modular] & ft' & Hrun & _).
  destruct (wp_done _ _ _ _ _ _
              (FilterModularChildren_filtered fuel visit_basics visited_gates
                 modular_children non_modular_children ft) Hrun)
    as (-> & Hsub & moved & Hnm & Hperm & Hsep & Hlink).
  exists modular, non_modular, moved. simpl in *.
  split_and!; try done. intros c. split; [by apply Hlink|].
  rewrite Hnm in Hsep. by apply (tied_moved _ _ _ _ _ modular).
Qed.

Lemma FilterModularChildren_separates_witness :
  ∃ modular non_modular moved,
    FilterModularChildren 3 [(0, 0); (1, 3); (5, 6); (2, 4)] ∅ [1; 2] [3]
      shared_event = Done (modular, non_modular) shared_event ∧
    sublist modular [1; 2] ∧
    non_modular = [3] ++ moved ∧
    [1; 2] ≡ₚ modular ++ moved ∧
    separated [(0, 0); (1, 3); (5, 6); (2, 4)] ∅ shared_event modular non_modular ∧
    (∀ c, c ∈ moved ↔
          tied [(0, 0); (1, 3); (5, 6); (2, 4)] ∅ shared_event [1; 2] [3] c).
Proof.
  apply (FilterModularChildren_separates 3).
  - simpl. lia.
  - intros c Hc. simpl in Hc.
    repeat (apply elem_of_cons in Hc as [->|Hc]);
      [eexists; vm_compute; reflexivity..|].
    by apply elem_of_nil in Hc.
Defined.

Lemma set_children_twice s s' g :
  Gate.set_children s (Gate.set_children s' g) = Gate.set_children s g.
Proof. done. Qed.

Lemma CreateNewModule_loop gate nm l g0 t :
  gate ≠ nm →
  ∀ ft,
    indexed_gates_ ft !! gate = Some g0 →
    indexed_gates_ ft !! nm = Some (Gate.create t) →
    wp no_failure
       (for_each l
          (λ c, do on_gate gate (Gate.EraseChild c) then
                on_gate nm (Gate.InitiateWithChild c)))
       (λ _ ft',
          top_event_index_ ft' = top_event_index_ ft ∧
          gate_index_ ft' = gate_index_ ft ∧
          top_event_sign_ ft' = top_event_sign_ ft ∧
          new_gate_index_ ft' = new_gate_index_ ft ∧
          modules_ ft' = modules_ ft ∧
          indexed_gates_ ft' !! nm =
            Some (Gate.set_children (list_to_set l) (Gate.create t)) ∧
          indexed_gates_ ft' !! gate =
            Some (Gate.set_children (Gate.children g0 ∖ list_to_set l) g0) ∧
          ∀ i, i ≠ gate → i ≠ nm →
               indexed_gates_ ft' !! i = indexed_gates_ ft !! i)
       ft.
Proof.
  intros Hne ft Hg Hnm.
  apply (wp_for_each_prefix _ _ _
    (λ pre ft',
       top_event_index_ ft' = top_event_index_ ft ∧
       gate_index_ ft' = gate_index_ ft ∧
       top_event_sign_ ft' = top_event_sign_ ft ∧
       new_gate_index_ ft' = new_gate_index_ ft ∧
       modules_ ft' = modules_ ft ∧
       indexed_gates_ ft' !! nm =
         Some (Gate.set_children (list_to_set pre) (Gate.create t)) ∧
       indexed_gates_ ft' !! gate =
         Some (Gate.set_children (Gate.children g0 ∖ list_to_set pre) g0) ∧
       ∀ i, i ≠ gate → i ≠ nm →
            indexed_gates_ ft' !! i = indexed_gates_ ft !! i)).
  - intros pre c post ft1 _ (Ht & Hgi & Hs & Hn & Hm & Hnm1 & Hg1 & Hother).
    apply wp_bind, wp_on_gate. rewrite Hg1.
    apply wp_on_gate. tree_simpl. rewrite lookup_insert_ne by done.
    rewrite Hnm1. tree_simpl. do 5 (split; [done|]).
    rewrite lookup_insert_eq, lookup_insert_ne, lookup_insert_eq by done.
    split; [|split].
    + f_equal. unfold Gate.InitiateWithChild. rewrite set_children_twice.
      f_equal. simpl. rewrite list_to_set_app_L. simpl.
      by rewrite (right_id_L ∅ (∪)).
    + f_equal. unfold Gate.EraseChild. rewrite set_children_twice.
      f_equal. simpl. rewrite list_to_set_app_L. simpl.
      rewrite (right_id_L ∅ (∪)). apply set_eq. intros x.
      rewrite !elem_of_difference, elem_of_union. tauto.
    + intros i Hi1 Hi2. rewrite !lookup_insert_ne by done. by apply Hother.
  - do 5 (split; [done|]). simpl. split; [|split; [|done]].
    + by rewrite Hnm.
    + rewrite Hg. f_equal. destruct g0. unfold Gate.set_children. simpl.
      f_equal. by rewrite difference_empty_L.
Qed.

Lemma CreateNewModule_split_off (gate : Z) (children : list Z)
    (ft : IndexedFaultTree) (g : IndexedGate) :
  indexed_gates_ ft !! gate = Some g →
  and_or (Gate.type g) →
  NoDup children →
  (∀ c, c ∈ children → c ∈ Gate.children g) →
  (1 < length children < size (Gate.children g))%nat →
  indexed_gates_ ft !! (new_gate_index_ ft + 1) = None →
  ∃ ft', CreateNewModule gate children ft = Done tt ft' ∧
         split_off gate (new_gate_index_ ft + 1) children g ft ft'.
Proof.
  intros Hg Hand Hnodup Hin [Hlen1 Hlen2] Hfree.
  set (nm := new_gate_index_ ft + 1) in *.
  assert (Hne : gate ≠ nm) by congruence.
  assert (Hrest : Gate.children g ∖ list_to_set children ≠ ∅).
  { intros Hempty.
    assert (Hsub : Gate.children g ⊆ list_to_set children).
    { intros x Hx. destruct (decide (x ∈@{gset Z} list_to_set children));
        [done|]. exfalso. eapply (not_elem_of_empty (C := gset Z) x).
      rewrite <- Hempty. by apply elem_of_difference. }
    apply subseteq_size in Hsub. rewrite size_list_to_set in Hsub by done.
    lia. }
  cut (wp no_failure (CreateNewModule gate children)
          (λ _, split_off gate nm children g ft) ft).
  { intros H. destruct (wp_total _ _ _ H) as ([] & ft' & ? & ?). eauto. }
  unfold CreateNewModule.
  apply wp_bind, wp_find_gate. rewrite Hg.
  apply wp_bind, wp_assert. rewrite bool_decide_eq_true_2 by done.
  apply wp_bind, wp_assert. rewrite bool_decide_eq_true_2 by lia.
  rewrite decide_False by lia.
  apply wp_bind, wp_assert. rewrite bool_decide_eq_true_2 by (destruct Hand; auto).
  apply wp_bind, wp_next_index. fold nm.
  apply wp_bind, wp_insert_gate. tree_simpl. rewrite Hfree.
  apply wp_bind, wp_modify. apply wp_bind.
  eapply wp_mono.
  { apply (CreateNewModule_loop gate nm children g (Gate.type g) Hne).
    - tree_simpl. by rewrite lookup_insert_ne.
    - tree_simpl. by rewrite lookup_insert_eq. }
  intros [] ft1 (Ht & Hgi & Hs & Hn & Hm & Hnm1 & Hg1 & Hother).
  cbn [indexed_gates_ set_gates set_new_index set_modules new_gate_index_
       top_event_index_ gate_index_ top_event_sign_ modules_] in *.
  apply wp_bind, wp_find_gate. rewrite Hg1.
  apply wp_bind, wp_assert. simpl. rewrite bool_decide_eq_false_2 by done.
  apply wp_on_gate. rewrite Hg1. tree_simpl.
  unfold split_off. tree_simpl. do 5 (split; [done|]).
  rewrite lookup_insert_eq, lookup_insert_ne by done.
  split; [done|]. split; [done|].
  intros i Hi1 Hi2. rewrite lookup_insert_ne by done.
  rewrite Hother by done. by rewrite lookup_insert_ne.
Qed.

(** X2.  CreateNewModule, for two or more but not all children of an AND or OR
    gate, with a free index next in line: the children move into a new
    gate of the gate's kind, which takes their place in the gate and is
    marked as a module; nothing else changes. *)
Theorem CreateNewModule_splits (gate : Z) (children : list Z)
    (ft : IndexedFaultTree) (g : IndexedGate) :
  indexed_gates_ ft !! gate = Some g →
  and_or (Gate.type g) →
  NoDup children →
  (∀ c, c ∈ children → c ∈ Gate.children g) →
  (1 < length children < size (Gate.children g))%nat →
  indexed_gates_ ft !! (new_gate_index_ ft + 1) = None →
  ∃ ft', CreateNewModule gate children ft = Done tt ft' ∧
         split_off gate (new_gate_index_ ft + 1) children g ft ft'.
Proof. apply CreateNewModule_split_off. Qed.

Lemma CreateNewModule_splits_witness :
  ∃ ft', CreateNewModule 6 [1; 2] shared_event = Done tt ft' ∧
         split_off 6 9 [1; 2] (input_gate kAndGate [1; 2; 7; 8])
                   shared_event ft'.
Proof.
  apply (CreateNewModule_splits 6 [1; 2] shared_event).
  - vm_compute. reflexivity.
  - by left.
  - apply (bool_decide_unpack _). vm_compute. exact I.
  - intros c Hc. apply (bool_decide_unpack _).
    repeat (apply elem_of_cons in Hc as [->|Hc]); [vm_compute; exact I..|].
    by apply elem_of_nil in Hc.
  - vm_compute. lia.
  - vm_compute. reflexivity.
Defined.

(** ** The value of a gate *)

Lemma eval_gate_S fuel ft ρ i :
  eval_gate (S fuel) ft ρ i =
  g ← indexed_gates_ ft !! i;
  match Gate.state g with
  | kNullState => Some false
  | kUnityState => Some true
  | kNormalState =>
      vs ← mapM (eval_literal fuel ft ρ) (ascending (Gate.children g));
      connective (Gate.type g) (Gate.vote_number g) vs
  end.
Proof. done. Qed.

Lemma eval_literal_impl n m ft ft' ρ c v :
  gate_index_ ft' = gate_index_ ft →
  (∀ i b, eval_gate n ft ρ i = Some b → eval_gate m ft' ρ i = Some b) →
  eval_literal n ft ρ c = Some v → eval_literal m ft' ρ c = Some v.
Proof.
  intros Hgi Himpl. unfold eval_literal. rewrite Hgi.
  destruct (Z.abs c >? gate_index_ ft); [|done].
  destruct (eval_gate n ft ρ (Z.abs c)) as [b|] eqn:Hb; [|done].
  by rewrite (Himpl _ _ Hb).
Qed.

Lemma eval_gate_mono n ft ρ :
  ∀ i v, eval_gate n ft ρ i = Some v → eval_gate (S n) ft ρ i = Some v.
Proof.
  induction n as [|n IH]; intros i v; [done|].
  rewrite !(eval_gate_S _ ft).
  destruct (indexed_gates_ ft !! i) as [g|]; [|done]. simpl.
  destruct (Gate.state g); [|done..].
  destruct (mapM (eval_literal n ft ρ) _) as [vs|] eqn:Hvs; [|done].
  simpl. intros Hv.
  rewrite (mapM_Some_2 (eval_literal (S n) ft ρ) _ vs); [done|].
  apply mapM_Some_1 in Hvs. eapply Forall2_impl; [done|].
  intros c b. by apply eval_literal_impl.
Qed.

Lemma eval_gate_le n m ft ρ i v :
  (n ≤ m)%nat → eval_gate n ft ρ i = Some v → eval_gate m ft ρ i = Some v.
Proof.
  induction 1 as [|m _ IH]; [done|]. intros H. by apply eval_gate_mono, IH.
Qed.

Lemma defined_values {A B} (w : A → option B) (l : list A) :
  (∀ c, c ∈ l → is_Some (w c)) →
  ∃ vs, Forall2 (λ c v, w c = Some v) l vs.
Proof.
  induction l as [|c l IH]; intros Hdef; [by exists []|].
  destruct (Hdef c) as [v Hv]; [by left|].
  destruct IH as [vs Hvs]; [intros c' Hc'; apply Hdef; by right|].
  exists (v :: vs). by constructor.
Qed.

Lemma and_value {A} (w : A → option bool) (l : list A) vs :
  Forall2 (λ c v, w c = Some v) l vs →
  forallb id vs = true ↔ ∀ c, c ∈ l → w c = Some true.
Proof.
  induction 1 as [|c v l vs Hc _ IH]; simpl.
  - split; [|done]. intros _ c Hc. by apply elem_of_nil in Hc.
  - rewrite andb_true_iff, IH. split.
    + intros [Hv Hl] c' Hc'. apply elem_of_cons in Hc' as [->|Hc']; [|auto].
      unfold id in Hv. by rewrite Hc, Hv.
    + intros Hall. split; [|intros c' Hc'; apply Hall; by right].
      assert (w c = Some true) as Ht by (apply Hall; by left).
      unfold id. congruence.
Qed.

Lemma or_value {A} (w : A → option bool) (l : list A) vs :
  Forall2 (λ c v, w c = Some v) l vs →
  existsb id vs = true ↔ ∃ c, c ∈ l ∧ w c = Some true.
Proof.
  induction 1 as [|c v l vs Hc _ IH]; simpl.
  - split; [done|]. intros (c & Hc & _). by apply elem_of_nil in Hc.
  - rewrite orb_true_iff, IH. split.
    + intros [Hv|(c' & Hc' & Ht)].
      * exists c. split; [by left|]. unfold id in Hv. by rewrite Hc, Hv.
      * exists c'. split; [by right|done].
    + intros (c' & Hc' & Ht).
      apply elem_of_cons in Hc' as [->|Hc']; [|right; eauto].
      left. unfold id. congruence.
Qed.

(** The value of an AND or OR gate in the normal state, from the values of
    its children. *)
Lemma eval_and_or n ft ρ i g v :
  indexed_gates_ ft !! i = Some g → Gate.state g = kNormalState →
  and_or (Gate.type g) →
  eval_gate (S n) ft ρ i = Some v ↔
  (∀ c, c ∈ Gate.children g → is_Some (eval_literal n ft ρ c)) ∧
  (v = true ↔
   if decide (Gate.type g = kAndGate)
   then ∀ c, c ∈ Gate.children g → eval_literal n ft ρ c = Some true
   else ∃ c, c ∈ Gate.children g ∧ eval_literal n ft ρ c = Some true).
Proof.
  intros Hg Hstate Hand. rewrite eval_gate_S, Hg. simpl. rewrite Hstate.
  split.
  - destruct (mapM _ _) as [vs|] eqn:Hvs; [|done]. simpl.
    apply mapM_Some_1 in Hvs. intros Hv. split.
    + intros c Hc. apply elem_of_ascending in Hc.
      destruct (proj1 (list_elem_of_lookup _ _) Hc) as [k Hk].
      destruct (Forall2_lookup_l _ _ _ _ _ Hvs Hk) as (b & _ & Hb). eauto.
    + case_decide as Ht.
      * rewrite Ht in Hv. simpl in Hv. injection Hv as <-.
        rewrite (and_value _ _ _ Hvs).
        by setoid_rewrite elem_of_ascending.
      * destruct Hand as [?|Ht']; [done|]. rewrite Ht' in Hv. simpl in Hv.
        injection Hv as <-. rewrite (or_value _ _ _ Hvs).
        by setoid_rewrite elem_of_ascending.
  - intros [Hdef Hv].
    destruct (defined_values (eval_literal n ft ρ)
                (ascending (Gate.children g))) as [vs Hvs].
    { intros c Hc. apply Hdef. by apply elem_of_ascending. }
    rewrite (mapM_Some_2 _ _ _ Hvs). simpl.
    case_decide as Ht.
    + rewrite Ht. simpl. f_equal. apply Bool.eq_true_iff_eq.
      rewrite Hv, (and_value _ _ _ Hvs).
      by setoid_rewrite elem_of_ascending.
    + destruct Hand as [?|Ht']; [done|]. rewrite Ht'. simpl. f_equal.
      apply Bool.eq_true_iff_eq.
      rewrite Hv, (or_value _ _ _ Hvs).
      by setoid_rewrite elem_of_ascending.
Qed.

Lemma eval_and_or_defined n ft ρ i g :
  indexed_gates_ ft !! i = Some g → Gate.state g = kNormalState →
  and_or (Gate.type g) →
  (∀ c, c ∈ Gate.children g → is_Some (eval_literal n ft ρ c)) →
  is_Some (eval_gate (S n) ft ρ i).
Proof.
  intros Hg Hstate Hand Hdef. rewrite eval_gate_S, Hg. simpl. rewrite Hstate.
  destruct (defined_values (eval_literal n ft ρ)
              (ascending (Gate.children g))) as [vs Hvs].
  { intros c Hc. apply Hdef. by apply elem_of_ascending. }
  rewrite (mapM_Some_2 _ _ _ Hvs). simpl.
  destruct Hand as [-> | ->]; simpl; eauto.
Qed.

(** ** The value of a gate and CreateNewModule *)

Lemma split_off_value gate nm l g ft ft' ρ :
  split_off gate nm l g ft ft' →
  indexed_gates_ ft !! gate = Some g → and_or (Gate.type g) →
  indexed_gates_ ft !! nm = None →
  (∀ c, c ∈ l → c ∈ Gate.children g) →
  0 < nm → gate_index_ ft < nm →
  ∀ n i v, eval_gate n ft ρ i = Some v →
           eval_gate (2 * n) ft' ρ i = Some v.
Proof.
  intros (_ & Hgi & _ & _ & _ & Hnm' & Hgate' & Hother) Hg Hand Hnm Hl
    Hpos Hlt.
  induction n as [|n IH]; intros i v; [done|].
  replace (2 * S n)%nat with (S (S (2 * n))) by lia.
  assert (Hup : ∀ c b, eval_literal n ft ρ c = Some b →
                       eval_literal (2 * n) ft' ρ c = Some b)
    by (intros c b; by apply eval_literal_impl).
  assert (Hup1 : ∀ c b, eval_literal n ft ρ c = Some b →
                        eval_literal (S (2 * n)) ft' ρ c = Some b).
  { intros c b Hc. apply (eval_literal_impl (2 * n) _ ft'); [done| |by apply Hup].
    intros. by apply eval_gate_mono. }
  destruct (decide (i = gate)) as [->|Hne].
  2:{ intros Hv. apply eval_gate_mono. revert Hv.
      rewrite !eval_gate_S.
      destruct (decide (i = nm)) as [->|Hne']; [by rewrite Hnm|].
      rewrite Hother by done.
      destruct (indexed_gates_ ft !! i) as [gi|]; [|done]. simpl.
      destruct (Gate.state gi); [|done..].
      destruct (mapM (eval_literal n ft ρ) _) as [vs|] eqn:Hvs; [|done].
      simpl. intros Hv.
      rewrite (mapM_Some_2 (eval_literal (2 * n) ft' ρ) _ vs); [done|].
      apply mapM_Some_1 in Hvs. eapply Forall2_impl; [done|]. apply Hup. }
  destruct (Gate.state g) eqn:Hstate.
  2,3: rewrite !eval_gate_S, Hg, Hgate'; simpl; by rewrite Hstate.
  rewrite (eval_and_or n ft ρ gate g v Hg Hstate Hand).
  intros [Hdef Hv].
  set (gn := Gate.set_children (list_to_set l) (Gate.create (Gate.type g))).
  assert (Hdefn : ∀ c, c ∈ Gate.children gn →
                       is_Some (eval_literal (2 * n) ft' ρ c)).
  { intros c Hc. simpl in Hc. apply elem_of_list_to_set in Hc.
    destruct (Hdef c (Hl c Hc)) as [b Hb]. exists b. by apply Hup. }
  destruct (eval_and_or_defined (2 * n) ft' ρ nm gn Hnm' eq_refl Hand Hdefn)
    as [bn Hbn].
  assert (Hlit : eval_literal (S (2 * n)) ft' ρ nm = Some bn).
  { unfold eval_literal. rewrite Z.abs_eq by lia. rewrite Hgi.
    replace (nm >? gate_index_ ft) with true by lia. rewrite Hbn. simpl.
    by replace (nm <? 0) with false by lia. }
  apply (eval_and_or (2 * n) ft' ρ nm gn bn Hnm' eq_refl Hand) in Hbn
    as [_ Hbn].
  set (g' := Gate.set_children
               (Gate.children g ∖ list_to_set l ∪ {[nm]}) g) in *.
  apply (eval_and_or (S (2 * n)) ft' ρ gate g' v Hgate' Hstate Hand).
  assert (Hchildren : ∀ c, c ∈ Gate.children g' ↔
            (c ∈ Gate.children g ∧ c ∉ l) ∨ c = nm).
  { intros c. simpl.
    rewrite elem_of_union, elem_of_difference, elem_of_singleton,
      elem_of_list_to_set. done. }
  assert (Hsame : ∀ c b b', c ∈ Gate.children g →
            eval_literal n ft ρ c = Some b →
            (eval_literal (2 * n) ft' ρ c = Some b' ∨
             eval_literal (S (2 * n)) ft' ρ c = Some b') → b' = b).
  { intros c b b' Hc Hb [Hb'|Hb']; [rewrite (Hup _ _ Hb) in Hb'|
                                     rewrite (Hup1 _ _ Hb) in Hb'];
      congruence. }
  split.
  { intros c Hc. apply Hchildren in Hc as [[Hc _]| ->]; [|eauto].
    destruct (Hdef c Hc) as [b Hb]. exists b. by apply Hup1. }
  rewrite Hv. change (Gate.type g') with (Gate.type g).
  change (Gate.type gn) with (Gate.type g) in Hbn.
  case_decide as Ht.
  - split.
    + intros Hall c Hc. apply Hchildren in Hc as [[Hc _]| ->];
        [by apply Hup1, Hall|].
      rewrite Hlit. f_equal. apply Hbn. intros c Hc. simpl in Hc.
      apply elem_of_list_to_set in Hc. by apply Hup, Hall, Hl.
    + intros Hall c Hc. destruct (Hdef c Hc) as [b Hb]. rewrite Hb. f_equal.
      destruct (decide (c ∈ l)) as [Hcl|Hcl].
      * assert (bn = true) as Hbt.
        { assert (eval_literal (S (2 * n)) ft' ρ nm = Some true) as Hn'
            by (apply Hall, Hchildren; by right).
          congruence. }
        symmetry. apply (Hsame c b true Hc Hb). left.
        apply (proj1 Hbn Hbt). simpl. by apply elem_of_list_to_set.
      * symmetry. apply (Hsame c b true Hc Hb). right.
        apply Hall, Hchildren. by left.
  - split.
    + intros (c & Hc & Htrue). destruct (decide (c ∈ l)) as [Hcl|Hcl].
      * exists nm. split; [apply Hchildren; by right|].
        rewrite Hlit. f_equal. apply Hbn. exists c.
        split; [simpl; by apply elem_of_list_to_set|by apply Hup].
      * exists c. split; [apply Hchildren; by left|by apply Hup1].
    + intros (c & Hc & Htrue). apply Hchildren in Hc as [[Hc Hcl]| ->].
      * exists c. split; [done|]. destruct (Hdef c Hc) as [b Hb].
        rewrite Hb. f_equal. symmetry. apply (Hsame c b true Hc Hb). by right.
      * assert (bn = true) as Hbt by congruence.
        destruct (proj1 Hbn Hbt) as (c & Hc & Hctrue). simpl in Hc.
        apply elem_of_list_to_set in Hc. exists c.
        split; [by apply Hl|]. destruct (Hdef c (Hl c Hc)) as [b Hb].
        rewrite Hb. f_equal. symmetry.
        apply (Hsame c b true (Hl c Hc) Hb). by left.
Qed.

Lemma value_functional ft ρ i v v' :
  value ft ρ i v → value ft ρ i v' → v = v'.
Proof.
  intros [n Hn] [m Hm].
  apply (eval_gate_le n (n + m)) in Hn; [|lia].
  apply (eval_gate_le m (n + m)) in Hm; [|lia]. congruence.
Qed.

(** X3.  CreateNewModule keeps the value of every gate that has one: under each
    assignment of the basic events a gate of the graph has the value that
    it had before the children were moved into the new module. *)
Theorem CreateNewModule_keeps_values (gate : Z) (children : list Z)
    (ft : IndexedFaultTree) (g : IndexedGate) (ρ : Z → bool) :
  indexed_gates_ ft !! gate = Some g →
  and_or (Gate.type g) →
  NoDup children →
  (∀ c, c ∈ children → c ∈ Gate.children g) →
  (1 < length children < size (Gate.children g))%nat →
  indexed_gates_ ft !! (new_gate_index_ ft + 1) = None →
  0 ≤ new_gate_index_ ft →
  gate_index_ ft ≤ new_gate_index_ ft →
  ∃ ft', CreateNewModule gate children ft = Done tt ft' ∧
         ∀ i v, value ft ρ i v → value ft' ρ i v.
Proof.
  intros Hg Hand Hnodup Hin Hlen Hfree Hnew Hgi.
  destruct (CreateNewModule_split_off gate children ft g)
    as (ft' & Hrun & Hsplit); [done..|].
  exists ft'. split; [done|]. intros i v [n Hn]. exists (2 * n)%nat.
  apply (split_off_value gate (new_gate_index_ ft + 1) children g ft);
    try done; lia.
Qed.

Lemma CreateNewModule_keeps_values_witness :
  ∃ ft', CreateNewModule 6 [1; 2] shared_event = Done tt ft' ∧
         ∀ i v, value shared_event all_true i v → value ft' all_true i v.
Proof.
  apply (CreateNewModule_keeps_values 6 [1; 2] shared_event
           (input_gate kAndGate [1; 2; 7; 8])).
  - vm_compute. reflexivity.
  - by left.
  - apply (bool_decide_unpack _). vm_compute. exact I.
  - intros c Hc. apply (bool_decide_unpack _).
    repeat (apply elem_of_cons in Hc as [->|Hc]); [vm_compute; exact I..|].
    by apply elem_of_nil in Hc.
  - vm_compute. lia.
  - vm_compute. reflexivity.
  - simpl. lia.
  - simpl. lia.
Defined.

(** ** The DFS clock *)

Lemma entered_call_gate gate enter i t :
  enter ≠ 0 → preserves (entered gate enter) (call_gate i (Gate.Visit t)).
Proof.
  intros Hne ft (g & Hg & Henter & Hlast). apply wp_call_gate.
  destruct (indexed_gates_ ft !! i) as [gi|] eqn:Hgi; [|done].
  unfold entered. tree_simpl. destruct (decide (i = gate)) as [->|Hi].
  - rewrite lookup_insert_eq. eexists. split; [done|].
    assert (gi = g) as -> by congruence.
    unfold Gate.Visit. destruct (Gate.visits g) as [[v0 v1] v2].
    simpl in *. repeat case_decide; simpl; split; try done; lia.
  - rewrite lookup_insert_ne by done. eauto.
Qed.

Lemma entered_basic_visits gate enter vb i :
  preserves (entered gate enter) (basic_visits vb i).
Proof. unfold basic_visits. preserves_auto. Qed.

Lemma entered_AssignTiming gate enter fuel time i vb :
  enter ≠ 0 → preserves (entered gate enter) (AssignTiming fuel time i vb).
Proof.
  intros Hne. revert time i vb.
  induction fuel as [|fuel IH]; intros time i vb.
  { apply preserves_fail. }
  cbn [AssignTiming]. preserves_auto; auto using entered_basic_visits.
  all: by apply entered_call_gate.
Qed.

(** The clock only moves forward. *)
Lemma AssignTiming_clock fuel :
  ∀ time gate vb ft,
    wp any_failure (AssignTiming fuel time gate vb) (λ r _, time < r.1) ft.
Proof.
  induction fuel as [|fuel IH]; intros time gate vb ft; [done|].
  cbn [AssignTiming]. cbv zeta. apply wp_bind.
  eapply wp_mono; [apply wp_any|]. intros revisited ft1 _.
  destruct revisited; [apply wp_ret; simpl; lia|].
  apply wp_bind. eapply wp_mono; [apply wp_any|]. intros g ft2 _.
  apply wp_bind, wp_get. apply wp_bind. eapply wp_mono.
  { apply (wp_for_fold _ _ _ _ (λ s _, time + 1 ≤ s.1)); [|simpl; lia].
    intros c [t vb1] ft3 _ Ht. simpl in Ht.
    destruct (_ <? _).
    - apply wp_bind. eapply wp_mono; [apply wp_any|].
      intros [first last] ft4 _. case_decide; apply wp_ret; simpl; lia.
    - apply wp_bind. eapply wp_mono; [apply wp_any|]. intros _ ft4 _.
      eapply wp_mono; [apply IH|]. intros r ft5 Hr. simpl in *. lia. }
  intros [t vb1] ft3 Ht. simpl in Ht.
  apply wp_bind. eapply wp_mono; [apply wp_any|]. intros re ft4 _.
  apply wp_bind. eapply wp_mono; [apply wp_any|]. intros _ ft5 _.
  apply wp_ret. simpl. lia.
Qed.

Lemma Visit_first t g :
  Gate.visits g = (0, 0, 0) →
  Gate.Visit t g = (false, Gate.set_visits (t, 0, 0) g).
Proof. intros Hv. unfold Gate.Visit. by rewrite Hv. Qed.

Lemma AssignTiming_stamps fuel time gate vb ft g :
  indexed_gates_ ft !! gate = Some g → Gate.visits g = (0, 0, 0) →
  0 ≤ time →
  wp any_failure (AssignTiming fuel time gate vb)
     (λ r ft', time + 1 < r.1 ∧
        ∃ g', indexed_gates_ ft' !! gate = Some g' ∧
              Gate.visits g' = (time + 1, r.1, 0))
     ft.
Proof.
  intros Hg Hvisits Htime. destruct fuel as [|fuel]; [done|].
  cbn [AssignTiming]. cbv zeta.
  apply wp_bind, wp_call_gate. rewrite Hg.
  rewrite (Visit_first _ _ Hvisits). simpl.
  apply wp_bind, wp_find_gate. tree_simpl. rewrite lookup_insert_eq.
  apply wp_bind, wp_get. apply wp_bind. eapply wp_mono.
  { apply wp_conj.
    - apply (wp_for_fold _ _ _ _ (λ s _, time + 1 ≤ s.1)); [|simpl; lia].
      intros c [t vb1] ft3 _ Ht. simpl in Ht.
      destruct (_ <? _).
      + apply wp_bind. eapply wp_mono; [apply wp_any|].
        intros [first last] ft4 _. case_decide; apply wp_ret; simpl; lia.
      + apply wp_bind. eapply wp_mono; [apply wp_any|]. intros _ ft4 _.
        eapply wp_mono; [apply AssignTiming_clock|].
        intros r ft5 Hr. simpl in *. lia.
    - apply (wp_for_fold _ _ _ _ (λ _, entered gate (time + 1))).
      + intros c [t vb1] ft3 _ Hent. revert ft3 Hent.
        change (preserves (entered gate (time + 1))
          (if Z.abs c <? top_event_index_ ft
           then let* '(first, last) := basic_visits vb1 (Z.abs c) in
                if decide (first = 0)
                then ret (t + 1, <[Z.to_nat (Z.abs c) := (t + 1, t + 1)]> vb1)
                else ret (t + 1, <[Z.to_nat (Z.abs c) := (first, t + 1)]> vb1)
           else let* _ := find_gate (Z.abs c) in
                AssignTiming fuel t (Z.abs c) vb1)).
        preserves_auto;
          auto using entered_basic_visits, entered_AssignTiming with lia.
      + unfold entered. tree_simpl. rewrite lookup_insert_eq.
        eexists. split; [done|]. simpl. split; [done|]. lia. }
  intros [t vb1] ft3 [Ht (g3 & Hg3 & Henter & Hlast)]. simpl in Ht.
  apply wp_bind, wp_call_gate. rewrite Hg3.
  apply wp_bind, wp_assert.
  unfold Gate.Visit. destruct (Gate.visits g3) as [[v0 v1] v2] eqn:Hv3.
  simpl in *. rewrite decide_False by lia.
  case_decide as Hv1; simpl; [|done].
  apply wp_ret. simpl. split; [lia|]. eexists. rewrite lookup_insert_eq.
  split; [done|]. simpl. rewrite Hlast by done. by rewrite Henter.
Qed.

(** X4.  AssignTiming on a gate that has not been visited: the gate gets the
    next time as its enter time and the time that is returned as its exit
    time, which is later, and does not count as revisited. *)
Theorem AssignTiming_first_visit (fuel : nat) (time gate : Z)
    (visit_basics : list (Z * Z)) (ft : IndexedFaultTree) (g : IndexedGate)
    (time' : Z) (visit_basics' : list (Z * Z)) (ft' : IndexedFaultTree) :
  indexed_gates_ ft !! gate = Some g →
  Gate.visits g = (0, 0, 0) →
  0 ≤ time →
  AssignTiming fuel time gate visit_basics ft
    = Done (time', visit_basics') ft' →
  time + 1 < time' ∧
  ∃ g', indexed_gates_ ft' !! gate = Some g' ∧
        Gate.EnterTime g' = time + 1 ∧ Gate.ExitTime g' = time' ∧
        Gate.Revisited g' = false.
Proof.
  intros Hg Hvisits Htime Hrun.
  destruct (wp_done _ _ _ _ _ _
              (AssignTiming_stamps fuel time gate visit_basics ft g
                 Hg Hvisits Htime) Hrun) as (Hlt & g' & Hg' & Hv').
  simpl in *. split; [done|]. exists g'. split; [done|].
  unfold Gate.EnterTime, Gate.ExitTime, Gate.Revisited. rewrite Hv'. simpl.
  done.
Qed.

Lemma AssignTiming_first_visit_witness :
  let timed := AssignTiming 10 0 6 (replicate 6 (0, 0)) shared_event in
  match timed with
  | Done (time', _) ft' =>
      0 + 1 < time' ∧
      ∃ g', indexed_gates_ ft' !! 6 = Some g' ∧
            Gate.EnterTime g' = 0 + 1 ∧ Gate.ExitTime g' = time' ∧
            Gate.Revisited g' = false
  | Abort _ => False
  end.
Proof.
  intros timed. destruct timed as [[time' vb'] ft'|] eqn:Hrun;
    [|by vm_compute in Hrun].
  apply (AssignTiming_first_visit 10 0 6 (replicate 6 (0, 0)) shared_event
           (input_gate kAndGate [1; 2; 7; 8]) time' vb' ft').
  - vm_compute. reflexivity.
  - reflexivity.
  - lia.
  - exact Hrun.
Defined.

#[global] Instance keeps_preorder : PreOrder keeps.
Proof.
  split.
  - intros ft. split; [eauto|done].
  - intros a b c [Hab Hmab] [Hbc Hmbc]. split; [|by etrans].
    intros i g Hg. destruct (Hab i g Hg) as (g' & Hg' & Hv).
    destruct (Hbc i g' Hg') as (g'' & Hg'' & Hv'). exists g''.
    split; [done|congruence].
Qed.

Lemma keeps_on_gate ft0 i f :
  (∀ g, Gate.visits (f g) = Gate.visits g) →
  preserves (keeps ft0) (on_gate i f).
Proof.
  intros Hf ft Hk. apply wp_on_gate.
  destruct (indexed_gates_ ft !! i) as [gi|] eqn:Hgi; [|done].
  etrans; [exact Hk|]. split; [|done]. tree_simpl.
  intros j g Hg. destruct (decide (i = j)) as [->|].
  - rewrite lookup_insert_eq. eexists. split; [done|]. rewrite Hf. congruence.
  - rewrite lookup_insert_ne by done. eauto.
Qed.

Lemma keeps_insert_gate ft0 i g : preserves (keeps ft0) (insert_gate i g).
Proof.
  intros ft Hk. apply wp_insert_gate.
  destruct (indexed_gates_ ft !! i) eqn:Hi; [done|].
  etrans; [exact Hk|]. split; [|done]. tree_simpl.
  intros j gj Hj. rewrite lookup_insert_ne by congruence. eauto.
Qed.

Lemma keeps_next_index ft0 : preserves (keeps ft0) next_index.
Proof. intros ft Hk. by apply wp_next_index. Qed.

Lemma keeps_add_module ft0 m :
  preserves (keeps ft0) (modify (λ ft, set_modules (modules_ ft ∪ {[m]}) ft)).
Proof.
  intros ft Hk. apply wp_modify. etrans; [exact Hk|]. split; [eauto|].
  tree_simpl. apply union_subseteq_l.
Qed.

Lemma keeps_CreateNewModule ft0 gate l :
  preserves (keeps ft0) (CreateNewModule gate l).
Proof.
  unfold CreateNewModule. preserves_auto.
  all: first [apply keeps_add_module | apply keeps_next_index
             | apply keeps_insert_gate | by apply keeps_on_gate].
Qed.

Lemma bracketing_marked_keeps vg ft ft' :
  bracketing_marked vg ft → keeps ft ft' → bracketing_marked vg ft'.
Proof.
  intros Hvg [Hk Hm] i lo hi Hi. destruct (Hvg i lo hi Hi) as (g & Hg & Hmark).
  destruct (Hk i g Hg) as (g' & Hg' & Hv). exists g'. split; [done|].
  unfold Gate.EnterTime, Gate.ExitTime in *. rewrite Hv. auto.
Qed.

Lemma FindOriginalModules_marks fuel :
  ∀ gate vb vg ft,
    bracketing_marked vg ft →
    wp any_failure (FindOriginalModules fuel gate vb vg)
       (λ vg' ft', keeps ft ft' ∧ bracketing_marked vg' ft') ft.
Proof.
  induction fuel as [|fuel IH]; intros gate vb vg ft Hvg; [done|].
  cbn [FindOriginalModules]. cbv zeta.
  case_decide; [by apply wp_ret|].
  apply wp_bind, wp_find_gate.
  destruct (indexed_gates_ ft !! gate) as [g|] eqn:Hg; [|done].
  apply wp_bind, wp_get. apply wp_bind.
  eapply wp_mono.
  { apply (wp_for_fold _ _ _ _
             (λ s ft', keeps ft ft' ∧ bracketing_marked s.2 ft' ∧
                       min_time s.1 ≤ Gate.EnterTime g ∧
                       Gate.ExitTime g ≤ max_time s.1)).
    - intros c [k vg1] ft1 _ (Hk1 & Hvg1 & Hmin & Hmax). simpl in *.
      destruct (Z.abs c <? top_event_index_ ft).
      + apply wp_bind. eapply wp_mono; [apply basic_visits_pure|].
        intros [lo hi] ft2 ->. case_decide.
        * apply wp_bind, wp_assert. case_bool_decide; [|done]. by apply wp_ret.
        * apply wp_bind, wp_assert. destruct (negb _); [|done].
          apply wp_bind, wp_assert. destruct (negb _); [|done].
          apply wp_ret. unfold classify. simpl.
          split; [done|]. split; [done|]. split; lia.
      + apply wp_bind, wp_assert. destruct (c >? 0); [|done].
        apply wp_bind, wp_find_gate.
        destruct (indexed_gates_ ft1 !! Z.abs c); [|done].
        apply wp_bind. eapply wp_mono; [by apply IH|].
        intros vg2 ft2 [Hk2 Hvg2].
        assert (keeps ft ft2) by by etrans.
        apply wp_bind, wp_find_gate.
        destruct (indexed_gates_ ft2 !! Z.abs c); [|done].
        destruct (vg2 !! _) as [[lo hi]|]; [|done].
        apply wp_bind, wp_get. destruct (_ && _); [by apply wp_ret|].
        apply wp_bind, wp_assert. destruct (negb _); [|done].
        apply wp_bind, wp_assert. destruct (negb _); [|done].
        apply wp_ret. unfold classify. simpl.
        split; [done|]. split; [done|]. split; lia.
    - simpl. split; [done|]. split; [done|]. split; reflexivity. }
  intros [k vg1] ft1 (Hk1 & Hvg1 & Hmin & Hmax). simpl in *.
  set (marked ft' :=
         min_time k = Gate.EnterTime g → max_time k = Gate.ExitTime g →
         gate ∈ modules_ ft').
  apply wp_bind. eapply (wp_mono _ _ (λ _ ft', keeps ft1 ft' ∧ marked ft')).
  { case_bool_decide as Htest.
    - apply wp_bind, wp_find_gate.
      destruct (indexed_gates_ ft1 !! gate); [|done].
      apply wp_bind, wp_assert. destruct (bool_decide _); [|done].
      apply wp_modify. split.
      + split; [eauto|]. tree_simpl. apply union_subseteq_l.
      + intros _ _. tree_simpl. apply elem_of_union_r.
        by apply elem_of_singleton.
    - apply wp_ret. split; [done|]. intros ? ?. by destruct Htest. }
  intros [] ft2 [Hk2 Hmarked2]. apply wp_bind.
  eapply (wp_mono _ _ (λ _, keeps ft2)).
  { case_bool_decide; [|by apply wp_ret].
    by apply keeps_CreateNewModule. }
  intros [] ft3 Hk3. apply wp_bind.
  eapply wp_mono; [apply FilterModularChildren_sublist|].
  intros [modular rest] ft4 [-> _]. apply wp_bind.
  eapply (wp_mono _ _ (λ _, keeps ft3)).
  { case_bool_decide; [|by apply wp_ret].
    apply wp_bind, wp_assert. destruct (negb _); [|done].
    by apply keeps_CreateNewModule. }
  intros [] ft5 Hk5.
  assert (Hk15 : keeps ft1 ft5) by (etrans; [|exact Hk5]; by etrans).
  assert (Hk05 : keeps ft ft5) by by etrans.
  apply wp_bind, wp_find_gate.
  destruct (indexed_gates_ ft5 !! gate) as [g5|] eqn:Hg5; [|done].
  apply wp_ret. split; [done|].
  pose proof (bracketing_marked_keeps _ _ _ Hvg1 Hk15) as Hvg5.
  destruct (vg1 !! gate) eqn:Hcached; [done|].
  intros i lo hi Hi. destruct (decide (i = gate)) as [->|Hne].
  2:{ rewrite lookup_insert_ne in Hi by done. by apply Hvg5. }
  rewrite lookup_insert_eq in Hi. injection Hi as <- <-.
  exists g5. split; [done|].
  destruct (proj1 Hk05 gate g Hg) as (g5' & Hg5' & Hv).
  assert (g5' = g5) as -> by congruence.
  unfold Gate.LastVisit, Gate.Revisited, Gate.EnterTime, Gate.ExitTime in *.
  rewrite Hv. intros Hlo Hhi.
  destruct Hk5 as [_ Hm5]. destruct Hk3 as [_ Hm3].
  apply Hm5, Hm3, Hmarked2; [done|]. lia.
Qed.

(** X5.  When DetectModules returns, on a graph whose top gate had no visit
    times, the top event is in the module set. *)
Theorem DetectModules_marks_top (fuel : nat) (num_basic_events : Z)
    (ft ft' : IndexedFaultTree) (top_gate : IndexedGate) :
  indexed_gates_ ft !! top_event_index_ ft = Some top_gate →
  Gate.visits top_gate = (0, 0, 0) →
  DetectModules fuel num_basic_events ft = Done tt ft' →
  top_event_index_ ft ∈ modules_ ft'.
Proof.
  intros Htop Hvisits Hrun.
  cut (wp any_failure (DetectModules fuel num_basic_events)
          (λ _ ft', top_event_index_ ft ∈ modules_ ft') ft).
  { intros H. apply (wp_done _ _ _ _ _ _ H Hrun). }
  unfold DetectModules. cbv zeta.
  apply wp_bind, wp_get. apply wp_bind, wp_find_gate. rewrite Htop.
  apply wp_bind. eapply wp_mono.
  { by apply (AssignTiming_stamps fuel 0 _ _ ft top_gate). }
  intros [time vb] ft1 (_ & g1 & Hg1 & Hv1). simpl in Hv1.
  apply wp_bind. eapply wp_mono.
  { apply (FindOriginalModules_marks fuel _ _ ∅ ft1). intros i lo hi Hi.
    by rewrite lookup_empty in Hi. }
  intros vg ft2 [Hk2 Hvg2].
  apply wp_bind, wp_find_gate.
  destruct (indexed_gates_ ft2 !! top_event_index_ ft) as [g2|] eqn:Hg2;
    [|done].
  destruct (vg !! top_event_index_ ft) as [[first second]|] eqn:Hentry;
    [|done].
  apply wp_bind, wp_assert. case_bool_decide as Hfirst; [|done].
  apply wp_bind, wp_assert. destruct (negb _); [|done].
  apply wp_assert. case_bool_decide as Hsecond; [|done].
  destruct (Hvg2 _ _ _ Hentry) as (g2' & Hg2' & Hmark).
  assert (g2' = g2) as -> by congruence.
  destruct (proj1 Hk2 _ _ Hg1) as (g2' & Hg2'' & Hv2).
  assert (g2' = g2) as -> by congruence.
  apply Hmark; [|done].
  unfold Gate.EnterTime. rewrite Hv2, Hv1. simpl. lia.
Qed.

Lemma DetectModules_marks_top_witness :
  top_event_index_ shared_event
    ∈ modules_ (state_after (DetectModules 10 5) shared_event).
Proof.
  apply (DetectModules_marks_top 10 5 shared_event _
           (input_gate kAndGate [1; 2; 7; 8])).
  - vm_compute. reflexivity.
  - reflexivity.
  - vm_compute. reflexivity.
Defined.

(** ** Parent information *)

Lemma child_of_gathered ft ft' p i :
  gathered ft ft' → child_of ft' p i → child_of ft p i.
Proof.
  intros (_ & _ & _ & _ & _ & Hg) (gp & c & Hgp & Hc & Hi).
  specialize (Hg p). rewrite Hgp in Hg.
  destruct (indexed_gates_ ft !! p) as [g0|] eqn:Hg0; [|done].
  destruct Hg as (_ & _ & Hch & _). exists g0, c. by rewrite <- Hch.
Qed.

#[global] Instance gathered_preorder : PreOrder gathered.
Proof.
  split.
  - intros ft. repeat (split; [done|]). intros i.
    destruct (indexed_gates_ ft !! i); [|done].
    repeat (split; [done|]). auto.
  - intros a b c Hab Hbc.
    pose proof Hab as (?&?&?&?&?&Hab').
    pose proof Hbc as (?&?&?&?&?&Hbc').
    repeat (split; [congruence|]). intros i.
    specialize (Hab' i). specialize (Hbc' i).
    destruct (indexed_gates_ a !! i) as [ga|],
             (indexed_gates_ b !! i) as [gb|],
             (indexed_gates_ c !! i) as [gc|]; try done.
    destruct Hab' as (?&?&?&?&?&?&Hpab), Hbc' as (?&?&?&?&?&?&Hpbc).
    repeat (split; [congruence|]). split; [by etrans|].
    intros p Hp. destruct (Hpbc p Hp) as [Hp'|Hchild].
    + by apply Hpab.
    + right. by apply (child_of_gathered a b).
Qed.

Lemma registered_gathered p ft ft' :
  registered p ft → gathered ft ft' → registered p ft'.
Proof.
  intros (g & Hg & Hreg) (_ & Hgi & _ & _ & _ & Hgath).
  pose proof (Hgath p) as Hp. rewrite Hg in Hp.
  destruct (indexed_gates_ ft' !! p) as [g'|] eqn:Hg'; [|done].
  destruct Hp as (_ & _ & Hch & _). exists g'. split; [done|].
  intros c Hc Hlt. rewrite Hch in Hc. rewrite Hgi in Hlt.
  destruct (Hreg c Hc Hlt) as (gc & Hgc & Hpar).
  specialize (Hgath (Z.abs c)). rewrite Hgc in Hgath.
  destruct (indexed_gates_ ft' !! Z.abs c) as [gc'|]; [|done].
  destruct Hgath as (_ & _ & _ & _ & _ & Hsub & _).
  exists gc'. split; [done|]. by apply Hsub.
Qed.

Lemma gathered_AddParent ft p c gp :
  indexed_gates_ ft !! p = Some gp → c ∈ Gate.children gp →
  wp any_failure (on_gate (Z.abs c) (Gate.AddParent p))
     (λ _ ft', gathered ft ft' ∧
        ∃ gc, indexed_gates_ ft' !! Z.abs c = Some gc ∧
              p ∈ Gate.parents gc) ft.
Proof.
  intros Hgp Hc. apply wp_on_gate.
  destruct (indexed_gates_ ft !! Z.abs c) as [gc|] eqn:Hgc; [|done].
  tree_simpl. split.
  - repeat (split; [done|]). intros i. tree_simpl.
    destruct (decide (Z.abs c = i)) as [<-|Hne].
    + rewrite lookup_insert_eq, Hgc. repeat (split; [done|]). simpl.
      split; [apply union_subseteq_l|]. intros q Hq.
      apply elem_of_union in Hq as [Hq|Hq]; [by left|].
      apply elem_of_singleton in Hq as ->. right. by exists gp, c.
    + rewrite lookup_insert_ne by done.
      destruct (indexed_gates_ ft !! i); [|done].
      repeat (split; [done|]). auto.
  - rewrite lookup_insert_eq. eexists. split; [done|]. simpl.
    apply elem_of_union_r. by apply elem_of_singleton.
Qed.

Lemma GatherParentInformation_registers fuel :
  ∀ parent_gate P ft,
    wp any_failure (GatherParentInformation fuel parent_gate P)
       (λ P' ft', P ⊆ P' ∧ parent_gate ∈ P' ∧ gathered ft ft' ∧
                  ∀ p, p ∈ P' → p ∉ P → registered p ft') ft.
Proof.
  induction fuel as [|fuel IH]; intros pg P ft; [done|].
  cbn [GatherParentInformation].
  destruct (decide (pg ∈ P)) as [Hin|Hnotin].
  { apply wp_ret. repeat (split; [done|]). done. }
  apply wp_bind, wp_find_gate.
  destruct (indexed_gates_ ft !! pg) as [g|] eqn:Hg; [|done].
  apply wp_bind, wp_get.
  eapply wp_mono.
  { apply (wp_for_fold_prefix _ _ _ _
      (λ pre P1 ft1,
         P ∪ {[pg]} ⊆ P1 ∧ gathered ft ft1 ∧
         (∀ p, p ∈ P1 → p ∉ P ∪ {[pg]} → registered p ft1) ∧
         ∀ c, c ∈ pre → gate_index_ ft < Z.abs c →
           ∃ gc, indexed_gates_ ft1 !! Z.abs c = Some gc ∧
                 pg ∈ Gate.parents gc)).
    - intros pre c post P1 ft1 Hl (HP1 & Hg1 & Hreg1 & Hpre).
      assert (Hc : c ∈ Gate.children g).
      { apply elem_of_ascending. rewrite Hl. apply elem_of_app. right.
        by left. }
      assert (Hg1' : ∃ g1, indexed_gates_ ft1 !! pg = Some g1 ∧
                           Gate.children g1 = Gate.children g).
      { destruct Hg1 as (_ & _ & _ & _ & _ & Hall). specialize (Hall pg).
        rewrite Hg in Hall. destruct (indexed_gates_ ft1 !! pg) as [g1|];
          [|done]. exists g1. split; [done|]. by destruct Hall as (_&_&?&_). }
      destruct Hg1' as (g1 & Hgpg1 & Hch1).
      destruct (Z.abs c >? gate_index_ ft) eqn:Hgi.
      2:{ apply wp_ret. repeat (split; [done|]). intros c' Hc' Hlt.
          apply elem_of_app in Hc' as [Hc'|Hc']; [by apply Hpre|].
          apply list_elem_of_singleton in Hc' as ->. lia. }
      apply wp_bind. eapply wp_mono.
      { apply (gathered_AddParent ft1 pg c g1); [done|by rewrite Hch1]. }
      intros [] ft2 (Hg2 & gc & Hgc & Hpar).
      eapply wp_mono; [apply IH|].
      intros P3 ft3 (HP3 & _ & Hg3 & Hreg3).
      assert (Hg13 : gathered ft1 ft3) by by etrans.
      split; [by etrans|]. split; [by etrans|]. split.
      + intros p Hp Hnew. destruct (decide (p ∈ P1)) as [Hp1|Hp1].
        * eapply registered_gathered; [by apply Hreg1|done].
        * by apply Hreg3.
      + intros c' Hc' Hlt.
        assert (Hkeep : ∀ i gi, indexed_gates_ ft2 !! i = Some gi →
                  pg ∈ Gate.parents gi →
                  ∃ gi', indexed_gates_ ft3 !! i = Some gi' ∧
                         pg ∈ Gate.parents gi').
        { intros i gi Hi Hpi. destruct Hg3 as (_ & _ & _ & _ & _ & Hall).
          specialize (Hall i). rewrite Hi in Hall.
          destruct (indexed_gates_ ft3 !! i) as [gi'|]; [|done].
          exists gi'. split; [done|].
          destruct Hall as (_ & _ & _ & _ & _ & Hsub & _). by apply Hsub. }
        apply elem_of_app in Hc' as [Hc'|Hc'].
        * destruct (Hpre c' Hc' Hlt) as (gc' & Hgc' & Hpar').
          destruct Hg2 as (_ & _ & _ & _ & _ & Hall). specialize (Hall (Z.abs c')).
          rewrite Hgc' in Hall.
          destruct (indexed_gates_ ft2 !! Z.abs c') as [gc2|] eqn:Hgc2; [|done].
          apply (Hkeep _ gc2 Hgc2).
          destruct Hall as (_ & _ & _ & _ & _ & Hsub & _). by apply Hsub.
        * apply list_elem_of_singleton in Hc' as ->. by apply (Hkeep _ gc).
    - split; [done|]. split; [done|]. split.
      + intros p Hp Hnp. done.
      + intros c Hc. by apply elem_of_nil in Hc. }
  intros P' ft' (HP' & Hg' & Hreg' & Hall).
  split; [etrans; [|exact HP']; apply union_subseteq_l|].
  split; [apply HP', elem_of_union_r; by apply elem_of_singleton|].
  split; [done|]. intros p Hp HpP.
  destruct (decide (p = pg)) as [->|Hne].
  2:{ apply Hreg'; [done|]. rewrite elem_of_union, elem_of_singleton. tauto. }
  pose proof Hg' as (_ & Hgi & _ & _ & _ & Hgates). specialize (Hgates pg).
  rewrite Hg in Hgates.
  destruct (indexed_gates_ ft' !! pg) as [g'|] eqn:Hgpg'; [|done].
  destruct Hgates as (_ & _ & Hch & _). exists g'. split; [done|].
  intros c Hc Hlt. rewrite Hch in Hc. rewrite Hgi in Hlt.
  apply Hall; [by apply elem_of_ascending|done].
Qed.

(** X6.  GatherParentInformation changes nothing but sets of parents.  When
    it returns, each gate that it has processed is registered as a parent
    with every gate among its children, and each parent that it has added
    to a gate has this gate among its children. *)
Theorem GatherParentInformation_complete (fuel : nat) (parent_gate : Z)
    (processed_gates processed_gates' : gset Z)
    (ft ft' : IndexedFaultTree) :
  GatherParentInformation fuel parent_gate processed_gates ft
    = Done processed_gates' ft' →
  processed_gates ⊆ processed_gates' ∧ parent_gate ∈ processed_gates' ∧
  gathered ft ft' ∧
  ∀ p, p ∈ processed_gates' → p ∉ processed_gates → registered p ft'.
Proof.
  intros Hrun.
  apply (wp_done _ _ _ _ _ _
           (GatherParentInformation_registers fuel parent_gate
              processed_gates ft) Hrun).
Qed.

Lemma GatherParentInformation_complete_witness :
  let ft' := state_after (GatherParentInformation 5 6 ∅) shared_event in
  ∅ ⊆ ({[6; 7; 8]} : gset Z) ∧ 6 ∈ ({[6; 7; 8]} : gset Z) ∧
  gathered shared_event ft' ∧
  ∀ p, p ∈ ({[6; 7; 8]} : gset Z) → p ∉ (∅ : gset Z) → registered p ft'.
Proof.
  apply (GatherParentInformation_complete 5 6 ∅ {[6; 7; 8]} shared_event).
  vm_compute. reflexivity.
Defined.

Lemma SwapChild_negate gate gp :
  gate ∈ Gate.children gp →
  Gate.SwapChild gate (- gate) gp = (true, negated_child gate gp).
Proof.
  intros Hin. unfold Gate.SwapChild, Gate.AddChild, Gate.EraseChild. simpl.
  rewrite Z.opp_involutive. rewrite decide_False; [done|].
  rewrite elem_of_difference, elem_of_singleton. tauto.
Qed.

(** X7.  NotifyParentsOfNegativeGates on a NOR or NAND gate that each of
    its registered parents holds as a positive child: in every registered
    parent the reference to the gate is replaced by the negated reference,
    and nothing else changes. *)
Theorem NotifyParentsOfNegativeGates_negates (gate : Z)
    (ft : IndexedFaultTree) (g : IndexedGate) :
  indexed_gates_ ft !! gate = Some g →
  Gate.type g = kNorGate ∨ Gate.type g = kNandGate →
  (∀ p, p ∈ Gate.parents g →
        ∃ gp, indexed_gates_ ft !! p = Some gp ∧ gate ∈ Gate.children gp) →
  ∃ ft', NotifyParentsOfNegativeGates gate ft = Done tt ft' ∧
         notified gate (ascending (Gate.parents g)) ft ft'.
Proof.
  intros Hg Htype Hparents.
  cut (wp no_failure (NotifyParentsOfNegativeGates gate)
          (λ _, notified gate (ascending (Gate.parents g)) ft) ft).
  { intros H. destruct (wp_total _ _ _ H) as ([] & ft' & ? & ?). eauto. }
  unfold NotifyParentsOfNegativeGates.
  apply wp_bind, wp_find_gate. rewrite Hg.
  assert (Hloop : wp no_failure
    (for_each (ascending (Gate.parents g))
       (λ p, let* parent := find_gate p in
             do assert (bool_decide (gate ∈ Gate.children parent)) then
             let* r := call_gate p (Gate.SwapChild gate (- gate)) in
             assert r))
    (λ _, notified gate (ascending (Gate.parents g)) ft) ft).
  { apply (wp_for_each_prefix _ _ _ (λ pre, notified gate pre ft)).
    - intros pre p post ft1 Hl (Ht & Hgi & Hn & Hs & Hm & Hgates).
      assert (Hp : p ∈ Gate.parents g).
      { apply elem_of_ascending. rewrite Hl. apply elem_of_app. right.
        by left. }
      assert (Hfresh : p ∉ pre).
      { pose proof (NoDup_ascending (Gate.parents g)) as Hnd.
        rewrite Hl in Hnd. apply NoDup_app in Hnd as (_ & Hdisj & _).
        intros Hpre. apply (Hdisj p Hpre). by left. }
      destruct (Hparents p Hp) as (gp & Hgp & Hin).
      assert (Hgp1 : indexed_gates_ ft1 !! p = Some gp).
      { rewrite Hgates. by rewrite decide_False. }
      apply wp_bind, wp_find_gate. rewrite Hgp1.
      apply wp_bind, wp_assert. rewrite bool_decide_eq_true_2 by done.
      apply wp_bind, wp_call_gate. rewrite Hgp1.
      rewrite (SwapChild_negate gate gp Hin). apply wp_assert. simpl.
      unfold notified. tree_simpl.
      repeat (split; [done|]). intros i.
      destruct (decide (p = i)) as [<-|Hne].
      + rewrite lookup_insert_eq. rewrite decide_True; [by rewrite Hgp|].
        apply elem_of_app. right. by left.
      + rewrite lookup_insert_ne by done. rewrite Hgates.
        destruct (decide (i ∈ pre)) as [Hi|Hi].
        * rewrite decide_True; [done|]. apply elem_of_app. by left.
        * rewrite decide_False; [done|].
          rewrite elem_of_app, list_elem_of_singleton.
          intros [?|?]; [done|]. by subst.
    - repeat (split; [done|]). intros i. rewrite decide_False; [done|].
      apply not_elem_of_nil. }
  by destruct Htype as [-> | ->].
Qed.

Lemma NotifyParentsOfNegativeGates_negates_witness :
  let ft := state_after (GatherParentInformation 5 3 ∅) nor_child in
  ∃ ft', NotifyParentsOfNegativeGates 4 ft = Done tt ft' ∧
         notified 4 (ascending {[3]}) ft ft'.
Proof.
  intros ft.
  change (ascending {[3]}) with
    (ascending (Gate.parents
       (Gate.mk kNorGate 0 {[1; 2]} kNormalState (0, 0, 0) {[3]}))).
  apply (NotifyParentsOfNegativeGates_negates 4 ft
           (Gate.mk kNorGate 0 {[1; 2]} kNormalState (0, 0, 0) {[3]})).
  - vm_compute. reflexivity.
  - by left.
  - intros p Hp. simpl in Hp. apply elem_of_singleton in Hp as ->.
    exists (input_gate kAndGate [1; 4]). split.
    + vm_compute. reflexivity.
    + apply (bool_decide_unpack _). vm_compute. exact I.
Defined.

(** ** Complement propagation *)

Lemma plain_child_mono ft ft' P P' c :
  plain_child ft P c → P ⊆ P' → frame ft ft' → plain_child ft' P' c.
Proof.
  intros (Hpos & Hc & gc & Hgc & Hnot & Hnull) HP (_ & _ & _ & _ & Hgates).
  split; [done|]. split; [by apply HP|].
  destruct (Hgates c gc Hgc) as (gc' & Hgc' & Hty). exists gc'.
  rewrite Hty. done.
Qed.

Lemma plain_mono ft ft' P P' i :
  plain ft P i → P ⊆ P' → frame ft ft' →
  indexed_gates_ ft' !! i = indexed_gates_ ft !! i → plain ft' P' i.
Proof.
  intros (g & Hg & Hch) HP Hfr Hi. exists g. split; [congruence|].
  intros c Hc Hlt. destruct Hfr as (? & Hgi & ?) eqn:Hfr'. rewrite Hgi in Hlt.
  eapply plain_child_mono; [by apply Hch|done|done].
Qed.

Lemma plain_empty ft P i g :
  indexed_gates_ ft !! i = Some g → Gate.children g = ∅ → plain ft P i.
Proof.
  intros Hg Hch. exists g. split; [done|]. intros c Hc. rewrite Hch in Hc.
  by apply not_elem_of_empty in Hc.
Qed.

Lemma complements_known_mono s ft ft' :
  complements_known s ft → frame ft ft' → complements_known s ft'.
Proof.
  intros (Hgi & Hnew & Hex & Hc) (_ & Hgi' & _ & Hnew' & Hgates).
  split; [lia|]. split; [lia|]. split.
  - intros i Hi. destruct (Hex i Hi) as [g Hg].
    destruct (Hgates i g Hg) as (g' & Hg' & _). eauto.
  - intros k v Hk. destruct (Hc k v Hk) as (Hpos & Hv & gv & Hgv & Hand).
    split; [done|]. split; [done|].
    destruct (Hgates v gv Hgv) as (gv' & Hgv' & Hty). exists gv'.
    by rewrite Hty.
Qed.

Lemma complemented_step gate P P1 ft ft1 r ft' :
  P ⊆ P1 → frame ft ft1 →
  (∀ i, i ≠ gate → i ∈ P ∨ i ∉ P1 →
        indexed_gates_ ft1 !! i = indexed_gates_ ft !! i) →
  (∀ i, i ∈ P1 → i ∉ P → i ≠ gate → plain ft1 P1 i) →
  complemented ft1 gate P1 r ft' → complemented ft gate P r ft'.
Proof.
  intros HP Hfr Hsame Hnew (HP' & Hfr' & Hknown & Hsame' & Hnew' & Hgate).
  split; [by etrans|]. split; [by etrans|]. split; [done|].
  split; [|split; [|done]].
  - intros i Hne Hi. rewrite Hsame'.
    + apply Hsame; [done|]. destruct Hi as [?|Hi]; [by left|].
      right. intros Hi1. by apply Hi, HP'.
    + done.
    + destruct Hi as [?|?]; [left; by apply HP|by right].
  - intros i Hi HiP. destruct (decide (i = gate)) as [->|Hne]; [done|].
    destruct (decide (i ∈ P1)) as [Hi1|Hi1]; [|by apply Hnew'].
    eapply plain_mono; [by apply Hnew|done|done|].
    apply Hsame'; [done|by left].
Qed.

Lemma complements_loop_plain rec fuel :
  (∀ c s ft, complements_known s ft →
     wp any_failure (rec c s) (complemented ft c s.2) ft) →
  ∀ gate it s ft g,
    indexed_gates_ ft !! gate = Some g →
    complements_known s ft →
    (∀ c, c ∈ Gate.children g → c ∉ it → gate_index_ ft < Z.abs c →
       plain_child ft s.2 c) →
    wp any_failure (complements_loop rec fuel gate it s)
       (complemented ft gate s.2) ft.
Proof.
  intros Hrec. induction fuel as [|fuel IH];
    intros gate it [comps P] ft g Hg Hknown Hseen; [done|].
  simpl in Hseen.
  assert (Hrestart : ∀ s1 ft1,
    P ⊆ s1.2 → frame ft ft1 → complements_known s1 ft1 →
    (∀ i, i ≠ gate → i ∈ P ∨ i ∉ s1.2 →
          indexed_gates_ ft1 !! i = indexed_gates_ ft !! i) →
    (∀ i, i ∈ s1.2 → i ∉ P → i ≠ gate → plain ft1 s1.2 i) →
    wp any_failure
      (let* g := find_gate gate in
       complements_loop rec fuel gate (ascending (Gate.children g)) s1)
      (complemented ft gate P) ft1).
  { intros s1 ft1 HP1 Hfr1 Hknown1 Hsame1 Hnew1.
    apply wp_bind, wp_find_gate.
    destruct Hfr1 as (? & ? & ? & ? & Hgates1) eqn:Hfr1'.
    destruct (Hgates1 gate g Hg) as (g1 & Hg1 & _). rewrite Hg1.
    eapply wp_mono.
    { apply (IH gate _ s1 ft1 g1); [done|done|].
      intros c' Hc' Hnot. by rewrite elem_of_ascending in Hnot. }
    intros r ft'. by apply complemented_step. }
  assert (Hswap : ∀ g1,
    Gate.type g1 = Gate.type g →
    let ft1 := set_gates (<[gate := g1]> (indexed_gates_ ft)) ft in
    frame ft ft1 ∧ complements_known (comps, P) ft1 ∧
    (∀ i, i ≠ gate → indexed_gates_ ft1 !! i = indexed_gates_ ft !! i)).
  { intros g1 Hty1 ft1.
    assert (frame ft ft1) by (by apply (frame_update _ _ g)).
    split; [done|]. split; [by eapply complements_known_mono|].
    intros i Hne. subst ft1. tree_simpl. by rewrite lookup_insert_ne. }
  destruct it as [|c rest].
  { apply wp_ret. split; [done|]. split; [done|]. split; [done|].
    split; [done|]. split; [done|]. exists g. split; [done|].
    intros c Hc Hgi. apply Hseen; [done|apply not_elem_of_nil|done]. }
  assert (Hnext :
    (gate_index_ ft < Z.abs c → plain_child ft P c) →
    wp any_failure (complements_loop rec fuel gate rest (comps, P))
       (complemented ft gate P) ft).
  { intros Hc. apply (IH gate rest (comps, P) ft g); [done|done|].
    intros c' Hc' Hnot Hgi.
    destruct (decide (c' = c)) as [->|Hne]; [by apply Hc|].
    apply Hseen; [done| |done]. rewrite elem_of_cons. tauto. }
  cbn [complements_loop]. cbv zeta. apply wp_bind, wp_get.
  destruct (Z.abs c >? gate_index_ ft) eqn:Hgi; [|apply Hnext; lia].
  apply wp_bind, wp_find_gate.
  destruct (indexed_gates_ ft !! Z.abs c) as [gc|] eqn:Hgc; [|done].
  case_bool_decide as Hgcty.
  { (* a NOT or NULL child is replaced by its own child *)
    apply wp_bind, wp_assert. case_bool_decide as Hone; [|done].
    destruct (ascending (Gate.children gc)) as [|grandchild ?]; [done|].
    apply wp_bind, wp_call_gate. rewrite Hg.
    set (sw := Gate.SwapChild c _ g).
    destruct (Hswap sw.2 (type_SwapChild _ _ _)) as (Hfr1 & Hknown1 & Hsame1).
    destruct sw.1 eqn:Hok.
    - apply (Hrestart (comps, P)); try done.
      intros i Hne _. by apply Hsame1.
    - apply wp_ret. split; [done|]. split; [done|]. split; [done|].
      split; [intros i Hne _; by apply Hsame1|]. split; [done|].
      apply (plain_empty _ _ _ sw.2); [tree_simpl; apply lookup_insert_eq|].
      by apply SwapChild_false. }
  destruct (c <? 0) eqn:Hneg.
  - destruct (comps !! (- c)) as [complement|] eqn:Hcomp.
    + (* the complement of the child is known *)
      apply wp_bind, wp_call_gate. rewrite Hg.
      set (sw := Gate.SwapChild c _ g).
      destruct (Hswap sw.2 (type_SwapChild _ _ _)) as (Hfr1 & Hknown1 & Hsame1).
      apply (Hrestart (comps, P)); try done.
      intros i Hne _. by apply Hsame1.
    + (* the complement of the child is created *)
      apply wp_bind, wp_find_gate. rewrite Z.abs_neq in Hgc by lia.
      rewrite Hgc. apply wp_bind, wp_assert. case_bool_decide as Hand; [|done].
      apply wp_bind, wp_next_index. apply wp_bind, wp_insert_gate. tree_simpl.
      set (nm := new_gate_index_ ft + 1).
      destruct (indexed_gates_ ft !! nm) as [?|] eqn:Hnm; [done|].
      apply wp_bind, wp_find_gate. tree_simpl.
      assert (Hne_c : nm ≠ - c) by congruence.
      assert (Hne_gate : nm ≠ gate) by congruence.
      rewrite lookup_insert_ne by done. rewrite Hgc.
      apply wp_bind, wp_on_gate. tree_simpl. rewrite lookup_insert_eq.
      apply wp_bind, wp_on_gate. tree_simpl. rewrite lookup_insert_eq.
      apply wp_bind, wp_call_gate. tree_simpl.
      rewrite !insert_insert_eq. rewrite lookup_insert_ne by done. rewrite Hg.
      set (sw := Gate.SwapChild c nm g).
      set (dual := Gate.InvertChildren _).
      set (ft1 := set_gates _ _).
      assert (Hgates1 : ∀ i, i ≠ gate → i ≠ nm →
                indexed_gates_ ft1 !! i = indexed_gates_ ft !! i).
      { intros i ? ?. subst ft1. tree_simpl.
        by rewrite !lookup_insert_ne. }
      assert (Hdual : indexed_gates_ ft1 !! nm = Some dual).
      { subst ft1. tree_simpl. rewrite lookup_insert_ne by done.
        apply lookup_insert_eq. }
      assert (Hsw : indexed_gates_ ft1 !! gate = Some sw.2).
      { subst ft1. tree_simpl. apply lookup_insert_eq. }
      destruct Hknown as (Hgi0 & Hnew0 & Hex & Hcs) eqn:Hknown'.
      assert (Hfr1 : frame ft ft1).
      { unfold frame. subst ft1. tree_simpl. repeat split; try lia.
        intros i gi Hi. destruct (decide (i = gate)) as [->|Hig].
        - rewrite lookup_insert_eq. exists sw.2. split; [done|].
          unfold sw. rewrite type_SwapChild. congruence.
        - rewrite lookup_insert_ne by done.
          rewrite lookup_insert_ne by congruence. eauto. }
      assert (Hknown1 : complements_known
                (<[- c := nm]> comps, P ∪ {[nm]}) ft1).
      { split; [by destruct Hfr1 as (_ & -> & _)|].
        split; [destruct Hfr1 as (_ & _ & _ & ? & _); lia|]. split.
        - intros i Hi. simpl in Hi. apply elem_of_union in Hi as [Hi|Hi].
          + destruct (Hex i Hi) as [gi Hgi'].
            destruct Hfr1 as (_ & _ & _ & _ & Hall).
            destruct (Hall i gi Hgi') as (? & ? & _). eauto.
          + apply elem_of_singleton in Hi as ->. eauto.
        - intros k v Hk. simpl in Hk.
          destruct (decide (k = - c)) as [->|Hkc].
          + rewrite lookup_insert_eq in Hk. injection Hk as <-.
            split; [lia|]. split; [set_solver|]. exists dual.
            split; [done|]. unfold dual, and_or. simpl.
            destruct (decide (Gate.type gc = kOrGate)); auto.
          + rewrite lookup_insert_ne in Hk by done.
            destruct (Hcs k v Hk) as (? & ? & gv & Hgv & ?).
            split; [done|]. split; [set_solver|].
            destruct Hfr1 as (_ & _ & _ & _ & Hall).
            destruct (Hall v gv Hgv) as (gv' & ? & Hty). exists gv'.
            by rewrite Hty. }
      apply wp_bind. eapply wp_mono; [by apply Hrec|].
      intros s2 ft2 (HP2 & Hfr2 & Hknown2 & Hsame2 & Hnew2 & Hplain2).
      simpl in HP2.
      assert (HnmP : nm ∉ P).
      { intros HnmP. destruct (Hex nm HnmP) as [? ?]. congruence. }
      apply Hrestart; try done.
      * set_solver.
      * by etrans.
      * intros i Hne Hi. rewrite Hsame2.
        -- apply Hgates1; [done|]. intros ->. destruct Hi as [?|Hi]; [done|].
           apply Hi, HP2. set_solver.
        -- intros ->. destruct Hi as [?|Hi]; [done|].
           apply Hi, HP2. set_solver.
        -- destruct Hi as [?|?]; [left; set_solver|by right].
      * intros i Hi HiP Hne. destruct (decide (i = nm)) as [->|Hinm]; [done|].
        apply Hnew2; [done|]. simpl. set_solver.
  - (* a positive child that is neither NOT nor NULL *)
    assert (Hpos : 0 < c).
    { destruct Hknown as (? & _). lia. }
    rewrite Z.abs_eq in Hgc by lia.
    assert (Hkind : Gate.type gc ≠ kNotGate ∧ Gate.type gc ≠ kNullGate)
      by tauto.
    destruct (decide (c ∈ P)) as [HcP|HcP].
    { apply Hnext. intros _. split; [done|]. split; [done|]. by exists gc. }
    apply wp_bind, wp_find_gate. rewrite Hgc.
    apply wp_bind. eapply wp_mono.
    { apply Hrec. eapply (complements_known_mono (comps, P)) in Hknown; [|done].
      destruct Hknown as (? & ? & Hex & Hcs). split; [done|]. split; [done|].
      split.
      - intros i Hi. simpl in Hi. apply elem_of_union in Hi as [Hi|Hi].
        + by apply Hex.
        + apply elem_of_singleton in Hi as ->. eauto.
      - intros k v Hk. destruct (Hcs k v Hk) as (? & ? & ?).
        split; [done|]. split; [set_solver|done]. }
    intros s2 ft2 (HP2 & Hfr2 & Hknown2 & Hsame2 & Hnew2 & Hplain2).
    simpl in HP2, Hsame2, Hnew2.
    assert (Hc2 : plain_child ft2 s2.2 c).
    { split; [done|]. split; [set_solver|].
      destruct Hfr2 as (_ & _ & _ & _ & Hall).
      destruct (Hall c gc Hgc) as (gc' & ? & Hty). exists gc'.
      by rewrite Hty. }
    assert (Hgate2 : ∃ g2, indexed_gates_ ft2 !! gate = Some g2 ∧
      ∀ c', c' ∈ Gate.children g2 → c' ∉ rest → gate_index_ ft2 < Z.abs c' →
            plain_child ft2 s2.2 c').
    { destruct (decide (gate = c)) as [->|Hne].
      { destruct Hplain2 as (g2 & ? & Hall). exists g2. split; [done|].
        intros c' ? _. by apply Hall. }
      destruct (decide (gate ∈ s2.2 ∧ gate ∉ P)) as [[H2 HP]|Hold].
      { destruct (Hnew2 gate H2) as (g2 & ? & Hall); [set_solver|].
        exists g2. split; [done|]. intros c' ? _. by apply Hall. }
      exists g. split.
      { rewrite Hsame2; [done|done|].
        destruct (decide (gate ∈ P)); [left; set_solver|right; tauto]. }
      intros c' Hc' Hnot Hgi'.
      destruct (decide (c' = c)) as [->|Hne']; [done|].
      eapply plain_child_mono; [|etrans; [|exact HP2]; apply union_subseteq_l
                                |done].
      apply Hseen; [done|rewrite elem_of_cons; tauto|].
      destruct Hfr2 as (_ & <- & _). done. }
    destruct Hgate2 as (g2 & Hg2 & Hseen2).
    eapply wp_mono.
    { apply (IH gate rest s2 ft2 g2); done. }
    intros r ft'. apply complemented_step; try done.
    + set_solver.
    + intros i Hne Hi. apply Hsame2.
      * intros ->. destruct Hi as [?|Hi]; [done|]. apply Hi, HP2. set_solver.
      * destruct Hi as [?|?]; [left; set_solver|by right].
    + intros i Hi HiP Hne. destruct (decide (i = c)) as [->|Hic]; [done|].
      apply Hnew2; [done|]. set_solver.
Qed.

Lemma PropagateComplements_plain fuel :
  ∀ gate s ft, complements_known s ft →
    wp any_failure (PropagateComplements fuel gate s)
       (complemented ft gate s.2) ft.
Proof.
  induction fuel as [|fuel IH]; intros gate s ft Hknown; [done|].
  cbn [PropagateComplements]. apply wp_bind, wp_find_gate.
  destruct (indexed_gates_ ft !! gate) as [g|] eqn:Hg; [|done].
  apply (complements_loop_plain _ fuel IH gate _ s ft g); [done|done|].
  intros c Hc Hnot. by rewrite elem_of_ascending in Hnot.
Qed.

(** X8. When PropagateComplements returns for the top event of a graph whose
    indices are not negative, every gate that can be reached from the top
    event refers to other gates only positively, and to no NOT or NULL gate:
    the negations are left on basic events alone. *)
Theorem PropagateComplements_complement_free (fuel : nat)
    (ft ft' : IndexedFaultTree) (r : gmap Z Z * gset Z) :
  0 ≤ gate_index_ ft → 0 ≤ new_gate_index_ ft →
  PropagateComplements fuel (top_event_index_ ft) (∅, ∅) ft = Done r ft' →
  complement_free ft'.
Proof.
  intros Hgi Hnew Hrun.
  assert (Hknown : complements_known (∅, ∅) ft).
  { split; [done|]. split; [done|]. split; [intros i Hi; set_solver|].
    intros k v Hk. simpl in Hk. by rewrite lookup_empty in Hk. }
  pose proof (wp_done _ _ _ _ _ _
    (PropagateComplements_plain fuel (top_event_index_ ft) _ ft Hknown) Hrun)
    as (_ & Hfr & _ & _ & Hnewp & Htop).
  destruct Hfr as (Htop' & Hgi' & _).
  assert (Hall : ∀ i, reachable ft' i →
            i = top_event_index_ ft ∨ i ∈ r.2).
  { intros i Hi. induction Hi as [|i g c Hi IHi Hg Hc Hlt]; [by left|].
    assert (Hp : plain ft' r.2 i).
    { destruct IHi as [->|Hi2]; [done|]. apply Hnewp; [done|].
      apply not_elem_of_empty. }
    destruct Hp as (g' & Hg' & Hch). rewrite Hg in Hg'. injection Hg' as <-.
    destruct (Hch c Hc Hlt) as (Hpos & HcP & _). right.
    by rewrite Z.abs_eq by lia. }
  intros i Hi.
  assert (Hp : plain ft' r.2 i).
  { destruct (Hall i Hi) as [->|Hi2]; [done|]. apply Hnewp; [done|].
    apply not_elem_of_empty. }
  destruct Hp as (g & Hg & Hch). exists g. split; [done|].
  intros c Hc Hlt. destruct (Hch c Hc Hlt) as (? & _ & ?). done.
Qed.

Lemma PropagateComplements_complement_free_witness :
  complement_free (state_after (PropagateComplements 10 4 (∅, ∅)) negated_gate).
Proof.
  apply (PropagateComplements_complement_free 10 negated_gate _
           ({[5 := 7]}, {[7]})).
  - vm_compute. discriminate.
  - vm_compute. discriminate.
  - vm_compute. reflexivity.
Defined.

(** ** The function of a graph under normalization *)

Lemma forallb_perm (vs vs' : list bool) :
  vs ≡ₚ vs' → forallb id vs = forallb id vs'.
Proof.
  induction 1 as [|x l l' _ IH|x y l|l l' l'' _ IH1 _ IH2]; simpl.
  - done.
  - by rewrite IH.
  - rewrite !andb_assoc. f_equal. apply andb_comm.
  - by etrans.
Qed.

Lemma existsb_perm (vs vs' : list bool) :
  vs ≡ₚ vs' → existsb id vs = existsb id vs'.
Proof.
  induction 1 as [|x l l' _ IH|x y l|l l' l'' _ IH1 _ IH2]; simpl.
  - done.
  - by rewrite IH.
  - rewrite !orb_assoc. f_equal. apply orb_comm.
  - by etrans.
Qed.

Lemma xorb_perm (vs vs' : list bool) :
  vs ≡ₚ vs' → foldr xorb false vs = foldr xorb false vs'.
Proof.
  induction 1 as [|x l l' _ IH|x y l|l l' l'' _ IH1 _ IH2]; simpl.
  - done.
  - by rewrite IH.
  - rewrite <- !xorb_assoc. f_equal. apply xorb_comm.
  - by etrans.
Qed.

Lemma singleton_perm {A} (vs vs' : list A) :
  vs ≡ₚ vs' →
  match vs with [v] => Some v | _ => None end =
  match vs' with [v] => Some v | _ => None end.
Proof.
  intros Hp. pose proof (Permutation_length Hp) as Hlen.
  destruct vs as [|a [|b vs]], vs' as [|a' [|b' vs']]; try done.
  assert (Ha : a ∈ [a']) by (rewrite <- Hp; by left).
  by apply list_elem_of_singleton in Ha as ->.
Qed.

Lemma connective_perm t k vs vs' :
  vs ≡ₚ vs' → connective t k vs = connective t k vs'.
Proof.
  intros Hp. destruct t; simpl.
  - by rewrite (forallb_perm _ _ Hp).
  - by rewrite (existsb_perm _ _ Hp).
  - by rewrite Hp.
  - by rewrite (xorb_perm _ _ Hp).
  - pose proof (singleton_perm _ _ Hp) as Hs.
    destruct vs as [|a [|b vs]], vs' as [|a' [|b' vs']]; try done.
    by injection Hs as ->.
  - by rewrite (forallb_perm _ _ Hp).
  - by rewrite (existsb_perm _ _ Hp).
  - pose proof (singleton_perm _ _ Hp) as Hs.
    destruct vs as [|a [|b vs]], vs' as [|a' [|b' vs']]; try done.
Qed.

Lemma mapped_children_values (w w' : Z → option bool) (φ : Z → Z)
    (cs : gset Z) (vs : list bool) :
  (∀ x y, x ∈ cs → y ∈ cs → φ x = φ y → x = y) →
  (∀ c v, c ∈ cs → w c = Some v → w' (φ c) = Some v) →
  mapM w (ascending cs) = Some vs →
  ∃ vs', mapM w' (ascending (set_map φ cs)) = Some vs' ∧ vs ≡ₚ vs'.
Proof.
  intros Hinj Hw Hvs. apply mapM_Some_1 in Hvs.
  assert (Hmap : Forall2 (λ c v, w' c = Some v) (φ <$> ascending cs) vs).
  { apply Forall2_fmap_l.
    assert (Hin : ∀ c, c ∈ ascending cs → c ∈ cs)
      by (intros c; apply elem_of_ascending).
    induction Hvs as [|c v l vs' Hc _ IH]; constructor.
    - apply Hw; [apply Hin; by left|done].
    - apply IH. intros c' Hc'. apply Hin. by right. }
  assert (Hperm : φ <$> ascending cs ≡ₚ ascending (set_map φ cs)).
  { apply NoDup_Permutation.
    - apply NoDup_fmap_2_strong; [|apply NoDup_ascending].
      intros x y Hx Hy. apply Hinj; by apply elem_of_ascending.
    - apply NoDup_ascending.
    - intros x. rewrite elem_of_ascending, elem_of_map, list_elem_of_fmap.
      split; intros (c & -> & Hc); exists c; split; try done;
        by apply elem_of_ascending. }
  destruct (Permutation_Forall2 Hperm Hmap) as (vs' & Hvs' & Hall).
  exists vs'. split; [|done]. by apply mapM_Some_2.
Qed.

Lemma eval_gate_none n m ft ρ i :
  (n ≤ m)%nat → eval_gate m ft ρ i = None → eval_gate n ft ρ i = None.
Proof.
  intros Hle Hm. destruct (eval_gate n ft ρ i) as [v|] eqn:Hn; [|done].
  by rewrite (eval_gate_le n m ft ρ i v Hle Hn) in Hm.
Qed.

(** Gates without a value have no part in the value of another gate. *)
Lemma eval_gate_transfer (X : Z → Prop) ft ft' ρ :
  gate_index_ ft' = gate_index_ ft →
  (∀ i g, ¬ X i → indexed_gates_ ft !! i = Some g →
     ∃ g', indexed_gates_ ft' !! i = Some g' ∧ same_function g g') →
  ∀ n, (∀ x, X x → eval_gate n ft ρ x = None) →
  (∀ i v, ¬ X i → eval_gate n ft ρ i = Some v →
          eval_gate n ft' ρ i = Some v) ∧
  (∀ c v, eval_literal n ft ρ c = Some v → eval_literal n ft' ρ c = Some v).
Proof.
  intros Hgi Hsame. induction n as [|n IH]; intros Hnone.
  - split; [done|]. intros c v. unfold eval_literal. rewrite Hgi.
    by destruct (Z.abs c >? gate_index_ ft).
  - assert (Hgates : ∀ i v, ¬ X i → eval_gate (S n) ft ρ i = Some v →
                            eval_gate (S n) ft' ρ i = Some v).
    { destruct IH as [_ IHlit].
      { intros x Hx. eapply eval_gate_none; [|by apply Hnone]. lia. }
      intros i v Hi. rewrite !eval_gate_S.
      destruct (indexed_gates_ ft !! i) as [g|] eqn:Hg; [|done].
      destruct (Hsame i g Hi Hg) as (g' & Hg' & Hty & Hvote & Hch & Hst).
      rewrite Hg'. simpl. rewrite Hst, Hch, Hty, Hvote.
      destruct (Gate.state g); [|done..].
      destruct (mapM (eval_literal n ft ρ) _) as [vs|] eqn:Hvs; [|done].
      simpl. intros Hv.
      rewrite (mapM_Some_2 (eval_literal n ft' ρ) _ vs); [done|].
      apply mapM_Some_1 in Hvs. eapply Forall2_impl; [done|].
      intros c b. apply IHlit. }
    split; [done|]. intros c v. unfold eval_literal. rewrite Hgi.
    destruct (Z.abs c >? gate_index_ ft); [|done].
    destruct (eval_gate (S n) ft ρ (Z.abs c)) as [b|] eqn:Hb; [|done].
    rewrite (Hgates (Z.abs c) b); [done| |done].
    intros Hx. by rewrite (Hnone _ Hx) in Hb.
Qed.

Lemma least_fuel ft ρ i n v :
  eval_gate n ft ρ i = Some v →
  ∃ m, (S m ≤ n)%nat ∧ eval_gate (S m) ft ρ i = Some v ∧
       eval_gate m ft ρ i = None.
Proof.
  induction n as [|n IH]; [done|]. intros Hv.
  destruct (eval_gate n ft ρ i) as [v'|] eqn:Hn.
  - assert (v' = v) as ->.
    { apply eval_gate_mono in Hn. congruence. }
    destruct IH as (m & ? & ? & ?); [done|]. exists m. split; [lia|done].
  - exists n. split; [lia|done].
Qed.

Lemma NotifyParentsOfNegativeGates_notified gate ft :
  wp any_failure (NotifyParentsOfNegativeGates gate)
    (λ _ ft', ∃ g, indexed_gates_ ft !! gate = Some g ∧
       if negative_type (Gate.type g) then
         notified gate (ascending (Gate.parents g)) ft ft' ∧
         ∀ p, p ∈ Gate.parents g →
           ∃ gp, indexed_gates_ ft !! p = Some gp ∧ gate ∈ Gate.children gp
       else ft' = ft) ft.
Proof.
  unfold NotifyParentsOfNegativeGates.
  apply wp_bind, wp_find_gate.
  destruct (indexed_gates_ ft !! gate) as [g|] eqn:Hg; [|done].
  assert (Hloop : wp any_failure
    (for_each (ascending (Gate.parents g))
       (λ p, let* parent := find_gate p in
             do assert (bool_decide (gate ∈ Gate.children parent)) then
             let* r := call_gate p (Gate.SwapChild gate (- gate)) in
             assert r))
    (λ _ ft', notified gate (ascending (Gate.parents g)) ft ft' ∧
       ∀ p, p ∈ Gate.parents g →
         ∃ gp, indexed_gates_ ft !! p = Some gp ∧ gate ∈ Gate.children gp)
    ft).
  { eapply wp_mono.
    { apply (wp_for_each_prefix _ _ _
        (λ pre ft', notified gate pre ft ft' ∧
           ∀ p, p ∈ pre →
             ∃ gp, indexed_gates_ ft !! p = Some gp ∧
                   gate ∈ Gate.children gp)).
      - intros pre p post ft1 Hl [(Ht & Hgi & Hn & Hs & Hm & Hgates) Hpre].
        assert (Hfresh : p ∉ pre).
        { pose proof (NoDup_ascending (Gate.parents g)) as Hnd.
          rewrite Hl in Hnd. apply NoDup_app in Hnd as (_ & Hdisj & _).
          intros Hp. apply (Hdisj p Hp). by left. }
        assert (Hp1 : indexed_gates_ ft1 !! p = indexed_gates_ ft !! p).
        { rewrite Hgates. by rewrite decide_False. }
        apply wp_bind, wp_find_gate. rewrite Hp1.
        destruct (indexed_gates_ ft !! p) as [gp|] eqn:Hgp; [|done].
        apply wp_bind, wp_assert. case_bool_decide as Hin; [|done].
        apply wp_bind, wp_call_gate. rewrite Hp1.
        rewrite (SwapChild_negate gate gp Hin). apply wp_assert. simpl.
        split.
        + unfold notified. tree_simpl.
          repeat (split; [done|]). intros i.
          destruct (decide (p = i)) as [<-|Hne].
          * rewrite lookup_insert_eq. rewrite decide_True; [by rewrite Hgp|].
            apply elem_of_app. right. by left.
          * rewrite lookup_insert_ne by done. rewrite Hgates.
            destruct (decide (i ∈ pre)) as [Hi|Hi].
            -- rewrite decide_True; [done|]. apply elem_of_app. by left.
            -- rewrite decide_False; [done|].
               rewrite elem_of_app, list_elem_of_singleton.
               intros [?|?]; [done|]. by subst.
        + intros q Hq. apply elem_of_app in Hq as [Hq|Hq]; [by apply Hpre|].
          apply list_elem_of_singleton in Hq as ->. eauto.
      - split.
        + repeat (split; [done|]). intros i. rewrite decide_False; [done|].
          apply not_elem_of_nil.
        + intros p Hp. by apply elem_of_nil in Hp. }
    intros [] ft' [Hn Hall]. split; [done|]. intros p Hp. apply Hall.
    by apply elem_of_ascending. }
  destruct (Gate.type g) eqn:Hty; simpl;
    try (apply wp_ret; exists g; by rewrite Hty);
    (eapply wp_mono; [exact Hloop|]); intros [] ft' H; exists g;
    by rewrite Hty.
Qed.

Lemma set_children_same g : Gate.set_children (Gate.children g) g = g.
Proof. by destruct g. Qed.

Lemma notified_children_ext ft K K' p g :
  (∀ c, c ∈ Gate.children g → notifies ft K p c = notifies ft K' p c) →
  notified_children ft K p g = notified_children ft K' p g.
Proof.
  intros Hext. unfold notified_children. f_equal.
  apply set_eq. intros x. rewrite !elem_of_map.
  split; intros (c & -> & Hc); exists c; split; try done;
    by rewrite (Hext c Hc).
Qed.

Lemma notified_children_nil ft p g : notified_children ft [] p g = g.
Proof.
  unfold notified_children.
  assert (Heq : (set_map (λ c, if notifies ft [] p c then - c else c)
                   (Gate.children g) : gset Z) = Gate.children g).
  { apply set_eq. intros x. rewrite elem_of_map. split.
    - by intros (c & -> & Hc).
    - intros Hx. by exists x. }
  rewrite Heq. apply set_children_same.
Qed.

Lemma notifies_gate ft K p c :
  0 ≤ gate_index_ ft →
  (∀ k g, indexed_gates_ ft !! k = Some g →
          k = top_event_index_ ft ∨ gate_index_ ft < k) →
  notifies ft K p c = true → gate_index_ ft < c.
Proof.
  intros Hgi Hkeys. unfold notifies. rewrite !andb_true_iff.
  intros [[_ Htop] Hc]. apply bool_decide_eq_true in Htop.
  destruct (indexed_gates_ ft !! c) as [g|] eqn:Hg; [|done].
  by destruct (Hkeys c g Hg).
Qed.

Lemma notify_step ft pre k p (cs : gset Z) g :
  0 ≤ gate_index_ ft →
  (∀ k g, indexed_gates_ ft !! k = Some g →
          k = top_event_index_ ft ∨ gate_index_ ft < k) →
  k ∉ pre → k ≠ top_event_index_ ft →
  indexed_gates_ ft !! k = Some g → negative_type (Gate.type g) = true →
  p ∈ Gate.parents g →
  k ∈ (set_map (λ c, if notifies ft pre p c then - c else c) cs : gset Z) →
  (set_map (λ c, if notifies ft (pre ++ [k]) p c then - c else c) cs : gset Z)
  = set_map (λ c, if notifies ft pre p c then - c else c) cs ∖ {[k]} ∪ {[- k]}.
Proof.
  intros Hgi Hkeys Hfresh Htop Hg Hneg Hp Hin.
  assert (Hk : gate_index_ ft < k) by (by destruct (Hkeys k g Hg)).
  assert (Hnew : notifies ft (pre ++ [k]) p k = true).
  { unfold notifies. rewrite Hg, Hneg. rewrite !bool_decide_eq_true_2; try done.
    apply elem_of_app. right. by left. }
  assert (Hold : notifies ft pre p k = false).
  { unfold notifies. by rewrite (bool_decide_eq_false_2 (k ∈ pre)). }
  assert (Hother : ∀ c, c ≠ k →
            notifies ft (pre ++ [k]) p c = notifies ft pre p c).
  { intros c Hne. unfold notifies. f_equal. f_equal.
    apply bool_decide_ext. rewrite elem_of_app, list_elem_of_singleton. tauto. }
  assert (Hnot : ∀ c, (if notifies ft pre p c then - c else c) = k → c = k).
  { intros c. destruct (notifies ft pre p c) eqn:Hc; [|done].
    apply notifies_gate in Hc; [|done..]. lia. }
  assert (Hkcs : k ∈ cs).
  { apply elem_of_map in Hin as (c & Hc & Hccs). symmetry in Hc.
    by rewrite <- (Hnot c Hc). }
  apply set_eq. intros x.
  rewrite elem_of_union, elem_of_difference, !elem_of_map, !elem_of_singleton.
  split.
  - intros (c & -> & Hc). destruct (decide (c = k)) as [->|Hne].
    + right. by rewrite Hnew.
    + left. rewrite (Hother c Hne). split; [by exists c|].
      intros Heq. by apply Hne, Hnot.
  - intros [[(c & -> & Hc) Hne]| ->].
    + exists c. split; [|done]. rewrite Hother; [done|].
      intros ->. by rewrite Hold in Hne.
    + exists k. by rewrite Hnew.
Qed.

Lemma NormalizeGates_notifies ft :
  0 ≤ gate_index_ ft →
  (∀ k g, indexed_gates_ ft !! k = Some g →
          k = top_event_index_ ft ∨ gate_index_ ft < k) →
  wp any_failure
    (for_each (gate_keys (indexed_gates_ ft))
       (λ k, if decide (k = top_event_index_ ft) then ret tt
             else NotifyParentsOfNegativeGates k))
    (λ _, all_notified ft (gate_keys (indexed_gates_ ft))) ft.
Proof.
  intros Hgi Hkeys.
  apply (wp_for_each_prefix _ _ _ (all_notified ft)).
  2:{ repeat (split; [done|]). intros i.
      destruct (indexed_gates_ ft !! i) as [g|]; [|done]. simpl.
      by rewrite notified_children_nil. }
  intros pre k post cur Hl (Ht & Hgi' & Hn & Hs & Hm & Hgates).
  assert (Hfresh : k ∉ pre).
  { pose proof (NoDup_fst_map_to_list (indexed_gates_ ft)) as Hnd.
    fold (gate_keys (indexed_gates_ ft)) in Hnd.
    rewrite Hl in Hnd. apply NoDup_app in Hnd as (_ & Hdisj & _).
    intros Hk. apply (Hdisj k Hk). by left. }
  assert (Hmem : ∀ c, c ≠ k → bool_decide (c ∈ pre ++ [k]) = bool_decide (c ∈ pre)).
  { intros c Hne. apply bool_decide_ext.
    rewrite elem_of_app, list_elem_of_singleton. tauto. }
  assert (Hsame : (∀ p, notifies ft (pre ++ [k]) p k = false) →
                  all_notified ft (pre ++ [k]) cur).
  { intros Hno. repeat (split; [done|]). intros i. rewrite Hgates.
    destruct (indexed_gates_ ft !! i) as [g|]; [|done]. simpl. f_equal.
    apply notified_children_ext. intros c _.
    destruct (decide (c = k)) as [->|Hne].
    - rewrite Hno. unfold notifies.
      by rewrite (bool_decide_eq_false_2 (k ∈ pre)).
    - unfold notifies. by rewrite Hmem. }
  destruct (decide (k = top_event_index_ ft)) as [Hktop|Hktop].
  { apply wp_ret. apply Hsame. intros p. unfold notifies.
    rewrite (bool_decide_eq_false_2 (k ≠ _)) by tauto.
    by rewrite andb_false_r. }
  eapply wp_mono; [apply NotifyParentsOfNegativeGates_notified|].
  intros [] cur' (g & Hg & Hpost). rewrite Hgates in Hg.
  destruct (indexed_gates_ ft !! k) as [g0|] eqn:Hg0; [|done].
  injection Hg as <-.
  change (Gate.type (notified_children ft pre k g0)) with (Gate.type g0)
    in Hpost.
  change (Gate.parents (notified_children ft pre k g0))
    with (Gate.parents g0) in Hpost.
  destruct (negative_type (Gate.type g0)) eqn:Hneg.
  2:{ subst cur'. apply Hsame. intros p. unfold notifies.
      rewrite Hg0, Hneg. by rewrite andb_false_r. }
  destruct Hpost as [(Ht1 & Hgi1 & Hn1 & Hs1 & Hm1 & Hgates1) Hparents].
  repeat (split; [congruence|]). intros i. rewrite Hgates1, Hgates.
  destruct (decide (i ∈ ascending (Gate.parents g0))) as [Hi|Hi].
  - apply elem_of_ascending in Hi.
    destruct (Hparents i Hi) as (gp & Hgp & Hin). rewrite Hgates in Hgp.
    destruct (indexed_gates_ ft !! i) as [gi0|]; [|done]. simpl. f_equal.
    injection Hgp as <-. simpl in Hin.
    unfold negated_child, notified_children. simpl.
    by rewrite (notify_step ft pre k i _ g0).
  - rewrite elem_of_ascending in Hi.
    destruct (indexed_gates_ ft !! i) as [gi0|]; [|done]. simpl. f_equal.
    apply notified_children_ext. intros c _.
    destruct (decide (c = k)) as [->|Hne].
    + unfold notifies. rewrite Hg0.
      rewrite (bool_decide_eq_false_2 (k ∈ pre)) by done.
      rewrite (bool_decide_eq_false_2 (i ∈ _)) by done.
      by rewrite !andb_false_r.
    + unfold notifies. by rewrite Hmem.
Qed.

Lemma children_in_gathered P P' p ft ft' :
  children_in P p ft → gathered ft ft' → P ⊆ P' → children_in P' p ft'.
Proof.
  intros Hin (_ & Hgi & _ & _ & _ & Hall) HP g' c Hg' Hc Hlt.
  specialize (Hall p). rewrite Hg' in Hall.
  destruct (indexed_gates_ ft !! p) as [g|] eqn:Hg; [|done].
  destruct Hall as (_ & _ & Hch & _). apply HP.
  apply (Hin g c); [done|by rewrite <- Hch|by rewrite <- Hgi].
Qed.

Lemma GatherParentInformation_closed fuel :
  ∀ parent_gate P ft,
    wp any_failure (GatherParentInformation fuel parent_gate P)
       (λ P' ft', P ⊆ P' ∧ gathered ft ft' ∧
                  ∀ p, p ∈ P' → p ∉ P → children_in P' p ft') ft.
Proof.
  induction fuel as [|fuel IH]; intros pg P ft; [done|].
  cbn [GatherParentInformation].
  destruct (decide (pg ∈ P)) as [Hin|Hnotin].
  { apply wp_ret. repeat (split; [done|]). done. }
  apply wp_bind, wp_find_gate.
  destruct (indexed_gates_ ft !! pg) as [g|] eqn:Hg; [|done].
  apply wp_bind, wp_get.
  eapply wp_mono.
  { apply (wp_for_fold_prefix _ _ _ _
      (λ pre P1 ft1,
         P ∪ {[pg]} ⊆ P1 ∧ gathered ft ft1 ∧
         (∀ p, p ∈ P1 → p ∉ P ∪ {[pg]} → children_in P1 p ft1) ∧
         ∀ c, c ∈ pre → gate_index_ ft < Z.abs c → Z.abs c ∈ P1)).
    - intros pre c post P1 ft1 Hl (HP1 & Hg1 & Hin1 & Hpre).
      assert (Hc : c ∈ Gate.children g).
      { apply elem_of_ascending. rewrite Hl. apply elem_of_app. right.
        by left. }
      assert (Hg1' : ∃ g1, indexed_gates_ ft1 !! pg = Some g1 ∧
                           Gate.children g1 = Gate.children g).
      { destruct Hg1 as (_ & _ & _ & _ & _ & Hall). specialize (Hall pg).
        rewrite Hg in Hall. destruct (indexed_gates_ ft1 !! pg) as [g1|];
          [|done]. exists g1. split; [done|]. by destruct Hall as (_&_&?&_). }
      destruct Hg1' as (g1 & Hgpg1 & Hch1).
      destruct (Z.abs c >? gate_index_ ft) eqn:Hgi.
      2:{ apply wp_ret. repeat (split; [done|]). intros c' Hc' Hlt.
          apply elem_of_app in Hc' as [Hc'|Hc']; [by apply Hpre|].
          apply list_elem_of_singleton in Hc' as ->. lia. }
      apply wp_bind. eapply wp_mono.
      { apply (gathered_AddParent ft1 pg c g1); [done|by rewrite Hch1]. }
      intros [] ft2 (Hg2 & _).
      eapply wp_mono; [apply wp_conj; [apply IH|
                         apply GatherParentInformation_registers]|].
      intros P3 ft3 [(HP3 & Hg3 & Hin3) (_ & HcP3 & _)].
      assert (Hg13 : gathered ft1 ft3) by by etrans.
      split; [by etrans|]. split; [by etrans|]. split.
      + intros p Hp Hnew. destruct (decide (p ∈ P1)) as [Hp1|Hp1].
        * eapply children_in_gathered; [by apply Hin1|done|done].
        * by apply Hin3.
      + intros c' Hc' Hlt. apply elem_of_app in Hc' as [Hc'|Hc'].
        * by apply HP3, Hpre.
        * by apply list_elem_of_singleton in Hc' as ->.
    - split; [done|]. split; [done|]. split.
      + intros p Hp Hnp. done.
      + intros c Hc. by apply elem_of_nil in Hc. }
  intros P' ft' (HP' & Hg' & Hin' & Hall).
  split; [etrans; [|exact HP']; apply union_subseteq_l|].
  split; [done|]. intros p Hp HpP.
  destruct (decide (p = pg)) as [->|Hne].
  2:{ apply Hin'; [done|]. rewrite elem_of_union, elem_of_singleton. tauto. }
  pose proof Hg' as (_ & Hgi & _ & _ & _ & Hgates). specialize (Hgates pg).
  rewrite Hg in Hgates. intros g' c Hgpg' Hc Hlt. rewrite Hgpg' in Hgates.
  destruct Hgates as (_ & _ & Hch & _). rewrite Hch in Hc. rewrite Hgi in Hlt.
  apply Hall; [by apply elem_of_ascending|done].
Qed.

Lemma set_type_same g : Gate.set_type (Gate.type g) g = g.
Proof. by destruct g. Qed.

Lemma NormalizeGates_retypes ft :
  (∀ k g, indexed_gates_ ft !! k = Some g →
          Gate.type g ≠ kXorGate ∧ Gate.type g ≠ kAtleastGate) →
  wp any_failure (for_each (gate_keys (indexed_gates_ ft)) NormalizeGate)
    (λ _, all_positive ft (gate_keys (indexed_gates_ ft))) ft.
Proof.
  intros Htypes.
  apply (wp_for_each_prefix _ _ _ (all_positive ft)).
  2:{ repeat (split; [done|]). intros i.
      by destruct (indexed_gates_ ft !! i). }
  intros pre k post cur Hl (Ht & Hgi' & Hn & Hs & Hm & Hgates).
  assert (Hfresh : k ∉ pre).
  { pose proof (NoDup_fst_map_to_list (indexed_gates_ ft)) as Hnd.
    fold (gate_keys (indexed_gates_ ft)) in Hnd.
    rewrite Hl in Hnd. apply NoDup_app in Hnd as (_ & Hdisj & _).
    intros Hk. apply (Hdisj k Hk). by left. }
  assert (Hmem : ∀ i, i ≠ k →
            bool_decide (i ∈ pre ++ [k]) = bool_decide (i ∈ pre)).
  { intros c Hne. apply bool_decide_ext.
    rewrite elem_of_app, list_elem_of_singleton. tauto. }
  assert (Hk : bool_decide (k ∈ pre ++ [k]) = true).
  { apply bool_decide_eq_true_2, elem_of_app. right. by left. }
  unfold NormalizeGate. apply wp_bind, wp_find_gate. rewrite Hgates.
  destruct (indexed_gates_ ft !! k) as [g|] eqn:Hg; [|done]. simpl.
  rewrite (bool_decide_eq_false_2 (k ∈ pre)) by done.
  assert (Hset : ∀ t, positive_type (Gate.type g) = t →
    wp any_failure (on_gate k (Gate.set_type t))
       (λ _, all_positive ft (pre ++ [k])) cur).
  { intros t Ht'. apply wp_on_gate. rewrite Hgates, Hg. simpl.
    rewrite (bool_decide_eq_false_2 (k ∈ pre)) by done.
    unfold all_positive. tree_simpl. repeat (split; [done|]). intros i.
    destruct (decide (k = i)) as [<-|Hne].
    - rewrite lookup_insert_eq, Hg. simpl. by rewrite Hk, Ht'.
    - rewrite lookup_insert_ne by done. rewrite Hgates.
      by rewrite Hmem. }
  assert (Hkeep : positive_type (Gate.type g) = Gate.type g →
    wp any_failure (ret tt) (λ _, all_positive ft (pre ++ [k])) cur).
  { intros Ht'. apply wp_ret. repeat (split; [done|]). intros i.
    rewrite Hgates. destruct (decide (k = i)) as [<-|Hne].
    - rewrite Hg. simpl. rewrite Hk, Ht', set_type_same.
      by rewrite (bool_decide_eq_false_2 (k ∈ pre)).
    - by rewrite Hmem. }
  destruct (Htypes k g Hg) as [Hxor Hatleast].
  destruct (Gate.type g) eqn:Hty; try done;
    try (by apply Hset); by apply Hkeep.
Qed.

Lemma connective_positive t k vs :
  connective (positive_type t) k vs
  = xorb (negative_type t) <$> connective t k vs.
Proof.
  destruct t; simpl; try done.
  - by destruct vs as [|? [|? ?]].
  - by destruct (forallb id vs).
  - by destruct (existsb id vs).
  - by destruct vs as [|? [|? ?]].
Qed.

Lemma normalized_value ft ft' ρ (P : gset Z) (K : list Z) :
  basic_connectives ft →
  gate_index_ ft' = gate_index_ ft →
  (∀ i g, indexed_gates_ ft !! i = Some g →
     indexed_gates_ ft' !! i
     = Some (Gate.set_type (positive_type (Gate.type g))
               (notified_children ft K i g))) →
  (∀ k, is_Some (indexed_gates_ ft !! k) → k ∈ K) →
  negative_gate ft (top_event_index_ ft) = false →
  (∀ p, p ∈ P → registered p ft ∧ children_in P p ft) →
  ∀ m i v, i ∈ P → eval_gate m ft ρ i = Some v →
    eval_gate m ft' ρ i = Some (xorb (negative_gate ft i) v).
Proof.
  intros (Hgi0 & _ & Hbasic) Hgi Hgates HK Htop HP.
  assert (Hkeys : ∀ k g, indexed_gates_ ft !! k = Some g →
            k = top_event_index_ ft ∨ gate_index_ ft < k).
  { intros k gk Hk. by destruct (Hbasic k gk Hk). }
  induction m as [|m IH]; intros i v Hi; [done|].
  rewrite !eval_gate_S. unfold negative_gate.
  destruct (indexed_gates_ ft !! i) as [g|] eqn:Hg; [|done].
  rewrite (Hgates i g Hg). simpl.
  destruct (Hbasic i g Hg) as (_ & -> & _ & _ & Hpos).
  destruct (mapM (eval_literal m ft ρ) _) as [vs|] eqn:Hvs; [|done].
  simpl. intros Hv.
  destruct (HP i Hi) as [(g1 & Hg1 & Hreg) Hclosed].
  rewrite Hg in Hg1. injection Hg1 as <-.
  set (φ := λ c, if notifies ft K i c then - c else c).
  destruct (mapped_children_values (eval_literal m ft ρ)
              (eval_literal m ft' ρ) φ (Gate.children g) vs)
    as (vs' & Hvs' & Hperm); [| |done|].
  - (* no two children get the same reference *)
    intros x y Hx Hy. unfold φ.
    destruct (notifies ft K i x) eqn:Hnx, (notifies ft K i y) eqn:Hny;
      try done; [lia| |].
    + apply notifies_gate in Hnx; [|done..].
      intros <-. specialize (Hpos (- x) Hy). lia.
    + apply notifies_gate in Hny; [|done..].
      intros ->. specialize (Hpos (- y) Hx). lia.
  - (* the literals keep their values *)
    intros c b Hc. unfold eval_literal, φ. rewrite Hgi.
    destruct (Z.abs c >? gate_index_ ft) eqn:Hgate.
    + assert (Hcpos : 0 < c) by (apply Hpos; [done|lia]).
      rewrite (Z.abs_eq c) by lia.
      destruct (eval_gate m ft ρ c) as [bc|] eqn:Hbc; [|done]. simpl.
      assert (Hlt : (c <? 0) = false) by lia. rewrite Hlt. intros [= <-].
      assert (HcP : c ∈ P).
      { rewrite <- (Z.abs_eq c) by lia.
        apply (Hclosed g c); [done|done|lia]. }
      specialize (IH c bc HcP Hbc).
      destruct (Hreg c Hc) as (gc & Hgc & Hpar); [lia|].
      rewrite Z.abs_eq in Hgc by lia.
      assert (Hn : notifies ft K i c = negative_gate ft c).
      { unfold notifies, negative_gate. rewrite Hgc.
        rewrite (bool_decide_eq_true_2 (c ∈ K)) by (apply HK; eauto).
        rewrite (bool_decide_eq_true_2 (i ∈ _)) by done.
        rewrite andb_true_r. simpl.
        destruct (negative_type (Gate.type gc)) eqn:Hneg;
          [rewrite andb_true_r|by rewrite andb_false_r].
        apply bool_decide_eq_true_2. intros ->.
        unfold negative_gate in Htop. rewrite Hgc in Htop. congruence. }
      rewrite Hn. destruct (negative_gate ft c) eqn:Hneg.
      * rewrite Z.abs_opp, Z.abs_eq by lia.
        assert (Hgt : (c >? gate_index_ ft) = true) by lia.
        rewrite Hgt, IH. simpl.
        assert (Hlt' : (- c <? 0) = true) by lia. rewrite Hlt'.
        by destruct bc.
      * rewrite (Z.abs_eq c) by lia.
        assert (Hgt : (c >? gate_index_ ft) = true) by lia.
        rewrite Hgt, IH. simpl. by rewrite Hlt.
    + destruct (notifies ft K i c) eqn:Hn.
      { apply notifies_gate in Hn; [lia|done..]. }
      by rewrite Hgate.
  - change (Gate.children (notified_children ft K i g))
      with (set_map φ (Gate.children g) : gset Z).
    rewrite Hvs'. simpl.
    rewrite <- (connective_perm _ _ vs vs' Hperm), connective_positive.
    by rewrite Hv.
Qed.

Lemma basic_connectives_gathered ft ft' :
  basic_connectives ft → gathered ft ft' → basic_connectives ft'.
Proof.
  intros (Hgi0 & Hsign & Hbasic) (Ht & Hgi & _ & Hs & _ & Hall).
  split; [lia|]. split; [congruence|]. intros k g' Hg'.
  specialize (Hall k). rewrite Hg' in Hall.
  destruct (indexed_gates_ ft !! k) as [g|] eqn:Hg; [|done].
  destruct Hall as (Hty & _ & Hch & Hst & _).
  destruct (Hbasic k g Hg) as (? & ? & ? & ? & ?).
  rewrite Ht, Hgi, Hty, Hch, Hst. done.
Qed.

Lemma gathered_same_function ft ft' i g :
  gathered ft ft' → indexed_gates_ ft !! i = Some g →
  ∃ g', indexed_gates_ ft' !! i = Some g' ∧ same_function g g'.
Proof.
  intros (_ & _ & _ & _ & _ & Hall) Hg. specialize (Hall i).
  rewrite Hg in Hall. destruct (indexed_gates_ ft' !! i) as [g'|]; [|done].
  exists g'. split; [done|]. by destruct Hall as (? & ? & ? & ? & _).
Qed.

Lemma normalize_all_value fuel ft ρ :
  basic_connectives ft →
  negative_gate ft (top_event_index_ ft) = false →
  wp any_failure (normalize_all fuel)
    (λ _ ft', top_event_index_ ft' = top_event_index_ ft ∧
              top_event_sign_ ft' = top_event_sign_ ft ∧
              ∀ m v, eval_gate m ft ρ (top_event_index_ ft) = Some v →
                     eval_gate m ft' ρ (top_event_index_ ft) = Some v) ft.
Proof.
  intros Hbasic Htop. unfold normalize_all.
  apply wp_bind, wp_get. apply wp_bind.
  eapply wp_mono;
    [apply wp_conj; [apply GatherParentInformation_registers|
                     apply GatherParentInformation_closed]|].
  intros P ft1 [(_ & HtopP & Hgath & Hreg) (_ & _ & Hclosed)].
  pose proof (basic_connectives_gathered _ _ Hbasic Hgath) as Hbasic1.
  pose proof Hgath as (Ht1 & Hgi1 & _ & Hs1 & _ & _).
  pose proof Hbasic1 as (Hgi0 & _ & Hgates1).
  apply wp_bind, wp_get. apply wp_bind. rewrite <- Ht1.
  eapply wp_mono.
  { apply NormalizeGates_notifies; [done|].
    intros k g Hg. by destruct (Hgates1 k g Hg). }
  intros [] ft2 (Ht2 & Hgi2 & _ & Hs2 & _ & Hall2).
  apply wp_bind, wp_get.
  eapply wp_mono.
  { apply NormalizeGates_retypes. intros k g2 Hg2. rewrite Hall2 in Hg2.
    destruct (indexed_gates_ ft1 !! k) as [g|] eqn:Hg; [|done].
    injection Hg2 as <-. by destruct (Hgates1 k g Hg) as (_ & _ & ? & ? & _). }
  intros [] ft3 (Ht3 & Hgi3 & _ & Hs3 & _ & Hall3).
  split; [congruence|]. split; [congruence|]. intros m v Hv.
  rewrite ?Ht1 in Hv |- *.
  assert (Hv1 : eval_gate m ft1 ρ (top_event_index_ ft) = Some v).
  { assert (Hsame : ∀ i g, ¬ False → indexed_gates_ ft !! i = Some g →
        ∃ g', indexed_gates_ ft1 !! i = Some g' ∧ same_function g g').
    { intros i g _. by apply gathered_same_function. }
    destruct (eval_gate_transfer (λ _, False) ft ft1 ρ Hgi1 Hsame m)
      as [Hgate _]; [tauto|].
    apply Hgate; [tauto|done]. }
  assert (Htop1 : negative_gate ft1 (top_event_index_ ft) = false).
  { unfold negative_gate in *.
    destruct (indexed_gates_ ft !! top_event_index_ ft) as [g|] eqn:Hg.
    - destruct (gathered_same_function _ _ _ _ Hgath Hg)
        as (g' & -> & Hty & _). by rewrite Hty.
    - destruct Hgath as (_ & _ & _ & _ & _ & Hall).
      specialize (Hall (top_event_index_ ft)). rewrite Hg in Hall.
      by destruct (indexed_gates_ ft1 !! top_event_index_ ft). }
  rewrite (normalized_value ft1 ft3 ρ P (gate_keys (indexed_gates_ ft1))
             Hbasic1) with (v := v); try done.
  - by rewrite Htop1.
  - congruence.
  - intros i g Hg. rewrite Hall3, Hall2, Hg. simpl.
    rewrite bool_decide_eq_true_2; [done|].
    apply elem_of_gate_keys. rewrite Hall2, Hg. by eexists.
  - intros k Hk. by apply elem_of_gate_keys.
  - by rewrite Ht1.
  - intros p Hp. split; [apply Hreg|apply Hclosed]; try done;
      apply not_elem_of_empty.
Qed.

Lemma eval_top_signed n ft ρ :
  eval_top n ft ρ
  = signed (top_event_sign_ ft) <$> eval_gate n ft ρ (top_event_index_ ft).
Proof. unfold eval_top. by destruct (eval_gate _ _ _ _). Qed.

Lemma signed_flip sign b :
  sign ≠ 0 → signed (sign * -1) (negb b) = signed sign b.
Proof.
  intros Hs. unfold signed.
  destruct (sign <? 0) eqn:H1, (sign * -1 <? 0) eqn:H2; try lia;
    by destruct b.
Qed.

Lemma signed_one sign b : signed (sign * 1) b = signed sign b.
Proof. by rewrite Z.mul_1_r. Qed.

(** The top event takes its positive kind and the sign of the top event
    takes the negation: the function of the tree stays. *)
Lemma retyped_top ft ρ g :
  basic_connectives ft →
  indexed_gates_ ft !! top_event_index_ ft = Some g →
  let ft' :=
    set_gates (<[top_event_index_ ft :=
                   Gate.set_type (positive_type (Gate.type g)) g]>
                 (indexed_gates_ ft))
      (set_sign (top_event_sign_ ft
                 * (if negative_type (Gate.type g) then -1 else 1)) ft) in
  basic_connectives ft' ∧
  negative_gate ft' (top_event_index_ ft') = false ∧
  ∀ n v, eval_top n ft ρ = Some v →
    ∃ b, eval_gate n ft' ρ (top_event_index_ ft) = Some b ∧
         signed (top_event_sign_ ft') b = v.
Proof.
  intros (Hgi0 & Hsign & Hbasic) Hg ft'.
  destruct (Hbasic _ g Hg) as (_ & Hst & Hxor & Hatleast & Hpos).
  split; [|split].
  - split; [done|]. split.
    { subst ft'. tree_simpl. destruct (negative_type _); lia. }
    intros k gk. subst ft'. tree_simpl.
    destruct (decide (top_event_index_ ft = k)) as [<-|Hne].
    + rewrite lookup_insert_eq. intros [= <-]. simpl.
      split; [by left|]. split; [done|].
      split; [by destruct (Gate.type g)|].
      split; [by destruct (Gate.type g)|done].
    + rewrite lookup_insert_ne by done. apply Hbasic.
  - subst ft'. unfold negative_gate. tree_simpl. rewrite lookup_insert_eq.
    simpl. by destruct (Gate.type g).
  - intros n v. rewrite eval_top_signed.
    destruct (eval_gate n ft ρ (top_event_index_ ft)) as [b|] eqn:Hb; [|done].
    simpl. intros [= <-].
    destruct (least_fuel _ _ _ _ _ Hb) as (m & Hle & Hm & Hnone).
    exists (xorb (negative_type (Gate.type g)) b). split.
    + apply (eval_gate_le (S m)); [done|].
      rewrite eval_gate_S in Hm |- *. rewrite Hg in Hm. simpl in Hm.
      rewrite Hst in Hm. subst ft'. tree_simpl. rewrite lookup_insert_eq.
      simpl. rewrite Hst.
      destruct (mapM (eval_literal m ft ρ) _) as [vs|] eqn:Hvs; [|done].
      simpl in Hm.
      match goal with |- context [mapM ?f _] =>
        rewrite (mapM_Some_2 f _ vs) end.
      * simpl. rewrite connective_positive, Hm. done.
      * apply mapM_Some_1 in Hvs. eapply Forall2_impl; [done|].
        intros c bc.
        apply (eval_gate_transfer (λ i, i = top_event_index_ ft) ft).
        -- done.
        -- intros i gi Hi Hgi. tree_simpl.
           rewrite lookup_insert_ne by done. exists gi. by split.
        -- by intros x ->.
    + subst ft'. tree_simpl. destruct (negative_type (Gate.type g)).
      * change (xorb true b) with (negb b). by apply signed_flip.
      * apply signed_one.
Qed.

(** The child of a NOT or NULL top event becomes the top event. *)
Lemma retargeted_top ft ft' ρ g child :
  basic_connectives ft →
  indexed_gates_ ft !! top_event_index_ ft = Some g →
  Gate.type g = kNotGate ∨ Gate.type g = kNullGate →
  ascending (Gate.children g) = [child] → 0 < child →
  gate_index_ ft < child →
  top_event_index_ ft' = child →
  gate_index_ ft' = gate_index_ ft →
  top_event_sign_ ft'
    = top_event_sign_ ft * (if decide (Gate.type g = kNotGate) then -1 else 1) →
  indexed_gates_ ft' = delete (top_event_index_ ft) (indexed_gates_ ft) →
  basic_connectives ft' ∧
  ∀ n v, eval_top n ft ρ = Some v → eval_top n ft' ρ = Some v.
Proof.
  intros (Hgi0 & Hsign & Hbasic) Hg Hty Hch Hpos Hgate Htop' Hgi' Hsign' Hgates'.
  destruct (Hbasic _ g Hg) as (_ & Hst & _).
  split.
  - split; [lia|]. split.
    { rewrite Hsign'. destruct (decide _); lia. }
    intros k gk. rewrite Hgates', Htop', Hgi'. intros Hk.
    apply lookup_delete_Some in Hk as [Hne Hk].
    destruct (Hbasic k gk Hk) as ([?|?] & ? & ? & ? & ?); [done|].
    split; [by right|done].
  - intros n v. rewrite !eval_top_signed, Htop'.
    destruct (eval_gate n ft ρ (top_event_index_ ft)) as [b|] eqn:Hb; [|done].
    simpl. intros [= <-].
    destruct (least_fuel _ _ _ _ _ Hb) as (m & Hle & Hm & Hnone).
    rewrite eval_gate_S, Hg in Hm. simpl in Hm. rewrite Hst, Hch in Hm.
    simpl in Hm. unfold eval_literal in Hm at 1.
    rewrite (Z.abs_eq child) in Hm by lia.
    assert (Hgt : (child >? gate_index_ ft) = true) by lia.
    assert (Hlt : (child <? 0) = false) by lia.
    rewrite Hgt, Hlt in Hm.
    destruct (eval_gate m ft ρ child) as [bc|] eqn:Hbc; [|done].
    simpl in Hm.
    assert (Hne : child ≠ top_event_index_ ft) by congruence.
    assert (Hbc' : eval_gate n ft' ρ child = Some bc).
    { apply (eval_gate_le m); [lia|].
      destruct (eval_gate_transfer (λ i, i = top_event_index_ ft) ft ft' ρ Hgi')
        with (n := m) as [Hgate' _].
      - intros i gi Hi Hgi. rewrite Hgates', lookup_delete_ne by done.
        exists gi. by split.
      - by intros x ->.
      - by apply Hgate'. }
    rewrite Hbc'. simpl. f_equal. rewrite Hsign'.
    destruct Hty as [Hty|Hty]; rewrite Hty in Hm |- *; simpl in Hm;
      injection Hm as <-.
    + rewrite decide_True by done.
      rewrite <- (signed_flip (top_event_sign_ ft) (negb bc)) by done.
      by rewrite negb_involutive.
    + rewrite decide_False by done. apply signed_one.
Qed.

Lemma NormalizeGates_without_top fuel ft Q :
  indexed_gates_ ft !! top_event_index_ ft = None →
  wp any_failure (NormalizeGates fuel) Q ft.
Proof.
  intros Hnone. destruct fuel as [|fuel]; [done|].
  cbn [NormalizeGates]. apply wp_bind, wp_get.
  apply wp_bind, wp_find_gate. by rewrite Hnone.
Qed.

Lemma NormalizeGates_value fuel ρ :
  ∀ ft, basic_connectives ft →
    wp any_failure (NormalizeGates fuel)
      (λ _ ft', ∀ n v, eval_top n ft ρ = Some v → eval_top n ft' ρ = Some v)
      ft.
Proof.
  induction fuel as [|fuel IH]; intros ft Hbasic; [done|].
  cbn [NormalizeGates]. apply wp_bind, wp_get. apply wp_bind, wp_find_gate.
  destruct (indexed_gates_ ft !! top_event_index_ ft) as [g|] eqn:Hg; [|done].
  pose proof (retyped_top ft ρ g Hbasic Hg) as Hretyped.
  cbv zeta in Hretyped.
  pose proof Hbasic as (Hgi0 & Hsign & Hgates).
  destruct (Hgates _ g Hg) as (_ & _ & Hxor & Hatleast & _).
  assert (Hpositive : ∀ s t,
    s = (if negative_type (Gate.type g) then -1 else 1) →
    t = positive_type (Gate.type g) →
    wp any_failure
      (do multiply_sign s then
       do on_gate (top_event_index_ ft) (Gate.set_type t) then
       normalize_all fuel)
      (λ _ ft', ∀ n v, eval_top n ft ρ = Some v → eval_top n ft' ρ = Some v)
      ft).
  { intros s t -> ->. apply wp_bind, wp_modify. apply wp_bind, wp_on_gate.
    tree_simpl. rewrite Hg.
    destruct Hretyped as (Hbasic' & Hneg' & Hval).
    eapply wp_mono; [apply (normalize_all_value fuel _ ρ Hbasic' Hneg')|].
    intros [] ft' (Ht & Hs & Hev) n v Hv.
    cbn [set_gates set_sign top_event_index_ top_event_sign_] in Ht, Hs, Hev.
    destruct (Hval n v Hv) as (b & Hb & <-).
    rewrite eval_top_signed, Ht, Hs. tree_simpl.
    by rewrite (Hev n b Hb). }
  destruct (Gate.type g) eqn:Hty; try done;
    try (by apply Hpositive).
  - (* a NOT top event *)
    apply wp_bind, wp_assert. case_bool_decide as Hsize; [|done].
    destruct (ascending (Gate.children g)) as [|child rest] eqn:Hasc; [done|].
    apply wp_bind, wp_assert. destruct (child >? 0) eqn:Hpos; [|done].
    rewrite Z.abs_eq by lia. apply wp_bind, wp_find_gate.
    destruct (indexed_gates_ ft !! child) as [gc|] eqn:Hgc; [|done].
    apply wp_bind, wp_modify. apply wp_bind, wp_modify.
    apply wp_bind, wp_modify. tree_simpl.
    assert (rest = []) as ->.
    { pose proof (length_ascending (Gate.children g)) as Hlen.
      rewrite Hasc, Hsize in Hlen. by destruct rest. }
    destruct (decide (gate_index_ ft < child)) as [Hgate|Hgate].
    2:{ apply NormalizeGates_without_top. tree_simpl.
        destruct (Hgates child gc Hgc) as ([->|?] & _); [|done].
        apply lookup_delete_eq. }
    match goal with |- wp _ _ _ ?ft' =>
      destruct (retargeted_top ft ft' ρ g child) as [Hbasic' Hval];
        try done; try lia
    end.
    { by left. }
    { tree_simpl. by rewrite Hty. }
    eapply wp_mono; [by apply IH|].
    intros [] ft' Hev n v Hv. by apply Hev, Hval.
  - (* a NULL top event *)
    apply wp_bind, wp_assert. case_bool_decide as Hsize; [|done].
    destruct (ascending (Gate.children g)) as [|child rest] eqn:Hasc; [done|].
    apply wp_bind, wp_assert. destruct (child >? 0) eqn:Hpos; [|done].
    rewrite Z.abs_eq by lia. apply wp_bind, wp_find_gate.
    destruct (indexed_gates_ ft !! child) as [gc|] eqn:Hgc; [|done].
    apply wp_bind, wp_modify. apply wp_bind, wp_modify.
    apply wp_bind, wp_modify. tree_simpl.
    assert (rest = []) as ->.
    { pose proof (length_ascending (Gate.children g)) as Hlen.
      rewrite Hasc, Hsize in Hlen. by destruct rest. }
    destruct (decide (gate_index_ ft < child)) as [Hgate|Hgate].
    2:{ apply NormalizeGates_without_top. tree_simpl.
        destruct (Hgates child gc Hgc) as ([->|?] & _); [|done].
        apply lookup_delete_eq. }
    match goal with |- wp _ _ _ ?ft' =>
      destruct (retargeted_top ft ft' ρ g child) as [Hbasic' Hval];
        try done; try lia
    end.
    { by right. }
    { tree_simpl. by rewrite Hty. }
    eapply wp_mono; [by apply IH|].
    intros [] ft' Hev n v Hv. by apply Hev, Hval.
Qed.

(** X9.  NormalizeGates keeps the function of the tree.  On a graph of
    AND, OR, NAND, NOR, NOT and NULL gates in their normal state, whose
    references to gates are positive and whose gates other than the top
    event have indices above [gate_index_], with a top-event sign other
    than 0: whenever NormalizeGates returns, the top event, taken with its
    sign, has under every assignment of the basic events the value that it
    had before. *)
Theorem NormalizeGates_keeps_function (fuel : nat)
    (ft ft' : IndexedFaultTree) (ρ : Z → bool) (n : nat) (v : bool) :
  basic_connectives ft →
  NormalizeGates fuel ft = Done tt ft' →
  eval_top n ft ρ = Some v →
  eval_top n ft' ρ = Some v.
Proof.
  intros Hbasic Hrun.
  apply (wp_done _ _ _ _ _ _ (NormalizeGates_value fuel ρ ft Hbasic) Hrun).
Qed.

Lemma NormalizeGates_keeps_function_witness :
  eval_top 5 (state_after (NormalizeGates 5) negative_gates) (λ _, true)
  = Some true.
Proof.
  apply (NormalizeGates_keeps_function 5 negative_gates _ (λ _, true) 5 true).
  - split; [simpl; lia|]. split; [simpl; lia|]. intros k g Hk.
    unfold negative_gates, input_tree in Hk. simpl in Hk.
    repeat (apply lookup_insert_Some in Hk as [[<- <-]|[? Hk]]);
      [| | |by rewrite lookup_empty in Hk];
      (split; [simpl; lia|]); (split; [done|]); (split; [done|]);
      (split; [done|]); intros c Hc _; simpl in Hc;
      repeat (apply elem_of_union in Hc as [Hc|Hc]);
      try (apply elem_of_singleton in Hc as ->; lia);
      by apply not_elem_of_empty in Hc.
  - vm_compute. reflexivity.
  - vm_compute. reflexivity.
Defined.

(** ** The function of a graph under constant propagation *)

Lemma eval_gate_value n ft ρ i :
  eval_gate (S n) ft ρ i
  = g ← indexed_gates_ ft !! i; gate_value (eval_literal n ft ρ) g.
Proof. done. Qed.

Lemma sound_value ft0 ρ ft :
  sound ft0 ρ ft →
  ∀ m i v, eval_gate m ft0 ρ i = Some v → eval_gate m ft ρ i = Some v.
Proof.
  intros (_ & Hgi & _ & Hgates). induction m as [|m IH]; intros i v; [done|].
  intros Hv. pose proof Hv as Hv0. rewrite eval_gate_value in Hv0 |- *.
  destruct (indexed_gates_ ft0 !! i) as [g0|] eqn:Hg0; [|done].
  destruct (Hgates i g0 Hg0) as (g' & -> & Hsound). simpl.
  specialize (Hsound m v Hv). unfold gate_value in *.
  destruct (Gate.state g'); [|done..].
  destruct (mapM (eval_literal m ft0 ρ) _) as [vs|] eqn:Hvs; [|done].
  rewrite (mapM_Some_2 (eval_literal m ft ρ) _ vs); [done|].
  apply mapM_Some_1 in Hvs. eapply Forall2_impl; [done|].
  intros c b. by apply eval_literal_impl.
Qed.

Lemma sound_start ft0 ρ : sound ft0 ρ ft0.
Proof.
  repeat (split; [done|]). intros i g0 Hg0. exists g0. split; [done|].
  intros m v. by rewrite eval_gate_value, Hg0.
Qed.

Lemma values_defined (w : Z → option bool) (cs : gset Z) vs :
  mapM w (ascending cs) = Some vs → ∀ c, c ∈ cs → is_Some (w c).
Proof.
  intros Hvs c Hc. apply mapM_Some_1 in Hvs. apply elem_of_ascending in Hc.
  destruct (proj1 (list_elem_of_lookup _ _) Hc) as [k Hk].
  destruct (Forall2_lookup_l _ _ _ _ _ Hvs Hk) as (b & _ & Hb). eauto.
Qed.

(** Dropping neutral children does not change the value of a gate. *)
Lemma gate_value_erase w g (E : gset Z) v :
  Gate.state g = kNormalState →
  gate_value w g = Some v →
  (∀ c, c ∈ E → c ∈ Gate.children g → neutral w (Gate.type g) c) →
  E = ∅ ∨ Gate.type g = kOrGate ∨ Gate.type g = kAndGate →
  gate_value w (Gate.set_children (Gate.children g ∖ E) g) = Some v.
Proof.
  intros Hst Hv Hneutral Hkind. unfold gate_value in *. simpl.
  rewrite Hst in *.
  destruct (mapM w (ascending (Gate.children g))) as [vs|] eqn:Hvs; [|done].
  simpl in Hv.
  destruct Hkind as [-> | Hkind].
  { by rewrite difference_empty_L, Hvs. }
  pose proof (values_defined _ _ _ Hvs) as Hdef.
  destruct (defined_values w (ascending (Gate.children g ∖ E))) as [vs' Hvs'].
  { intros c Hc. apply elem_of_ascending, elem_of_difference in Hc as [Hc _].
    by apply Hdef. }
  rewrite (mapM_Some_2 _ _ _ Hvs'). simpl. apply mapM_Some_1 in Hvs.
  destruct Hkind as [Hty|Hty]; rewrite Hty in Hv |- *; simpl in *;
    injection Hv as <-; f_equal; apply Bool.eq_true_iff_eq.
  - rewrite (or_value _ _ _ Hvs), (or_value _ _ _ Hvs').
    setoid_rewrite elem_of_ascending. setoid_rewrite elem_of_difference.
    split; [intros (c & [Hc _] & Ht); by exists c|].
    intros (c & Hc & Ht). exists c.
    split; [|done]. split; [done|]. intros HcE.
    destruct (Hneutral c HcE Hc) as [[_ Hf]|[[?|?] _]]; [|congruence..].
    by specialize (Hf true Ht).
  - rewrite (and_value _ _ _ Hvs), (and_value _ _ _ Hvs').
    setoid_rewrite elem_of_ascending. setoid_rewrite elem_of_difference.
    split; [|intros Hall c [Hc _]; by apply Hall]. intros Hall c Hc.
    destruct (decide (c ∈ E)) as [HcE|HcE]; [|by apply Hall].
    destruct (Hneutral c HcE Hc) as [[? _]|[_ Ht]]; [congruence|].
    destruct (Hdef c Hc) as [b Hb]. by rewrite Hb, (Ht b Hb).
Qed.

(** A child with the absorbing value decides the gate. *)
Lemma gate_value_absorbed w g c b v :
  Gate.state g = kNormalState →
  gate_value w g = Some v →
  c ∈ Gate.children g → (∀ v', w c = Some v' → v' = b) →
  match Gate.type g with
  | kOrGate => b = true → v = true
  | kAndGate => b = false → v = false
  | kNullGate => v = b
  | kNotGate => v = negb b
  | _ => True
  end.
Proof.
  intros Hst Hv Hc Hb. unfold gate_value in Hv. rewrite Hst in Hv.
  destruct (mapM w (ascending (Gate.children g))) as [vs|] eqn:Hvs; [|done].
  simpl in Hv. pose proof (values_defined _ _ _ Hvs c Hc) as [b' Hb'].
  pose proof (Hb b' Hb') as ->. apply mapM_Some_1 in Hvs.
  assert (Hsingle : ∀ v0, vs = [v0] → v0 = b).
  { intros v0 ->. apply Forall2_length in Hvs as Hlen.
    destruct (ascending (Gate.children g)) as [|c0 [|? ?]] eqn:Hasc;
      try done.
    assert (c ∈ [c0]) as Hin by (rewrite <- Hasc; by apply elem_of_ascending).
    apply list_elem_of_singleton in Hin as ->.
    inversion Hvs as [|? ? ? ? Hc0 _]; subst. congruence. }
  destruct (Gate.type g); simpl in Hv; try done.
  - intros ->. injection Hv as <-. apply not_true_is_false.
    rewrite (and_value _ _ _ Hvs). intros Hall.
    specialize (Hall c ltac:(by apply elem_of_ascending)). congruence.
  - intros ->. injection Hv as <-. rewrite (or_value _ _ _ Hvs).
    exists c. split; [by apply elem_of_ascending|done].
  - destruct vs as [|v0 [|? ?]]; try done. injection Hv as <-.
    by rewrite (Hsingle v0).
  - destruct vs as [|v0 [|? ?]]; try done. injection Hv as <-.
    by rewrite (Hsingle v0).
Qed.

Lemma sound_update ft0 ρ ft gate g0 g' :
  sound ft0 ρ ft → indexed_gates_ ft0 !! gate = Some g0 →
  sound_gate ft0 ρ gate g' →
  sound ft0 ρ (set_gates (<[gate := g']> (indexed_gates_ ft)) ft).
Proof.
  intros (Ht & Hgi & Hs & Hgates) Hg0 Hsound. repeat (split; [done|]).
  intros i gi Hi. tree_simpl. destruct (decide (gate = i)) as [<-|Hne].
  - rewrite lookup_insert_eq. eauto.
  - rewrite lookup_insert_ne by done. by apply (Hgates i gi).
Qed.

Lemma sound_original ft0 ρ i g m v :
  indexed_gates_ ft0 !! i = Some g →
  eval_gate (S m) ft0 ρ i = Some v →
  gate_value (eval_literal m ft0 ρ) g = Some v.
Proof. intros Hg. by rewrite eval_gate_value, Hg. Qed.

Lemma ProcessConstantChild_sound ft0 ρ ft gate g c b te :
  sound ft0 ρ ft →
  indexed_gates_ ft0 !! gate = Some g → indexed_gates_ ft !! gate = Some g →
  Gate.state g = kNormalState → c ∈ Gate.children g →
  (∀ m v, eval_literal m ft0 ρ c = Some v → v = b) →
  wp any_failure (ProcessConstantChild gate c b te)
    (λ r ft', sound ft0 ρ ft' ∧
       (∀ i, i ≠ gate → indexed_gates_ ft' !! i = indexed_gates_ ft !! i) ∧
       (r.1 = false →
          ft' = ft ∧ r.2 = te ++ [c] ∧
          ∀ m, neutral (eval_literal m ft0 ρ) (Gate.type g) c)) ft.
Proof.
  intros Hsound Hg0 Hg Hst Hc Hb. unfold ProcessConstantChild.
  apply wp_bind, wp_find_gate. rewrite Hg.
  apply wp_bind, wp_assert. case_bool_decide as Hty; [|done].
  assert (Hconst : ∀ (k : IndexedGate → IndexedGate) (vk : bool),
    (∀ w, gate_value w (k g) = Some vk) →
    (∀ m v, gate_value (eval_literal m ft0 ρ) g = Some v → v = vk) →
    wp any_failure (do on_gate gate k then ret (true, te))
      (λ r ft', sound ft0 ρ ft' ∧
         (∀ i, i ≠ gate → indexed_gates_ ft' !! i = indexed_gates_ ft !! i) ∧
         (r.1 = false →
            ft' = ft ∧ r.2 = te ++ [c] ∧
            ∀ m, neutral (eval_literal m ft0 ρ) (Gate.type g) c)) ft).
  { intros k vk Hk Hvk. apply wp_bind, wp_on_gate. rewrite Hg. apply wp_ret.
    split; [|split; [|done]].
    - apply (sound_update _ _ _ _ g); [done..|]. intros m v Hv.
      rewrite Hk. f_equal. symmetry. apply (Hvk m).
      by apply (sound_original _ _ gate).
    - intros i Hne. tree_simpl. by rewrite lookup_insert_ne. }
  assert (Herase : neutral_kind (Gate.type g) b →
    wp any_failure (ret (false, te ++ [c]))
      (λ r ft', sound ft0 ρ ft' ∧
         (∀ i, i ≠ gate → indexed_gates_ ft' !! i = indexed_gates_ ft !! i) ∧
         (r.1 = false →
            ft' = ft ∧ r.2 = te ++ [c] ∧
            ∀ m, neutral (eval_literal m ft0 ρ) (Gate.type g) c)) ft).
  { intros Hkind. apply wp_ret. split; [done|]. split; [done|]. intros _.
    split; [done|]. split; [done|]. intros m.
    destruct Hkind as [[? ->]|[? ->]]; [left|right]; split; try done;
      intros v; apply Hb. }
  pose proof (λ m v Hv, gate_value_absorbed (eval_literal m ft0 ρ) g c b v
                          Hst Hv Hc (Hb m)) as Habs.
  destruct b; simpl; destruct (Gate.type g) eqn:Hkind; try done.
  - apply Herase. right. split; [by left|done].
  - apply (Hconst _ true); [done|]. intros m v Hv. by apply (Habs m).
  - apply (Hconst _ false); [done|]. intros m v Hv. by apply (Habs m).
  - apply Herase. right. split; [by right|done].
  - apply (Hconst _ false); [done|]. intros m v Hv. by apply (Habs m).
  - apply Herase. left. done.
  - apply (Hconst _ true); [done|]. intros m v Hv. by apply (Habs m).
  - apply (Hconst _ false); [done|]. intros m v Hv. by apply (Habs m).
Qed.

Lemma null_single w g v c :
  Gate.state g = kNormalState → Gate.type g = kNullGate →
  gate_value w g = Some v → c ∈ Gate.children g →
  Gate.children g = {[c]}.
Proof.
  intros Hst Hty Hv Hc. unfold gate_value in Hv. rewrite Hst, Hty in Hv.
  destruct (mapM w (ascending (Gate.children g))) as [vs|] eqn:Hvs; [|done].
  simpl in Hv. apply mapM_Some_1, Forall2_length in Hvs.
  destruct vs as [|v0 [|? ?]]; try done.
  destruct (ascending (Gate.children g)) as [|c0 [|? ?]] eqn:Hasc; try done.
  apply set_eq. intros x. rewrite elem_of_singleton.
  rewrite <- !elem_of_ascending, Hasc in *.
  apply list_elem_of_singleton in Hc as ->. apply list_elem_of_singleton.
Qed.

Lemma RemoveChildren_sound ft0 ρ ft gate g te :
  sound ft0 ρ ft →
  indexed_gates_ ft0 !! gate = Some g → indexed_gates_ ft !! gate = Some g →
  Gate.state g = kNormalState →
  (∀ c, c ∈ te → c ∈ Gate.children g ∧
                 ∀ m, neutral (eval_literal m ft0 ρ) (Gate.type g) c) →
  wp any_failure (RemoveChildren gate te)
    (λ _ ft', sound ft0 ρ ft' ∧
       ∀ i, i ≠ gate → indexed_gates_ ft' !! i = indexed_gates_ ft !! i) ft.
Proof.
  intros Hsound Hg0 Hg Hst Hte. unfold RemoveChildren.
  apply wp_bind. unfold wp at 1. rewrite (erase_children _ _ g) by done.
  apply wp_bind, wp_find_gate. tree_simpl. rewrite lookup_insert_eq.
  set (rest := Gate.children g ∖ list_to_set te).
  assert (Hrest : ∀ m v, gate_value (eval_literal m ft0 ρ) g = Some v →
            rest ≠ ∅ ∨ Gate.type g = kOrGate ∨ Gate.type g = kAndGate →
            gate_value (eval_literal m ft0 ρ) (Gate.set_children rest g)
            = Some v).
  { intros m v Hv Hkind. apply gate_value_erase; [done|done| |].
    - intros c Hc _. apply elem_of_list_to_set in Hc.
      by destruct (Hte c Hc) as [_ Hn].
    - destruct te as [|c te']; [by left|]. right.
      destruct (Hte c ltac:(by left)) as [Hc Hn].
      destruct (Hn m) as [[? _]|[[?|Hnull] _]]; [by left|by right|].
      destruct Hkind as [Hne|?]; [|done]. exfalso. apply Hne. unfold rest.
      rewrite (null_single _ g v c Hst Hnull Hv Hc).
      apply set_eq. intros x.
      rewrite elem_of_difference, elem_of_singleton, elem_of_list_to_set.
      split; [|by intros ?%not_elem_of_empty]. intros [-> Hx].
      destruct Hx. by left. }
  assert (Hother : ∀ g1 g2 i, i ≠ gate →
    (<[gate := g2]> (<[gate := g1]> (indexed_gates_ ft)) : gmap Z IndexedGate)
      !! i = indexed_gates_ ft !! i).
  { intros g1 g2 i Hne. by rewrite !lookup_insert_ne. }
  assert (Hconst : ∀ (k : IndexedGate → IndexedGate) (vk : bool) g1,
    (∀ w, gate_value w (k g1) = Some vk) →
    (∀ m v, gate_value (eval_literal m ft0 ρ) g = Some v → v = vk) →
    wp any_failure (on_gate gate k)
      (λ _ ft', sound ft0 ρ ft' ∧
         ∀ i, i ≠ gate → indexed_gates_ ft' !! i = indexed_gates_ ft !! i)
      (set_gates (<[gate := g1]> (indexed_gates_ ft)) ft)).
  { intros k vk g1 Hk Hvk. apply wp_on_gate. tree_simpl.
    rewrite lookup_insert_eq. tree_simpl.
    rewrite insert_insert_eq, set_gates_twice. split.
    - apply (sound_update _ _ _ _ g); [done..|]. intros m v Hv.
      rewrite Hk. f_equal. symmetry. apply (Hvk m).
      by apply (sound_original _ _ gate).
    - intros i Hne. tree_simpl. by rewrite lookup_insert_ne. }
  simpl. fold rest. destruct (decide (rest = ∅)) as [Hempty|Hne].
  - apply wp_bind, wp_assert. case_bool_decide as Hty; [|done].
    simpl in Hty.
    assert (Hvalue : ∀ m v, gate_value (eval_literal m ft0 ρ) g = Some v →
              connective (Gate.type g) (Gate.vote_number g) [] = Some v).
    { intros m v Hv. specialize (Hrest m v Hv ltac:(tauto)).
      unfold gate_value in Hrest. simpl in Hrest.
      by rewrite Hst, Hempty, ascending_empty in Hrest. }
    simpl. destruct (decide (Gate.type g = kOrGate)) as [Hor|Hnor].
    + apply (Hconst _ false); [done|]. intros m v Hv.
      specialize (Hvalue m v Hv). rewrite Hor in Hvalue. simpl in Hvalue.
      congruence.
    + destruct Hty as [?|Hand]; [done|].
      apply (Hconst _ true); [done|]. intros m v Hv.
      specialize (Hvalue m v Hv). rewrite Hand in Hvalue. simpl in Hvalue.
      congruence.
  - apply wp_ret. split.
    + apply (sound_update _ _ _ _ g); [done..|]. intros m v Hv.
      apply Hrest; [|by left]. by apply (sound_original _ _ gate).
    + intros i Hne'. tree_simpl. by rewrite lookup_insert_ne.
Qed.

Lemma literal_of_constant ft0 ρ ft c g' (b : bool) :
  sound ft0 ρ ft →
  (Z.abs c >? gate_index_ ft) = true →
  indexed_gates_ ft !! Z.abs c = Some g' →
  (∀ w, gate_value w g' = Some b) →
  ∀ m v, eval_literal m ft0 ρ c = Some v →
         v = if c <? 0 then negb b else b.
Proof.
  intros (_ & Hgi & _ & Hgates) Hgate Hg' Hconst m v.
  unfold eval_literal. rewrite <- Hgi, Hgate.
  destruct (eval_gate m ft0 ρ (Z.abs c)) as [v0|] eqn:Hv0; [|done].
  simpl. intros [= <-]. destruct m as [|m]; [done|].
  pose proof Hv0 as Hv0'. rewrite eval_gate_value in Hv0'.
  destruct (indexed_gates_ ft0 !! Z.abs c) as [g0|] eqn:Hg0; [|done].
  destruct (Hgates _ g0 Hg0) as (g1 & Hg1 & Hsound).
  rewrite Hg' in Hg1. injection Hg1 as <-.
  specialize (Hsound m v0 Hv0). rewrite Hconst in Hsound.
  by injection Hsound as <-.
Qed.

Lemma literal_of_house ft0 ρ c (b : bool) :
  (Z.abs c >? gate_index_ ft0) = false →
  ρ (Z.abs c) = b →
  ∀ m v, eval_literal m ft0 ρ c = Some v →
         v = if c <? 0 then negb b else b.
Proof.
  intros Hgate Hb m v. unfold eval_literal. rewrite Hgate. simpl.
  intros [= <-]. by rewrite Hb.
Qed.

Lemma PropagateConstants_gate_sound ft0 ρ T F fuel :
  agrees T F ρ →
  (∀ i g, indexed_gates_ ft0 !! i = Some g → Gate.state g = kNormalState) →
  ∀ gate P ft,
    sound ft0 ρ ft →
    (∀ i, i ∉ P → indexed_gates_ ft !! i = indexed_gates_ ft0 !! i) →
    wp any_failure (PropagateConstants_gate fuel T F gate P)
      (λ P' ft',
         P ⊆ P' ∧ gate ∈ P' ∧ sound ft0 ρ ft' ∧
         (∀ i, i ∉ P' → indexed_gates_ ft' !! i = indexed_gates_ ft0 !! i) ∧
         (∀ i, i ∈ P → indexed_gates_ ft' !! i = indexed_gates_ ft !! i)) ft.
Proof.
  intros [HF HT] Hnormal.
  induction fuel as [|fuel IH]; intros gate P ft Hsound Hfresh; [done|].
  cbn [PropagateConstants_gate]. cbv zeta.
  destruct (decide (gate ∈ P)) as [Hin|Hnotin].
  { by apply wp_ret. }
  apply wp_bind, wp_find_gate.
  destruct (indexed_gates_ ft !! gate) as [g|] eqn:Hg; [|done].
  assert (Hg0 : indexed_gates_ ft0 !! gate = Some g)
    by (by rewrite <- Hfresh).
  pose proof (Hnormal gate g Hg0) as Hst.
  apply wp_bind, wp_get. apply wp_bind.
  set (J := λ (s : list Z * gset Z) (ft1 : IndexedFaultTree),
         P ∪ {[gate]} ⊆ s.2 ∧ sound ft0 ρ ft1 ∧
         (∀ i, i ∉ s.2 → indexed_gates_ ft1 !! i = indexed_gates_ ft0 !! i) ∧
         (∀ i, i ∈ P ∪ {[gate]} →
               indexed_gates_ ft1 !! i = indexed_gates_ ft !! i) ∧
         ∀ c, c ∈ s.1 → c ∈ Gate.children g ∧
               ∀ m, neutral (eval_literal m ft0 ρ) (Gate.type g) c).
  set (Q := λ (s : list Z * gset Z) (ft1 : IndexedFaultTree),
         P ∪ {[gate]} ⊆ s.2 ∧ sound ft0 ρ ft1 ∧
         (∀ i, i ∉ s.2 → indexed_gates_ ft1 !! i = indexed_gates_ ft0 !! i) ∧
         (∀ i, i ∈ P → indexed_gates_ ft1 !! i = indexed_gates_ ft !! i)).
  assert (HgateP : gate ∈ P ∪ {[gate]}).
  { apply elem_of_union_r. by apply elem_of_singleton. }
  eapply wp_mono.
  { apply (wp_scan_leave _ _ _ _ J Q).
    2:{ split; [done|]. split; [done|]. split.
        - intros i Hi. apply Hfresh. intros HiP. apply Hi.
          by apply elem_of_union_l.
        - split; [done|]. intros c Hc. by apply elem_of_nil in Hc. }
    intros c [te P1] ft1 Hc (HP1 & Hsound1 & Hfresh1 & Hsame1 & Hte).
    simpl in HP1, Hfresh1, Hte. apply elem_of_ascending in Hc.
    assert (Hconstant : ∀ (b : bool) P2 ft2,
      P1 ⊆ P2 → sound ft0 ρ ft2 →
      (∀ i, i ∉ P2 → indexed_gates_ ft2 !! i = indexed_gates_ ft0 !! i) →
      (∀ i, i ∈ P1 → indexed_gates_ ft2 !! i = indexed_gates_ ft1 !! i) →
      (∀ m v, eval_literal m ft0 ρ c = Some v →
              v = if c <? 0 then negb b else b) →
      wp any_failure
        (let* '(r, to_erase') :=
           ProcessConstantChild gate c (if c <? 0 then negb b else b) te in
         ret (r, (to_erase', P2)))
        (λ r ft', if r.1 then Q r.2 ft' else J r.2 ft') ft2).
    { intros b P2 ft2 HP2 Hsound2 Hfresh2 Hsame2 Hb.
      assert (Hg2 : indexed_gates_ ft2 !! gate = Some g).
      { rewrite Hsame2 by by apply HP1. rewrite Hsame1 by done. done. }
      apply wp_bind. eapply wp_mono.
      { by apply (ProcessConstantChild_sound ft0 ρ ft2 gate g c _ te). }
      intros [r te'] ft3 (Hsound3 & Hother3 & Hfalse). apply wp_ret.
      simpl in *. destruct r.
      - split; [by etrans|]. split; [done|]. split.
        + intros i Hi. rewrite Hother3; [by apply Hfresh2|].
          intros ->. apply Hi, HP2. by apply HP1.
        + intros i Hi. rewrite Hother3 by (by intros ->).
          rewrite Hsame2 by (by apply HP1, elem_of_union_l).
          apply Hsame1. by apply elem_of_union_l.
      - destruct (Hfalse eq_refl) as (-> & -> & Hneutral).
        split; [by etrans|]. split; [done|]. split; [done|]. split.
        + intros i Hi. rewrite Hsame2 by by apply HP1. by apply Hsame1.
        + intros c' Hc'. apply elem_of_app in Hc' as [Hc'|Hc'];
            [by apply Hte|].
          by apply list_elem_of_singleton in Hc' as ->. }
    assert (Hskip : ∀ P2 ft2,
      P1 ⊆ P2 → sound ft0 ρ ft2 →
      (∀ i, i ∉ P2 → indexed_gates_ ft2 !! i = indexed_gates_ ft0 !! i) →
      (∀ i, i ∈ P1 → indexed_gates_ ft2 !! i = indexed_gates_ ft1 !! i) →
      wp any_failure (ret (false, (te, P2)))
        (λ r ft', if r.1 then Q r.2 ft' else J r.2 ft') ft2).
    { intros P2 ft2 HP2 Hsound2 Hfresh2 Hsame2. apply wp_ret. simpl.
      split; [by etrans|]. split; [done|]. split; [done|]. split; [|done].
      intros i Hi. rewrite Hsame2 by by apply HP1. by apply Hsame1. }
    pose proof Hsound1 as (_ & Hgi1 & _ & _).
    pose proof Hsound as (_ & Hgi & _ & _).
    destruct (Z.abs c >? gate_index_ ft) eqn:Hgate.
    - apply wp_bind, wp_find_gate.
      destruct (indexed_gates_ ft1 !! Z.abs c) as [gc1|]; [|done].
      apply wp_bind. eapply wp_mono; [by apply IH|].
      intros P2 ft2 (HP2 & _ & Hsound2 & Hfresh2 & Hsame2).
      pose proof Hsound2 as (_ & Hgi2 & _ & _).
      apply wp_bind, wp_find_gate.
      destruct (indexed_gates_ ft2 !! Z.abs c) as [gc2|] eqn:Hgc2; [|done].
      destruct (Gate.state gc2) eqn:Hstate.
      + by apply Hskip.
      + apply (Hconstant false); try done.
        apply (literal_of_constant ft0 ρ ft2 c gc2); try done.
        * congruence.
        * intros w. unfold gate_value. by rewrite Hstate.
      + apply (Hconstant true); try done.
        apply (literal_of_constant ft0 ρ ft2 c gc2); try done.
        * congruence.
        * intros w. unfold gate_value. by rewrite Hstate.
    - destruct (decide (Z.abs c ∈ F)) as [HcF|HcF].
      { apply (Hconstant false); try done.
        apply literal_of_house; [congruence|by apply HF]. }
      destruct (decide (Z.abs c ∈ T)) as [HcT|HcT].
      { apply (Hconstant true); try done.
        apply literal_of_house; [congruence|by apply HT]. }
      by apply Hskip. }
  intros [returned [te P1]] ft1 Hpost. simpl in Hpost.
  destruct returned.
  - destruct Hpost as (HP1 & Hsound1 & Hfresh1 & Hsame1). apply wp_ret.
    split; [etrans; [|exact HP1]; apply union_subseteq_l|].
    split; [by apply HP1|done].
  - destruct Hpost as (HP1 & Hsound1 & Hfresh1 & Hsame1 & Hte).
    simpl in *. apply wp_bind. eapply wp_mono.
    { apply (RemoveChildren_sound ft0 ρ ft1 gate g te); try done.
      rewrite Hsame1 by done. done. }
    intros [] ft2 [Hsound2 Hother2]. apply wp_ret.
    split; [etrans; [|exact HP1]; apply union_subseteq_l|].
    split; [by apply HP1|]. split; [done|]. split.
    + intros i Hi. rewrite Hother2; [by apply Hfresh1|].
      intros ->. by apply Hi, HP1.
    + intros i Hi. rewrite Hother2 by (by intros ->).
      apply Hsame1. by apply elem_of_union_l.
Qed.

(** X10.  Constant propagation keeps the function of the graph under the
    assignments it is made for.  On a graph whose gates are all in their
    normal state, and for an assignment that gives the house events of the
    two sets their asserted values: whenever PropagateConstants returns,
    every gate that had a value has the same value afterwards, and so has
    the top event under its sign. *)
Theorem PropagateConstants_keeps_function (fuel : nat)
    (true_house_events false_house_events : gset Z)
    (ft ft' : IndexedFaultTree) (ρ : Z → bool) :
  (∀ i g, indexed_gates_ ft !! i = Some g → Gate.state g = kNormalState) →
  agrees true_house_events false_house_events ρ →
  PropagateConstants fuel true_house_events false_house_events ft
    = Done tt ft' →
  (∀ n i v, eval_gate n ft ρ i = Some v → eval_gate n ft' ρ i = Some v) ∧
  (∀ n v, eval_top n ft ρ = Some v → eval_top n ft' ρ = Some v).
Proof.
  intros Hnormal Hagrees Hrun.
  assert (Hsound : sound ft ρ ft').
  { revert Hrun. unfold PropagateConstants. case_decide as Hempty.
    { intros [= <-]. apply sound_start. }
    intros Hrun.
    cut (wp any_failure
           (let* top := get top_event_index_ in
            let* _ := find_gate top in
            let* _ := PropagateConstants_gate fuel true_house_events
                        false_house_events top ∅ in
            ret tt) (λ _, sound ft ρ) ft).
    { intros Hwp. apply (wp_done _ _ _ _ _ _ Hwp Hrun). }
    apply wp_bind, wp_get. apply wp_bind, wp_find_gate.
    destruct (indexed_gates_ ft !! top_event_index_ ft); [|done].
    apply wp_bind. eapply wp_mono.
    { apply (PropagateConstants_gate_sound ft ρ); try done.
      apply sound_start. }
    intros P ft1 (_ & _ & Hsound & _). by apply wp_ret. }
  split; [by apply sound_value|]. intros n v.
  unfold eval_top. pose proof Hsound as (Ht & _ & Hs & _).
  rewrite Ht, Hs.
  destruct (eval_gate n ft ρ (top_event_index_ ft)) as [b|] eqn:Hb; [|done].
  by rewrite (sound_value _ _ _ Hsound n _ b Hb).
Qed.

Lemma PropagateConstants_keeps_function_witness :
  let ρ := λ i, negb (i =? 2) in
  let ft' := state_after (PropagateConstants 5 {[3]} {[2]}) house_events_below in
  (∀ n i v, eval_gate n house_events_below ρ i = Some v →
            eval_gate n ft' ρ i = Some v) ∧
  (∀ n v, eval_top n house_events_below ρ = Some v →
          eval_top n ft' ρ = Some v).
Proof.
  apply (PropagateConstants_keeps_function 5 {[3]} {[2]} house_events_below).
  - intros i g Hi. unfold house_events_below, input_tree in Hi. simpl in Hi.
    repeat (apply lookup_insert_Some in Hi as [[_ Heq]|[_ Hi]];
            [by rewrite <- Heq|]).
    by rewrite lookup_empty in Hi.
  - split; intros i Hi; apply elem_of_singleton in Hi as ->; reflexivity.
  - vm_compute. reflexivity.
Defined.

(** ** The function of a graph when a gate is expanded *)

Lemma gate_value_impl (w w' : Z → option bool) g v :
  (∀ c b, w c = Some b → w' c = Some b) →
  gate_value w g = Some v → gate_value w' g = Some v.
Proof.
  intros Himpl. unfold gate_value. destruct (Gate.state g); [|done..].
  destruct (mapM w _) as [vs|] eqn:Hvs; [|done]. simpl. intros Hv.
  rewrite (mapM_Some_2 w' _ vs); [done|].
  apply mapM_Some_1 in Hvs. eapply Forall2_impl; [done|]. apply Himpl.
Qed.

(** Expanding gates into gates over new gates takes twice the depth at
    most: it is enough to look at one gate at a time. *)
Lemma eval_gate_expanded ft ft' ρ :
  gate_index_ ft' = gate_index_ ft →
  (∀ n i g v, indexed_gates_ ft !! i = Some g →
     (∀ c b, eval_literal n ft ρ c = Some b →
             eval_literal (2 * n) ft' ρ c = Some b) →
     gate_value (eval_literal n ft ρ) g = Some v →
     eval_gate (2 * S n) ft' ρ i = Some v) →
  ∀ n i v, eval_gate n ft ρ i = Some v → eval_gate (2 * n) ft' ρ i = Some v.
Proof.
  intros Hgi Hlevel. induction n as [|n IH]; intros i v; [done|].
  rewrite eval_gate_value.
  destruct (indexed_gates_ ft !! i) as [g|] eqn:Hg; [|done]. simpl.
  apply (Hlevel n i g v Hg). intros c b. by apply eval_literal_impl.
Qed.

Lemma eval_gate_kept n ft' ρ (w : Z → option bool) i g v :
  indexed_gates_ ft' !! i = Some g →
  (∀ c b, w c = Some b → eval_literal (2 * n) ft' ρ c = Some b) →
  gate_value w g = Some v →
  eval_gate (2 * S n) ft' ρ i = Some v.
Proof.
  intros Hg Himpl Hv.
  replace (2 * S n)%nat with (S (S (2 * n))) by lia.
  apply eval_gate_mono. rewrite eval_gate_value, Hg. simpl.
  by apply (gate_value_impl w).
Qed.

Lemma eval_literal_opp n ft ρ c :
  c ≠ 0 → eval_literal n ft ρ (- c) = negb <$> eval_literal n ft ρ c.
Proof.
  intros Hc. unfold eval_literal. rewrite Z.abs_opp.
  destruct (if Z.abs c >? gate_index_ ft then _ else _) as [v|]; [|done].
  simpl. f_equal.
  destruct (c <? 0) eqn:H1, (- c <? 0) eqn:H2; try lia;
    by destruct v.
Qed.

Lemma eval_literal_gate n ft ρ i :
  0 < i → gate_index_ ft < i →
  eval_literal n ft ρ i = eval_gate n ft ρ i.
Proof.
  intros Hpos Hgi. unfold eval_literal. rewrite Z.abs_eq by lia.
  assert (Hgt : (i >? gate_index_ ft) = true) by lia.
  assert (Hlt : (i <? 0) = false) by lia.
  rewrite Hgt, Hlt. by destruct (eval_gate n ft ρ i).
Qed.

Lemma xor_values (w : Z → option bool) g a b v :
  Gate.state g = kNormalState → Gate.type g = kXorGate →
  Gate.children g = {[a; b]} → a ≠ b →
  gate_value w g = Some v →
  ∃ va vb, w a = Some va ∧ w b = Some vb ∧ v = xorb va vb.
Proof.
  intros Hst Hty Hch Hab. unfold gate_value. rewrite Hst, Hty, Hch.
  destruct (ascending_pair a b Hab) as [-> | ->]; simpl;
    destruct (w a) as [va|], (w b) as [vb|]; simpl; try done;
    intros [= <-]; exists va, vb; repeat split;
    destruct va, vb; done.
Qed.

(** The value of the AND of two literals and of the OR of two gates. *)
Lemma and_of_two n ft ρ i (x y : Z) (vx vy : bool) :
  indexed_gates_ ft !! i
    = Some (Gate.set_children {[x; y]} (Gate.create kAndGate)) →
  eval_literal n ft ρ x = Some vx → eval_literal n ft ρ y = Some vy →
  eval_gate (S n) ft ρ i = Some (vx && vy).
Proof.
  intros Hi Hx Hy.
  apply (eval_and_or n ft ρ i _ (vx && vy) Hi); [done|by left|].
  simpl. split.
  - intros c Hc. apply elem_of_union in Hc as [Hc|Hc];
      apply elem_of_singleton in Hc as ->; eauto.
  - rewrite andb_true_iff. split.
    + intros [-> ->] c Hc. apply elem_of_union in Hc as [Hc|Hc];
        by apply elem_of_singleton in Hc as ->.
    + intros Hall. split.
      * specialize (Hall x ltac:(apply elem_of_union_l; by apply elem_of_singleton)).
        congruence.
      * specialize (Hall y ltac:(apply elem_of_union_r; by apply elem_of_singleton)).
        congruence.
Qed.

Lemma same_indices_on_gate ft0 i f : preserves (same_indices ft0) (on_gate i f).
Proof. intros ft H. apply wp_on_gate. by destruct (_ !! _). Qed.

Lemma same_indices_call_gate ft0 i f :
  preserves (same_indices ft0) (call_gate i f).
Proof. intros ft H. apply wp_call_gate. by destruct (_ !! _). Qed.

Lemma same_indices_insert_gate ft0 i g :
  preserves (same_indices ft0) (insert_gate i g).
Proof. intros ft H. apply wp_insert_gate. by destruct (_ !! _). Qed.

Lemma same_indices_next_index ft0 : preserves (same_indices ft0) next_index.
Proof. by intros ft H. Qed.

Lemma same_indices_add_asserted ft0 cs g :
  preserves (same_indices ft0) (add_asserted cs g).
Proof. revert g. induction cs; intros g; simpl; preserves_auto. Qed.

Lemma same_indices_NormalizeGate ft0 gate :
  preserves (same_indices ft0) (NormalizeGate gate).
Proof.
  unfold NormalizeGate, NormalizeXorGate, NormalizeAtleastGate.
  preserves_auto;
    auto using same_indices_on_gate, same_indices_call_gate,
      same_indices_insert_gate, same_indices_next_index,
      same_indices_add_asserted.
Qed.

Lemma or_of_two n ft ρ i g (x y : Z) (vx vy : bool) :
  indexed_gates_ ft !! i = Some g →
  Gate.state g = kNormalState → Gate.type g = kOrGate →
  Gate.children g = {[x; y]} →
  eval_literal n ft ρ x = Some vx → eval_literal n ft ρ y = Some vy →
  eval_gate (S n) ft ρ i = Some (vx || vy).
Proof.
  intros Hi Hst Hty Hch Hx Hy.
  apply (eval_and_or n ft ρ i _ (vx || vy) Hi); [done|by right|].
  rewrite Hch, Hty. simpl. split.
  - intros c Hc. apply elem_of_union in Hc as [Hc|Hc];
      apply elem_of_singleton in Hc as ->; eauto.
  - rewrite orb_true_iff. split.
    + intros [-> | ->]; [exists x|exists y]; split; try done.
      * apply elem_of_union_l. by apply elem_of_singleton.
      * apply elem_of_union_r. by apply elem_of_singleton.
    + intros (c & Hc & Ht). apply elem_of_union in Hc as [Hc|Hc];
        apply elem_of_singleton in Hc as ->; [left|right]; congruence.
Qed.

(** X11.  NormalizeXorGate keeps the function of the graph.  For a XOR gate
    over two events a and b, neither with the index 0, when the indices
    above the counter are free and the counter is not below the first gate
    index: the call returns, and under every assignment each gate that had
    a value has the same value afterwards. *)
Theorem NormalizeXorGate_keeps_values (gate : Z) (ft : IndexedFaultTree)
    (g : IndexedGate) (a b : Z) (ρ : Z → bool) :
  indexed_gates_ ft !! gate = Some g →
  Gate.type g = kXorGate →
  Gate.children g = {[a; b]} → a ≠ b → a ≠ 0 → b ≠ 0 →
  (∀ i, new_gate_index_ ft < i → indexed_gates_ ft !! i = None) →
  0 ≤ new_gate_index_ ft → gate_index_ ft ≤ new_gate_index_ ft →
  ∃ ft', NormalizeXorGate gate ft = Done tt ft' ∧
         ∀ i v, value ft ρ i v → value ft' ρ i v.
Proof.
  intros Hg Hty Hch Hab Ha Hb Hfresh Hnew Hgi.
  destruct (NormalizeXorGate_expands ft gate g a b Hg Hch Hab Hfresh)
    as (ft' & one & two & Hrun & Hnames & Hne & Hgate' & Hone & Htwo & Hrest).
  exists ft'. split; [done|].
  assert (Hgi' : gate_index_ ft' = gate_index_ ft).
  { assert (Hrun' : NormalizeGate gate ft = Done tt ft').
    { unfold NormalizeGate, bind, find_gate. by rewrite Hg, Hty. }
    by destruct (wp_done _ _ _ _ _ _
                   (same_indices_NormalizeGate ft gate ft ltac:(done)) Hrun')
      as (_ & ? & _). }
  assert (Hnew1 : ∀ i, i = one ∨ i = two → new_gate_index_ ft < i).
  { intros i Hi.
    assert (i ∈ ({[one; two]} : gset Z)) as Hin.
    { rewrite elem_of_union, !elem_of_singleton. done. }
    rewrite Hnames, elem_of_union, !elem_of_singleton in Hin. lia. }
  intros i v [n Hn]. exists (2 * n)%nat. revert n i v Hn.
  apply eval_gate_expanded; [done|].
  intros n i gi v Hi Hlit Hv.
  assert (Hold : i ≠ one ∧ i ≠ two).
  { split; intros ->.
    - rewrite Hfresh in Hi; [done|]. apply Hnew1. by left.
    - rewrite Hfresh in Hi; [done|]. apply Hnew1. by right. }
  destruct (decide (i = gate)) as [->|Hne'].
  2:{ apply (eval_gate_kept n ft' ρ (eval_literal n ft ρ) i gi); try done.
      rewrite Hrest; tauto. }
  rewrite Hg in Hi. injection Hi as <-.
  replace (2 * S n)%nat with (S (S (2 * n))) by lia.
  destruct (Gate.state g) eqn:Hst.
  2,3: rewrite eval_gate_value, Hgate'; simpl; unfold gate_value in *;
       simpl; by rewrite Hst in Hv |- *.
  destruct (xor_values _ g a b v Hst Hty Hch Hab Hv)
    as (va & vb & Hva & Hvb & ->).
  pose proof (Hlit a va Hva) as Hva'. pose proof (Hlit b vb Hvb) as Hvb'.
  assert (Hone' : eval_gate (S (2 * n)) ft' ρ one = Some (va && negb vb)).
  { apply (and_of_two _ _ _ _ a (- b)); [done|done|].
    by rewrite eval_literal_opp, Hvb'. }
  assert (Htwo' : eval_gate (S (2 * n)) ft' ρ two = Some (negb va && vb)).
  { apply (and_of_two _ _ _ _ (- a) b); [done| |done].
    by rewrite eval_literal_opp, Hva'. }
  replace (xorb va vb) with ((va && negb vb) || (negb va && vb))
    by (by destruct va, vb).
  apply (or_of_two _ _ _ _ _ one two _ _ Hgate'); try done.
  - rewrite eval_literal_gate; [done| |]; pose proof (Hnew1 one); lia.
  - rewrite eval_literal_gate; [done| |]; pose proof (Hnew1 two); lia.
Qed.

Lemma NormalizeXorGate_keeps_values_witness :
  ∃ ft', NormalizeXorGate 4 xor_over_not = Done tt ft' ∧
         ∀ i v, value xor_over_not all_true i v → value ft' all_true i v.
Proof.
  apply (NormalizeXorGate_keeps_values 4 xor_over_not
           (input_gate kXorGate [1; 5]) 1 5 all_true); try done.
  intros i Hi. simpl in *.
  rewrite !lookup_insert_ne by lia. apply lookup_empty.
Defined.

(** ** The function of a graph when an ATLEAST gate is expanded *)

Lemma NormalizeAtleastGate_expands ft gate g :
  let k := Gate.vote_number g in
  let new := new_gate_index_ ft in
  let subsets := ascending_sets (vote_sets (ascending (Gate.children g)) k) in
  indexed_gates_ ft !! gate = Some g →
  2 ≤ k ≤ Z.of_nat (size (Gate.children g)) - 1 →
  (∀ c, c ∈ Gate.children g → - c ∉ Gate.children g) →
  0 ≤ new →
  (∀ i, new < i → indexed_gates_ ft !! i = None) →
  wp no_failure (NormalizeAtleastGate gate)
    (λ _ ft',
       indexed_gates_ ft' !! gate =
         Some (Gate.set_children
                 (list_to_set (seqZ (new + 1) (Z.of_nat (length subsets))))
                 (Gate.set_type kOrGate g)) ∧
       (∀ (j : nat) s, subsets !! j = Some s →
          indexed_gates_ ft' !! (new + 1 + Z.of_nat j) =
          Some (Gate.set_children s (Gate.create kAndGate))) ∧
       (∀ i, i ≠ gate → i ≤ new ∨ new + Z.of_nat (length subsets) < i →
          indexed_gates_ ft' !! i = indexed_gates_ ft !! i)) ft.
Proof.
  intros k new subsets Hg Hk Hcompl Hnew Hfresh.
  assert (Hmem : ∀ s, s ∈ subsets ↔
                   s ⊆ Gate.children g ∧ size s = Z.to_nat k).
  { intros s. unfold subsets.
    rewrite elem_of_ascending_sets. apply elem_of_vote_sets. lia. }
  unfold NormalizeAtleastGate. wp_run. fold k.
  replace (k >? 1) with true by (symmetry; lia).
  wp_run. replace (Z.of_nat (size (Gate.children g)) >? k) with true
    by (symmetry; lia).
  wp_run. fold subsets.
  set (g2 := Gate.EraseAllChildren (Gate.set_type kOrGate g)).
  eapply wp_mono.
  { apply (atleast_loop subsets gate _ g2).
    - tree_simpl. apply lookup_insert_eq.
    - done.
    - intros c Hc. unfold g2 in Hc; simpl in Hc.
      by apply not_elem_of_empty in Hc.
    - tree_simpl. intros i Hi.
      rewrite !lookup_insert_ne; [by apply Hfresh|..];
        intros ->; rewrite Hfresh in Hg by done; done.
    - intros s c [Hs _]%Hmem Hc Hc'. by apply (Hcompl c); apply Hs. }
  tree_simpl. intros [] ft' (Hidx & Hgate & Hsub & Hrest).
  split; [|split; [done|]].
  - rewrite Hgate. f_equal. unfold g2, Gate.set_children; simpl. f_equal.
    by rewrite (left_id_L ∅ (∪)).
  - intros i Hi Hrange. rewrite Hrest by done.
    by rewrite !lookup_insert_ne by done.
Qed.

Lemma subset_of_size (X : gset Z) (k : nat) :
  (k ≤ size X)%nat → ∃ s : gset Z, s ⊆ X ∧ size s = k.
Proof.
  intros Hk. exists (list_to_set (take k (elements X))). split.
  - intros x Hx. apply elem_of_list_to_set in Hx.
    apply elem_of_elements.
    eapply elem_of_sublist; [exact Hx|apply sublist_take].
  - rewrite size_list_to_set.
    + rewrite length_take. unfold size, set_size in Hk. simpl in Hk. lia.
    + apply (sublist_NoDup _ (elements X));
        [apply NoDup_elements|apply sublist_take].
Qed.

(** The number of true values among the children of a gate. *)
Lemma count_true (w : Z → option bool) (cs : gset Z) vs :
  mapM w (ascending cs) = Some vs →
  length (filter (λ v, v = true) vs)
  = size (filter (λ c, w c = Some true) cs).
Proof.
  intros Hvs. apply mapM_Some_1 in Hvs.
  assert (Hlen : length (filter (λ v, v = true) vs)
                 = length (filter (λ c, w c = Some true) (ascending cs))).
  { induction Hvs as [|c v l vs' Hc _ IH]; [done|].
    rewrite !filter_cons. destruct (decide (v = true)) as [->|Hv].
    - rewrite decide_True by done. simpl. by rewrite IH.
    - rewrite decide_False by congruence. done. }
  rewrite Hlen. unfold size, set_size. simpl.
  apply Permutation_length. apply NoDup_Permutation.
  - apply NoDup_filter, NoDup_ascending.
  - apply NoDup_elements.
  - intros x. rewrite list_elem_of_filter, elem_of_ascending,
      elem_of_elements, elem_of_filter. done.
Qed.

(** X12.  NormalizeAtleastGate keeps the function of the graph.  For an
    ATLEAST gate with vote number k over n children, 2 <= k <= n - 1, in
    which no event occurs with its negation, when the indices above the
    counter are free and the counter is not below the first gate index: the
    call returns, and under every assignment each gate that had a value
    has the same value afterwards. *)
Theorem NormalizeAtleastGate_keeps_values (gate : Z) (ft : IndexedFaultTree)
    (g : IndexedGate) (ρ : Z → bool) :
  indexed_gates_ ft !! gate = Some g →
  Gate.type g = kAtleastGate →
  2 ≤ Gate.vote_number g ≤ Z.of_nat (size (Gate.children g)) - 1 →
  (∀ c, c ∈ Gate.children g → - c ∉ Gate.children g) →
  (∀ i, new_gate_index_ ft < i → indexed_gates_ ft !! i = None) →
  0 ≤ new_gate_index_ ft → gate_index_ ft ≤ new_gate_index_ ft →
  ∃ ft', NormalizeAtleastGate gate ft = Done tt ft' ∧
         ∀ i v, value ft ρ i v → value ft' ρ i v.
Proof.
  intros Hg Hty Hk Hcompl Hfresh Hnew Hgi.
  set (k := Gate.vote_number g) in *.
  set (new := new_gate_index_ ft) in *.
  set (subsets := ascending_sets (vote_sets (ascending (Gate.children g)) k)).
  destruct (wp_total _ _ _
              (NormalizeAtleastGate_expands ft gate g Hg Hk Hcompl Hnew Hfresh))
    as ([] & ft' & Hrun & Hgate' & Hsub & Hrest).
  fold k new subsets in Hgate', Hsub, Hrest.
  exists ft'. split; [done|].
  assert (Hmem : ∀ s, s ∈ subsets ↔
                   s ⊆ Gate.children g ∧ size s = Z.to_nat k).
  { intros s. unfold subsets.
    rewrite elem_of_ascending_sets. apply elem_of_vote_sets. lia. }
  assert (Hgi' : gate_index_ ft' = gate_index_ ft).
  { assert (Hrun' : NormalizeGate gate ft = Done tt ft').
    { unfold NormalizeGate, bind, find_gate. by rewrite Hg, Hty. }
    by destruct (wp_done _ _ _ _ _ _
                   (same_indices_NormalizeGate ft gate ft ltac:(done)) Hrun')
      as (_ & ? & _). }
  intros i v [n Hn]. exists (2 * n)%nat. revert n i v Hn.
  apply eval_gate_expanded; [done|].
  intros n i gi v Hi Hlit Hv.
  assert (Hold : i ≤ new).
  { destruct (decide (i ≤ new)) as [?|Hbig]; [done|].
    rewrite Hfresh in Hi; [done|lia]. }
  destruct (decide (i = gate)) as [->|Hne'].
  2:{ apply (eval_gate_kept n ft' ρ (eval_literal n ft ρ) i gi); try done.
      rewrite Hrest; [done|done|by left]. }
  rewrite Hg in Hi. injection Hi as <-.
  replace (2 * S n)%nat with (S (S (2 * n))) by lia.
  destruct (Gate.state g) eqn:Hst.
  2,3: rewrite eval_gate_value, Hgate'; simpl; unfold gate_value in *;
       simpl; by rewrite Hst in Hv |- *.
  (* the values of the children *)
  unfold gate_value in Hv. rewrite Hst, Hty in Hv.
  destruct (mapM (eval_literal n ft ρ) (ascending (Gate.children g)))
    as [vs|] eqn:Hvs; [|done].
  simpl in Hv. injection Hv as <-. rewrite (count_true _ _ _ Hvs). fold k.
  pose proof (values_defined _ _ _ Hvs) as Hdef.
  set (trues := filter (λ c, eval_literal n ft ρ c = Some true)
                  (Gate.children g)).
  assert (Htrue : ∀ c, c ∈ Gate.children g →
            eval_literal (2 * n) ft' ρ c = Some true ↔ c ∈ trues).
  { intros c Hc. unfold trues. rewrite elem_of_filter.
    destruct (Hdef c Hc) as [b Hb]. rewrite (Hlit c b Hb), Hb.
    split; [by intros [= ->]|by intros [[= ->] _]]. }
  (* the new gates *)
  assert (Hand : ∀ (j : nat) s, subsets !! j = Some s →
    ∃ b, eval_literal (S (2 * n)) ft' ρ (new + 1 + Z.of_nat j) = Some b ∧
         (b = true ↔ s ⊆ trues)).
  { intros j s Hj.
    assert (Hs : s ⊆ Gate.children g).
    { apply Hmem. by eapply list_elem_of_lookup_2. }
    rewrite eval_literal_gate by lia.
    pose proof (Hsub j s Hj) as Hrec.
    destruct (eval_and_or_defined (2 * n) ft' ρ _ _ Hrec) as [b Hb];
      [done|by left|..].
    { intros c Hc. simpl in Hc. destruct (Hdef c (Hs c Hc)) as [bc Hbc].
      rewrite (Hlit c bc Hbc). eauto. }
    exists b. split; [done|].
    apply (eval_and_or (2 * n) ft' ρ _ _ b Hrec) in Hb as [_ Hb];
      [|done|by left].
    rewrite Hb. simpl. split.
    - intros Hall c Hc. apply Htrue; [by apply Hs|by apply Hall].
    - intros Hsub' c Hc. apply Htrue; [by apply Hs|by apply Hsub']. }
  assert (Hchild : ∀ c,
    c ∈ (list_to_set (seqZ (new + 1) (Z.of_nat (length subsets))) : gset Z) ↔
    ∃ (j : nat) s, subsets !! j = Some s ∧ c = new + 1 + Z.of_nat j).
  { intros c. rewrite elem_of_list_to_set, elem_of_seqZ. split.
    - intros Hc.
      destruct (lookup_lt_is_Some_2 subsets (Z.to_nat (c - (new + 1))))
        as [s Hs]; [lia|].
      exists (Z.to_nat (c - (new + 1))), s. split; [done|lia].
    - intros (j & s & Hj & ->). apply lookup_lt_Some in Hj. lia. }
  apply (eval_and_or (S (2 * n)) ft' ρ gate _ _ Hgate'); [done|by right|].
  simpl. split.
  - intros c Hc. apply Hchild in Hc as (j & s & Hj & ->).
    destruct (Hand j s Hj) as (b & Hb & _). eauto.
  - rewrite Z.leb_le. split.
    + intros Hcount.
      destruct (subset_of_size trues (Z.to_nat k)) as (s & Hs & Hsize);
        [lia|].
      assert (Hin : s ∈ subsets).
      { apply Hmem. split; [|done]. intros c Hc.
        specialize (Hs c Hc). unfold trues in Hs.
        by apply elem_of_filter in Hs as [_ ?]. }
      apply list_elem_of_lookup in Hin as [j Hj].
      exists (new + 1 + Z.of_nat j). split; [apply Hchild; eauto|].
      destruct (Hand j s Hj) as (b & Hb & Hiff).
      assert (b = true) as -> by by apply Hiff. exact Hb.
    + intros (c & Hc & Hct). apply Hchild in Hc as (j & s & Hj & ->).
      destruct (Hand j s Hj) as (b & Hb & Hiff).
      assert (b = true) as ->.
      { assert (Some b = Some true) as [= ->]; [|done].
        rewrite <- Hb. exact Hct. }
      assert (Hs : s ⊆ trues) by by apply Hiff.
      assert (Hsize : size s = Z.to_nat k).
      { apply Hmem. by eapply list_elem_of_lookup_2. }
      apply subseteq_size in Hs. lia.
Qed.

Lemma NormalizeAtleastGate_keeps_values_witness :
  ∃ ft', NormalizeAtleastGate 4 two_of_three = Done tt ft' ∧
         ∀ i v, value two_of_three all_true i v → value ft' all_true i v.
Proof.
  apply (NormalizeAtleastGate_keeps_values 4 two_of_three two_of_three_gate
           all_true); try done.
  - intros c Hc Hc'. simpl in Hc, Hc'.
    rewrite !elem_of_union, !elem_of_singleton in Hc, Hc'. lia.
  - intros i Hi. simpl in *.
    rewrite !lookup_insert_ne by lia. apply lookup_empty.
Defined.

(** ** The function of a graph when constant gates are removed *)

Lemma ProcessConstGates_sound ft0 ρ fuel :
  ∀ gate P ft,
    sound ft0 ρ ft →
    (∀ i, i ∉ P → indexed_gates_ ft !! i = indexed_gates_ ft0 !! i) →
    wp any_failure (ProcessConstGates fuel gate P)
      (λ r ft',
         P ⊆ r.2 ∧ sound ft0 ρ ft' ∧
         (∀ i, i ∉ r.2 → indexed_gates_ ft' !! i = indexed_gates_ ft0 !! i) ∧
         (∀ i, i ∈ P → indexed_gates_ ft' !! i = indexed_gates_ ft !! i)) ft.
Proof.
  induction fuel as [|fuel IH]; intros gate P ft Hsound Hfresh; [done|].
  cbn [ProcessConstGates]. cbv zeta.
  destruct (decide (gate ∈ P)) as [Hin|Hnotin].
  { by apply wp_ret. }
  assert (Hfresh' : ∀ i, i ∉ P ∪ {[gate]} →
            indexed_gates_ ft !! i = indexed_gates_ ft0 !! i).
  { intros i Hi. apply Hfresh. intros HiP. apply Hi.
    by apply elem_of_union_l. }
  apply wp_bind, wp_find_gate.
  destruct (indexed_gates_ ft !! gate) as [g|] eqn:Hg; [|done].
  assert (Hg0 : indexed_gates_ ft0 !! gate = Some g)
    by (by rewrite <- Hfresh).
  case_bool_decide as Hstate.
  { apply wp_ret. simpl. split; [apply union_subseteq_l|done]. }
  assert (Hst : Gate.state g = kNormalState).
  { destruct (Gate.state g); tauto. }
  apply wp_bind, wp_assert. case_bool_decide as Hty; [|done].
  apply wp_bind, wp_get. apply wp_bind.
  set (J := λ (s : bool * list Z * gset Z) (ft1 : IndexedFaultTree),
         P ∪ {[gate]} ⊆ s.2 ∧ sound ft0 ρ ft1 ∧
         (∀ i, i ∉ s.2 → indexed_gates_ ft1 !! i = indexed_gates_ ft0 !! i) ∧
         (∀ i, i ∈ P ∪ {[gate]} →
               indexed_gates_ ft1 !! i = indexed_gates_ ft !! i) ∧
         ∀ c, c ∈ s.1.2 → c ∈ Gate.children g ∧
               ∀ m, neutral (eval_literal m ft0 ρ) (Gate.type g) c).
  set (Q := λ (s : bool * list Z * gset Z) (ft1 : IndexedFaultTree),
         P ∪ {[gate]} ⊆ s.2 ∧ sound ft0 ρ ft1 ∧
         (∀ i, i ∉ s.2 → indexed_gates_ ft1 !! i = indexed_gates_ ft0 !! i) ∧
         (∀ i, i ∈ P → indexed_gates_ ft1 !! i = indexed_gates_ ft !! i)).
  assert (HgateP : gate ∈ P ∪ {[gate]}).
  { apply elem_of_union_r. by apply elem_of_singleton. }
  eapply wp_mono.
  { apply (wp_scan_leave _ _ _ _ J Q).
    2:{ split; [done|]. split; [done|]. split; [done|].
        split; [done|]. intros c Hc. by apply elem_of_nil in Hc. }
    intros c [[changed te] P1] ft1 Hc (HP1 & Hsound1 & Hfresh1 & Hsame1 & Hte).
    simpl in HP1, Hfresh1, Hte. apply elem_of_ascending in Hc.
    pose proof Hsound1 as (_ & Hgi1 & _ & _).
    pose proof Hsound as (_ & Hgi & _ & _).
    destruct (Z.abs c >? gate_index_ ft) eqn:Hgate.
    2:{ apply wp_ret. simpl. done. }
    apply wp_bind, wp_assert. destruct (c >? 0) eqn:Hpos; [|done].
    apply wp_bind, wp_find_gate.
    destruct (indexed_gates_ ft1 !! c) as [gc1|]; [|done].
    apply wp_bind. eapply wp_mono; [by apply IH|].
    intros [r P2] ft2 (HP2 & Hsound2 & Hfresh2 & Hsame2).
    simpl in HP2, Hfresh2.
    pose proof Hsound2 as (_ & Hgi2 & _ & _).
    assert (Hsame12 : ∀ i, i ∈ P ∪ {[gate]} →
              indexed_gates_ ft2 !! i = indexed_gates_ ft !! i).
    { intros i Hi. rewrite Hsame2 by by apply HP1. by apply Hsame1. }
    apply wp_bind, wp_find_gate.
    destruct (indexed_gates_ ft2 !! c) as [gc2|] eqn:Hgc2; [|done].
    assert (Hconstant : ∀ b : bool,
      (∀ w, gate_value w gc2 = Some b) →
      wp any_failure
        (let* '(r0, to_erase') := ProcessConstantChild gate c b te in
         ret (r0, (changed || r, to_erase', P2)))
        (λ r0 ft', if r0.1 then Q r0.2 ft' else J r0.2 ft') ft2).
    { intros b Hb.
      assert (Hg2 : indexed_gates_ ft2 !! gate = Some g)
        by (by rewrite Hsame12).
      apply wp_bind. eapply wp_mono.
      { apply (ProcessConstantChild_sound ft0 ρ ft2 gate g c b te);
          try done.
        intros m v Hv.
        pose proof (literal_of_constant ft0 ρ ft2 c gc2 b Hsound2) as Hlit.
        rewrite (Z.abs_eq c) in Hlit by lia.
        assert (Hlt : (c <? 0) = false) by lia. rewrite Hlt in Hlit.
        apply (Hlit ltac:(lia) Hgc2 Hb m v Hv). }
      intros [r0 te'] ft3 (Hsound3 & Hother3 & Hfalse). apply wp_ret.
      simpl in *. destruct r0.
      - split; [by etrans|]. split; [done|]. split.
        + intros i Hi. rewrite Hother3; [by apply Hfresh2|].
          intros ->. apply Hi, HP2. by apply HP1.
        + intros i Hi. rewrite Hother3 by (by intros ->).
          apply Hsame12. by apply elem_of_union_l.
      - destruct (Hfalse eq_refl) as (-> & -> & Hneutral).
        split; [by etrans|]. split; [done|]. split; [done|].
        split; [done|].
        intros c' Hc'. apply elem_of_app in Hc' as [Hc'|Hc'];
          [by apply Hte|].
        by apply list_elem_of_singleton in Hc' as ->. }
    destruct (Gate.state gc2) eqn:Hstate2.
    - apply wp_ret. simpl. split; [by etrans|]. done.
    - rewrite decide_True by done. apply Hconstant.
      intros w. unfold gate_value. by rewrite Hstate2.
    - rewrite decide_False by done. apply Hconstant.
      intros w. unfold gate_value. by rewrite Hstate2. }
  intros [returned [[changed te] P1]] ft1 Hpost. simpl in Hpost.
  destruct returned.
  - destruct Hpost as (HP1 & Hsound1 & Hfresh1 & Hsame1). apply wp_ret.
    simpl. split; [etrans; [|exact HP1]; apply union_subseteq_l|done].
  - destruct Hpost as (HP1 & Hsound1 & Hfresh1 & Hsame1 & Hte).
    simpl in *. apply wp_bind. eapply wp_mono.
    { apply (RemoveChildren_sound ft0 ρ ft1 gate g te); try done.
      rewrite Hsame1 by done. done. }
    intros [] ft2 [Hsound2 Hother2]. apply wp_ret. simpl.
    split; [etrans; [|exact HP1]; apply union_subseteq_l|].
    split; [done|]. split.
    + intros i Hi. rewrite Hother2; [by apply Hfresh1|].
      intros ->. by apply Hi, HP1.
    + intros i Hi. rewrite Hother2 by (by intros ->).
      apply Hsame1. by apply elem_of_union_l.
Qed.

(** X13.  ProcessConstGates keeps the function of the graph: whenever it
    returns, every gate that had a value under an assignment has the same
    value afterwards. *)
Theorem ProcessConstGates_keeps_values (fuel : nat) (gate : Z)
    (processed_gates : gset Z) (ft ft' : IndexedFaultTree)
    (r : bool * gset Z) (ρ : Z → bool) (n : nat) (i : Z) (v : bool) :
  ProcessConstGates fuel gate processed_gates ft = Done r ft' →
  eval_gate n ft ρ i = Some v → eval_gate n ft' ρ i = Some v.
Proof.
  intros Hrun.
  destruct (wp_done _ _ _ _ _ _
              (ProcessConstGates_sound ft ρ fuel gate processed_gates ft
                 (sound_start ft ρ) (λ _ _, eq_refl)) Hrun)
    as (_ & Hsound & _).
  by apply sound_value.
Qed.

Lemma ProcessConstGates_keeps_values_witness :
  eval_gate 5 (state_after (ProcessConstGates 5 4 ∅) constant_below)
    all_true 4 = Some true.
Proof.
  apply (ProcessConstGates_keeps_values 5 4 ∅ constant_below _
           (true, {[4; 5; 6]}) all_true 5 4 true).
  - vm_compute. reflexivity.
  - vm_compute. reflexivity.
Defined.

(** ** The function of a graph when gates are joined *)

Lemma and_or_value w g v :
  Gate.state g = kNormalState → and_or (Gate.type g) →
  gate_value w g = Some v ↔ combined w (Gate.type g) (Gate.children g) v.
Proof.
  intros Hst Hand. unfold gate_value, combined. rewrite Hst. split.
  - destruct (mapM _ _) as [vs|] eqn:Hvs; [|done]. simpl.
    pose proof (values_defined _ _ _ Hvs) as Hdef.
    apply mapM_Some_1 in Hvs. intros Hv. split; [done|].
    case_decide as Ht.
    + rewrite Ht in Hv. simpl in Hv. injection Hv as <-.
      rewrite (and_value _ _ _ Hvs).
      by setoid_rewrite elem_of_ascending.
    + destruct Hand as [?|Ht']; [done|]. rewrite Ht' in Hv. simpl in Hv.
      injection Hv as <-. rewrite (or_value _ _ _ Hvs).
      by setoid_rewrite elem_of_ascending.
  - intros [Hdef Hv].
    destruct (defined_values w (ascending (Gate.children g))) as [vs Hvs].
    { intros c Hc. apply Hdef. by apply elem_of_ascending. }
    rewrite (mapM_Some_2 _ _ _ Hvs). simpl.
    case_decide as Ht.
    + rewrite Ht. simpl. f_equal. apply Bool.eq_true_iff_eq.
      rewrite (and_value _ _ _ Hvs), Hv.
      by setoid_rewrite elem_of_ascending.
    + destruct Hand as [?|Ht']; [done|]. rewrite Ht'. simpl. f_equal.
      apply Bool.eq_true_iff_eq. rewrite (or_value _ _ _ Hvs), Hv.
      by setoid_rewrite elem_of_ascending.
Qed.

(** A child is replaced by literals that make its value. *)
Lemma merged_value w g c (X : gset Z) v vc :
  Gate.state g = kNormalState → and_or (Gate.type g) →
  c ∈ Gate.children g →
  gate_value w g = Some v → w c = Some vc →
  combined w (Gate.type g) X vc →
  gate_value w (Gate.set_children (Gate.children g ∖ {[c]} ∪ X) g) = Some v.
Proof.
  intros Hst Hand Hc Hv Hvc [HdefX HX].
  apply (and_or_value w g v Hst Hand) in Hv as [Hdef Hv].
  apply and_or_value; [done|done|]. simpl. split.
  - intros x Hx. apply elem_of_union in Hx as [Hx|Hx]; [|by apply HdefX].
    apply elem_of_difference in Hx as [Hx _]. by apply Hdef.
  - rewrite Hv. case_decide as Ht.
    + split.
      * intros Hall x Hx. apply elem_of_union in Hx as [Hx|Hx].
        -- apply elem_of_difference in Hx as [Hx _]. by apply Hall.
        -- assert (vc = true) as Htrue.
           { specialize (Hall c Hc). congruence. }
           by apply HX.
      * intros Hall x Hx. destruct (decide (x = c)) as [->|Hne].
        -- rewrite Hvc. f_equal. apply HX. intros y Hy. apply Hall.
           by apply elem_of_union_r.
        -- apply Hall, elem_of_union_l, elem_of_difference.
           by rewrite elem_of_singleton.
    + split.
      * intros (x & Hx & Hxt). destruct (decide (x = c)) as [->|Hne].
        -- assert (vc = true) as Htrue by congruence.
           apply HX in Htrue as (y & Hy & Hyt). exists y.
           split; [by apply elem_of_union_r|done].
        -- exists x. split; [|done]. apply elem_of_union_l, elem_of_difference.
           by rewrite elem_of_singleton.
      * intros (x & Hx & Hxt). apply elem_of_union in Hx as [Hx|Hx].
        -- apply elem_of_difference in Hx as [Hx _]. eauto.
        -- exists c. split; [done|]. rewrite Hvc. f_equal. apply HX. eauto.
Qed.

(** The children of a gate make its value in a gate of its own kind, and
    the only child of a gate makes it in every gate. *)
Lemma combined_children w gc t vc :
  Gate.state gc = kNormalState → and_or (Gate.type gc) → and_or t →
  t = Gate.type gc ∨ size (Gate.children gc) = 1%nat →
  gate_value w gc = Some vc →
  combined w t (Gate.children gc) vc.
Proof.
  intros Hst Hand Ht Hkind Hv.
  apply (and_or_value w gc vc Hst Hand) in Hv.
  destruct Hkind as [-> | Hone]; [done|].
  apply size_1_elem_of in Hone as [x Hx]. apply leibniz_equiv in Hx.
  destruct Hv as [Hdef Hv]. split; [done|]. rewrite Hv, Hx.
  assert (Hall : (∀ c, c ∈ ({[x]} : gset Z) → w c = Some true)
                 ↔ w x = Some true).
  { split; [intros H; apply H; by apply elem_of_singleton|].
    by intros H c ->%elem_of_singleton. }
  assert (Hex : (∃ c, c ∈ ({[x]} : gset Z) ∧ w c = Some true)
                ↔ w x = Some true).
  { split; [by intros (c & ->%elem_of_singleton & ?)|].
    intros H. exists x. split; [by apply elem_of_singleton|done]. }
  repeat case_decide; rewrite ?Hall, ?Hex; done.
Qed.

Lemma AddChild_result c g :
  Gate.AddChild c g
  = (true, Gate.set_children (Gate.children g ∪ {[c]}) g) ∨
  (Gate.AddChild c g).1 = false ∧
  Gate.state (Gate.AddChild c g).2 ≠ kNormalState.
Proof.
  unfold Gate.AddChild. case_decide; [right|by left].
  split; [done|]. simpl. by destruct (Gate.type g).
Qed.

Lemma add_children_result cs g :
  Gate.add_children cs g
  = (true, Gate.set_children (Gate.children g ∪ list_to_set cs) g) ∨
  (Gate.add_children cs g).1 = false ∧
  Gate.state (Gate.add_children cs g).2 ≠ kNormalState.
Proof.
  revert g. induction cs as [|c cs IH]; intros g; simpl.
  - left. f_equal. rewrite (right_id_L ∅ (∪)). by destruct g.
  - destruct (AddChild_result c g) as [-> | [Hfalse Hstate]].
    + destruct (IH (Gate.set_children (Gate.children g ∪ {[c]}) g))
        as [-> | Hclash]; [left|by right].
      f_equal. simpl. unfold Gate.set_children. simpl. f_equal.
      apply set_eq. intros x.
      rewrite !elem_of_union, elem_of_singleton. tauto.
    + right. destruct (Gate.AddChild c g) as [ok g']. simpl in *.
      by subst ok.
Qed.

Lemma state_AddChild c g :
  Gate.state g ≠ kNormalState →
  Gate.state (Gate.AddChild c g).2 ≠ kNormalState.
Proof.
  intros Hst. unfold Gate.AddChild. case_decide; simpl; [|done].
  by destruct (Gate.type g).
Qed.

Lemma state_add_children cs g :
  Gate.state g ≠ kNormalState →
  Gate.state (Gate.add_children cs g).2 ≠ kNormalState.
Proof.
  revert g. induction cs as [|c cs IH]; intros g Hst; simpl; [done|].
  pose proof (state_AddChild c g Hst) as Hc.
  destruct (Gate.AddChild c g) as [[] g']; simpl in *; [by apply IH|done].
Qed.

Lemma sound_insert ft0 ρ ft gate g' :
  sound ft0 ρ ft → sound_gate ft0 ρ gate g' →
  sound ft0 ρ (set_gates (<[gate := g']> (indexed_gates_ ft)) ft).
Proof.
  intros (Ht & Hgi & Hs & Hgates) Hsound. repeat (split; [done|]).
  intros i gi Hi. tree_simpl. destruct (decide (gate = i)) as [<-|Hne].
  - rewrite lookup_insert_eq. eauto.
  - rewrite lookup_insert_ne by done. by apply (Hgates i gi).
Qed.

Lemma has_constant_update ft gate g g' :
  has_constant ft → indexed_gates_ ft !! gate = Some g →
  (Gate.state g ≠ kNormalState → Gate.state g' ≠ kNormalState) →
  has_constant (set_gates (<[gate := g']> (indexed_gates_ ft)) ft).
Proof.
  intros (i & gi & Hi & Hst) Hg Hkeep.
  destruct (decide (i = gate)) as [->|Hne].
  - exists gate, g'. tree_simpl. rewrite lookup_insert_eq. split; [done|].
    apply Hkeep. congruence.
  - exists i, gi. tree_simpl. by rewrite lookup_insert_ne.
Qed.

(** One step of JoinGates: the children of a gate child take its place. *)
Lemma join_step ft0 ρ ft gate g c gc :
  sound_or_constant ft0 ρ ft →
  indexed_gates_ ft !! gate = Some g → indexed_gates_ ft !! c = Some gc →
  and_or (Gate.type g) → and_or (Gate.type gc) →
  c ∈ Gate.children g → gate_index_ ft < c → 0 < c →
  Gate.type g = Gate.type gc ∨ size (Gate.children gc) = 1%nat →
  sound_or_constant ft0 ρ
    (set_gates (<[gate := (Gate.MergeGate c gc g).2]> (indexed_gates_ ft)) ft).
Proof.
  intros Hinv Hg Hgc Hand Handc Hc Hgate Hpos Hkind.
  assert (Hpersist : has_constant ft →
    has_constant
      (set_gates (<[gate := (Gate.MergeGate c gc g).2]> (indexed_gates_ ft))
         ft)).
  { intros Hconst. apply (has_constant_update _ _ g); [done..|].
    intros Hst. by apply state_add_children. }
  destruct Hinv as [Hconst|Hsound]; [left; by apply Hpersist|].
  destruct (decide (Gate.state g = kNormalState)) as [Hst|Hst].
  2:{ left. apply Hpersist. by exists gate, g. }
  destruct (decide (Gate.state gc = kNormalState)) as [Hstc|Hstc].
  2:{ left. apply Hpersist. by exists c, gc. }
  unfold Gate.MergeGate.
  destruct (add_children_result (ascending (Gate.children gc))
              (Gate.EraseChild c g)) as [-> | [_ Hclash]].
  2:{ left. eexists gate, _. tree_simpl. by rewrite lookup_insert_eq. }
  right. apply sound_insert; [done|]. simpl. rewrite list_to_set_ascending.
  intros m v Hv. pose proof Hsound as (_ & Hgi & _ & Hgates).
  pose proof Hv as Hv0. rewrite eval_gate_value in Hv0.
  destruct (indexed_gates_ ft0 !! gate) as [g0|] eqn:Hg0; [|done].
  destruct (Hgates gate g0 Hg0) as (g' & Hg' & Hsg).
  rewrite Hg in Hg'. injection Hg' as <-. specialize (Hsg m v Hv).
  pose proof (proj1 (and_or_value _ g v Hst Hand) Hsg) as [Hdef _].
  destruct (Hdef c Hc) as [vc Hvc].
  assert (Hvc' : eval_gate m ft0 ρ c = Some vc).
  { rewrite <- Hvc. symmetry. apply eval_literal_gate; [done|lia]. }
  destruct m as [|m]; [done|].
  pose proof Hvc' as Hvc0. rewrite eval_gate_value in Hvc0.
  destruct (indexed_gates_ ft0 !! c) as [gc0|] eqn:Hgc0; [|done].
  destruct (Hgates c gc0 Hgc0) as (gc' & Hgc' & Hsgc).
  rewrite Hgc in Hgc'. injection Hgc' as <-. specialize (Hsgc m vc Hvc').
  apply (merged_value _ g c (Gate.children gc) v vc); try done.
  apply combined_children; try done.
  apply (gate_value_impl (eval_literal m ft0 ρ)); [|done].
  intros x b. apply eval_literal_impl; [done|]. apply eval_gate_mono.
Qed.

Lemma SwapChild_merge c grandchild gc g :
  ascending (Gate.children gc) = [grandchild] →
  Gate.SwapChild c grandchild g = Gate.MergeGate c gc g.
Proof.
  intros Hasc. unfold Gate.SwapChild, Gate.MergeGate. rewrite Hasc. simpl.
  by destruct (Gate.AddChild grandchild (Gate.EraseChild c g)) as [[] ?].
Qed.

Lemma join_loop_sound ft0 ρ rec fuel :
  (∀ c P ft, sound_or_constant ft0 ρ ft →
     wp any_failure (rec c P)
       (λ r ft', sound_or_constant ft0 ρ ft' ∧ P ⊆ r.2 ∧
          ∀ i, i ∈ P → indexed_gates_ ft' !! i = indexed_gates_ ft !! i) ft) →
  ∀ gate parent it ch P ft g,
    gate ∈ P →
    indexed_gates_ ft !! gate = Some g →
    Gate.type g = parent → and_or parent →
    (∀ c, c ∈ it → c ∈ Gate.children g) →
    sound_or_constant ft0 ρ ft →
    wp any_failure (join_loop rec fuel gate parent it ch P)
       (λ _, sound_or_constant ft0 ρ) ft.
Proof.
  intros Hrec. induction fuel as [|fuel IH];
    intros gate parent it ch P ft g HgateP Hg Hparent Hand Hit Hinv; [done|].
  destruct it as [|c rest]; [by apply wp_ret|].
  assert (Hc : c ∈ Gate.children g) by (apply Hit; by left).
  assert (Hnext : ∀ ch',
    wp any_failure (join_loop rec fuel gate parent rest ch' P)
       (λ _, sound_or_constant ft0 ρ) ft).
  { intros ch'. apply (IH _ _ _ _ _ _ g); try done.
    intros c' Hc'. apply Hit. by right. }
  assert (Hrestart : ∀ gc (ok : bool),
    indexed_gates_ ft !! c = Some gc → and_or (Gate.type gc) →
    gate_index_ ft < c → 0 < c →
    Gate.type g = Gate.type gc ∨ size (Gate.children gc) = 1%nat →
    wp any_failure
      (if ok then
         let* g := find_gate gate in
         join_loop rec fuel gate parent (ascending (Gate.children g)) true P
       else ret (true, P))
      (λ _, sound_or_constant ft0 ρ)
      (set_gates (<[gate := (Gate.MergeGate c gc g).2]> (indexed_gates_ ft))
         ft)).
  { intros gc ok Hgc Handc Hgate Hpos Hkind.
    assert (Hinv1 := join_step ft0 ρ ft gate g c gc Hinv Hg Hgc
                       ltac:(by rewrite Hparent) Handc Hc Hgate Hpos Hkind).
    destruct ok; [|by apply wp_ret].
    apply wp_bind, wp_find_gate. tree_simpl. rewrite lookup_insert_eq.
    apply (IH gate parent _ true P _ (Gate.MergeGate c gc g).2); try done.
    - tree_simpl. apply lookup_insert_eq.
    - by rewrite type_MergeGate.
    - intros c' Hc'. by apply elem_of_ascending. }
  cbn [join_loop]. cbv zeta. apply wp_bind, wp_get.
  destruct (Z.abs c >? gate_index_ ft) eqn:Hgi; [|apply Hnext].
  apply wp_bind, wp_assert. destruct (c >? 0) eqn:Hpos; [|done].
  apply wp_bind, wp_find_gate. rewrite Z.abs_eq by lia.
  destruct (indexed_gates_ ft !! c) as [gc|] eqn:Hgc; [|done].
  apply wp_bind, wp_assert. case_bool_decide as Hgcty; [|done].
  assert (Handc : and_or (Gate.type gc)) by done.
  destruct (decide (parent = Gate.type gc)) as [Heq|Hneq].
  - (* the child is merged *)
    apply wp_bind, wp_find_gate. rewrite Hgc.
    apply wp_bind, wp_call_gate. rewrite Hg.
    apply Hrestart; try done; [lia|lia|left; congruence].
  - destruct (decide (size (Gate.children gc) = 1%nat)) as [Hone|Hmore].
    + (* the single child of the child is lifted *)
      destruct (ascending (Gate.children gc)) as [|gch rest'] eqn:Hasc;
        [done|].
      assert (rest' = []) as ->.
      { pose proof (length_ascending (Gate.children gc)) as Hlen.
        rewrite Hasc, Hone in Hlen. by destruct rest'. }
      apply wp_bind, wp_call_gate. rewrite Hg.
      rewrite (SwapChild_merge c gch gc g Hasc).
      apply Hrestart; try done; [lia|lia|by right].
    + (* the child is visited *)
      apply wp_bind. eapply wp_mono; [by apply Hrec|].
      intros [r P1] ft1 (Hinv1 & HP1 & Hsame1). simpl in *.
      apply (IH gate parent rest _ P1 ft1 g); try done.
      * by apply HP1.
      * by rewrite Hsame1.
      * intros c' Hc'. apply Hit. by right.
Qed.

Lemma JoinGates_sound ft0 ρ fuel :
  ∀ gate P ft, sound_or_constant ft0 ρ ft →
    wp any_failure (JoinGates fuel gate P)
      (λ _, sound_or_constant ft0 ρ) ft.
Proof.
  induction fuel as [|fuel IH]; intros gate P ft Hinv; [done|].
  cbn [JoinGates]. destruct (decide (gate ∈ P)) as [Hin|Hnotin].
  { by apply wp_ret. }
  apply wp_bind, wp_find_gate.
  destruct (indexed_gates_ ft !! gate) as [g|] eqn:Hg; [|done].
  apply wp_bind, wp_assert. case_bool_decide as Hty; [|done].
  apply (join_loop_sound ft0 ρ _ fuel) with (g := g); try done.
  - intros c P1 ft1 Hinv1. eapply wp_mono.
    { apply wp_conj; [by apply IH|apply JoinGates_joined]. }
    intros r ft' [Hinv' (HP' & _ & _ & Hsame' & _)]. done.
  - apply elem_of_union_r. by apply elem_of_singleton.
  - intros c Hc. by apply elem_of_ascending.
Qed.

(** X14.  JoinGates keeps the function of the graph unless it makes a gate
    a constant: whenever it returns and leaves every gate in its normal
    state, every gate that had a value under an assignment has the same
    value afterwards. *)
Theorem JoinGates_keeps_values (fuel : nat) (gate : Z)
    (processed_gates : gset Z) (ft ft' : IndexedFaultTree)
    (r : bool * gset Z) (ρ : Z → bool) (n : nat) (i : Z) (v : bool) :
  JoinGates fuel gate processed_gates ft = Done r ft' →
  (∀ j g, indexed_gates_ ft' !! j = Some g → Gate.state g = kNormalState) →
  eval_gate n ft ρ i = Some v → eval_gate n ft' ρ i = Some v.
Proof.
  intros Hrun Hnormal.
  destruct (wp_done _ _ _ _ _ _
              (JoinGates_sound ft ρ fuel gate processed_gates ft
                 (or_intror (sound_start ft ρ))) Hrun)
    as [(j & g & Hj & Hst)|Hsound].
  - by destruct (Hst (Hnormal j g Hj)).
  - by apply sound_value.
Qed.

Lemma JoinGates_keeps_values_witness :
  eval_gate 5 (state_after (JoinGates 10 4 ∅) nested_and) all_true 4
  = Some true.
Proof.
  apply (JoinGates_keeps_values 10 4 ∅ nested_and _ (true, {[4; 6]})
           all_true 5 4 true).
  - vm_compute. reflexivity.
  - intros j g Hj.
    apply (map_Forall_lookup_1
             (λ _ g, Gate.state g = kNormalState) _ j g) in Hj; [done|].
    apply (bool_decide_unpack _). vm_compute. exact I.
  - vm_compute. reflexivity.
Defined.

#[global] Instance same_graph_preorder : PreOrder same_graph.
Proof.
  split.
  - intros ft. repeat (split; [done|]). intros i g Hg. by exists g.
  - intros ft1 ft2 ft3 (Ht1 & Hg1 & Hn1 & Hnone1 & Hs1)
      (Ht2 & Hg2 & Hn2 & Hnone2 & Hs2).
    repeat split; try congruence; [by auto|].
    intros i g Hg. destruct (Hs1 i g Hg) as (g2 & Hg2' & Hf1).
    destruct (Hs2 i g2 Hg2') as (g3 & Hg3 & Hf2). exists g3.
    split; [done|]. destruct Hf1 as (? & ? & ? & ?), Hf2 as (? & ? & ? & ?).
    repeat split; congruence.
Qed.

Lemma same_function_Visit t g : same_function g (Gate.Visit t g).2.
Proof.
  unfold Gate.Visit. destruct (Gate.visits g) as [[v0 v1] v2].
  by repeat case_decide.
Qed.

Lemma same_graph_Visit ft0 i t :
  preserves (same_graph ft0) (call_gate i (Gate.Visit t)).
Proof.
  intros ft Hsame. apply wp_call_gate.
  destruct (indexed_gates_ ft !! i) as [g|] eqn:Hg; [|done].
  etrans; [exact Hsame|]. repeat split; try done; simpl.
  - intros j Hj. rewrite lookup_insert_ne; [done|]. congruence.
  - intros j gj Hj. destruct (decide (i = j)) as [->|Hne].
    + rewrite lookup_insert_eq. eexists. split; [done|].
      assert (gj = g) as -> by congruence. apply same_function_Visit.
    + rewrite lookup_insert_ne by done. by exists gj.
Qed.

Lemma same_graph_basic_visits ft0 vb i :
  preserves (same_graph ft0) (basic_visits vb i).
Proof. unfold basic_visits. preserves_auto. Qed.

Lemma same_graph_AssignTiming ft0 fuel :
  ∀ time gate vb, preserves (same_graph ft0) (AssignTiming fuel time gate vb).
Proof.
  induction fuel as [|fuel IH]; intros time gate vb.
  { apply preserves_fail. }
  cbn [AssignTiming].
  preserves_auto; auto using same_graph_basic_visits, same_graph_Visit.
Qed.

Lemma same_graph_value ft ft' ρ :
  same_graph ft ft' →
  ∀ n i v, eval_gate n ft ρ i = Some v → eval_gate n ft' ρ i = Some v.
Proof.
  intros (_ & Hgi & _ & _ & Hsame) n i v.
  destruct (eval_gate_transfer (λ _, False) ft ft' ρ Hgi) with (n := n)
    as [Hgate _]; [by intros; apply Hsame|done|].
  apply Hgate. tauto.
Qed.

Lemma same_graph_modules ms ft : same_graph ft (set_modules ms ft).
Proof. repeat (split; [done|]). intros i g Hg. by exists g. Qed.

Lemma same_graph_fresh ft ft' :
  same_graph ft ft' → fresh_indices ft → fresh_indices ft'.
Proof.
  intros (_ & Hgi & Hnew & Hnone & _) (H0 & Hle & Hfree).
  unfold fresh_indices. rewrite Hnew, Hgi. repeat split; [lia..|].
  intros i Hi. auto.
Qed.

Lemma same_graph_ranked rank ft ft' :
  same_graph ft ft' → ranked rank ft → ranked rank ft'.
Proof.
  intros (Htop & _ & _ & Hnone & Hsame) Hranked i g' c Hg' Hc Hle.
  rewrite Htop in Hle.
  destruct (indexed_gates_ ft !! i) as [g|] eqn:Hg;
    [|rewrite (Hnone i Hg) in Hg'; done].
  destruct (Hsame i g Hg) as (g2 & Hg2 & _ & _ & Hch & _).
  assert (g2 = g') as -> by congruence. rewrite Hch in Hc.
  destruct (Hranked i g c Hg Hc Hle) as [[gc Hgc] Hlt]. split; [|done].
  destruct (Hsame _ gc Hgc) as (gc' & -> & _). done.
Qed.

Lemma detecting_weaken ft1 ρ (V V' : Z → Prop) ft :
  (∀ i, V i → V' i) → detecting ft1 ρ V ft → detecting ft1 ρ V' ft.
Proof.
  intros HV (Htop & Hgi & Hfresh & Hkept & Hval).
  repeat (split; [done|]). split; [|done]. intros i g Hg Hi.
  apply Hkept; [done|]. intros HVi. by apply Hi, HV.
Qed.

Lemma detecting_modules ft1 ρ V ms ft :
  detecting ft1 ρ V ft → detecting ft1 ρ V (set_modules ms ft).
Proof.
  intros (Htop & Hgi & Hfresh & Hkept & Hval).
  repeat (split; [done|]). intros i v Hv.
  destruct (Hval i v Hv) as [n Hn]. exists n.
  by apply (same_graph_value ft); [apply same_graph_modules|].
Qed.

(** CreateNewModule keeps the values of the gates; it changes the gate
    alone, which keeps the children that are not moved. *)
Lemma CreateNewModule_kept ft1 ρ (V : Z → Prop) gate l ft g :
  detecting ft1 ρ V ft →
  indexed_gates_ ft !! gate = Some g →
  NoDup l → (∀ c, c ∈ l → c ∈ Gate.children g) →
  wp any_failure (CreateNewModule gate l)
    (λ _ ft', detecting ft1 ρ (λ i, V i ∨ i = gate) ft' ∧
       ∃ g', indexed_gates_ ft' !! gate = Some g' ∧
             ∀ c, c ∈ Gate.children g → c ∉ l → c ∈ Gate.children g') ft.
Proof.
  intros Hdet Hg Hnodup Hin.
  assert (Hsame : ∀ ms,
    detecting ft1 ρ (λ i, V i ∨ i = gate) (set_modules ms ft) ∧
    ∃ g', indexed_gates_ (set_modules ms ft) !! gate = Some g' ∧
          ∀ c, c ∈ Gate.children g → c ∉ l → c ∈ Gate.children g').
  { intros ms. split.
    - apply detecting_modules. eapply detecting_weaken; [|done]. by left.
    - by exists g. }
  destruct (decide (1 < length l < size (Gate.children g))%nat) as [Hlen|Hlen].
  2:{ unfold CreateNewModule. apply wp_bind, wp_find_gate. rewrite Hg.
      apply wp_bind, wp_assert. case_bool_decide; [|done].
      apply wp_bind, wp_assert. case_bool_decide; [|done].
      case_decide; [|lia]. apply wp_modify, Hsame. }
  destruct (decide (and_or (Gate.type g))) as [Hand|Hand].
  2:{ unfold CreateNewModule. apply wp_bind, wp_find_gate. rewrite Hg.
      apply wp_bind, wp_assert. case_bool_decide; [|done].
      apply wp_bind, wp_assert. case_bool_decide; [|done].
      case_decide; [lia|]. apply wp_bind, wp_assert.
      by case_bool_decide. }
  pose proof Hdet as (Htop & Hgi & (H0 & Hle & Hfree) & Hkept & Hval).
  destruct (CreateNewModule_split_off gate l ft g)
    as (ft' & Hrun & Hsplit); [done..|apply Hfree; lia|].
  unfold wp. rewrite Hrun.
  pose proof Hsplit as (Htop' & Hgi' & _ & Hnew' & _ & Hnm' & Hgate' & Hother).
  assert (Hgate_le : gate ≤ new_gate_index_ ft).
  { destruct (decide (gate ≤ new_gate_index_ ft)); [done|].
    rewrite Hfree in Hg by lia. done. }
  split.
  - split; [congruence|]. split; [congruence|]. split.
    { unfold fresh_indices. rewrite Hnew', Hgi'. repeat split; [lia..|].
      intros i Hi. rewrite Hother by lia. apply Hfree. lia. }
    split.
    + intros i gi Hi HV.
      assert (Hcur : indexed_gates_ ft !! i = Some gi)
        by (apply Hkept; [done|]; tauto).
      rewrite Hother; [done|tauto|].
      intros ->. rewrite Hfree in Hcur by lia. done.
    + intros i v Hv. destruct (Hval i v Hv) as [n Hn]. exists (2 * n)%nat.
      apply (split_off_value gate (new_gate_index_ ft + 1) l g ft);
        try done; [apply Hfree|..]; lia.
  - eexists. split; [exact Hgate'|]. simpl. intros c Hc Hnot.
    apply elem_of_union. left. apply elem_of_difference. split; [done|].
    by rewrite elem_of_list_to_set.
Qed.

Lemma classified_non_shared (pre : list Z) c k :
  pre ≡ₚ non_shared_children k ++ modular_children k
         ++ non_modular_children k →
  pre ++ [c] ≡ₚ non_shared_children (non_shared c k)
                ++ modular_children (non_shared c k)
                ++ non_modular_children (non_shared c k).
Proof.
  intros ->. simpl. rewrite <- !app_assoc.
  rewrite (Permutation_app_comm [c]). by rewrite !app_assoc.
Qed.

Lemma classified_classify (pre : list Z) a b c lo hi k :
  pre ≡ₚ non_shared_children k ++ modular_children k
         ++ non_modular_children k →
  pre ++ [c] ≡ₚ non_shared_children (classify a b c lo hi k)
                ++ modular_children (classify a b c lo hi k)
                ++ non_modular_children (classify a b c lo hi k).
Proof.
  intros ->. simpl. case_bool_decide.
  - rewrite <- !app_assoc.
    rewrite (Permutation_app_comm [c] (non_modular_children k)).
    by rewrite !app_assoc.
  - by rewrite !app_assoc.
Qed.

(** On a graph without cycles, FindOriginalModules keeps the values of the
    gates and visits gates of the rank of its gate at most. *)
Lemma FindOriginalModules_kept ft1 ρ rank vb fuel :
  ranked rank ft1 →
  ∀ gate vg ft,
    is_Some (indexed_gates_ ft1 !! gate) →
    detecting ft1 ρ (λ i, is_Some (vg !! i)) ft →
    wp any_failure (FindOriginalModules fuel gate vb vg)
      (λ vg' ft', detecting ft1 ρ (λ i, is_Some (vg' !! i)) ft' ∧
         ∀ i, vg !! i = None → is_Some (vg' !! i) →
              (rank i ≤ rank gate)%nat) ft.
Proof.
  intros Hranked.
  induction fuel as [|fuel IH]; intros gate vg ft [g Hg1] Hdet; [done|].
  cbn [FindOriginalModules]. cbv zeta.
  case_decide as Hvisited.
  { apply wp_ret. split; [done|]. intros i Hi [x Hx]. congruence. }
  assert (Hunv : vg !! gate = None).
  { destruct (vg !! gate) eqn:E; [|done]. destruct Hvisited. by eexists. }
  pose proof Hdet as (Htop & Hgi & Hfresh & Hkept & Hval).
  assert (Hg : indexed_gates_ ft !! gate = Some g).
  { apply Hkept; [done|]. rewrite Hunv. by intros [x Hx]. }
  apply wp_bind, wp_find_gate. rewrite Hg.
  apply wp_bind, wp_get. rewrite Htop. apply wp_bind.
  eapply wp_mono.
  { apply (wp_for_fold_prefix _ _ _ _
      (λ pre s ft',
         detecting ft1 ρ (λ i, is_Some (s.2 !! i)) ft' ∧
         s.2 !! gate = None ∧
         (∀ i, vg !! i = None → is_Some (s.2 !! i) →
               (rank i < rank gate)%nat) ∧
         pre ≡ₚ non_shared_children s.1 ++ modular_children s.1
                ++ non_modular_children s.1)).
    - intros pre c post [k vgc] ftc Hl (Hdetc & Hunc & Hrank & Hperm).
      simpl in Hunc, Hrank, Hperm, Hdetc.
      assert (Hc : c ∈ Gate.children g).
      { apply elem_of_ascending. rewrite Hl. apply elem_of_app. right.
        by left. }
      destruct (Z.abs c <? top_event_index_ ft1) eqn:Hlt.
      + apply wp_bind. eapply wp_mono; [apply basic_visits_pure|].
        intros [lo hi] ft2 ->. case_decide.
        * apply wp_bind, wp_assert. case_bool_decide; [|done].
          apply wp_ret. simpl. repeat (split; [done|]).
          by apply classified_non_shared.
        * apply wp_bind, wp_assert. destruct (negb _); [|done].
          apply wp_bind, wp_assert. destruct (negb _); [|done].
          apply wp_ret. simpl. repeat (split; [done|]).
          by apply classified_classify.
      + apply Z.ltb_ge in Hlt.
        destruct (Hranked gate g c Hg1 Hc Hlt) as [Hkey Hlower].
        apply wp_bind, wp_assert. destruct (c >? 0) eqn:Hpos; [|done].
        apply wp_bind, wp_find_gate.
        destruct (indexed_gates_ ftc !! Z.abs c); [|done].
        apply wp_bind. eapply wp_mono; [by apply IH|].
        intros vg2 ft2 [Hdet2 Hrank2].
        assert (Hun2 : vg2 !! gate = None).
        { destruct (vg2 !! gate) eqn:E; [|done].
          specialize (Hrank2 gate Hunc). rewrite E in Hrank2.
          specialize (Hrank2 ltac:(by eexists)). lia. }
        assert (Hrank' : ∀ i, vg !! i = None → is_Some (vg2 !! i) →
                              (rank i < rank gate)%nat).
        { intros j Hj Hj2. destruct (vgc !! j) eqn:E.
          - apply Hrank; [done|]. rewrite E. by eexists.
          - specialize (Hrank2 j E Hj2). lia. }
        apply wp_bind, wp_find_gate.
        destruct (indexed_gates_ ft2 !! Z.abs c); [|done].
        destruct (vg2 !! Z.abs c) as [[lo hi]|]; [|done].
        apply wp_bind, wp_get. destruct (_ && _).
        * apply wp_ret. simpl. repeat (split; [done|]).
          by apply classified_non_shared.
        * apply wp_bind, wp_assert. destruct (negb _); [|done].
          apply wp_bind, wp_assert. destruct (negb _); [|done].
          apply wp_ret. simpl. repeat (split; [done|]).
          by apply classified_classify.
    - simpl. repeat (split; [done|]). split; [|done].
      intros i Hi [x Hx]. congruence. }
  intros [k vgl] ftl (Hdetl & Hunl & Hrankl & Hperm).
  simpl in Hdetl, Hunl, Hrankl, Hperm.
  assert (Hnodup : NoDup (non_shared_children k ++ modular_children k
                          ++ non_modular_children k)).
  { rewrite <- Hperm. apply NoDup_ascending. }
  assert (Hchild : ∀ c, c ∈ non_shared_children k ++ modular_children k
                          ++ non_modular_children k → c ∈ Gate.children g).
  { intros c Hc. rewrite <- Hperm in Hc. by apply elem_of_ascending. }
  apply NoDup_app in Hnodup as (Hnd_ns & Hdisj & Hnd_rest).
  apply NoDup_app in Hnd_rest as (Hnd_mc & _ & _).
  set (Vl := λ i : Z, is_Some (vgl !! i)) in *.
  assert (Hnot : ¬ Vl gate) by (unfold Vl; rewrite Hunl; by intros [x Hx]).
  apply wp_bind. eapply (wp_mono _ _ (λ _, detecting ft1 ρ Vl)).
  { case_bool_decide; [|by apply wp_ret].
    apply wp_bind, wp_find_gate. destruct (indexed_gates_ ftl !! gate); [|done].
    apply wp_bind, wp_assert. destruct (bool_decide _); [|done].
    apply wp_modify. by apply detecting_modules. }
  intros [] ft2 Hdet2.
  assert (Hg2 : indexed_gates_ ft2 !! gate = Some g).
  { destruct Hdet2 as (_ & _ & _ & Hkept2 & _). by apply Hkept2. }
  apply wp_bind.
  eapply (wp_mono _ _
    (λ _ ft', detecting ft1 ρ (λ i, Vl i ∨ i = gate) ft' ∧
       ∃ g', indexed_gates_ ft' !! gate = Some g' ∧
             ∀ c, c ∈ Gate.children g → c ∉ non_shared_children k →
                  c ∈ Gate.children g')).
  { case_bool_decide.
    - apply (CreateNewModule_kept ft1 ρ Vl gate _ ft2 g); [done..|].
      intros c Hc. apply Hchild. apply elem_of_app. by left.
    - apply wp_ret. split; [|by exists g].
      eapply detecting_weaken; [|done]. by left. }
  intros [] ft3 (Hdet3 & g3 & Hg3 & Hrest3). apply wp_bind.
  eapply wp_mono; [apply FilterModularChildren_filtered|].
  intros [modular rest] ft4 (-> & Hsub & _). simpl in Hsub. apply wp_bind.
  eapply (wp_mono _ _
    (λ _, detecting ft1 ρ (λ i, (Vl i ∨ i = gate) ∨ i = gate))).
  { case_bool_decide.
    - apply wp_bind, wp_assert. destruct (negb _); [|done].
      eapply wp_mono.
      { apply (CreateNewModule_kept ft1 ρ (λ j, Vl j ∨ j = gate) gate _ ft3
                 g3); [done..| |].
        - by apply (sublist_NoDup _ (modular_children k)).
        - intros c Hc. eapply elem_of_sublist in Hc; [|done].
          apply Hrest3.
          + apply Hchild. apply elem_of_app. right. apply elem_of_app.
            by left.
          + intros Hns. apply (Hdisj c Hns). apply elem_of_app. by left. }
      by intros [] ft5 [? _].
    - apply wp_ret. eapply detecting_weaken; [|done]. by left. }
  intros [] ft5 Hdet5.
  apply wp_bind, wp_find_gate. destruct (indexed_gates_ ft5 !! gate); [|done].
  apply wp_ret. rewrite Hunl. split.
  - eapply detecting_weaken; [|done]. intros j [[Hj| ->]| ->].
    + destruct (decide (j = gate)) as [->|Hne].
      * rewrite lookup_insert_eq. by eexists.
      * by rewrite lookup_insert_ne.
    + rewrite lookup_insert_eq. by eexists.
    + rewrite lookup_insert_eq. by eexists.
  - intros j Hj Hj'. destruct (decide (j = gate)) as [->|Hne]; [done|].
    rewrite lookup_insert_ne in Hj' by done.
    specialize (Hrankl j Hj Hj'). lia.
Qed.

(** X15 (IndexedFaultTree::DetectModules, with AssignTiming,
    FindOriginalModules and CreateNewModule): module detection does not
    change what the gates compute.  On a graph without cycles, in which every
    reference to a gate leads to a gate and the indices above new_gate_index_
    are free, a gate that has a value under an assignment of the basic events
    has the same value after DetectModules has returned, whatever modules it
    has split off. *)
Theorem DetectModules_keeps_values (fuel : nat) (num_basic_events : Z)
    (ft ft' : IndexedFaultTree) (rank : Z → nat) (ρ : Z → bool)
    (i : Z) (v : bool) :
  fresh_indices ft → ranked rank ft →
  DetectModules fuel num_basic_events ft = Done tt ft' →
  value ft ρ i v → value ft' ρ i v.
Proof.
  intros Hfresh Hranked Hrun. revert i v.
  cut (wp any_failure (DetectModules fuel num_basic_events)
          (λ _ ft', ∀ i v, value ft ρ i v → value ft' ρ i v) ft).
  { intros H. apply (wp_done _ _ _ _ _ _ H Hrun). }
  unfold DetectModules. cbv zeta.
  apply wp_bind, wp_get. apply wp_bind, wp_find_gate.
  destruct (indexed_gates_ ft !! top_event_index_ ft) as [top_gate|] eqn:Htop;
    [|done].
  apply wp_bind. eapply wp_mono.
  { by apply (same_graph_AssignTiming ft). }
  intros [time vb] ft1 Hsame. apply wp_bind. eapply wp_mono.
  { apply (FindOriginalModules_kept ft1 ρ rank).
    - by apply (same_graph_ranked _ ft).
    - destruct Hsame as (_ & _ & _ & _ & Hs).
      destruct (Hs _ _ Htop) as (g' & -> & _). done.
    - repeat (split; [done|]). split; [by apply (same_graph_fresh ft)|].
      split; [by auto|done]. }
  intros vg ft2 [(_ & _ & _ & _ & Hval) _].
  apply wp_bind, wp_find_gate.
  destruct (indexed_gates_ ft2 !! top_event_index_ ft) as [g2|]; [|done].
  destruct (vg !! top_event_index_ ft) as [[first second]|]; [|done].
  apply wp_bind, wp_assert. case_bool_decide; [|done].
  apply wp_bind, wp_assert. destruct (negb _); [|done].
  apply wp_assert. case_bool_decide; [|done].
  intros i v [n Hn]. apply Hval. exists n.
  by apply (same_graph_value ft).
Qed.

Lemma DetectModules_keeps_values_witness :
  value (state_after (DetectModules 10 5) shared_event) (λ _, true) 6 true.
Proof.
  apply (DetectModules_keeps_values 10 5 shared_event _
           (λ i, if decide (i = 6) then 1%nat else 0%nat)).
  - repeat split; [done..|]. intros i Hi.
    unfold shared_event, input_tree in *. simpl in *.
    rewrite !lookup_insert_ne by lia. apply lookup_empty.
  - intros i g c Hg Hc Hle.
    unfold shared_event, input_tree in Hg, Hle |- *. simpl in Hg, Hle |- *.
    repeat (apply lookup_insert_Some in Hg as [[<- <-]|[? Hg]]);
      [| | |by rewrite lookup_empty in Hg];
      simpl in Hc; set_unfold in Hc;
      (repeat destruct Hc as [->|Hc]; try subst c); try (simpl in Hle; lia);
      (split; [vm_compute; by eexists|simpl; lia]).
  - vm_compute. reflexivity.
  - exists 2%nat. vm_compute. reflexivity.
Defined.

Section meant.
Context (ft0 : IndexedFaultTree) (ρ : Z → bool).

Lemma eval_literal_mono n ft c v :
  eval_literal n ft ρ c = Some v → eval_literal (S n) ft ρ c = Some v.
Proof.
  apply eval_literal_impl; [done|]. intros i b. apply eval_gate_mono.
Qed.

Lemma meant_value_mono μ m i v :
  meant_value ft0 ρ μ m i = Some v → meant_value ft0 ρ μ (S m) i = Some v.
Proof.
  unfold meant_value. destruct (μ !! i).
  - apply eval_literal_mono.
  - apply eval_gate_mono.
Qed.

Lemma meant_literal_mono μ m c v :
  meant_literal ft0 ρ μ m c = Some v →
  meant_literal ft0 ρ μ (S m) c = Some v.
Proof.
  unfold meant_literal. destruct (Z.abs c >? gate_index_ ft0); [|done].
  destruct (meant_value ft0 ρ μ m (Z.abs c)) as [b|] eqn:Hb; [|done].
  by rewrite (meant_value_mono _ _ _ _ Hb).
Qed.

Lemma meant_literal_opp μ m c :
  c ≠ 0 →
  meant_literal ft0 ρ μ m (- c) = negb <$> meant_literal ft0 ρ μ m c.
Proof.
  intros Hc. unfold meant_literal. rewrite Z.abs_opp.
  destruct (if Z.abs c >? gate_index_ ft0 then _ else _) as [v|]; [|done].
  simpl. f_equal.
  destruct (c <? 0) eqn:H1, (- c <? 0) eqn:H2; try lia;
    by destruct v.
Qed.

Lemma meant_literal_gate μ m i :
  0 < i → gate_index_ ft0 < i →
  meant_literal ft0 ρ μ m i = meant_value ft0 ρ μ m i.
Proof.
  intros Hpos Hgi. unfold meant_literal. rewrite Z.abs_eq by lia.
  destruct (i >? gate_index_ ft0) eqn:H1; [|lia].
  destruct (i <? 0) eqn:H2; [lia|].
  by destruct (meant_value ft0 ρ μ m i).
Qed.

Lemma meant_value_known μ m i v :
  meant_value ft0 ρ μ m i = Some v → known ft0 μ i.
Proof.
  unfold meant_value, known. destruct (μ !! i) as [l|]; [by right; eexists|].
  destruct m as [|m]; [done|]. rewrite eval_gate_S.
  destruct (indexed_gates_ ft0 !! i); [by left; eexists|done].
Qed.

(** The literal that a gate stands for has the value that the gate stands
    for. *)
Lemma meant_value_literal μ m o :
  0 < o → gate_index_ ft0 < o →
  eval_literal m ft0 ρ (meant μ o) = meant_value ft0 ρ μ m o.
Proof.
  intros Hpos Hgi. unfold meant, meant_value.
  destruct (μ !! o) as [l|]; [done|]. simpl. by apply eval_literal_gate.
Qed.

Lemma meant_nonzero μ o :
  0 ≤ gate_index_ ft0 →
  (∀ j l, μ !! j = Some l → gate_index_ ft0 < Z.abs l) →
  0 < o → meant μ o ≠ 0.
Proof.
  intros Hgi Hμ Hpos. unfold meant.
  destruct (μ !! o) as [l|] eqn:Hl; simpl; [|lia].
  specialize (Hμ o l Hl). lia.
Qed.

(** A known complement has the opposite value. *)
Lemma meant_value_complement μ m o nm :
  0 ≤ gate_index_ ft0 →
  (∀ j l, μ !! j = Some l → gate_index_ ft0 < Z.abs l) →
  μ !! nm = Some (- meant μ o) →
  0 < o → gate_index_ ft0 < o →
  meant_value ft0 ρ μ m nm = negb <$> meant_value ft0 ρ μ m o.
Proof.
  intros Hgi Hμ Hnm Hpos Hlt. unfold meant_value at 1. rewrite Hnm.
  rewrite eval_literal_opp by by apply meant_nonzero.
  by rewrite meant_value_literal.
Qed.

(** A larger table of added gates keeps what the gates stand for. *)
Lemma stands_for_added μ nm l i g' :
  indexed_gates_ ft0 !! nm = None → μ !! nm = None → i ≠ nm →
  stands_for ft0 ρ μ i g' → stands_for ft0 ρ (<[nm := l]> μ) i g'.
Proof.
  intros Hnm0 Hnm Hne Hg m v. unfold meant_value at 1.
  rewrite lookup_insert_ne by done. intros Hv.
  eapply gate_value_impl; [|by apply Hg].
  intros c b. unfold meant_literal.
  destruct (Z.abs c >? gate_index_ ft0); [|done].
  unfold meant_value. destruct (decide (Z.abs c = nm)) as [->|Hc].
  - rewrite Hnm. destruct m as [|m]; [done|].
    by rewrite eval_gate_S, Hnm0.
  - by rewrite lookup_insert_ne.
Qed.

(** The graph has the values of the gates that its gates stand for. *)
Lemma complementing_value μ s ft :
  complementing ft0 ρ μ s ft →
  ∀ m j v, meant_value ft0 ρ μ m j = Some v → eval_gate m ft ρ j = Some v.
Proof.
  intros (_ & Hgi & _ & _ & _ & _ & _ & Hμ & _ & Hsound & _).
  induction m as [|m IH]; intros j v Hv.
  { unfold meant_value in Hv. destruct (μ !! j) as [l|] eqn:Hl; [|done].
    destruct (Hμ j l Hl) as (_ & _ & _ & Hlt).
    unfold eval_literal in Hv.
    destruct (Z.abs l >? gate_index_ ft0) eqn:E; [done|lia]. }
  destruct (Hsound j) as (g' & Hg' & Hstands);
    [by eapply meant_value_known|].
  rewrite eval_gate_value, Hg'. simpl.
  eapply gate_value_impl; [|by apply Hstands].
  intros c b. unfold meant_literal, eval_literal. rewrite Hgi.
  destruct (Z.abs c >? gate_index_ ft0); [|done].
  destruct (meant_value ft0 ρ μ m (Z.abs c)) as [u|] eqn:Hu; [|done].
  by rewrite (IH _ _ Hu).
Qed.

End meant.

(** ** Gates whose child is replaced by a literal of the same value *)

Lemma combined_singleton (w : Z → option bool) t x vc :
  w x = Some vc → combined w t {[x]} vc.
Proof.
  intros Hx. split.
  - intros c ->%elem_of_singleton. by eexists.
  - case_decide.
    + split.
      * intros -> c ->%elem_of_singleton. done.
      * intros Hall. specialize (Hall x ltac:(by apply elem_of_singleton)).
        congruence.
    + split.
      * intros ->. exists x. split; [by apply elem_of_singleton|done].
      * intros (c & ->%elem_of_singleton & Hc). congruence.
Qed.

(** The only child of a NOT or NULL gate that has a value. *)
Lemma only_child w g v c :
  Gate.state g = kNormalState →
  Gate.type g = kNotGate ∨ Gate.type g = kNullGate →
  gate_value w g = Some v → c ∈ Gate.children g →
  Gate.children g = {[c]} ∧
  w c = Some (if decide (Gate.type g = kNotGate) then negb v else v).
Proof.
  intros Hst Hty Hv Hc. unfold gate_value in Hv. rewrite Hst in Hv.
  destruct (mapM w (ascending (Gate.children g))) as [vs|] eqn:Hvs; [|done].
  simpl in Hv. apply mapM_Some_1 in Hvs.
  pose proof (Forall2_length _ _ _ Hvs) as Hlen.
  assert (Hone : ∃ v0, vs = [v0] ∧
            v = if decide (Gate.type g = kNotGate) then negb v0 else v0).
  { destruct Hty as [Hty|Hty]; rewrite Hty in Hv |- *; simpl in Hv;
      destruct vs as [|v0 [|? ?]]; try done; injection Hv as <-;
      exists v0; (split; [done|]); by case_decide. }
  destruct Hone as (v0 & -> & ->).
  destruct (ascending (Gate.children g)) as [|c0 [|? ?]] eqn:Hasc; try done.
  apply Forall2_cons_1 in Hvs as [Hc0 _].
  assert (c = c0) as ->.
  { apply elem_of_ascending in Hc. rewrite Hasc in Hc.
    by apply list_elem_of_singleton in Hc. }
  split.
  - apply set_eq. intros x. rewrite elem_of_singleton.
    rewrite <- elem_of_ascending, Hasc. apply list_elem_of_singleton.
  - rewrite Hc0. f_equal. case_decide; [by rewrite negb_involutive|done].
Qed.

Lemma single_value w g (c : Z) vc :
  Gate.state g = kNormalState →
  Gate.type g = kNotGate ∨ Gate.type g = kNullGate →
  Gate.children g = {[c]} → w c = Some vc →
  gate_value w g
  = Some (if decide (Gate.type g = kNotGate) then negb vc else vc).
Proof.
  intros Hst Hty Hch Hc. unfold gate_value.
  rewrite Hst, Hch, ascending_singleton. simpl. rewrite Hc. simpl.
  destruct Hty as [Hty|Hty]; rewrite Hty; simpl;
    first [done | by case_decide].
Qed.

(** A child is replaced by a literal that has its value. *)
Lemma replaced_value w g (c x : Z) v vc :
  Gate.state g = kNormalState → normalized (Gate.type g) →
  c ∈ Gate.children g →
  gate_value w g = Some v →
  (w c = Some vc → w x = Some vc) →
  w c = Some vc →
  gate_value w (Gate.set_children (Gate.children g ∖ {[c]} ∪ {[x]}) g)
  = Some v.
Proof.
  intros Hst Hty Hc Hv Hx Hvc.
  destruct Hty as [Hty|[Hty|Hty]];
    [apply (merged_value w g c {[x]} v vc); try done;
       [unfold and_or; tauto|apply combined_singleton; auto]..|].
  destruct (only_child w g v c Hst) as [Hch Hwc]; [tauto|done|done|].
  rewrite Hch.
  replace ({[c]} ∖ {[c]} ∪ {[x]} : gset Z) with ({[x]} : gset Z)
    by set_solver.
  rewrite (single_value w _ x vc); [|done|simpl; tauto|done|by apply Hx].
  simpl. f_equal. rewrite Hvc in Hwc. injection Hwc as ->.
  case_decide; [by rewrite negb_involutive|done].
Qed.

(** De Morgan: the gate of the other kind over the opposite literals has
    the opposite value. *)
Lemma dual_value (w w' : Z → option bool) g v :
  Gate.state g = kNormalState → and_or (Gate.type g) →
  (∀ c b, c ∈ Gate.children g → w c = Some b → w' (- c) = Some (negb b)) →
  gate_value w g = Some (negb v) →
  gate_value w'
    (Gate.InvertChildren
       (Gate.set_children (Gate.children g)
          (Gate.create (if decide (Gate.type g = kOrGate)
                        then kAndGate else kOrGate)))) = Some v.
Proof.
  intros Hst Hand Hopp Hv.
  apply (and_or_value w g _ Hst Hand) in Hv as [Hdef Hv].
  assert (Hall : ∀ b,
    (∀ c, c ∈ (set_map Z.opp (Gate.children g) : gset Z) →
          w' c = Some b) ↔
    (∀ x, x ∈ Gate.children g → w x = Some (negb b))).
  { intros b. split.
    - intros H x Hx. destruct (Hdef x Hx) as [u Hu].
      specialize (H (- x) ltac:(apply elem_of_map; eauto)).
      rewrite (Hopp x u Hx Hu) in H. injection H as <-.
      by rewrite negb_involutive.
    - intros H c Hc. apply elem_of_map in Hc as (x & -> & Hx).
      rewrite (Hopp x _ Hx (H x Hx)). by rewrite negb_involutive. }
  assert (Hex : ∀ b,
    (∃ c, c ∈ (set_map Z.opp (Gate.children g) : gset Z) ∧
          w' c = Some b) ↔
    (∃ x, x ∈ Gate.children g ∧ w x = Some (negb b))).
  { intros b. split.
    - intros (c & Hc & Hb). apply elem_of_map in Hc as (x & -> & Hx).
      exists x. split; [done|]. destruct (Hdef x Hx) as [u Hu].
      rewrite (Hopp x u Hx Hu) in Hb. injection Hb as <-.
      by rewrite negb_involutive.
    - intros (x & Hx & Hb). exists (- x).
      split; [apply elem_of_map; eauto|].
      rewrite (Hopp x _ Hx Hb). by rewrite negb_involutive. }
  assert (Hdef' : ∀ c, c ∈ (set_map Z.opp (Gate.children g) : gset Z) →
                       is_Some (w' c)).
  { intros c Hc. apply elem_of_map in Hc as (x & -> & Hx).
    destruct (Hdef x Hx) as [b Hb]. rewrite (Hopp x b Hx Hb). by eexists. }
  destruct Hand as [Ht|Ht]; rewrite Ht in Hv |- *.
  - (* AND gate, OR complement *)
    rewrite decide_False by done. rewrite decide_True in Hv by done.
    apply and_or_value; [done|by right|]. split; [done|].
    cbn [Gate.type Gate.children Gate.InvertChildren Gate.set_children
         Gate.create].
    rewrite decide_False by done. rewrite (Hex true). simpl. split.
    + intros ->. simpl in Hv.
      destruct (decide (set_Exists (λ x, w x = Some false) (Gate.children g)))
        as [(x & Hx & Hb)|Hno]; [by exists x|].
      exfalso. assert (false = true); [|done]. apply Hv. intros x Hx.
      destruct (Hdef x Hx) as [[|] Hb]; [done|]. destruct Hno. by exists x.
    + intros (x & Hx & Hb). destruct v; [done|]. simpl in Hv.
      assert (w x = Some true) by by apply Hv. congruence.
  - (* OR gate, AND complement *)
    rewrite decide_True by done. rewrite decide_False in Hv by done.
    apply and_or_value; [done|by left|]. split; [done|].
    cbn [Gate.type Gate.children Gate.InvertChildren Gate.set_children
         Gate.create].
    rewrite decide_True by done. rewrite (Hall true). simpl. split.
    + intros -> x Hx. simpl in Hv. destruct (Hdef x Hx) as [[|] Hu];
        [|done]. exfalso. assert (false = true); [|done].
      apply Hv. eauto.
    + intros Hnone. destruct v; [done|]. simpl in Hv.
      destruct Hv as [(x & Hx & Hb) _]; [done|].
      rewrite (Hnone x Hx) in Hb. done.
Qed.

(** ** The steps of complement propagation *)

Lemma gate_value_child w g v c :
  Gate.state g = kNormalState → gate_value w g = Some v →
  c ∈ Gate.children g → is_Some (w c).
Proof.
  intros Hst Hv Hc. unfold gate_value in Hv. rewrite Hst in Hv.
  destruct (mapM w (ascending (Gate.children g))) as [vs|] eqn:Hvs; [|done].
  by eapply values_defined.
Qed.

Lemma SwapChild_normal c x g :
  Gate.state (Gate.SwapChild c x g).2 = kNormalState →
  Gate.state g = kNormalState ∧
  Gate.SwapChild c x g
  = (true, Gate.set_children (Gate.children g ∖ {[c]} ∪ {[x]}) g).
Proof.
  unfold Gate.SwapChild, Gate.AddChild. case_decide; simpl.
  - by destruct (Gate.type g).
  - done.
Qed.

Lemma normal_states_update ft ft' gate g g1 :
  indexed_gates_ ft !! gate = Some g →
  indexed_gates_ ft' = <[gate := g1]> (indexed_gates_ ft) →
  (Gate.state g1 = kNormalState → Gate.state g = kNormalState) →
  normal_states ft' → normal_states ft.
Proof.
  intros Hg Hgates Hst Hn i gi Hi. destruct (decide (i = gate)) as [->|Hne].
  - assert (gi = g) as -> by congruence. apply Hst, (Hn gate).
    rewrite Hgates. apply lookup_insert_eq.
  - apply (Hn i). rewrite Hgates. by rewrite lookup_insert_ne.
Qed.

Lemma normal_states_insert ft ft' nm g1 :
  indexed_gates_ ft !! nm = None →
  indexed_gates_ ft' = <[nm := g1]> (indexed_gates_ ft) →
  normal_states ft' → normal_states ft.
Proof.
  intros Hnm Hgates Hn i gi Hi. apply (Hn i). rewrite Hgates.
  rewrite lookup_insert_ne; [done|]. congruence.
Qed.

Section steps.
Context (ft0 : IndexedFaultTree) (ρ : Z → bool).

(** The processed gates play no part but for the top event. *)
Lemma complementing_processed μ comps P P' ft :
  complementing ft0 ρ μ (comps, P) ft → top_event_index_ ft0 ∉ P' →
  complementing ft0 ρ μ (comps, P') ft.
Proof.
  intros (? & ? & ? & ? & ? & ? & ? & ? & ? & ? & ?) HP'.
  repeat (split; [done|]). done.
Qed.

(** A gate gets a record that has the value that the gate stands for. *)
Lemma complementing_update μ s ft ft' gate g g1 :
  complementing ft0 ρ μ s ft →
  top_event_index_ ft' = top_event_index_ ft →
  gate_index_ ft' = gate_index_ ft →
  top_event_sign_ ft' = top_event_sign_ ft →
  new_gate_index_ ft' = new_gate_index_ ft →
  indexed_gates_ ft' = <[gate := g1]> (indexed_gates_ ft) →
  indexed_gates_ ft !! gate = Some g →
  Gate.type g1 = Gate.type g →
  (∀ c, c ∈ Gate.children g1 → c ∈ Gate.children g ∨
        (c ≠ 0 ∧ Z.abs c ≠ top_event_index_ ft0)) →
  (stands_for ft0 ρ μ gate g → stands_for ft0 ρ μ gate g1) →
  complementing ft0 ρ μ s ft'.
Proof.
  intros (Htop & Hgi & Hsign & Hnew & Htidy & HP & Hkey & Hμ & Hknown
          & Hsound & Hcomps) Htop' Hgi' Hsign' Hnew' Hgates Hg Hty Hch Hval.
  split; [congruence|]. split; [congruence|]. split; [congruence|].
  split; [lia|]. split.
  { intros i gi. rewrite Hgates, Htop', Htop.
    destruct (decide (i = gate)) as [->|Hne].
    - rewrite lookup_insert_eq. intros [= <-].
      destruct (Htidy gate g Hg) as [Hnorm Hall]. rewrite Hty.
      split; [done|]. intros c Hc. destruct (Hch c Hc) as [Hold|?]; [|done].
      rewrite <- Htop. by apply Hall.
    - rewrite lookup_insert_ne by done. intros Hi. rewrite <- Htop.
      by apply (Htidy i). }
  repeat (split; [done|]). split.
  { intros j. rewrite Hgates. destruct (decide (j = gate)) as [->|Hne].
    - intros _. apply Hknown. by eexists.
    - rewrite lookup_insert_ne by done. apply Hknown. }
  split; [|done].
  intros j Hj. rewrite Hgates. destruct (Hsound j Hj) as (gj & Hgj & Hst).
  destruct (decide (j = gate)) as [->|Hne].
  - rewrite lookup_insert_eq. exists g1. split; [done|]. apply Hval.
    assert (gj = g) as -> by congruence. done.
  - rewrite lookup_insert_ne by done. by exists gj.
Qed.

(** A child of a gate is replaced by a literal that stands for the same
    value. *)
Lemma complementing_swap μ s ft ft' gate g c x :
  complementing ft0 ρ μ s ft →
  top_event_index_ ft' = top_event_index_ ft →
  gate_index_ ft' = gate_index_ ft →
  top_event_sign_ ft' = top_event_sign_ ft →
  new_gate_index_ ft' = new_gate_index_ ft →
  indexed_gates_ ft'
  = <[gate := (Gate.SwapChild c x g).2]> (indexed_gates_ ft) →
  indexed_gates_ ft !! gate = Some g →
  Gate.state (Gate.SwapChild c x g).2 = kNormalState →
  c ∈ Gate.children g →
  x ≠ 0 → Z.abs x ≠ top_event_index_ ft0 →
  (∀ m vc, meant_literal ft0 ρ μ m c = Some vc →
           meant_literal ft0 ρ μ m x = Some vc) →
  complementing ft0 ρ μ s ft'.
Proof.
  intros Hinv Htop' Hgi' Hsign' Hnew' Hgates Hg Hst Hc Hx0 Hxtop Hlit.
  destruct (SwapChild_normal c x g Hst) as [Hstg Hsw].
  rewrite Hsw in Hgates. simpl in Hgates.
  apply (complementing_update μ s ft ft' gate g
           (Gate.set_children (Gate.children g ∖ {[c]} ∪ {[x]}) g));
    try done.
  - simpl. intros c' Hc'. apply elem_of_union in Hc' as [Hc'|Hc'].
    + left. by apply elem_of_difference in Hc' as [? _].
    + apply elem_of_singleton in Hc' as ->. by right.
  - intros Hval m v Hv. specialize (Hval m v Hv).
    destruct (gate_value_child _ g v c Hstg Hval Hc) as [vc Hvc].
    apply (replaced_value _ g c x v vc); try done; [|by apply Hlit].
    destruct Hinv as (_ & _ & _ & _ & Htidy & _). by apply (Htidy gate).
Qed.

(** The literal that replaces a NOT or NULL child. *)
Lemma complementing_not_child μ s ft c gc grandchild m vc :
  complementing ft0 ρ μ s ft → normal_states ft →
  gate_index_ ft0 < Z.abs c →
  indexed_gates_ ft !! Z.abs c = Some gc →
  Gate.type gc = kNotGate ∨ Gate.type gc = kNullGate →
  grandchild ∈ Gate.children gc →
  meant_literal ft0 ρ μ m c = Some vc →
  meant_literal ft0 ρ μ m
    (grandchild * ((if decide (Gate.type gc = kNotGate) then -1 else 1)
                   * (if c >? 0 then 1 else -1))) = Some vc.
Proof.
  intros (_ & Hgi & _ & Hnew & Htidy & _ & _ & Hμ & _ & Hsound & _) Hnormal
    Hlt Hgc Hty Hgch Hc.
  assert (Hgch0 : grandchild ≠ 0) by by apply (Htidy _ gc Hgc).
  unfold meant_literal in Hc.
  destruct (Z.abs c >? gate_index_ ft0) eqn:E; [|lia].
  destruct (meant_value ft0 ρ μ m (Z.abs c)) as [u|] eqn:Hu; [|done].
  simpl in Hc. injection Hc as <-.
  destruct m as [|m].
  { unfold meant_value in Hu. destruct (μ !! Z.abs c) as [l|] eqn:Hl; [|done].
    destruct (Hμ _ l Hl) as (_ & _ & _ & Hll). unfold eval_literal in Hu.
    destruct (Z.abs l >? gate_index_ ft0) eqn:E'; [done|lia]. }
  destruct (Hsound (Z.abs c)) as (g' & Hg' & Hst);
    [by eapply meant_value_known|].
  assert (g' = gc) as -> by congruence.
  specialize (Hst m u Hu).
  destruct (only_child _ gc u grandchild (Hnormal _ _ Hgc) Hty Hst Hgch)
    as [_ Hw].
  apply meant_literal_mono in Hw.
  destruct (decide (Gate.type gc = kNotGate)), (c >? 0) eqn:Hpos.
  - replace (grandchild * (-1 * 1)) with (- grandchild) by lia.
    rewrite meant_literal_opp, Hw by done. simpl.
    destruct (c <? 0) eqn:E2; [lia|]. by rewrite negb_involutive.
  - replace (grandchild * (-1 * -1)) with grandchild by lia.
    rewrite Hw. destruct (c <? 0) eqn:E2; [done|lia].
  - replace (grandchild * (1 * 1)) with grandchild by lia.
    rewrite Hw. destruct (c <? 0) eqn:E2; [lia|done].
  - replace (grandchild * (1 * -1)) with (- grandchild) by lia.
    rewrite meant_literal_opp, Hw by done. simpl.
    destruct (c <? 0) eqn:E2; [done|lia].
Qed.

(** The complement that replaces a negative reference to a gate. *)
Lemma complementing_complement μ s ft c nm m vc :
  complementing ft0 ρ μ s ft →
  gate_index_ ft0 < Z.abs c → c < 0 →
  μ !! nm = Some (- meant μ (- c)) →
  meant_literal ft0 ρ μ m c = Some vc →
  meant_literal ft0 ρ μ m nm = Some vc.
Proof.
  intros (_ & Hgi & _ & Hnew & _ & _ & _ & Hμ & _) Hlt Hneg Hnm.
  destruct (Hμ nm _ Hnm) as (_ & Hpos & Hgt & _).
  rewrite (meant_literal_gate ft0 ρ μ m nm) by done.
  rewrite (meant_value_complement ft0 ρ μ m (- c) nm); try done; try lia.
  2:{ intros j l Hl. by destruct (Hμ j l Hl) as (_ & _ & _ & ?). }
  rewrite <- (meant_literal_gate ft0 ρ μ m (- c)) by lia.
  rewrite meant_literal_opp by lia. intros ->. simpl.
  by rewrite negb_involutive.
Qed.

(** A complement gate is added. *)
Lemma complementing_add μ comps P ft ft' o go :
  complementing ft0 ρ μ (comps, P) ft → normal_states ft →
  indexed_gates_ ft !! o = Some go → and_or (Gate.type go) →
  0 < o → gate_index_ ft0 < o →
  let nm := new_gate_index_ ft + 1 in
  let dual :=
    Gate.InvertChildren
      (Gate.set_children (Gate.children go)
         (Gate.create (if decide (Gate.type go = kOrGate)
                       then kAndGate else kOrGate))) in
  indexed_gates_ ft !! nm = None →
  top_event_index_ ft' = top_event_index_ ft →
  gate_index_ ft' = gate_index_ ft →
  top_event_sign_ ft' = top_event_sign_ ft →
  new_gate_index_ ft' = nm →
  indexed_gates_ ft' = <[nm := dual]> (indexed_gates_ ft) →
  complementing ft0 ρ (<[nm := - meant μ o]> μ)
    (<[o := nm]> comps, P ∪ {[nm]}) ft'.
Proof.
  intros (Htop & Hgi & Hsign & Hnew & Htidy & HP & Hkey & Hμ & Hknown
          & Hsound & Hcomps) Hnormal Hgo Hand Hpos Hlt nm dual Hnm
    Htop' Hgi' Hsign' Hnew' Hgates.
  assert (Hfresh : ¬ known ft0 μ nm).
  { intros Hk. destruct (Hsound nm Hk) as (? & ? & _). congruence. }
  assert (Hnm0 : indexed_gates_ ft0 !! nm = None).
  { destruct (indexed_gates_ ft0 !! nm) eqn:E; [|done].
    destruct Hfresh. left. by eexists. }
  assert (Hnmμ : μ !! nm = None).
  { destruct (μ !! nm) eqn:E; [|done]. destruct Hfresh. right. by eexists. }
  assert (Hone : o ≠ nm) by congruence.
  assert (Hko : known ft0 μ o) by (apply Hknown; by eexists).
  assert (Hmeant : ∀ j, known ft0 μ j →
            meant (<[nm := - meant μ o]> μ) j = meant μ j).
  { intros j Hj. unfold meant. rewrite lookup_insert_ne; [done|].
    intros <-. done. }
  assert (Hμl : ∀ j l, μ !! j = Some l → gate_index_ ft0 < Z.abs l).
  { intros j l Hl. by destruct (Hμ j l Hl) as (_ & _ & _ & ?). }
  split; [congruence|]. split; [congruence|]. split; [congruence|].
  split; [lia|]. split.
  { intros i gi. rewrite Hgates, Htop', Htop.
    destruct (decide (i = nm)) as [->|Hne].
    - rewrite lookup_insert_eq. intros [= <-]. split.
      + unfold dual. simpl. unfold normalized. case_decide; auto.
      + unfold dual. simpl. intros c Hc.
        apply elem_of_map in Hc as (x & -> & Hx).
        destruct (Htidy o go Hgo) as [_ Hall].
        destruct (Hall x Hx) as [? Hxt]. rewrite Z.abs_opp, <- Htop.
        split; [lia|done].
    - rewrite lookup_insert_ne by done. intros Hi. rewrite <- Htop.
      by apply (Htidy i). }
  split.
  { simpl. intros Hin. apply elem_of_union in Hin as [?|Hin]; [done|].
    apply elem_of_singleton in Hin. destruct Hfresh. left. by rewrite <- Hin. }
  split; [done|]. split.
  { intros j l. destruct (decide (j = nm)) as [->|Hne].
    - rewrite lookup_insert_eq. intros [= <-]. split; [done|].
      split; [lia|]. split; [lia|]. rewrite Z.abs_opp. unfold meant.
      destruct (μ !! o) as [l|] eqn:Hl; simpl; [by eapply Hμl|lia].
    - rewrite lookup_insert_ne by done. apply Hμ. }
  assert (Hknown' : ∀ j, known ft0 μ j ∨ j = nm ↔
                         known ft0 (<[nm := - meant μ o]> μ) j).
  { intros j. unfold known. destruct (decide (j = nm)) as [->|Hne].
    - rewrite lookup_insert_eq. split; [|tauto]. intros _. right.
      by eexists.
    - rewrite lookup_insert_ne by done. tauto. }
  split.
  { intros j. rewrite Hgates. intros Hj. apply Hknown'.
    destruct (decide (j = nm)) as [->|Hne]; [by right|].
    rewrite lookup_insert_ne in Hj by done. left. by apply Hknown. }
  split.
  { intros j Hj. apply Hknown' in Hj. rewrite Hgates.
    destruct (decide (j = nm)) as [->|Hne].
    - rewrite lookup_insert_eq. exists dual. split; [done|].
      intros m v. unfold meant_value at 1. rewrite lookup_insert_eq.
      rewrite eval_literal_opp
        by (apply (meant_nonzero ft0); [lia|done|done]).
      rewrite meant_value_literal by done.
      destruct (meant_value ft0 ρ μ (S m) o) as [u|] eqn:Hu; [|done].
      simpl. intros [= <-].
      destruct (Hsound o Hko) as (g' & Hg' & Hst).
      assert (g' = go) as -> by congruence.
      specialize (Hst m u Hu).
      apply (dual_value (meant_literal ft0 ρ μ m)); try done.
      + by apply (Hnormal o).
      + intros c b Hc Hb.
        assert (Hc0 : c ≠ 0) by by apply (Htidy o go Hgo).
        rewrite meant_literal_opp by done.
        assert (Hadd : meant_literal ft0 ρ (<[nm := - meant μ o]> μ) m c
                       = Some b).
        { revert Hb. unfold meant_literal.
          destruct (Z.abs c >? gate_index_ ft0); [|done].
          unfold meant_value. destruct (decide (Z.abs c = nm)) as [->|Hcn].
          - rewrite Hnmμ. destruct m as [|m]; [done|].
            by rewrite eval_gate_S, Hnm0.
          - by rewrite lookup_insert_ne. }
        by rewrite Hadd.
      + by rewrite negb_involutive.
    - rewrite lookup_insert_ne by done.
      destruct Hj as [Hj|?]; [|done].
      destruct (Hsound j Hj) as (gj & Hgj & Hst). exists gj.
      split; [done|]. by apply stands_for_added. }
  intros o' nm'. simpl. destruct (decide (o' = o)) as [->|Hne].
  - rewrite lookup_insert_eq. intros [= <-]. split; [by apply Hknown'; left|].
    rewrite lookup_insert_eq. by rewrite Hmeant.
  - rewrite lookup_insert_ne by done. intros Ho'.
    destruct (Hcomps o' nm' Ho') as [Hk Hv]. split; [by apply Hknown'; left|].
    rewrite Hmeant by done. rewrite lookup_insert_ne; [done|].
    intros <-. congruence.
Qed.

End steps.

Lemma complements_known_processed comps P c gc ft :
  complements_known (comps, P) ft → indexed_gates_ ft !! c = Some gc →
  complements_known (comps, P ∪ {[c]}) ft.
Proof.
  intros (? & ? & Hex & Hcs) Hgc. split; [done|]. split; [done|]. split.
  - intros i Hi. simpl in Hi. apply elem_of_union in Hi as [Hi|Hi].
    + by apply Hex.
    + apply elem_of_singleton in Hi as ->. eauto.
  - intros k v Hk. destruct (Hcs k v Hk) as (? & ? & ?).
    split; [done|]. split; [set_solver|done].
Qed.

Lemma complements_loop_sound ft0 ρ rec fuel :
  (∀ c s ft, complements_known s ft →
     wp any_failure (rec c s) (complemented ft c s.2) ft) →
  (∀ c s ft, complements_known s ft → c ∈ s.2 →
     complements_sound ft0 ρ s ft →
     wp any_failure (rec c s) (complements_kept ft0 ρ ft) ft) →
  ∀ gate it s ft g,
    indexed_gates_ ft !! gate = Some g →
    complements_known s ft →
    gate ∈ s.2 ∨ gate = top_event_index_ ft0 →
    (normal_states ft → ∀ c, c ∈ it → c ∈ Gate.children g) →
    complements_sound ft0 ρ s ft →
    wp any_failure (complements_loop rec fuel gate it s)
       (complements_kept ft0 ρ ft) ft.
Proof.
  intros Hrec1 Hrec2. induction fuel as [|fuel IH];
    intros gate it [comps P] ft g Hg Hknown Hgate Hit Hsound; [done|].
  simpl in Hgate.
  destruct it as [|c rest].
  { apply wp_ret. by split. }
  assert (Hnext :
    wp any_failure (complements_loop rec fuel gate rest (comps, P))
       (complements_kept ft0 ρ ft) ft).
  { apply (IH gate rest (comps, P) ft g); try done.
    intros Hn c' Hc'. apply Hit; [done|by right]. }
  assert (Hrestart : ∀ s1 ft1,
    (normal_states ft1 → normal_states ft) →
    is_Some (indexed_gates_ ft1 !! gate) →
    complements_known s1 ft1 →
    gate ∈ s1.2 ∨ gate = top_event_index_ ft0 →
    complements_sound ft0 ρ s1 ft1 →
    wp any_failure
      (let* g := find_gate gate in
       complements_loop rec fuel gate (ascending (Gate.children g)) s1)
      (complements_kept ft0 ρ ft) ft1).
  { intros s1 ft1 Hback [g1 Hg1] Hk1 Hgate1 Hs1.
    apply wp_bind, wp_find_gate. rewrite Hg1. eapply wp_mono.
    { apply (IH gate _ s1 ft1 g1); try done.
      intros _ c' Hc'. by apply elem_of_ascending. }
    intros r ft' [Hb Hs]. split; [auto|done]. }
  assert (Hswap : ∀ g1,
    Gate.type g1 = Gate.type g →
    complements_known (comps, P)
      (set_gates (<[gate := g1]> (indexed_gates_ ft)) ft)).
  { intros g1 Hty1. eapply complements_known_mono; [done|].
    by apply (frame_update _ _ g). }
  assert (Hc : normal_states ft → c ∈ Gate.children g).
  { intros Hn. apply Hit; [done|by left]. }
  pose proof Hknown as (Hgi0 & Hnew0 & Hex & Hcs).
  cbn [complements_loop]. cbv zeta. apply wp_bind, wp_get.
  destruct (Z.abs c >? gate_index_ ft) eqn:Hgi; [|exact Hnext].
  apply wp_bind, wp_find_gate.
  destruct (indexed_gates_ ft !! Z.abs c) as [gc|] eqn:Hgc; [|done].
  case_bool_decide as Hgcty.
  { (* a NOT or NULL child is replaced by its own child *)
    apply wp_bind, wp_assert. case_bool_decide as Hone; [|done].
    destruct (ascending (Gate.children gc)) as [|grandchild l'] eqn:Hasc;
      [done|].
    assert (Hgch : grandchild ∈ Gate.children gc).
    { apply elem_of_ascending. rewrite Hasc. by left. }
    apply wp_bind, wp_call_gate. rewrite Hg.
    set (x := grandchild * _).
    set (sw := Gate.SwapChild c x g).
    set (ft1 := set_gates _ ft).
    assert (Hback : normal_states ft1 → normal_states ft).
    { apply (normal_states_update ft ft1 gate g sw.2); [done|done|].
      intros Hst. by destruct (SwapChild_normal _ _ _ Hst). }
    assert (Hs1 : complements_sound ft0 ρ (comps, P) ft1).
    { intros Hn1. pose proof (Hback Hn1) as Hn.
      destruct (Hsound Hn) as [μ Hμ]. exists μ.
      pose proof Hμ as (Htop & Hgi' & _ & _ & Htidy & _).
      destruct (Htidy _ gc Hgc) as [_ Hall].
      destruct (Hall grandchild Hgch) as [Hg0 Hgt].
      apply (complementing_swap ft0 ρ μ (comps, P) ft ft1 gate g c x);
        try done.
      - apply (Hn1 gate). subst ft1. tree_simpl. apply lookup_insert_eq.
      - by apply Hc.
      - subst x. destruct (decide _), (c >? 0); lia.
      - rewrite <- Htop. subst x. destruct (decide _), (c >? 0); lia.
      - intros m vc. subst x.
        apply (complementing_not_child ft0 ρ μ (comps, P) ft); try done.
        lia. }
    destruct sw.1 eqn:Hok.
    - apply Hrestart; try done.
      + subst ft1. tree_simpl. rewrite lookup_insert_eq. by eexists.
      + apply Hswap. apply type_SwapChild.
    - apply wp_ret. by split. }
  destruct (c <? 0) eqn:Hneg.
  - destruct (comps !! (- c)) as [complement|] eqn:Hcomp.
    + (* the complement of the child is known *)
      apply wp_bind, wp_call_gate. rewrite Hg.
      set (sw := Gate.SwapChild c complement g).
      set (ft1 := set_gates _ ft).
      assert (Hback : normal_states ft1 → normal_states ft).
      { apply (normal_states_update ft ft1 gate g sw.2); [done|done|].
        intros Hst. by destruct (SwapChild_normal _ _ _ Hst). }
      apply Hrestart; try done.
      * subst ft1. tree_simpl. rewrite lookup_insert_eq. by eexists.
      * apply Hswap. apply type_SwapChild.
      * intros Hn1. pose proof (Hback Hn1) as Hn.
        destruct (Hsound Hn) as [μ Hμ]. exists μ.
        pose proof Hμ as (Htop & Hgi' & _ & _ & _ & _ & Hkey & Hμl & _ & _
                          & Hcomps).
        destruct (Hcomps _ _ Hcomp) as [_ Hnm]. simpl in Hnm.
        destruct (Hμl _ _ Hnm) as (Hnm0 & Hpos & _).
        apply (complementing_swap ft0 ρ μ (comps, P) ft ft1 gate g c
                 complement); try done.
        -- apply (Hn1 gate). subst ft1. tree_simpl. apply lookup_insert_eq.
        -- by apply Hc.
        -- lia.
        -- rewrite Z.abs_eq by lia. intros ->. rewrite Hnm0 in Hkey.
           by destruct Hkey.
        -- intros m vc.
           apply (complementing_complement ft0 ρ μ (comps, P) ft); try done;
             lia.
    + (* the complement of the child is created *)
      apply wp_bind, wp_find_gate. rewrite Z.abs_neq in Hgc by lia.
      rewrite Hgc. apply wp_bind, wp_assert. case_bool_decide as Hand; [|done].
      apply wp_bind, wp_next_index. apply wp_bind, wp_insert_gate. tree_simpl.
      set (nm := new_gate_index_ ft + 1).
      destruct (indexed_gates_ ft !! nm) as [?|] eqn:Hnm; [done|].
      apply wp_bind, wp_find_gate. tree_simpl.
      assert (Hne_c : nm ≠ - c) by congruence.
      assert (Hne_gate : nm ≠ gate) by congruence.
      rewrite lookup_insert_ne by done. rewrite Hgc.
      apply wp_bind, wp_on_gate. tree_simpl. rewrite lookup_insert_eq.
      apply wp_bind, wp_on_gate. tree_simpl. rewrite lookup_insert_eq.
      apply wp_bind, wp_call_gate. tree_simpl.
      rewrite !insert_insert_eq. rewrite lookup_insert_ne by done. rewrite Hg.
      set (sw := Gate.SwapChild c nm g).
      set (dual := Gate.InvertChildren _).
      set (ft1 := set_gates _ _).
      set (ft_mid := set_gates (<[nm := dual]> (indexed_gates_ ft))
                       (set_new_index nm ft)).
      assert (Hgates1 : indexed_gates_ ft1
                        = <[gate := sw.2]> (indexed_gates_ ft_mid)) by done.
      assert (Hg_mid : indexed_gates_ ft_mid !! gate = Some g).
      { subst ft_mid. tree_simpl. by rewrite lookup_insert_ne. }
      assert (Hback : normal_states ft1 → normal_states ft).
      { intros Hn1. apply (normal_states_insert ft ft_mid nm dual); [done..|].
        apply (normal_states_update ft_mid ft1 gate g sw.2); [done..| |done].
        intros Hst. by destruct (SwapChild_normal _ _ _ Hst). }
      assert (Hfr1 : frame ft ft1).
      { unfold frame. subst ft1. tree_simpl. repeat split; try lia.
        intros i gi Hi. destruct (decide (i = gate)) as [->|Hig].
        - rewrite lookup_insert_eq. exists sw.2. split; [done|].
          unfold sw. rewrite type_SwapChild. congruence.
        - rewrite lookup_insert_ne by done.
          rewrite lookup_insert_ne by congruence. eauto. }
      assert (Hdual : indexed_gates_ ft1 !! nm = Some dual).
      { subst ft1. tree_simpl. rewrite lookup_insert_ne by done.
        apply lookup_insert_eq. }
      assert (Hknown1 : complements_known
                (<[- c := nm]> comps, P ∪ {[nm]}) ft1).
      { split; [by destruct Hfr1 as (_ & -> & _)|].
        split; [destruct Hfr1 as (_ & _ & _ & ? & _); lia|]. split.
        - intros i Hi. simpl in Hi. apply elem_of_union in Hi as [Hi|Hi].
          + destruct (Hex i Hi) as [gi Hgi'].
            destruct Hfr1 as (_ & _ & _ & _ & Hall).
            destruct (Hall i gi Hgi') as (? & ? & _). eauto.
          + apply elem_of_singleton in Hi as ->. eauto.
        - intros k v Hk. simpl in Hk.
          destruct (decide (k = - c)) as [->|Hkc].
          + rewrite lookup_insert_eq in Hk. injection Hk as <-.
            split; [lia|]. split; [set_solver|]. exists dual.
            split; [done|]. unfold dual, and_or. simpl.
            destruct (decide (Gate.type gc = kOrGate)); auto.
          + rewrite lookup_insert_ne in Hk by done.
            destruct (Hcs k v Hk) as (? & ? & gv & Hgv & ?).
            split; [done|]. split; [set_solver|].
            destruct Hfr1 as (_ & _ & _ & _ & Hall).
            destruct (Hall v gv Hgv) as (gv' & ? & Hty). exists gv'.
            by rewrite Hty. }
      assert (Hs1 : complements_sound ft0 ρ
                      (<[- c := nm]> comps, P ∪ {[nm]}) ft1).
      { intros Hn1. pose proof (Hback Hn1) as Hn.
        destruct (Hsound Hn) as [μ Hμ].
        pose proof Hμ as (Htop & Hgi' & _ & _ & _ & _ & Hkey & _ & _ & Hsd
                          & _).
        exists (<[nm := - meant μ (- c)]> μ).
        assert (Hmid : complementing ft0 ρ (<[nm := - meant μ (- c)]> μ)
                         (<[- c := nm]> comps, P ∪ {[nm]}) ft_mid).
        { apply (complementing_add ft0 ρ μ comps P ft ft_mid (- c) gc);
            try done; lia. }
        pose proof Hmid as (_ & _ & _ & _ & _ & _ & _ & _ & _ & _ & Hcomps').
        destruct (Hcomps' (- c) nm) as [_ Hnmμ];
          [simpl; apply lookup_insert_eq|].
        apply (complementing_swap ft0 ρ _ (<[- c := nm]> comps, P ∪ {[nm]})
                 ft_mid ft1 gate g c nm); try done.
        - apply (Hn1 gate). rewrite Hgates1. apply lookup_insert_eq.
        - by apply Hc.
        - lia.
        - rewrite Z.abs_eq by lia. intros Heq.
          destruct (Hsd (top_event_index_ ft0)) as (? & Htopg & _);
            [by left|]. congruence.
        - intros m vc.
          apply (complementing_complement ft0 ρ _
                   (<[- c := nm]> comps, P ∪ {[nm]}) ft_mid); try done; lia. }
      apply wp_bind. eapply wp_mono.
      { apply wp_conj; [by apply Hrec1|].
        apply Hrec2; [done|simpl; set_solver|done]. }
      intros s2 ft2 [(HP2 & Hfr2 & Hknown2 & _) [Hback2 Hs2]].
      simpl in HP2.
      apply Hrestart; try done.
      * auto.
      * destruct Hfr2 as (_ & _ & _ & _ & Hall).
        destruct (Hall gate sw.2) as (g2 & -> & _); [|done].
        subst ft1. tree_simpl. apply lookup_insert_eq.
      * destruct Hgate as [?|?]; [left; set_solver|by right].
  - (* a positive child that is neither NOT nor NULL *)
    assert (Hpos : 0 < c) by lia.
    rewrite Z.abs_eq in Hgc by lia.
    destruct (decide (c ∈ P)) as [HcP|HcP]; [exact Hnext|].
    apply wp_bind, wp_find_gate. rewrite Hgc.
    assert (Hctop : normal_states ft → c ≠ top_event_index_ ft0).
    { intros Hn. destruct (Hsound Hn) as [μ Hμ].
      destruct Hμ as (Htop & _ & _ & _ & Htidy & _).
      destruct (Htidy _ g Hg) as [_ Hall].
      destruct (Hall c (Hc Hn)) as [_ Hne]. rewrite <- Htop. lia. }
    apply wp_bind. eapply wp_mono.
    { apply wp_conj.
      - apply Hrec1. by eapply complements_known_processed.
      - apply Hrec2; [by eapply complements_known_processed
                     |simpl; set_solver|].
        intros Hn. destruct (Hsound Hn) as [μ Hμ]. exists μ.
        apply (complementing_processed _ _ _ _ P); [done|].
        pose proof Hμ as (_ & _ & _ & _ & _ & HP & _). simpl in HP.
        specialize (Hctop Hn). set_solver. }
    intros s2 ft2 [(HP2 & Hfr2 & Hknown2 & Hsame2 & _) [Hback2 Hs2]].
    simpl in HP2, Hsame2.
    pose proof Hfr2 as (_ & _ & _ & _ & Hall).
    destruct (Hall gate g Hg) as (g2 & Hg2 & _).
    eapply wp_mono.
    { apply (IH gate rest s2 ft2 g2); try done.
      - destruct Hgate as [?|?]; [left; set_solver|by right].
      - intros Hn2 c' Hc'. pose proof (Hback2 Hn2) as Hn.
        destruct (Hs2 Hn2) as [μ2 Hμ2].
        pose proof Hμ2 as (_ & _ & _ & _ & _ & HP2' & _).
        assert (Hne : gate ≠ c).
        { destruct Hgate as [HgP| ->]; [by intros ->|].
          intros Heq. by apply (Hctop Hn). }
        assert (g2 = g) as ->.
        { rewrite Hsame2 in Hg2; [congruence|done|].
          destruct Hgate as [HgP| ->]; [left; set_solver|by right]. }
        apply Hit; [done|by right]. }
    intros r ft' [Hb Hs]. split; [auto|done].
Qed.

Lemma PropagateComplements_sound ft0 ρ fuel :
  ∀ gate s ft,
    complements_known s ft →
    gate ∈ s.2 ∨ gate = top_event_index_ ft0 →
    complements_sound ft0 ρ s ft →
    wp any_failure (PropagateComplements fuel gate s)
       (complements_kept ft0 ρ ft) ft.
Proof.
  induction fuel as [|fuel IH]; intros gate s ft Hknown Hgate Hsound; [done|].
  cbn [PropagateComplements]. apply wp_bind, wp_find_gate.
  destruct (indexed_gates_ ft !! gate) as [g|] eqn:Hg; [|done].
  apply (complements_loop_sound ft0 ρ _ fuel) with (g := g); try done.
  - apply PropagateComplements_plain.
  - intros c s' ft' Hk Hc Hs. apply IH; [done|by left|done].
  - intros _ c Hc. by apply elem_of_ascending.
Qed.

(** PropagateComplements for the top event: a constant gate stays one, and
    while there is none the gates keep their values. *)
Lemma PropagateComplements_values (fuel : nat) (ft : IndexedFaultTree)
    (ρ : Z → bool) :
  0 ≤ gate_index_ ft ≤ new_gate_index_ ft →
  tidy ft →
  is_Some (indexed_gates_ ft !! top_event_index_ ft) →
  wp any_failure (PropagateComplements fuel (top_event_index_ ft) (∅, ∅))
    (λ _ ft',
       (normal_states ft' → normal_states ft) ∧
       (normal_states ft' →
        top_event_index_ ft' = top_event_index_ ft ∧
        top_event_sign_ ft' = top_event_sign_ ft ∧
        ∀ n i v, eval_gate n ft ρ i = Some v →
                 eval_gate n ft' ρ i = Some v)) ft.
Proof.
  intros Hgi Htidy Htop.
  assert (Hknown : complements_known (∅, ∅) ft).
  { split; [lia|]. split; [lia|]. split.
    - intros i Hi. simpl in Hi. by apply not_elem_of_empty in Hi.
    - intros k v Hk. simpl in Hk. by rewrite lookup_empty in Hk. }
  assert (Hsound : complements_sound ft ρ (∅, ∅) ft).
  { intros _. exists ∅. unfold complementing. split_and!; try done;
      try lia.
    - intros j Hj. by left.
    - intros j [[g Hg]|[l Hl]]; [|by rewrite lookup_empty in Hl].
      exists g. split; [done|]. intros m v. unfold meant_value at 1.
      rewrite lookup_empty, eval_gate_value, Hg. simpl.
      apply gate_value_impl. intros c b. unfold eval_literal, meant_literal.
      destruct (Z.abs c >? gate_index_ ft); [|done].
      unfold meant_value. by rewrite lookup_empty. }
  eapply wp_mono.
  { apply (PropagateComplements_sound ft ρ fuel _ _ ft Hknown
             (or_intror eq_refl) Hsound). }
  intros r ft' [Hback Hkept]. split; [done|]. intros Hnormal.
  destruct (Hkept Hnormal) as [μ Hμ].
  pose proof Hμ as (Ht & _ & Hs & _ & _ & _ & _ & Hμl & _).
  split; [done|]. split; [done|].
  intros n i v Hv. apply (complementing_value ft ρ μ r ft' Hμ).
  unfold meant_value. destruct (μ !! i) as [l|] eqn:Hl; [|done].
  destruct (Hμl i l Hl) as (Hnone & _).
  destruct n as [|n]; [done|]. by rewrite eval_gate_S, Hnone in Hv.
Qed.

(** X16 (IndexedFaultTree::PropagateComplements).  Complement propagation
    does not change what the gates compute, unless it turns a gate into a
    constant.  The graph holds AND, OR, NOT and NULL gates, no child literal
    is 0, the top event is the child of no gate and gate_index_ is between 0
    and new_gate_index_.  When PropagateComplements returns for the top event
    and leaves no constant gate, every gate that had a value under an
    assignment of the basic events has this value in as many steps, and so
    has the top event. *)
Theorem PropagateComplements_keeps_function (fuel : nat)
    (ft ft' : IndexedFaultTree) (r : gmap Z Z * gset Z) (ρ : Z → bool) :
  0 ≤ gate_index_ ft ≤ new_gate_index_ ft →
  tidy ft →
  PropagateComplements fuel (top_event_index_ ft) (∅, ∅) ft = Done r ft' →
  normal_states ft' →
  (∀ n i v, eval_gate n ft ρ i = Some v → eval_gate n ft' ρ i = Some v) ∧
  (∀ n v, eval_top n ft ρ = Some v → eval_top n ft' ρ = Some v).
Proof.
  intros Hgi Htidy Hrun Hnormal.
  assert (Htop : is_Some (indexed_gates_ ft !! top_event_index_ ft)).
  { destruct fuel as [|fuel]; [done|]. cbn [PropagateComplements] in Hrun.
    unfold bind, find_gate in Hrun.
    destruct (indexed_gates_ ft !! top_event_index_ ft); [by eexists|done]. }
  destruct (wp_done _ _ _ _ _ _
              (PropagateComplements_values fuel ft ρ Hgi Htidy Htop) Hrun)
    as [_ Hkept].
  destruct (Hkept Hnormal) as (Ht & Hs & Hgates).
  split; [done|]. intros n v. unfold eval_top. rewrite Ht, Hs.
  destruct (eval_gate n ft ρ (top_event_index_ ft)) as [b|] eqn:Hb; [|done].
  by rewrite (Hgates _ _ _ Hb).
Qed.

Lemma PropagateComplements_keeps_function_witness :
  let ρ := λ i, i =? 1 in
  let ft' :=
    state_after (PropagateComplements 10 4 (∅, ∅)) negated_gate in
  (∀ n i v, eval_gate n negated_gate ρ i = Some v →
            eval_gate n ft' ρ i = Some v) ∧
  (∀ n v, eval_top n negated_gate ρ = Some v → eval_top n ft' ρ = Some v).
Proof.
  intros ρ ft'.
  apply (PropagateComplements_keeps_function 10 negated_gate ft'
           ({[5 := 7]}, {[7]})).
  - simpl. lia.
  - intros i g Hg. unfold negated_gate, input_tree in Hg. simpl in Hg.
    repeat (apply lookup_insert_Some in Hg as [[<- <-]|[? Hg]]);
      [| | |by rewrite lookup_empty in Hg];
      (split; [unfold normalized; simpl; tauto|]);
      intros c Hc; simpl in Hc; set_unfold in Hc;
      (repeat destruct Hc as [->|Hc]; try subst c); simpl; lia.
  - vm_compute. reflexivity.
  - intros j g Hj.
    apply (map_Forall_lookup_1
             (λ _ g, Gate.state g = kNormalState) _ j g) in Hj; [done|].
    apply (bool_decide_unpack _). vm_compute. exact I.
Defined.

Lemma kept_if_normal_refl ρ ft : kept_if_normal ρ ft ft.
Proof. by repeat split. Qed.

Lemma kept_if_normal_trans ρ ft1 ft2 ft3 :
  kept_if_normal ρ ft1 ft2 → kept_if_normal ρ ft2 ft3 →
  kept_if_normal ρ ft1 ft3.
Proof.
  intros (Ht1 & Hs1 & H1) (Ht2 & Hs2 & H2).
  split; [congruence|]. split; [congruence|]. intros Hn3.
  destruct (H2 Hn3) as [Hn2 Hv2]. destruct (H1 Hn2) as [Hn1 Hv1].
  split; [done|]. auto.
Qed.

Section normal_before.
Context (ft0 : IndexedFaultTree).

Lemma normal_before_on_gate i f :
  (∀ g, Gate.state (f g) = kNormalState → Gate.state g = kNormalState) →
  preserves (normal_before ft0) (on_gate i f).
Proof.
  intros Hf ft Hback. apply wp_on_gate.
  destruct (indexed_gates_ ft !! i) as [g|] eqn:Hg; [|done].
  intros Hn. apply Hback.
  apply (normal_states_update ft
           (set_gates (<[i := f g]> (indexed_gates_ ft)) ft) i g (f g));
    [done|done|apply Hf|done].
Qed.

Lemma normal_before_call_gate i (f : IndexedGate → bool * IndexedGate) :
  (∀ g, Gate.state (f g).2 = kNormalState → Gate.state g = kNormalState) →
  preserves (normal_before ft0) (call_gate i f).
Proof.
  intros Hf ft Hback. apply wp_call_gate.
  destruct (indexed_gates_ ft !! i) as [g|] eqn:Hg; [|done].
  intros Hn. apply Hback.
  apply (normal_states_update ft
           (set_gates (<[i := (f g).2]> (indexed_gates_ ft)) ft) i g (f g).2);
    [done|done|apply Hf|done].
Qed.

Lemma normal_before_ProcessConstantChild gate c st te :
  preserves (normal_before ft0) (ProcessConstantChild gate c st te).
Proof.
  unfold ProcessConstantChild.
  preserves_auto; by apply normal_before_on_gate.
Qed.

Lemma normal_before_RemoveChildren gate te :
  preserves (normal_before ft0) (RemoveChildren gate te).
Proof.
  unfold RemoveChildren.
  preserves_auto; by apply normal_before_on_gate.
Qed.

Lemma normal_before_ProcessConstGates fuel :
  ∀ gate P, preserves (normal_before ft0) (ProcessConstGates fuel gate P).
Proof.
  induction fuel as [|fuel IH]; intros gate P.
  { apply preserves_fail. }
  cbn [ProcessConstGates].
  preserves_auto;
    auto using normal_before_ProcessConstantChild,
               normal_before_RemoveChildren.
Qed.

Lemma MergeGate_normal c gc g :
  Gate.state (Gate.MergeGate c gc g).2 = kNormalState →
  Gate.state g = kNormalState.
Proof.
  intros Hst. destruct (Gate.state g) eqn:Hg; [done|exfalso..];
    (eapply (state_add_children (ascending (Gate.children gc))
               (Gate.EraseChild c g)); [simpl; congruence|exact Hst]).
Qed.

Lemma normal_before_join_loop rec fuel :
  (∀ c P, preserves (normal_before ft0) (rec c P)) →
  ∀ gate parent it ch P,
    preserves (normal_before ft0) (join_loop rec fuel gate parent it ch P).
Proof.
  intros Hrec. induction fuel as [|fuel IH]; intros gate parent it ch P.
  { apply preserves_fail. }
  cbn [join_loop].
  preserves_auto; apply normal_before_call_gate; intros g0 Hst.
  - by apply MergeGate_normal in Hst.
  - by apply SwapChild_normal in Hst as [? _].
Qed.

Lemma normal_before_JoinGates fuel :
  ∀ gate P, preserves (normal_before ft0) (JoinGates fuel gate P).
Proof.
  induction fuel as [|fuel IH]; intros gate P.
  { apply preserves_fail. }
  cbn [JoinGates]. preserves_auto. by apply normal_before_join_loop.
Qed.

End normal_before.

(** ProcessConstGates and JoinGates keep the values unless a gate becomes a
    constant. *)
Lemma ProcessConstGates_kept ρ fuel gate ft :
  wp any_failure (ProcessConstGates fuel gate ∅)
     (λ _ ft', kept_if_normal ρ ft ft') ft.
Proof.
  eapply wp_mono.
  { apply wp_conj.
    - apply (ProcessConstGates_sound ft ρ fuel gate ∅ ft (sound_start ft ρ)).
      by intros.
    - apply (normal_before_ProcessConstGates ft fuel gate ∅ ft). by intros ?. }
  intros r ft' [(_ & Hsound & _) Hback].
  pose proof Hsound as (Ht & _ & Hs & _).
  split; [done|]. split; [done|]. intros Hn. split; [by apply Hback|].
  by apply sound_value.
Qed.

Lemma JoinGates_kept ρ fuel gate ft :
  wp any_failure (JoinGates fuel gate ∅)
     (λ _ ft', kept_if_normal ρ ft ft') ft.
Proof.
  eapply wp_mono.
  { apply wp_conj; [apply wp_conj|].
    - apply (JoinGates_sound ft ρ fuel gate ∅ ft). right. apply sound_start.
    - apply (normal_before_JoinGates ft fuel gate ∅ ft). by intros ?.
    - apply (frame_JoinGates ft fuel gate ∅ ft). done. }
  intros r ft' [[Hsound Hback] (Ht & _ & Hs & _)].
  split; [done|]. split; [done|]. intros Hn. split; [by apply Hback|].
  destruct Hsound as [(j & g & Hj & Hst)|Hsound].
  - by destruct (Hst (Hn j g Hj)).
  - by apply sound_value.
Qed.

Lemma coalesce_kept ρ fuel top :
  ∀ ft, wp any_failure (coalesce fuel top)
          (λ _ ft', kept_if_normal ρ ft ft') ft.
Proof.
  induction fuel as [|fuel IH]; intros ft; [done|].
  cbn [coalesce]. apply wp_bind. eapply wp_mono; [apply JoinGates_kept|].
  intros [joined P1] ft1 H1. destruct joined; [|by apply wp_ret].
  apply wp_bind. eapply wp_mono; [apply ProcessConstGates_kept|].
  intros [changed P2] ft2 H2.
  assert (H12 : kept_if_normal ρ ft ft2) by by eapply kept_if_normal_trans.
  destruct changed; [|by apply wp_ret].
  eapply wp_mono; [apply IH|]. intros [] ft3 H3.
  by eapply kept_if_normal_trans.
Qed.

Lemma mapM_ext_in {A B} (f g : A → option B) (l : list A) :
  (∀ x, x ∈ l → f x = g x) → mapM f l = mapM g l.
Proof.
  induction l as [|x l IH]; intros Hfg; [done|]. simpl.
  rewrite (Hfg x) by by left. rewrite IH; [done|].
  intros y Hy. apply Hfg. by right.
Qed.

(** The gates other than the top event keep their values when the top gate
    changes, as no gate has the top event for a child. *)
Lemma values_beside_top ρ ft ft' :
  tidy ft → gate_index_ ft' = gate_index_ ft →
  (∀ i, i ≠ top_event_index_ ft →
        indexed_gates_ ft' !! i = indexed_gates_ ft !! i) →
  ∀ n,
    (∀ i, i ≠ top_event_index_ ft →
          eval_gate n ft' ρ i = eval_gate n ft ρ i) ∧
    (∀ c, Z.abs c ≠ top_event_index_ ft →
          eval_literal n ft' ρ c = eval_literal n ft ρ c).
Proof.
  intros Htidy Hgi Hsame. induction n as [|n [IHg IHl]].
  - split; [done|]. intros c Hc. unfold eval_literal. by rewrite Hgi.
  - assert (Hgates : ∀ i, i ≠ top_event_index_ ft →
              eval_gate (S n) ft' ρ i = eval_gate (S n) ft ρ i).
    { intros i Hi. rewrite !eval_gate_S, (Hsame i Hi).
      destruct (indexed_gates_ ft !! i) as [g|] eqn:Hg; [|done]. simpl.
      destruct (Gate.state g); [|done..]. f_equal.
      apply mapM_ext_in. intros c Hc. apply IHl.
      apply elem_of_ascending in Hc. by apply (Htidy i g Hg). }
    split; [done|]. intros c Hc. unfold eval_literal. rewrite Hgi.
    destruct (Z.abs c >? gate_index_ ft); [|done]. by rewrite Hgates.
Qed.

(** The first statement of ProcessIndexedFaultTree keeps the value of the
    top event: a negative sign goes into the top gate by De Morgan's law. *)
Lemma absorb_top_sign_sound ρ ft :
  tidy ft →
  wp any_failure (absorb_top_sign (top_event_index_ ft))
    (λ _ ft',
       top_event_index_ ft' = top_event_index_ ft ∧
       gate_index_ ft' = gate_index_ ft ∧
       new_gate_index_ ft' = new_gate_index_ ft ∧
       tidy ft' ∧
       (∀ i, is_Some (indexed_gates_ ft !! i) →
             is_Some (indexed_gates_ ft' !! i)) ∧
       (normal_states ft' →
        ∀ n v, eval_top n ft ρ = Some v → eval_top n ft' ρ = Some v)) ft.
Proof.
  intros Htidy. unfold absorb_top_sign. apply wp_bind, wp_get.
  destruct (top_event_sign_ ft <? 0) eqn:Hsign; [|by apply wp_ret].
  apply wp_bind, wp_find_gate.
  destruct (indexed_gates_ ft !! top_event_index_ ft) as [g|] eqn:Hg; [|done].
  apply wp_bind, wp_assert. case_bool_decide as Hty; [|done].
  apply wp_bind, wp_on_gate. rewrite Hg.
  apply wp_bind, wp_on_gate. tree_simpl. rewrite lookup_insert_eq.
  apply wp_modify. tree_simpl. rewrite insert_insert_eq.
  set (t' := if decide (Gate.type g = kOrGate) then kAndGate else kOrGate).
  set (g' := Gate.InvertChildren (Gate.set_type t' g)).
  set (ft' := set_sign 1 _).
  assert (Hg' : indexed_gates_ ft' !! top_event_index_ ft = Some g').
  { subst ft'. tree_simpl. apply lookup_insert_eq. }
  assert (Hsame : ∀ i, i ≠ top_event_index_ ft →
            indexed_gates_ ft' !! i = indexed_gates_ ft !! i).
  { intros i Hi. subst ft'. tree_simpl. by rewrite lookup_insert_ne. }
  destruct (Htidy _ g Hg) as [_ Hch].
  repeat (split; [done|]). split.
  { intros i gi. destruct (decide (i = top_event_index_ ft)) as [->|Hne].
    - intros Hi. assert (gi = g') as -> by congruence. split.
      + unfold g', t', normalized. simpl. case_decide; auto.
      + unfold g'. simpl. intros c Hc.
        apply elem_of_map in Hc as (x & -> & Hx).
        destruct (Hch x Hx). rewrite Z.abs_opp. split; [lia|done].
    - rewrite (Hsame i Hne). apply (Htidy i). }
  split.
  { intros i Hi. destruct (decide (i = top_event_index_ ft)) as [->|Hne].
    - by exists g'.
    - change (is_Some (indexed_gates_ ft' !! i)). by rewrite (Hsame i Hne). }
  intros Hn n v. unfold eval_top. subst ft'. tree_simpl. rewrite Hsign.
  set (ft' := set_sign 1 _) in *.
  destruct (eval_gate n ft ρ (top_event_index_ ft)) as [b|] eqn:Hb; [|done].
  simpl. intros [= <-]. destruct n as [|n]; [done|].
  rewrite eval_gate_value, Hg in Hb. simpl in Hb.
  rewrite eval_gate_value, Hg'. simpl.
  assert (Hst : Gate.state g = kNormalState).
  { apply (Hn _ g' Hg'). }
  assert (Hand : and_or (Gate.type g)) by (unfold and_or; tauto).
  destruct (values_beside_top ρ ft ft' Htidy eq_refl Hsame n) as [_ Hlit].
  pose proof (dual_value (eval_literal n ft ρ) (eval_literal n ft' ρ) g
                (negb b) Hst Hand) as Hdual.
  rewrite negb_involutive in Hdual.
  assert (Hrec : gate_value (eval_literal n ft' ρ)
            (Gate.InvertChildren
               (Gate.set_children (Gate.children g) (Gate.create t')))
            = Some (negb b)).
  { apply Hdual; [|done]. intros c u Hc Hu.
    destruct (Hch c Hc) as [Hc0 Hct].
    rewrite eval_literal_opp by done. rewrite Hlit by done. by rewrite Hu. }
  revert Hrec. unfold gate_value, g'. simpl. rewrite Hst.
  destruct (mapM _ _) as [vs|]; [|done]. simpl.
  unfold t'. destruct Hand as [Ht|Ht]; rewrite Ht; by repeat case_decide.
Qed.

(** X17 (IndexedFaultTree::ProcessIndexedFaultTree before module detection,
    with PropagateComplements, ProcessConstGates and JoinGates).  The passes
    of ProcessIndexedFaultTree together keep the function of the top event
    unless they turn a gate into a constant: on a graph of AND, OR, NOT and
    NULL gates without a literal 0, in which the top event is the child of no
    gate and gate_index_ is between 0 and new_gate_index_, when the passes
    return and leave no constant gate, the top event has the value that it
    had, under its sign, in as many steps. *)
Theorem prepare_keeps_function (fuel : nat) (ft ft' : IndexedFaultTree)
    (top : Z) (ρ : Z → bool) (n : nat) (v : bool) :
  0 ≤ gate_index_ ft ≤ new_gate_index_ ft →
  tidy ft →
  prepare fuel ft = Done top ft' →
  normal_states ft' →
  eval_top n ft ρ = Some v → eval_top n ft' ρ = Some v.
Proof.
  intros Hgi Htidy Hrun Hnormal. revert n v.
  cut (wp any_failure (prepare fuel)
         (λ _ ft', normal_states ft' →
            ∀ n v, eval_top n ft ρ = Some v → eval_top n ft' ρ = Some v) ft).
  { intros H. by apply (wp_done _ _ _ _ _ _ H Hrun). }
  unfold prepare. apply wp_bind, wp_get. apply wp_bind, wp_find_gate.
  destruct (indexed_gates_ ft !! top_event_index_ ft) as [g|] eqn:Hg; [|done].
  apply wp_bind. eapply wp_mono; [by apply (absorb_top_sign_sound ρ)|].
  intros [] ft1 (Ht1 & Hgi1 & Hnew1 & Htidy1 & Hkeys1 & Hv1).
  apply wp_bind. rewrite <- Ht1. eapply wp_mono.
  { apply (PropagateComplements_values fuel ft1 ρ); [lia|done|].
    rewrite Ht1. apply Hkeys1. by eexists. }
  intros r2 ft2 [Hback2 Hv2].
  apply wp_bind. eapply wp_mono; [apply (ProcessConstGates_kept ρ)|].
  intros r3 ft3 (Ht3 & Hs3 & Hv3).
  apply wp_bind. eapply wp_mono; [apply (coalesce_kept ρ)|].
  intros [] ft4 (Ht4 & Hs4 & Hv4). apply wp_ret.
  intros Hn4 n v Hv.
  destruct (Hv4 Hn4) as [Hn3 Hg4]. destruct (Hv3 Hn3) as [Hn2 Hg3].
  destruct (Hv2 Hn2) as (Ht2 & Hs2 & Hg2).
  pose proof (Hv1 (Hback2 Hn2) n v Hv) as Htop1.
  revert Htop1. unfold eval_top.
  rewrite Ht4, Ht3, Ht2, Hs4, Hs3, Hs2.
  destruct (eval_gate n ft1 ρ (top_event_index_ ft1)) as [b|] eqn:Hb; [|done].
  by rewrite (Hg4 _ _ _ (Hg3 _ _ _ (Hg2 _ _ _ Hb))).
Qed.

Lemma prepare_keeps_function_witness :
  eval_top 2 (state_after (prepare 8) negated_top) (λ i, negb (i =? 1))
  = Some true.
Proof.
  apply (prepare_keeps_function 8 negated_top _ 4 (λ i, negb (i =? 1)) 2
           true).
  - simpl. lia.
  - intros i g Hg. unfold negated_top in Hg. simpl in Hg.
    repeat (apply lookup_insert_Some in Hg as [[<- <-]|[? Hg]]);
      [| |by rewrite lookup_empty in Hg];
      (split; [unfold normalized; simpl; tauto|]);
      intros c Hc; simpl in Hc; set_unfold in Hc;
      (repeat destruct Hc as [->|Hc]; try subst c); simpl; lia.
  - vm_compute. reflexivity.
  - intros j g Hj.
    apply (map_Forall_lookup_1
             (λ _ g, Gate.state g = kNormalState) _ j g) in Hj; [done|].
    apply (bool_decide_unpack _). vm_compute. exact I.
  - vm_compute. reflexivity.
Defined.



Lemma join_loop_unchanged rec fuel :
  (∀ c P ft, wp any_failure (rec c P) (λ r ft', r.1 = false → ft' = ft) ft) →
  ∀ gate parent it ch P ft,
    wp any_failure (join_loop rec fuel gate parent it ch P)
       (λ r ft', r.1 = false → ch = false ∧ ft' = ft) ft.
Proof.
  intros Hrec. induction fuel as [|fuel IH];
    intros gate parent it ch P ft; [done|].
  destruct it as [|c rest]; [by apply wp_ret|].
  assert (Hrestart : ∀ ft1,
    wp any_failure
      (let* g := find_gate gate in
       join_loop rec fuel gate parent (ascending (Gate.children g)) true P)
      (λ r ft', r.1 = false → ch = false ∧ ft' = ft) ft1).
  { intros ft1. apply wp_bind, wp_find_gate.
    destruct (indexed_gates_ ft1 !! gate); [|done].
    eapply wp_mono; [apply IH|]. intros r ft' Hloop Hr.
    by destruct (Hloop Hr). }
  cbn [join_loop]. cbv zeta. apply wp_bind, wp_get.
  destruct (Z.abs c >? gate_index_ ft); [|apply IH].
  apply wp_bind, wp_assert. destruct (c >? 0); [|done].
  apply wp_bind, wp_find_gate.
  destruct (indexed_gates_ ft !! Z.abs c) as [gc|]; [|done].
  apply wp_bind, wp_assert. case_bool_decide; [|done].
  case_decide.
  { apply wp_bind, wp_find_gate. destruct (indexed_gates_ ft !! c); [|done].
    apply wp_bind, wp_call_gate.
    destruct (indexed_gates_ ft !! gate) as [g|]; [|done].
    destruct (Gate.MergeGate _ _ _).1; [apply Hrestart|by apply wp_ret]. }
  case_decide.
  { destruct (ascending (Gate.children gc)) as [|grandchild ?]; [done|].
    apply wp_bind, wp_call_gate.
    destruct (indexed_gates_ ft !! gate) as [g|]; [|done].
    destruct (Gate.SwapChild _ _ _).1; [apply Hrestart|by apply wp_ret]. }
  apply wp_bind. eapply wp_mono; [apply Hrec|].
  intros [r P1] ft1 Hr. simpl in Hr.
  eapply wp_mono; [apply IH|]. intros r' ft' Hloop Hr'.
  destruct (Hloop Hr') as [Hch ->]. apply orb_false_elim in Hch as [-> ->].
  split; [done|]. by apply Hr.
Qed.

Lemma JoinGates_unchanged fuel :
  ∀ gate P ft,
    wp any_failure (JoinGates fuel gate P) (λ r ft', r.1 = false → ft' = ft) ft.
Proof.
  induction fuel as [|fuel IH]; intros gate P ft; [done|].
  cbn [JoinGates]. case_decide; [by apply wp_ret|].
  apply wp_bind, wp_find_gate.
  destruct (indexed_gates_ ft !! gate) as [g|]; [|done].
  apply wp_bind, wp_assert. case_bool_decide; [|done].
  eapply wp_mono; [by apply join_loop_unchanged|].
  intros r ft' Hloop Hr. by destruct (Hloop Hr).
Qed.

(** X19 (IndexedFaultTree::JoinGates).  JoinGates reports every change:
    when it returns false, the graph is as it was, so the loop of
    ProcessIndexedFaultTree never stops after a pass that has joined
    gates. *)
Theorem JoinGates_reports_change (fuel : nat) (gate : Z)
    (processed_gates processed : gset Z) (ft ft' : IndexedFaultTree) :
  JoinGates fuel gate processed_gates ft = Done (false, processed) ft' →
  ft' = ft.
Proof.
  intros Hrun.
  by apply (wp_done _ _ _ _ _ _
              (JoinGates_unchanged fuel gate processed_gates ft) Hrun).
Qed.

Lemma JoinGates_reports_change_witness :
  state_after (JoinGates 10 6 ∅) shared_event = shared_event.
Proof.
  apply (JoinGates_reports_change 10 6 ∅ {[6; 7; 8]}).
  vm_compute. reflexivity.
Defined.

(** A loop that the body can leave early, with the part of the container
    that has been visited. *)
Lemma wp_scan_prefix E {A S} (l : list A) (s : S)
    (body : A → S → M (bool * S))
    (I : list A → S → IndexedFaultTree → Prop)
    (Q : S → IndexedFaultTree → Prop) ft :
  (∀ pre x post s ft, l = pre ++ x :: post → I pre s ft →
     wp E (body x s)
        (λ r ft', if r.1 then Q r.2 ft' else I (pre ++ [x]) r.2 ft') ft) →
  I [] s ft →
  wp E (scan l s body) (λ r ft', if r.1 then Q r.2 ft' else I l r.2 ft') ft.
Proof.
  intros Hbody.
  assert (Hgen : ∀ post pre s ft, l = pre ++ post → I pre s ft →
            wp E (scan post s body)
               (λ r ft', if r.1 then Q r.2 ft' else I l r.2 ft') ft).
  { induction post as [|x post IH]; intros pre s' ft' Hl HI; simpl.
    - apply wp_ret. simpl. by rewrite Hl, app_nil_r.
    - apply wp_bind. eapply wp_mono; [by apply (Hbody pre x post)|].
      intros [leave s''] ft'' HI'. simpl in HI'. destruct leave.
      + by apply wp_ret.
      + apply (IH (pre ++ [x])); [|done]. by rewrite <- app_assoc. }
  intros HI. by apply (Hgen l []).
Qed.

Lemma settled_mono T F P P' ft ft' i :
  settled T F P ft i → P ⊆ P' →
  gate_index_ ft' = gate_index_ ft →
  indexed_gates_ ft' !! i = indexed_gates_ ft !! i →
  settled T F P' ft' i.
Proof.
  intros (g & Hg & Hall) HP Hgi Hi. exists g. split; [congruence|].
  intros c Hc. rewrite Hgi. destruct (Hall c Hc) as [Hh Hgate].
  split; [done|]. intros Hlt. by apply HP, Hgate.
Qed.

Lemma settled_empty T F P ft i g :
  indexed_gates_ ft !! i = Some g → Gate.children g = ∅ →
  settled T F P ft i.
Proof.
  intros Hg Hch. exists g. split; [done|]. intros c Hc. rewrite Hch in Hc.
  by apply not_elem_of_empty in Hc.
Qed.

(** ProcessConstantChild either makes the gate a constant without children
    and tells the loop to leave, or marks the child for removal. *)
Lemma ProcessConstantChild_leaves gate c st te ft :
  wp any_failure (ProcessConstantChild gate c st te)
    (λ r ft',
       top_event_index_ ft' = top_event_index_ ft ∧
       gate_index_ ft' = gate_index_ ft ∧
       if r.1
       then (∀ i, i ≠ gate →
                  indexed_gates_ ft' !! i = indexed_gates_ ft !! i) ∧
            ∃ g', indexed_gates_ ft' !! gate = Some g' ∧
                  Gate.children g' = ∅
       else ft' = ft ∧ r.2 = te ++ [c]) ft.
Proof.
  unfold ProcessConstantChild. cbv zeta. apply wp_bind, wp_find_gate.
  destruct (indexed_gates_ ft !! gate) as [g|] eqn:Hg; [|done].
  apply wp_bind, wp_assert. case_bool_decide as Hty; [|done].
  assert (Hset : ∀ g', Gate.children g' = ∅ →
    wp any_failure (do on_gate gate (λ _, g') then ret (true, te))
      (λ r ft',
         top_event_index_ ft' = top_event_index_ ft ∧
         gate_index_ ft' = gate_index_ ft ∧
         if r.1
         then (∀ i, i ≠ gate →
                    indexed_gates_ ft' !! i = indexed_gates_ ft !! i) ∧
              ∃ g', indexed_gates_ ft' !! gate = Some g' ∧
                    Gate.children g' = ∅
         else ft' = ft ∧ r.2 = te ++ [c]) ft).
  { intros g' Hg'. apply wp_bind, wp_on_gate. rewrite Hg. apply wp_ret.
    simpl. repeat split.
    - intros i Hi. by rewrite lookup_insert_ne.
    - exists g'. by rewrite lookup_insert_eq. }
  destruct st; simpl; destruct (Gate.type g) eqn:Ht;
    try (by apply wp_ret);
    try (exfalso; destruct Hty as [?|[?|[?|?]]]; congruence);
    apply wp_bind, wp_on_gate; rewrite Hg; apply wp_ret; simpl;
    (repeat split; [intros i Hi; by rewrite lookup_insert_ne|]);
    eexists; rewrite lookup_insert_eq; (split; [done|]); done.
Qed.

(** RemoveChildren takes the marked children out of the gate, which is a
    constant without children when none is left. *)
Lemma RemoveChildren_removes gate te ft g :
  indexed_gates_ ft !! gate = Some g →
  wp any_failure (RemoveChildren gate te)
    (λ _ ft',
       top_event_index_ ft' = top_event_index_ ft ∧
       gate_index_ ft' = gate_index_ ft ∧
       (∀ i, i ≠ gate → indexed_gates_ ft' !! i = indexed_gates_ ft !! i) ∧
       ∃ g', indexed_gates_ ft' !! gate = Some g' ∧
             (Gate.children g' = ∅ ∨
              Gate.children g' = Gate.children g ∖ list_to_set te)) ft.
Proof.
  intros Hg. unfold RemoveChildren.
  apply wp_bind. unfold wp at 1. rewrite (erase_children _ _ g) by done.
  apply wp_bind, wp_find_gate. tree_simpl. rewrite lookup_insert_eq.
  simpl. case_decide as Hempty.
  - apply wp_bind, wp_assert. case_bool_decide; [|done].
    case_decide; apply wp_on_gate; tree_simpl; rewrite lookup_insert_eq;
      (repeat split; [intros i Hi; by rewrite !lookup_insert_ne|]);
      eexists; rewrite lookup_insert_eq; (split; [done|]); by left.
  - apply wp_ret. repeat split.
    + intros i Hi. tree_simpl. by rewrite lookup_insert_ne.
    + eexists. tree_simpl. rewrite lookup_insert_eq. split; [done|].
      by right.
Qed.

Lemma PropagateConstants_gate_settles T F fuel :
  ∀ gate P ft,
    wp any_failure (PropagateConstants_gate fuel T F gate P)
      (λ P' ft', gate ∈ P' ∧ constants_settled T F ft P P' ft') ft.
Proof.
  induction fuel as [|fuel IH]; intros gate P ft; [done|].
  cbn [PropagateConstants_gate]. cbv zeta.
  destruct (decide (gate ∈ P)) as [Hin|Hnotin].
  { apply wp_ret. split; [done|]. repeat (split; [done|]). by intros. }
  apply wp_bind, wp_find_gate.
  destruct (indexed_gates_ ft !! gate) as [g|] eqn:Hg; [|done].
  apply wp_bind, wp_get. apply wp_bind.
  set (base := λ (s : list Z * gset Z) (ft1 : IndexedFaultTree),
         P ∪ {[gate]} ⊆ s.2 ∧
         top_event_index_ ft1 = top_event_index_ ft ∧
         gate_index_ ft1 = gate_index_ ft ∧
         (∀ i, i ∈ P → indexed_gates_ ft1 !! i = indexed_gates_ ft !! i) ∧
         (∀ i, i ∈ s.2 → i ∉ P → i ≠ gate → settled T F s.2 ft1 i)).
  set (I := λ (pre : list Z) (s : list Z * gset Z) (ft1 : IndexedFaultTree),
         base s ft1 ∧ indexed_gates_ ft1 !! gate = Some g ∧
         ∀ c, c ∈ pre →
           (Z.abs c ≤ gate_index_ ft → Z.abs c ∈ F ∨ Z.abs c ∈ T → c ∈ s.1) ∧
           (gate_index_ ft < Z.abs c → Z.abs c ∈ s.2)).
  set (Q := λ (s : list Z * gset Z) (ft1 : IndexedFaultTree),
         base s ft1 ∧
         ∃ g', indexed_gates_ ft1 !! gate = Some g' ∧ Gate.children g' = ∅).
  assert (Hadd : ∀ pre c te te' P1 ft1,
    I pre (te, P1) ft1 →
    (Z.abs c ≤ gate_index_ ft → Z.abs c ∈ F ∨ Z.abs c ∈ T → c ∈ te') →
    (gate_index_ ft < Z.abs c → Z.abs c ∈ P1) →
    (∀ x, x ∈ te → x ∈ te') →
    I (pre ++ [c]) (te', P1) ft1).
  { intros pre c te te' P1 ft1 (Hbase & Hg1 & Hpre) Hh Hgt Hte.
    split; [done|]. split; [done|]. intros x Hx. simpl.
    apply elem_of_app in Hx as [Hx|Hx].
    - destruct (Hpre x Hx) as [H1 H2]. split; [|done]. auto.
    - apply list_elem_of_singleton in Hx as ->. done. }
  assert (Hconstant : ∀ pre c b te P1 ft1,
    I pre (te, P1) ft1 →
    (gate_index_ ft < Z.abs c → Z.abs c ∈ P1) →
    wp any_failure
      (let* '(r, to_erase') := ProcessConstantChild gate c b te in
       ret (r, (to_erase', P1)))
      (λ r ft', if r.1 then Q r.2 ft' else I (pre ++ [c]) r.2 ft') ft1).
  { intros pre c b te P1 ft1 HI Hgt.
    pose proof HI as ((HP1 & Ht1 & Hgi1 & Hsame1 & Hset1) & Hg1 & Hpre).
    apply wp_bind. eapply wp_mono; [apply ProcessConstantChild_leaves|].
    intros [r te'] ft2 (Ht2 & Hgi2 & Hr). apply wp_ret. simpl in *.
    destruct r.
    - destruct Hr as [Hother Hg2]. split; [|done].
      split; [done|]. split; [congruence|]. split; [congruence|]. split.
      + intros i Hi. rewrite Hother; [by apply Hsame1|]. by intros ->.
      + intros i Hi HiP Hne.
        eapply settled_mono; [by apply Hset1|done|done|by apply Hother].
    - destruct Hr as [-> ->].
      apply (Hadd pre c te); try done.
      + intros _ _. apply elem_of_app. right. by left.
      + intros x Hx. apply elem_of_app. by left. }
  eapply wp_mono.
  { apply (wp_scan_prefix _ _ _ _ I Q).
    - intros pre c post [te P1] ft1 Hl HI.
      pose proof HI as ((HP1 & Ht1 & Hgi1 & Hsame1 & Hset1) & Hg1 & Hpre).
      simpl in HP1, Hsame1, Hset1.
      destruct (Z.abs c >? gate_index_ ft) eqn:Hgi.
      + apply wp_bind, wp_find_gate.
        destruct (indexed_gates_ ft1 !! Z.abs c) as [gc0|]; [|done].
        apply wp_bind. eapply wp_mono; [apply IH|].
        intros P2 ft2 (Hc2 & HP2 & Ht2 & Hgi2 & Hsame2 & Hset2).
        assert (HI2 : I pre (te, P2) ft2).
        { split; [|split].
          - split; [simpl; set_solver|]. split; [congruence|].
            split; [congruence|]. split.
            + intros i Hi. rewrite Hsame2; [by apply Hsame1|]. set_solver.
            + simpl. intros i Hi HiP Hne.
              destruct (decide (i ∈ P1)) as [Hi1|Hi1].
              * eapply settled_mono; [by apply Hset1|done|done|].
                by apply Hsame2.
              * by apply Hset2.
          - rewrite Hsame2; [done|]. set_solver.
          - intros x Hx. destruct (Hpre x Hx) as [H1 H2]. split; [done|].
            intros Hlt. simpl. apply HP2. by apply H2. }
        apply wp_bind, wp_find_gate.
        destruct (indexed_gates_ ft2 !! Z.abs c) as [gc|]; [|done].
        destruct (Gate.state gc).
        * apply wp_ret. simpl. apply (Hadd pre c te te P2 ft2); try done.
          lia.
        * by apply Hconstant.
        * by apply Hconstant.
      + case_decide as HF; [apply Hconstant; [done|lia]|].
        case_decide as HT; [apply Hconstant; [done|lia]|].
        apply wp_ret. simpl. apply (Hadd pre c te te P1 ft1); try done.
        * intros _ [?|?]; done.
        * lia.
    - split; [|split; [done|]].
      + split; [done|]. repeat (split; [done|]). simpl. intros i Hi HiP Hne.
        set_solver.
      + intros c Hc. by apply elem_of_nil in Hc. }
  intros [returned [te P1]] ft1 Hscan. simpl in Hscan.
  assert (Hdone : ∀ ft2,
    top_event_index_ ft2 = top_event_index_ ft1 →
    gate_index_ ft2 = gate_index_ ft1 →
    (∀ i, i ≠ gate → indexed_gates_ ft2 !! i = indexed_gates_ ft1 !! i) →
    base (te, P1) ft1 →
    settled T F P1 ft2 gate →
    gate ∈ P1 ∧ constants_settled T F ft P P1 ft2).
  { intros ft2 Ht2 Hgi2 Hother (HP1 & Ht1 & Hgi1 & Hsame1 & Hset1) Hgate.
    simpl in HP1, Hsame1, Hset1.
    split; [set_solver|]. split; [set_solver|]. split; [congruence|].
    split; [congruence|]. split.
    - intros i Hi. rewrite Hother; [by apply Hsame1|]. by intros ->.
    - intros i Hi HiP. destruct (decide (i = gate)) as [->|Hne]; [done|].
      eapply settled_mono; [by apply Hset1|done|done|by apply Hother]. }
  destruct returned.
  - apply wp_ret. destruct Hscan as [Hbase (g' & Hg' & Hempty)].
    apply (Hdone ft1); try done. by apply (settled_empty _ _ _ _ _ g').
  - destruct Hscan as (Hbase & Hg1 & Hall).
    apply wp_bind. eapply wp_mono; [by apply (RemoveChildren_removes _ _ _ g)|].
    intros [] ft2 (Ht2 & Hgi2 & Hother & g' & Hg' & Hch). apply wp_ret.
    apply (Hdone ft2); try done.
    destruct Hch as [Hempty|Hch]; [by apply (settled_empty _ _ _ _ _ g')|].
    exists g'. split; [done|]. intros c Hc. rewrite Hch in Hc.
    apply elem_of_difference in Hc as [Hc Hnot].
    rewrite elem_of_list_to_set in Hnot.
    destruct Hbase as (_ & _ & Hgi1 & _). rewrite Hgi2, Hgi1.
    destruct (Hall c) as [Hh Hgt]; [by apply elem_of_ascending|].
    simpl in Hh, Hgt. split; [|done]. intros Hle.
    split; intros Hin; apply Hnot, Hh; auto.
Qed.

(** X20 (IndexedFaultTree::PropagateConstants, with ProcessConstantChild and
    RemoveChildren).  Constant propagation removes the house events: when
    PropagateConstants returns, no gate that can be reached from the top
    event has a child that is one of the true or false house events. *)
Theorem PropagateConstants_removes_house_events (fuel : nat)
    (true_house_events false_house_events : gset Z)
    (ft ft' : IndexedFaultTree) (i : Z) (g : IndexedGate) (c : Z) :
  PropagateConstants fuel true_house_events false_house_events ft
    = Done tt ft' →
  reachable ft' i → indexed_gates_ ft' !! i = Some g →
  c ∈ Gate.children g → Z.abs c ≤ gate_index_ ft' →
  Z.abs c ∉ true_house_events ∧ Z.abs c ∉ false_house_events.
Proof.
  intros Hrun. revert i g c.
  cut (wp any_failure
         (PropagateConstants fuel true_house_events false_house_events)
         (λ _ ft', ∀ i g c, reachable ft' i →
            indexed_gates_ ft' !! i = Some g → c ∈ Gate.children g →
            Z.abs c ≤ gate_index_ ft' →
            Z.abs c ∉ true_house_events ∧ Z.abs c ∉ false_house_events) ft).
  { intros H. apply (wp_done _ _ _ _ _ _ H Hrun). }
  unfold PropagateConstants. case_decide as Hnone.
  { apply wp_ret. destruct Hnone as [-> ->]. intros. split; set_solver. }
  apply wp_bind, wp_get. apply wp_bind, wp_find_gate.
  destruct (indexed_gates_ ft !! top_event_index_ ft) as [g0|]; [|done].
  apply wp_bind. eapply wp_mono; [apply PropagateConstants_gate_settles|].
  intros P ft1 (Htop & _ & Ht & Hgi & _ & Hset). apply wp_ret.
  assert (Hreach : ∀ i, reachable ft1 i → i ∈ P).
  { induction 1 as [|i g c _ IHi Hg Hc Hlt]; [by rewrite Ht|].
    destruct (Hset i IHi) as (g' & Hg' & Hall); [set_solver|].
    assert (g' = g) as -> by congruence. by apply (Hall c Hc). }
  intros i g c Hi Hg Hc Hle.
  destruct (Hset i (Hreach i Hi)) as (g' & Hg' & Hall); [set_solver|].
  assert (g' = g) as -> by congruence.
  destruct (Hall c Hc) as [Hh _]. destruct (Hh Hle). done.
Qed.

Lemma PropagateConstants_removes_house_events_witness :
  Z.abs 3 ∉ ({[2]} : gset Z) ∧ Z.abs 3 ∉ (∅ : gset Z).
Proof.
  apply (PropagateConstants_removes_house_events 5 {[2]} ∅
           house_event_below
           (state_after (PropagateConstants 5 {[2]} ∅) house_event_below)
           5 (input_gate kOrGate [3]) 3).
  - vm_compute. reflexivity.
  - apply (reachable_child _ 4 (input_gate kAndGate [1; 5]) 5).
    + apply reachable_top.
    + vm_compute. reflexivity.
    + set_solver.
    + vm_compute. reflexivity.
  - vm_compute. reflexivity.
  - set_solver.
  - vm_compute. discriminate.
Defined.

Section propagated.
Context (T F : gset Z).

Lemma literal_value_same ft ft' c :
  gate_index_ ft' = gate_index_ ft →
  (gate_index_ ft < Z.abs c →
   indexed_gates_ ft' !! Z.abs c = indexed_gates_ ft !! Z.abs c) →
  literal_value T F ft' c = literal_value T F ft c.
Proof.
  intros Hgi Hsame. unfold literal_value. rewrite Hgi.
  destruct (Z.abs c >? gate_index_ ft) eqn:Hc; [|done].
  rewrite Hsame by lia. done.
Qed.

Lemma propagated_same ft ft' g :
  (∀ c, c ∈ Gate.children g →
        literal_value T F ft' c = literal_value T F ft c) →
  propagated T F ft' g = propagated T F ft g.
Proof.
  intros Hsame. unfold propagated.
  destruct (decide (set_Exists _ _)) as [H1|H1];
    destruct (decide (set_Exists _ _)) as [H2|H2]; [done| | |].
  - exfalso. apply H2. destruct H1 as (c & Hc & Hv). exists c.
    split; [done|]. by rewrite <- Hsame.
  - exfalso. apply H1. destruct H2 as (c & Hc & Hv). exists c.
    split; [done|]. by rewrite Hsame.
  - f_equal. apply set_eq. intros c. rewrite !elem_of_filter.
    split; intros [Hv Hc]; (split; [|done]).
    + by rewrite <- Hsame.
    + by rewrite Hsame.
Qed.

Lemma propagated_absorbed ft g c :
  c ∈ Gate.children g →
  literal_value T F ft c = Some (absorbing (Gate.type g)) →
  propagated T F ft g = absorbed g.
Proof.
  intros Hc Hv. unfold propagated. rewrite decide_True; [done|].
  by exists c.
Qed.

Lemma propagated_reduced ft g :
  (∀ c, c ∈ Gate.children g →
        literal_value T F ft c ≠ Some (absorbing (Gate.type g))) →
  propagated T F ft g
  = reduced (filter (λ c, literal_value T F ft c = None) (Gate.children g)) g.
Proof.
  intros Hall. unfold propagated. rewrite decide_False; [done|].
  intros (c & Hc & Hv). by apply (Hall c).
Qed.

Lemma type_propagated ft g :
  Gate.type (propagated T F ft g) = Gate.type g.
Proof.
  unfold propagated. case_decide.
  - unfold absorbed. by destruct (absorbing _).
  - unfold reduced. case_decide; [|done]. by destruct (absorbing _).
Qed.

Lemma children_propagated ft g c :
  c ∈ Gate.children (propagated T F ft g) → c ∈ Gate.children g.
Proof.
  unfold propagated. case_decide.
  - unfold absorbed. destruct (absorbing _); simpl;
      by intros ?%not_elem_of_empty.
  - unfold reduced. case_decide.
    + destruct (absorbing _); simpl; by intros ?%not_elem_of_empty.
    + simpl. by intros [_ ?]%elem_of_filter.
Qed.

(** A processed gate stays processed while the gates that decided its
    outcome keep their records. *)
Lemma propagated_gate_mono P A ft P2 A2 ft2 i g :
  propagated_gate T F P A ft i g →
  P ⊆ P2 → A2 ⊆ A →
  gate_index_ ft2 = gate_index_ ft →
  (∀ j, j ∈ P → j ∉ A →
        indexed_gates_ ft2 !! j = indexed_gates_ ft !! j) →
  indexed_gates_ ft2 !! i = indexed_gates_ ft !! i →
  propagated_gate T F P2 A2 ft2 i g.
Proof.
  intros (Hrec & Hclosed & Hstable) HP HA Hgi Hsame Hi.
  assert (Hlv : ∀ c, (gate_index_ ft < Z.abs c → Z.abs c ∈ P ∧ Z.abs c ∉ A) →
            literal_value T F ft2 c = literal_value T F ft c).
  { intros c Hc. apply literal_value_same; [done|]. intros Hlt.
    destruct (Hc Hlt). by apply Hsame. }
  assert (Heq : propagated T F ft2 g = propagated T F ft g).
  { destruct Hstable as [(c & Hc & Hv & Hst)|Hall].
    - rewrite (propagated_absorbed ft g c) by done.
      apply (propagated_absorbed ft2 g c); [done|]. by rewrite Hlv.
    - apply propagated_same. intros c Hc. apply Hlv. by apply Hall. }
  unfold propagated_gate. rewrite Heq, Hgi, Hi.
  split; [done|]. split.
  { intros c Hc Hlt. by apply HP, Hclosed. }
  destruct Hstable as [(c & Hc & Hv & Hst)|Hall].
  - left. exists c. split; [done|]. rewrite Hlv by done. split; [done|].
    intros Hlt. destruct (Hst Hlt). split; [by apply HP|]. set_solver.
  - right. intros c Hc Hlt. destruct (Hall c Hc Hlt).
    split; [by apply HP|]. set_solver.
Qed.

(** The graph stays one on which constant propagation can run. *)
Lemma propagable_after rank A ft P P' ft' :
  propagable rank ft → constants_propagated T F A ft P P' ft' →
  propagable rank ft'.
Proof.
  intros Hprop (HP & Hgi & _ & Hsame & Hnew).
  assert (Hsome : ∀ j, is_Some (indexed_gates_ ft !! j) →
                       is_Some (indexed_gates_ ft' !! j)).
  { intros j Hj. destruct (decide (j ∈ P' ∧ j ∉ P)) as [[H1 H2]|Hn].
    - destruct (Hnew j H1 H2) as (g & _ & Hrec & _). by rewrite Hrec.
    - rewrite Hsame; [done|].
      destruct (decide (j ∈ P)); [by left|]. right. tauto. }
  intros i g' Hi. rewrite Hgi.
  destruct (decide (i ∈ P' ∧ i ∉ P)) as [[H1 H2]|Hn].
  - destruct (Hnew i H1 H2) as (g & Hg & Hrec & _).
    assert (g' = propagated T F ft' g) as -> by congruence.
    destruct (Hprop i g Hg) as [Hty Hch]. rewrite type_propagated.
    split; [done|]. intros c Hc Hlt. apply children_propagated in Hc.
    destruct (Hch c Hc Hlt). split; [by apply Hsome|done].
  - rewrite Hsame in Hi by (destruct (decide (i ∈ P)); [by left|right; tauto]).
    destruct (Hprop i g' Hi) as [Hty Hch]. split; [done|].
    intros c Hc Hlt. destruct (Hch c Hc Hlt). split; [by apply Hsome|done].
Qed.

(** PropagateConstants returns on a graph without cycles, given as many
    calls as the rank of the gate, and every gate that it processes ends
    with the record of the table. *)
Lemma PropagateConstants_gate_propagates rank fuel :
  ∀ gate P A ft,
    propagable rank ft → A ⊆ P →
    (∀ a, a ∈ A → (rank gate < rank a)%nat) →
    is_Some (indexed_gates_ ft !! gate) →
    (rank gate < fuel)%nat →
    wp no_failure (PropagateConstants_gate fuel T F gate P)
      (λ P' ft', gate ∈ P' ∧ constants_propagated T F A ft P P' ft') ft.
Proof.
  induction fuel as [|fuel IH]; intros gate P A ft Hprop HA Hrank Hsome Hfuel;
    [lia|].
  cbn [PropagateConstants_gate]. cbv zeta.
  destruct (decide (gate ∈ P)) as [Hin|Hnotin].
  { apply wp_ret. split; [done|]. split; [done|]. repeat split; done. }
  apply wp_bind, wp_find_gate. destruct Hsome as [g Hg]. rewrite Hg.
  apply wp_bind, wp_get. apply wp_bind.
  destruct (Hprop gate g Hg) as [Hty Hch].
  set (P1 := P ∪ {[gate]}). set (A1 := A ∪ {[gate]}).
  set (base := λ (s : list Z * gset Z) (ft1 : IndexedFaultTree),
         P1 ⊆ s.2 ∧
         gate_index_ ft1 = gate_index_ ft ∧
         top_event_index_ ft1 = top_event_index_ ft ∧
         propagable rank ft1 ∧
         (∀ i, i ∈ P1 ∨ i ∉ s.2 →
               indexed_gates_ ft1 !! i = indexed_gates_ ft !! i) ∧
         (∀ i, i ∈ s.2 → i ∉ P1 →
               ∃ gi, indexed_gates_ ft !! i = Some gi ∧
                     propagated_gate T F s.2 A1 ft1 i gi)).
  set (I := λ (pre : list Z) (s : list Z * gset Z) (ft1 : IndexedFaultTree),
         base s ft1 ∧
         (∀ c, c ∈ pre →
               (gate_index_ ft < Z.abs c → Z.abs c ∈ s.2 ∧ Z.abs c ∉ A1) ∧
               literal_value T F ft1 c ≠ Some (absorbing (Gate.type g))) ∧
         (∀ c, c ∈ s.1 ↔ c ∈ pre ∧ is_Some (literal_value T F ft1 c))).
  set (Q := λ (s : list Z * gset Z) (ft2 : IndexedFaultTree),
         ∃ ft1 c,
           base s ft1 ∧
           ft2 = set_gates (<[gate := absorbed g]> (indexed_gates_ ft1)) ft1 ∧
           c ∈ Gate.children g ∧
           literal_value T F ft1 c = Some (absorbing (Gate.type g)) ∧
           (gate_index_ ft < Z.abs c → Z.abs c ∈ s.2 ∧ Z.abs c ∉ A1)).
  assert (Hgate1 : ∀ s ft1, base s ft1 → indexed_gates_ ft1 !! gate = Some g).
  { intros s ft1 (_ & _ & _ & _ & Hsame & _). rewrite Hsame; [done|].
    left. set_solver. }
  assert (Hadd : ∀ pre c te te' P2 ft2,
    I pre (te, P2) ft2 →
    (gate_index_ ft < Z.abs c → Z.abs c ∈ P2 ∧ Z.abs c ∉ A1) →
    literal_value T F ft2 c ≠ Some (absorbing (Gate.type g)) →
    (∀ x, x ∈ te' ↔ x ∈ te ∨ (x = c ∧ is_Some (literal_value T F ft2 c))) →
    I (pre ++ [c]) (te', P2) ft2).
  { intros pre c te te' P2 ft2 (Hbase & Hpre & Hte) Hst Hv Hte'.
    split; [done|]. simpl in *. split.
    - intros x Hx. apply elem_of_app in Hx as [Hx|Hx]; [by apply Hpre|].
      apply list_elem_of_singleton in Hx as ->. done.
    - intros x. rewrite Hte', Hte, elem_of_app, list_elem_of_singleton.
      split.
      + intros [[? ?]|[-> ?]]; auto.
      + intros [[? | ->] ?]; auto. }
  assert (Htail : ∀ pre c te P2 ft2 (v : option bool),
    c ∈ Gate.children g →
    I pre (te, P2) ft2 →
    (gate_index_ ft < Z.abs c → Z.abs c ∈ P2 ∧ Z.abs c ∉ A1) →
    literal_value T F ft2 c = v →
    wp no_failure
      (match v with
       | None => ret (false, (te, P2))
       | Some b =>
           let* '(r, to_erase') := ProcessConstantChild gate c b te in
           ret (r, (to_erase', P2))
       end)
      (λ r ft', if r.1 then Q r.2 ft' else I (pre ++ [c]) r.2 ft') ft2).
  { intros pre c te P2 ft2 v Hc HI Hst Hv.
    pose proof HI as (Hbase & Hpre & Hte).
    pose proof (Hgate1 _ _ Hbase) as Hg2.
    destruct v as [b|].
    - apply wp_bind. unfold wp at 1.
      rewrite (ProcessConstantChild_table _ _ g) by done.
      case_bool_decide as Hb.
      + apply wp_ret. simpl. exists ft2, c. subst b. done.
      + apply wp_ret. simpl. apply (Hadd pre c te); try done.
        * rewrite Hv. congruence.
        * intros x. rewrite elem_of_app, list_elem_of_singleton.
          rewrite Hv. split; [intros [? | ->]; eauto|].
          intros [?|[-> _]]; auto.
    - apply wp_ret. simpl. apply (Hadd pre c te); try done.
      + by rewrite Hv.
      + intros x. rewrite Hv. split; [auto|]. intros [?|[_ [? ?]]]; done. }
  eapply wp_mono.
  { apply (wp_scan_prefix _ _ _ _ I Q).
    - intros pre c post [te P2] ft2 Hl HI.
      pose proof HI as (Hbase & Hpre & Hte).
      pose proof Hbase as (HP2 & Hgi2 & Ht2 & Hprop2 & Hsame2 & Hdone2).
      simpl in HP2, Hsame2, Hdone2, Hte.
      pose proof (Hgate1 _ _ Hbase) as Hg2.
      assert (Hc : c ∈ Gate.children g).
      { apply elem_of_ascending. rewrite Hl. apply elem_of_app. right.
        by left. }
      destruct (Z.abs c >? gate_index_ ft) eqn:Hgi.
      + destruct (Hch c Hc ltac:(lia)) as [_ Hrc].
        destruct (Hprop2 gate g Hg2) as [_ Hch2].
        destruct (Hch2 c Hc ltac:(lia)) as [[gc0 Hgc0] _].
        apply wp_bind, wp_find_gate. rewrite Hgc0.
        apply wp_bind. eapply wp_mono.
        { apply (IH (Z.abs c) P2 A1 ft2); try done.
          - set_solver.
          - intros a Ha. apply elem_of_union in Ha as [Ha|Ha].
            + specialize (Hrank a Ha). lia.
            + apply elem_of_singleton in Ha as ->. done.
          - lia. }
        intros P3 ft3 (Hc3 & Hpost).
        pose proof (propagable_after rank A1 ft2 P2 P3 ft3 Hprop2 Hpost)
          as Hprop3.
        destruct Hpost as (HP3 & Hgi3 & Ht3 & Hsame3 & Hnew3).
        assert (HcA : Z.abs c ∉ A1).
        { intros Ha. apply elem_of_union in Ha as [Ha|Ha].
          - specialize (Hrank _ Ha). lia.
          - apply elem_of_singleton in Ha. rewrite Ha in Hrc. lia. }
        assert (Hlv3 : ∀ x,
          (gate_index_ ft < Z.abs x → Z.abs x ∈ P2 ∧ Z.abs x ∉ A1) →
          literal_value T F ft3 x = literal_value T F ft2 x).
        { intros x Hx. apply literal_value_same; [done|]. rewrite Hgi2.
          intros Hlt. apply Hsame3. left. by apply Hx. }
        assert (HI3 : I pre (te, P3) ft3).
        { split; [|split].
          - split; [simpl; set_solver|]. split; [congruence|].
            split; [congruence|]. split; [done|]. simpl. split.
            + intros i Hi. destruct Hi as [Hi|Hi].
              * rewrite Hsame3 by (left; set_solver). apply Hsame2. by left.
              * rewrite Hsame3 by by right. apply Hsame2. right. set_solver.
            + intros i Hi HiP1.
              destruct (decide (i ∈ P2)) as [Hi2|Hi2].
              * destruct (Hdone2 i Hi2 HiP1) as (gi & Hgi0 & Hfin).
                exists gi. split; [done|].
                apply (propagated_gate_mono P2 A1 ft2); try done.
                -- intros j Hj _. apply Hsame3. by left.
                -- apply Hsame3. by left.
              * destruct (Hnew3 i Hi Hi2) as (gi & Hgi0 & Hfin).
                exists gi. split; [|done]. rewrite <- Hgi0. symmetry.
                apply Hsame2. by right.
          - simpl. intros x Hx. destruct (Hpre x Hx) as [Hst Hv].
            simpl in Hst. split.
            + intros Hlt. destruct (Hst Hlt). split; [by apply HP3|done].
            + by rewrite Hlv3.
          - simpl. intros x. rewrite Hte. split.
            + intros [Hx Hv]. split; [done|]. rewrite Hlv3; [done|].
              by apply (Hpre x Hx).
            + intros [Hx Hv]. split; [done|]. rewrite <- Hlv3; [done|].
              by apply (Hpre x Hx). }
        pose proof (Hgate1 _ _ (proj1 HI3)) as Hg3.
        destruct (Hprop3 gate g Hg3) as [_ Hch3].
        destruct (Hch3 c Hc ltac:(lia)) as [[gc Hgc] _].
        apply wp_bind, wp_find_gate. rewrite Hgc.
        assert (Hv : literal_value T F ft3 c
                     = (λ v : bool, if c <? 0 then negb v else v) <$>
                       match Gate.state gc with
                       | kNormalState => None
                       | kNullState => Some false
                       | kUnityState => Some true
                       end).
        { unfold literal_value. rewrite Hgi3, Hgi2, Hgi. by rewrite Hgc. }
        destruct (Gate.state gc); simpl in Hv.
        * apply (Htail pre c te P3 ft3 None); try done.
        * apply (Htail pre c te P3 ft3
                   (Some (if c <? 0 then negb false else false))); try done.
        * apply (Htail pre c te P3 ft3
                   (Some (if c <? 0 then negb true else true))); try done.
      + assert (Hst : gate_index_ ft < Z.abs c → Z.abs c ∈ P2 ∧ Z.abs c ∉ A1)
          by lia.
        assert (Hv : literal_value T F ft2 c
                     = (λ v : bool, if c <? 0 then negb v else v) <$>
                       (if decide (Z.abs c ∈ F) then Some false
                        else if decide (Z.abs c ∈ T) then Some true
                        else None)).
        { unfold literal_value. by rewrite Hgi2, Hgi. }
        case_decide as HF.
        { apply (Htail pre c te P2 ft2
                   (Some (if c <? 0 then negb false else false))); done. }
        case_decide as HT.
        { apply (Htail pre c te P2 ft2
                   (Some (if c <? 0 then negb true else true))); done. }
        apply (Htail pre c te P2 ft2 None); done.
    - split; [|split].
      + unfold base. simpl. split_and!; try done.
      + intros c Hc. by apply elem_of_nil in Hc.
      + simpl. intros c. split; [by intros ?%elem_of_nil|].
        by intros [?%elem_of_nil _]. }
  intros [returned [te P2]] ft2 Hscan. simpl in Hscan.
  assert (Hdone : ∀ ft1 ft3,
    base (te, P2) ft1 →
    ft3 = set_gates (<[gate := propagated T F ft3 g]> (indexed_gates_ ft1))
                    ft1 →
    (∀ c, c ∈ Gate.children (propagated T F ft3 g) →
          gate_index_ ft < Z.abs c → Z.abs c ∈ P2) →
    ((∃ c, c ∈ Gate.children g ∧
           literal_value T F ft3 c = Some (absorbing (Gate.type g)) ∧
           (gate_index_ ft < Z.abs c → Z.abs c ∈ P2 ∧ Z.abs c ∉ A)) ∨
     (∀ c, c ∈ Gate.children g → gate_index_ ft < Z.abs c →
           Z.abs c ∈ P2 ∧ Z.abs c ∉ A)) →
    gate ∈ P2 ∧ constants_propagated T F A ft P P2 ft3).
  { intros ft1 ft3 (HP2 & Hgi1 & Ht1 & Hprop1 & Hsame1 & Hdone1) Hft3
           Hclosed Hstable.
    simpl in HP2, Hsame1, Hdone1.
    assert (Hgi3 : gate_index_ ft3 = gate_index_ ft).
    { rewrite Hft3. tree_simpl. done. }
    assert (Hother : ∀ j, j ≠ gate →
              indexed_gates_ ft3 !! j = indexed_gates_ ft1 !! j).
    { intros j Hj. rewrite Hft3. tree_simpl. by rewrite lookup_insert_ne. }
    split; [set_solver|]. split; [set_solver|]. split; [done|]. split.
    { rewrite Hft3. tree_simpl. done. }
    split.
    - intros i Hi. assert (i ≠ gate) by set_solver.
      rewrite Hother by done. apply Hsame1. set_solver.
    - intros i Hi HiP. destruct (decide (i = gate)) as [->|Hne].
      + exists g. split; [done|]. split; [|split].
        * rewrite Hft3 at 1. tree_simpl. by rewrite lookup_insert_eq.
        * by rewrite Hgi3.
        * by rewrite Hgi3.
      + destruct (Hdone1 i Hi ltac:(set_solver)) as (gi & Hgi0 & Hfin).
        exists gi. split; [done|].
        apply (propagated_gate_mono P2 A1 ft1); try done.
        * set_solver.
        * congruence.
        * intros j Hj HjA. apply Hother. set_solver.
        * by apply Hother. }
  destruct returned.
  - apply wp_ret.
    destruct Hscan as (ft1 & c & Hbase & -> & Hc & Hv & Hst).
    pose proof Hbase as (HP2 & Hgi1 & _).
    set (ft3 := set_gates _ ft1).
    assert (Hv3 : literal_value T F ft3 c = Some (absorbing (Gate.type g))).
    { rewrite <- Hv. apply literal_value_same; [done|]. rewrite Hgi1.
      intros Hlt. unfold ft3. tree_simpl. rewrite lookup_insert_ne; [done|].
      destruct (Hst Hlt). set_solver. }
    assert (Heq : propagated T F ft3 g = absorbed g).
    { by apply (propagated_absorbed ft3 g c). }
    apply (Hdone ft1 ft3); try done.
    + by rewrite Heq.
    + rewrite Heq. unfold absorbed.
      destruct (absorbing _); simpl; by intros ? ?%not_elem_of_empty.
    + left. exists c. split; [done|]. split; [done|]. intros Hlt.
      destruct (Hst Hlt). split; [done|]. set_solver.
  - destruct Hscan as (Hbase & Hall & Hte). simpl in Hall, Hte.
    pose proof Hbase as (HP2 & Hgi1 & _).
    pose proof (Hgate1 _ _ Hbase) as Hg2.
    apply wp_bind. unfold wp at 1.
    rewrite (RemoveChildren_reduced _ _ g) by done.
    apply wp_ret.
    set (ft3 := set_gates _ ft2).
    assert (Hlv3 : ∀ c, c ∈ Gate.children g →
              literal_value T F ft3 c = literal_value T F ft2 c).
    { intros c Hc. apply literal_value_same; [done|]. rewrite Hgi1.
      intros Hlt. unfold ft3. tree_simpl. rewrite lookup_insert_ne; [done|].
      destruct (Hall c) as [Hst _]; [by apply elem_of_ascending|].
      destruct (Hst Hlt). set_solver. }
    assert (Heq : propagated T F ft3 g
                  = reduced (Gate.children g ∖ list_to_set te) g).
    { rewrite propagated_reduced.
      - f_equal. apply set_eq. intros c.
        rewrite elem_of_filter, elem_of_difference, elem_of_list_to_set.
        rewrite Hte, elem_of_ascending.
        split.
        + intros [Hv Hc]. split; [done|]. intros [_ Hs].
          rewrite <- Hlv3, Hv in Hs by done. by destruct Hs.
        + intros [Hc Hn]. split; [|done]. rewrite Hlv3 by done.
          destruct (literal_value T F ft2 c) eqn:Hv; [|done].
          exfalso. apply Hn. split; [done|]. by eexists.
      - intros c Hc. rewrite Hlv3 by done.
        apply (Hall c). by apply elem_of_ascending. }
    apply (Hdone ft2 ft3); try done.
    + by rewrite Heq.
    + intros c Hc Hlt. apply children_propagated in Hc.
      destruct (Hall c) as [Hst _]; [by apply elem_of_ascending|].
      by destruct (Hst Hlt).
    + right. intros c Hc Hlt.
      destruct (Hall c) as [Hst _]; [by apply elem_of_ascending|].
      destruct (Hst Hlt). split; [done|]. set_solver.
Qed.
End propagated.


Lemma propagable_house_events_below :
  propagable below_rank house_events_below.
Proof.
  intros i g Hg. unfold house_events_below, input_tree in Hg |- *.
  simpl in Hg |- *.
  repeat (apply lookup_insert_Some in Hg as [[<- <-]|[? Hg]]);
    [| |by rewrite lookup_empty in Hg];
    (split; [unfold and_or; simpl; tauto|]);
    intros c Hc Hlt; simpl in Hc; set_unfold in Hc;
    (repeat destruct Hc as [->|Hc]; try subst c); try (simpl in Hlt; lia);
    (split; [vm_compute; by eexists|vm_compute; lia]).
Qed.


(** In the witness the call descends from the top event 4 = AND(x, 5) to
    the gate 5 = OR(h, k) with h false and k true: the gate 5 becomes UNITY
    and is dropped from the gate 4, which keeps the basic event x. *)
Lemma house_events_below_propagated :
  PropagateConstants_gate 7 {[3]} {[2]} 4 ∅ house_events_below
  = Done ({[4; 5]} : gset Z)
      (input_tree 4 5 [(4, input_gate kAndGate [1]);
                       (5, Gate.MakeUnity (input_gate kOrGate [2; 3]))]).
Proof. vm_compute. reflexivity. Qed.

(** X21 (IndexedFaultTree::PropagateConstants, the public overload).  With
    house events to propagate, PropagateConstants returns on a graph of AND
    and OR gates without cycles, and every gate that can be reached from
    the top event afterwards has the record that the table gives for its
    record before, with the values of the children read in the graph after
    the propagation. *)
Theorem PropagateConstants_reaches (fuel : nat)
    (true_house_events false_house_events : gset Z) (rank : Z → nat)
    (ft : IndexedFaultTree) :
  ¬ (true_house_events = ∅ ∧ false_house_events = ∅) →
  propagable rank ft →
  is_Some (indexed_gates_ ft !! top_event_index_ ft) →
  (rank (top_event_index_ ft) < fuel)%nat →
  ∃ ft',
    PropagateConstants fuel true_house_events false_house_events ft
      = Done tt ft' ∧
    ∀ i, reachable ft' i →
         ∃ g, indexed_gates_ ft !! i = Some g ∧
              indexed_gates_ ft' !! i
              = Some (propagated true_house_events false_house_events ft' g).
Proof.
  intros Hsome Hprop Htop Hfuel.
  cut (wp no_failure
         (PropagateConstants fuel true_house_events false_house_events)
         (λ _ ft', ∀ i, reachable ft' i →
            ∃ g, indexed_gates_ ft !! i = Some g ∧
                 indexed_gates_ ft' !! i
                 = Some (propagated true_house_events false_house_events
                           ft' g)) ft).
  { intros H. destruct (wp_total _ _ _ H) as ([] & ft' & Hrun & Hall).
    by exists ft'. }
  unfold PropagateConstants. rewrite decide_False by done.
  apply wp_bind, wp_get. apply wp_bind, wp_find_gate.
  destruct Htop as [g0 Hg0]. rewrite Hg0.
  apply wp_bind. eapply wp_mono.
  { apply (PropagateConstants_gate_propagates true_house_events
             false_house_events rank fuel (top_event_index_ ft) ∅ ∅ ft);
      try done. }
  intros P ft' (Hin & _ & Hgi & Ht & _ & Hnew). apply wp_ret.
  assert (Hreach : ∀ i, reachable ft' i → i ∈ P).
  { induction 1 as [|i g c _ IHi Hg Hc Hlt]; [by rewrite Ht|].
    destruct (Hnew i IHi) as (g' & _ & Hrec & Hclosed & _); [set_solver|].
    assert (g = propagated true_house_events false_house_events ft' g')
      as -> by congruence.
    by apply Hclosed. }
  intros i Hi.
  destruct (Hnew i (Hreach i Hi)) as (g & Hg & Hrec & _); [set_solver|].
  by exists g.
Qed.

Lemma PropagateConstants_reaches_witness :
  ∃ ft',
    PropagateConstants 7 {[3]} {[2]} house_events_below = Done tt ft' ∧
    ∀ i, reachable ft' i →
         ∃ g, indexed_gates_ house_events_below !! i = Some g ∧
              indexed_gates_ ft' !! i = Some (propagated {[3]} {[2]} ft' g).
Proof.
  apply (PropagateConstants_reaches 7 {[3]} {[2]} below_rank).
  - intros [H _]. by apply (non_empty_singleton_L (3 : Z)) in H.
  - apply propagable_house_events_below.
  - vm_compute. by eexists.
  - vm_compute. lia.
Defined.
